(** * AstralStream expert agent team: orchestration model

    A shallow embedding of the two command line tools of the repository:

    - [New/Add to project/astralstream-agent-team.py]: five agents
      (analyze / fix / validate) driven by [MasterOrchestrator];
    - [New/astralstream-elite-agent.py]: the single [AstralStreamEliteAgent]
      with its [--dry-run] and [--skip-backup] flags.

    The project tree is a finite map from absolute paths to nodes, Python
    exceptions are values of an error type, and every method is a function in
    a state-and-exception monad whose state survives a raised exception, as
    the side effects of a Python program do. *)

From Stdlib Require Import Ascii ZArith QArith Lia.
From stdpp Require Import gmap strings list fin_maps sorting pretty.

Local Open Scope string_scope.
Local Open Scope list_scope.
Local Open Scope nat_scope.

(** ** Python string operations *)

Module PyStr.

Definition newline : ascii := Ascii.ascii_of_nat 10.

(** [s.startswith(pre)] *)
Fixpoint startswith (s pre : string) : bool :=
  match pre, s with
  | EmptyString, _ => true
  | String a pre', String b s' =>
      if Ascii.eqb a b then startswith s' pre' else false
  | String _ _, EmptyString => false
  end.

(** [sub in s] *)
Fixpoint contains (sub s : string) : bool :=
  startswith s sub ||
  match s with
  | EmptyString => false
  | String _ s' => contains sub s'
  end.

(** [s.endswith(suf)] *)
Definition endswith (s suf : string) : bool :=
  startswith (String.rev s) (String.rev suf).

(** Left-to-right, non-overlapping replacement of a non-empty [old];
    [skip] counts the characters of a match still to be dropped. *)
Fixpoint replace_from (old new : string) (skip : nat) (s : string) : string :=
  match s with
  | EmptyString => EmptyString
  | String c s' =>
      match skip with
      | S k => replace_from old new k s'
      | O =>
          if startswith s old
          then new +:+ replace_from old new (String.length old - 1) s'
          else String c (replace_from old new 0 s')
      end
  end.

Fixpoint put_after_each (new s : string) : string :=
  match s with
  | EmptyString => EmptyString
  | String c s' => String c (new +:+ put_after_each new s')
  end.

(** [s.replace(old, new)] *)
Definition replace (s old new : string) : string :=
  match old with
  | EmptyString => new +:+ put_after_each new s
  | String _ _ => replace_from old new 0 s
  end.

Fixpoint count_from (sub : string) (skip : nat) (s : string) : nat :=
  match s with
  | EmptyString => 0
  | String _ s' =>
      match skip with
      | S k => count_from sub k s'
      | O =>
          if startswith s sub
          then S (count_from sub (String.length sub - 1) s')
          else count_from sub 0 s'
      end
  end.

(** [s.count(sub)] *)
Definition count (s sub : string) : nat :=
  match sub with
  | EmptyString => S (String.length s)
  | String _ _ => count_from sub 0 s
  end.

(** [s.split(sep)] for a one-character separator *)
Fixpoint split (sep : ascii) (s : string) : list string :=
  match s with
  | EmptyString => [EmptyString]
  | String c s' =>
      if Ascii.eqb c sep then EmptyString :: split sep s'
      else match split sep s' with
           | [] => [String c EmptyString]
           | w :: ws => String c w :: ws
           end
  end.

(** ASCII white space, the characters [str.strip()] removes. *)
Definition isspace (c : ascii) : bool :=
  let n := Ascii.nat_of_ascii c in
  ((9 <=? n) && (n <=? 13)) || ((28 <=? n) && (n <=? 32)).

Fixpoint lstrip (s : string) : string :=
  match s with
  | EmptyString => EmptyString
  | String c s' => if isspace c then lstrip s' else s
  end.

Fixpoint rstrip (s : string) : string :=
  match s with
  | EmptyString => EmptyString
  | String c s' =>
      match rstrip s' with
      | EmptyString => if isspace c then EmptyString else String c EmptyString
      | r => String c r
      end
  end.

Definition strip (s : string) : string := rstrip (lstrip s).

Fixpoint join (sep : string) (l : list string) : string :=
  match l with
  | [] => EmptyString
  | [x] => x
  | x :: rest => x +:+ sep +:+ join sep rest
  end.

(** [fnmatch] for the patterns of the source, whose only wildcard is [*]. *)
Fixpoint fnmatch (pat s : string) : bool :=
  match pat with
  | EmptyString => match s with EmptyString => true | _ => false end
  | String c pat' =>
      if Ascii.eqb c "*"%char then
        (fix star (t : string) : bool :=
           fnmatch pat' t ||
           match t with
           | EmptyString => false
           | String _ t' => star t'
           end) s
      else
        match s with
        | EmptyString => false
        | String d s' => if Ascii.eqb c d then fnmatch pat' s' else false
        end
  end.

End PyStr.

(** ** Paths

    A path is the list of its components below the root: every path of the
    model is absolute and normalised, and relative strings are read from the
    root. *)

Abbreviation Path := (list string).

Module PurePath.

(** [Path(s)]: split at the slashes, dropping empty and [.] components. *)
Definition parts (s : string) : Path :=
  List.filter (fun c => negb (String.eqb c EmptyString || String.eqb c "."))
    (PyStr.split "/"%char s).

(** [p / rel] for a relative [rel] *)
Definition joinpath (p : Path) (rel : string) : Path := p ++ parts rel.

(** [str(p)] *)
Definition str (p : Path) : string := "/" +:+ PyStr.join "/" p.

(** [p.parent]; the root is its own parent. *)
Definition parent (p : Path) : Path := removelast p.

(** [p.name] *)
Definition name (p : Path) : string := List.last p EmptyString.

Fixpoint rfind_dot (s : string) : option nat :=
  match s with
  | EmptyString => None
  | String c s' =>
      match rfind_dot s' with
      | Some i => Some (S i)
      | None => if Ascii.eqb c "."%char then Some 0 else None
      end
  end.

(** [p.stem]: the name without its last suffix; a leading or a trailing
    dot starts no suffix. *)
Definition stem (p : Path) : string :=
  let n := name p in
  match rfind_dot n with
  | Some i =>
      if (0 <? i) && (i <? String.length n - 1)
      then String.substring 0 i n else n
  | None => n
  end.

Fixpoint strip_prefix (base p : Path) : option Path :=
  match base, p with
  | [], _ => Some p
  | b :: base', c :: p' =>
      if String.eqb b c then strip_prefix base' p' else None
  | _ :: _, [] => None
  end.

End PurePath.

Notation "p // rel" := (PurePath.joinpath p rel)
  (at level 40, left associativity).

(** ** Exceptions and the monad of effects *)

Inductive Exn : Type :=
| FileNotFoundError
| FileExistsError
| NotADirectoryError
| IsADirectoryError
| PermissionError
| ValueError
| TypeError
| IndexError
| UnboundLocalError
| KeyError (key : string).

Inductive Res (A : Type) : Type :=
| Ok (a : A)
| Raise (e : Exn).

Arguments Ok {A} a.
Arguments Raise {A} e.

(** A computation over a state [S]: the state it returns is the one reached
    when it stopped, normally or by an exception. *)
Definition M (S A : Type) : Type := S -> Res A * S.

Definition ret {S A} (a : A) : M S A := fun s => (Ok a, s).

Definition bind {S A B} (m : M S A) (k : A -> M S B) : M S B :=
  fun s =>
    match m s with
    | (Ok a, s') => k a s'
    | (Raise e, s') => (Raise e, s')
    end.

Definition raise {S A} (e : Exn) : M S A := fun s => (Raise e, s).

(** [try: body / except: handler], the bare [except] of the source, which
    catches every exception. *)
Definition try_except {S A} (body handler : M S A) : M S A :=
  fun s =>
    match body s with
    | (Ok a, s') => (Ok a, s')
    | (Raise _, s') => handler s'
    end.

Definition get {S} : M S S := fun s => (Ok s, s).
Definition modify {S} (f : S -> S) : M S unit := fun s => (Ok tt, f s).

Declare Scope py_scope.
Delimit Scope py_scope with py.
Notation "x <- m ;; k" := (bind m (fun x => k))
  (at level 100, m at next level, k at level 200, right associativity) : py_scope.
Notation "m ;;; k" := (bind m (fun _ => k))
  (at level 100, k at level 200, right associativity) : py_scope.
Local Open Scope py_scope.

(** [for x in xs: acc = body(acc, x)] *)
Fixpoint for_in {S X A} (xs : list X) (body : A -> X -> M S A) (acc : A) : M S A :=
  match xs with
  | [] => ret acc
  | x :: xs' => acc' <- body acc x ;; for_in xs' body acc'
  end.

(** [for x in xs: body(x)] *)
Definition for_each {S X} (xs : list X) (body : X -> M S unit) : M S unit :=
  for_in xs (fun _ x => body x) tt.

(** ** The project tree *)

Inductive Node : Type :=
| Dir
| File (content : string) (writable : bool).

#[global] Instance Node_eq_dec : EqDecision Node.
Proof. solve_decision. Defined.

Abbreviation FS := (gmap Path Node).

Module FileSystem.

(** The root is a directory and is not stored in the map. *)
Definition node_at (t : FS) (p : Path) : option Node :=
  match p with
  | [] => Some Dir
  | _ :: _ => t !! p
  end.

(** [p.exists()] *)
Definition exists_ (t : FS) (p : Path) : bool :=
  match node_at t p with Some _ => true | None => false end.

Definition is_dir (t : FS) (p : Path) : bool :=
  match node_at t p with Some Dir => true | _ => false end.

(** [p.read_text()] *)
Definition read_text (t : FS) (p : Path) : Res string :=
  match node_at t p with
  | Some (File c _) => Ok c
  | Some Dir => Raise IsADirectoryError
  | None =>
      match node_at t (PurePath.parent p) with
      | Some (File _ _) => Raise NotADirectoryError
      | _ => Raise FileNotFoundError
      end
  end.

(** [p.write_text(c)]: the file is created in an existing directory or
    overwritten when it is writable. *)
Definition write_text (t : FS) (p : Path) (c : string) : Res unit * FS :=
  match node_at t p with
  | Some Dir => (Raise IsADirectoryError, t)
  | Some (File _ true) => (Ok tt, <[p := File c true]> t)
  | Some (File _ false) => (Raise PermissionError, t)
  | None =>
      match node_at t (PurePath.parent p) with
      | Some Dir => (Ok tt, <[p := File c true]> t)
      | Some (File _ _) => (Raise NotADirectoryError, t)
      | None => (Raise FileNotFoundError, t)
      end
  end.

(** [mkdir(parents=True, exist_ok=True)], walking down from the root:
    [done] is the directory reached, [todo] the components left. *)
Fixpoint mkdir_from (t : FS) (done : Path) (todo : list string) : Res unit * FS :=
  match todo with
  | [] => (Ok tt, t)
  | c :: todo' =>
      let q := done ++ [c] in
      match t !! q with
      | None => mkdir_from (<[q := Dir]> t) q todo'
      | Some Dir => mkdir_from t q todo'
      | Some (File _ _) =>
          (Raise (match todo' with
                  | [] => FileExistsError
                  | _ :: _ => NotADirectoryError
                  end), t)
      end
  end.

Definition mkdir_parents (t : FS) (p : Path) : Res unit * FS :=
  mkdir_from t [] p.

(** [mkdir(exist_ok=True)] *)
Definition mkdir_exist_ok (t : FS) (p : Path) : Res unit * FS :=
  match node_at t p with
  | Some Dir => (Ok tt, t)
  | Some (File _ _) => (Raise FileExistsError, t)
  | None =>
      match node_at t (PurePath.parent p) with
      | Some Dir => (Ok tt, <[p := Dir]> t)
      | Some (File _ _) => (Raise NotADirectoryError, t)
      | None => (Raise FileNotFoundError, t)
      end
  end.

(** [q] lies strictly below [p]. *)
Definition below (p q : Path) : bool :=
  match PurePath.strip_prefix p q with
  | Some (_ :: _) => true
  | _ => false
  end.

(** [p.rglob(pat)]: every node below [p] whose name matches. *)
Definition rglob (t : FS) (p : Path) (pat : string) : list Path :=
  if is_dir t p then
    List.filter (fun q => below p q && PyStr.fnmatch pat (PurePath.name q))
      (map fst (map_to_list t))
  else [].

(** The nodes below [src], re-rooted at [dst]. *)
Definition moved (t : FS) (src dst : Path) : FS :=
  list_to_map
    (omap (fun kv : Path * Node =>
             match PurePath.strip_prefix src kv.1 with
             | Some (c :: rel) => Some (dst ++ c :: rel, kv.2)
             | _ => None
             end)
          (map_to_list t)).

(** [shutil.copytree(src, dst)]: [dst] must not exist, its missing
    parents are created, and the tree below [src] is copied with the
    modes of its files. *)
Definition copytree (t : FS) (src dst : Path) : Res unit * FS :=
  match node_at t src with
  | None => (Raise FileNotFoundError, t)
  | Some (File _ _) => (Raise NotADirectoryError, t)
  | Some Dir =>
      match node_at t dst with
      | Some _ => (Raise FileExistsError, t)
      | None =>
          match mkdir_parents t dst with
          | (Ok _, t') => (Ok tt, moved t src dst ∪ t')
          | (Raise e, t') => (Raise e, t')
          end
      end
  end.

End FileSystem.

(** ** Data model *)

(** The values stored in an issue dictionary. *)
Inductive PyVal : Type :=
| VStr (s : string)
| VInt (n : nat)
| VList (l : list string).

#[global] Instance PyVal_eq_dec : EqDecision PyVal.
Proof. solve_decision. Defined.

(** An issue is a Python [dict] with string keys. *)
Abbreviation Issue := (gmap string PyVal).

(** The dictionary appended by [add_modification]. *)
Record Modification : Type := {
  mod_file : string;
  mod_description : string;
  mod_timestamp : N
}.

(** The dictionary returned by [analyze]. *)
Record Analysis : Type := {
  issues : list Issue;
  coverage_estimate : option Q
}.

(** The dictionary returned by [fix]. *)
Record FixOutcome : Type := {
  fixed : nat;
  total : nat
}.

Inductive AgentClass : Type :=
| TestCoverage
| Architecture
| Security
| Performance
| Documentation.

#[global] Instance AgentClass_eq_dec : EqDecision AgentClass.
Proof. solve_decision. Defined.

(** The fields set by [AgentBase.__init__], with the class of the object. *)
Record Agent : Type := {
  cls : AgentClass;
  name : string;
  expertise : string;
  project_path : Path;
  tasks_completed : list string;
  issues_found : list Issue;
  modifications_made : list Modification
}.

(** *** History of a run

    The awaited calls of the orchestrator and the recorded modifications, in
    the order in which they happen. The history is not a variable of the
    program: it is kept to state in what order the program does things. *)

Inductive Phase : Type := Analyzing | Fixing | Validating.

#[global] Instance Phase_eq_dec : EqDecision Phase.
Proof. solve_decision. Defined.

Inductive Returned : Type :=
| RIssues (n : nat)
| RFixed (o : FixOutcome)
| RValid (b : bool).

Inductive Event : Type :=
| EvCall (ph : Phase) (agent : string)
| EvReturn (ph : Phase) (agent : string) (r : Returned)
| EvRecord (agent : string) (m : Modification).

(** *** The environment of the process

    [clock] is the sequence of readings [datetime.now()] will give and [ticks]
    the number of readings taken. The console is not modelled. *)
Record Env : Type := {
  fs : FS;
  clock : nat -> N;
  ticks : nat;
  trace : list Event
}.

Definition set_fs (t : FS) (e : Env) : Env :=
  {| fs := t; clock := clock e; ticks := ticks e; trace := trace e |}.

Definition tick (e : Env) : Env :=
  {| fs := fs e; clock := clock e; ticks := S (ticks e); trace := trace e |}.

Definition record_event (ev : Event) (e : Env) : Env :=
  {| fs := fs e; clock := clock e; ticks := ticks e; trace := trace e ++ [ev] |}.

(** States that carry the environment of the process. *)
Class HasEnv (S : Type) : Type := {
  get_env : S -> Env;
  set_env : Env -> S -> S;
  get_set_env : forall e s, get_env (set_env e s) = e;
  set_get_env : forall s, set_env (get_env s) s = s;
  set_set_env : forall e e' s, set_env e' (set_env e s) = set_env e' s
}.

#[global] Instance Env_HasEnv : HasEnv Env := {
  get_env := fun e => e;
  set_env := fun e _ => e;
  get_set_env := fun _ _ => eq_refl;
  set_get_env := fun _ => eq_refl;
  set_set_env := fun _ _ _ => eq_refl
}.

Section EnvOps.
Context {S : Type} `{HasEnv S}.

Definition on_env (f : Env -> Env) : M S unit :=
  fun s => (Ok tt, set_env (f (get_env s)) s).

Definition read_fs {A} (f : FS -> A) : M S A :=
  fun s => (Ok (f (fs (get_env s))), s).

Definition update_fs {A} (f : FS -> Res A * FS) : M S A :=
  fun s =>
    let '(r, t') := f (fs (get_env s)) in
    (r, set_env (set_fs t' (get_env s)) s).

Definition of_res {A} (r : Res A) : M S A := fun s => (r, s).

(** [datetime.now()] *)
Definition datetime_now : M S N :=
  fun s =>
    let e := get_env s in
    (Ok (clock e (ticks e)), set_env (tick e) s).

Definition emit (ev : Event) : M S unit := on_env (record_event ev).

Definition path_exists (p : Path) : M S bool :=
  read_fs (fun t => FileSystem.exists_ t p).

Definition rglob (p : Path) (pat : string) : M S (list Path) :=
  read_fs (fun t => FileSystem.rglob t p pat).

Definition read_text (p : Path) : M S string :=
  r <- read_fs (fun t => FileSystem.read_text t p) ;; of_res r.

Definition write_text (p : Path) (c : string) : M S unit :=
  update_fs (fun t => FileSystem.write_text t p c).

Definition mkdir_parents (p : Path) : M S unit :=
  update_fs (fun t => FileSystem.mkdir_parents t p).

Definition mkdir_exist_ok (p : Path) : M S unit :=
  update_fs (fun t => FileSystem.mkdir_exist_ok t p).

Definition copytree (src dst : Path) : M S unit :=
  update_fs (fun t => FileSystem.copytree t src dst).

End EnvOps.

(** [datetime.strftime] and [isoformat]: a reading of the clock is rendered
    as its decimal numeral. *)
Definition strftime (n : N) : string := pretty n.

(** ** Agents *)

(** The state a method of an agent runs in: the object and the environment. *)
Record AgentSt : Type := {
  self : Agent;
  aenv : Env
}.

#[global] Instance AgentSt_HasEnv : HasEnv AgentSt := {
  get_env := aenv;
  set_env := fun e s => {| self := self s; aenv := e |};
  get_set_env := fun _ _ => eq_refl;
  set_get_env := fun s => match s with Build_AgentSt _ _ => eq_refl end;
  set_set_env := fun _ _ _ => eq_refl
}.

Definition set_issues_found (l : list Issue) (a : Agent) : Agent :=
  {| cls := cls a; name := name a; expertise := expertise a;
     project_path := project_path a; tasks_completed := tasks_completed a;
     issues_found := l; modifications_made := modifications_made a |}.

Definition append_modification (m : Modification) (a : Agent) : Agent :=
  {| cls := cls a; name := name a; expertise := expertise a;
     project_path := project_path a; tasks_completed := tasks_completed a;
     issues_found := issues_found a;
     modifications_made := modifications_made a ++ [m] |}.

Definition self_get {A} (f : Agent -> A) : M AgentSt A :=
  fun s => (Ok (f (self s)), s).

Definition self_update (f : Agent -> Agent) : M AgentSt unit :=
  fun s => (Ok tt, {| self := f (self s); aenv := aenv s |}).

(** [d[k]] *)
Definition getitem {S} (d : Issue) (k : string) : M S PyVal :=
  match d !! k with
  | Some v => ret v
  | None => raise (KeyError k)
  end.

(** [v == s] for a string literal [s] *)
Definition is_str (v : PyVal) (s : string) : bool :=
  match v with
  | VStr s' => String.eqb s' s
  | _ => false
  end.

(** A value used where the source needs a [str]. *)
Definition as_str {S} (v : PyVal) : M S string :=
  match v with
  | VStr s => ret s
  | _ => raise TypeError
  end.

(** [Path(v)] *)
Definition as_path {S} (v : PyVal) : M S Path :=
  s <- as_str v ;; ret (PurePath.parts s).

(** [p.relative_to(base)] *)
Definition relative_to {S} (p base : Path) : M S Path :=
  match PurePath.strip_prefix base p with
  | Some rel => ret rel
  | None => raise ValueError
  end.

(** [str] of a relative path *)
Definition rel_str (p : Path) : string :=
  match p with
  | [] => "."
  | _ :: _ => PyStr.join "/" p
  end.

Module AgentBase.

Definition __init__ (c : AgentClass) (name expertise : string)
    (project_path : Path) : Agent :=
  {| cls := c; name := name; expertise := expertise;
     project_path := project_path; tasks_completed := [];
     issues_found := []; modifications_made := [] |}.

(** [log] reads the clock and prints. *)
Definition log (message : string) : M AgentSt unit :=
  _ <- datetime_now ;; ret tt.

Definition add_modification (file_path description : string) : M AgentSt unit :=
  timestamp <- datetime_now ;;
  let m := {| mod_file := file_path; mod_description := description;
              mod_timestamp := timestamp |} in
  self_update (append_modification m) ;;;
  agent <- self_get name ;;
  emit (EvRecord agent m).

End AgentBase.

(** *** Generated texts

    The Kotlin, Markdown, Gradle and ProGuard texts the agents write are
    literals of up to several hundred lines. Each stands here by its opening
    lines, keeping the words the scans of the agents look for
    ([CertificatePinner], [Cipher], [EncryptedSharedPreferences]). *)
Module Payload.

Definition nl : string := String PyStr.newline EmptyString.

Definition integration_test : string :=
  "package com.astralplayer.integration" +:+ nl +:+
  "class VideoPlayerIntegrationTest".
Definition ui_test : string :=
  "package com.astralplayer.ui" +:+ nl +:+ "class VideoPlayerUITest".
Definition perf_test : string :=
  "package com.astralplayer.benchmark" +:+ nl +:+ "class VideoPlayerBenchmark".
Definition unified_db : string :=
  "package com.astralplayer.data.database" +:+ nl +:+
  "abstract class AstralStreamDatabase : RoomDatabase()".
Definition nav_enhancement : string :=
  "package com.astralplayer.presentation.navigation" +:+ nl +:+
  "sealed class NavigationRoute(val route: String)".
Definition interfaces : list (string * string) :=
  [("VideoPlayerRepository",
    "package com.astralplayer.domain.repository" +:+ nl +:+
    "interface VideoPlayerRepository");
   ("SubtitleRepository",
    "package com.astralplayer.domain.repository" +:+ nl +:+
    "interface SubtitleRepository");
   ("CloudStorageRepository",
    "package com.astralplayer.domain.repository" +:+ nl +:+
    "interface CloudStorageRepository")].
Definition use_cases : list (string * string) :=
  [("PlayVideoUseCase",
    "package com.astralplayer.domain.usecase" +:+ nl +:+
    "class PlayVideoUseCase @Inject constructor(");
   ("GenerateSubtitlesUseCase",
    "package com.astralplayer.domain.usecase" +:+ nl +:+
    "class GenerateSubtitlesUseCase @Inject constructor(")].
Definition cert_pinning : string :=
  "package com.astralplayer.network.security" +:+ nl +:+
  "import okhttp3.CertificatePinner" +:+ nl +:+
  "class SecureNetworkClient @Inject constructor() {".
Definition proguard_rules : string :=
  "# AstralStream ProGuard Rules" +:+ nl +:+
  "-keepattributes SourceFile,LineNumberTable" +:+ nl +:+
  "-renamesourcefileattribute SourceFile".
Definition biometric_auth : string :=
  "package com.astralplayer.security" +:+ nl +:+
  "class BiometricAuthManager @Inject constructor(".
Definition encryption : string :=
  "package com.astralplayer.security" +:+ nl +:+
  "import androidx.security.crypto.EncryptedSharedPreferences" +:+ nl +:+
  "import javax.crypto.Cipher" +:+ nl +:+
  "class AdvancedEncryptionManager @Inject constructor(".
Definition baseline_profile : string :=
  "# Baseline Profile for AstralStream" +:+ nl +:+
  "# Automatically generated - do not modify".
Definition lazy_loading : string :=
  "package com.astralplayer.performance" +:+ nl +:+
  "class LazyComponentLoader @Inject constructor() {".
Definition perf_monitor : string :=
  "package com.astralplayer.performance" +:+ nl +:+
  "class AdvancedPerformanceMonitor @Inject constructor() : DefaultLifecycleObserver {".
Definition readme : string := "# AstralStream Video Player".
Definition api_docs : string := "# AstralStream API Documentation".
Definition arch_docs : string := "# AstralStream Architecture".
Definition setup_guide : string := "# AstralStream Setup Guide".
Definition contributing : string := "# Contributing to AstralStream".

(** The f-string of [_generate_test_content]. *)
Definition test_content (package_path class_name : string) : string :=
  "package " +:+ package_path +:+ ".test" +:+ nl +:+ nl +:+
  "import " +:+ package_path +:+ "." +:+ class_name +:+ nl +:+
  "class " +:+ class_name +:+ "Test {".

End Payload.

Module TestCoverageAgent.

Definition __init__ (project_path : Path) : Agent :=
  AgentBase.__init__ TestCoverage "TestCoverageAgent"
    "Testing & Quality Assurance" project_path.

Definition in_tests (f : Path) : bool :=
  PyStr.contains "/test/" (PurePath.str f) ||
  PyStr.contains "/androidTest/" (PurePath.str f).

Definition _get_test_file_path (source_file : Path) : M AgentSt Path :=
  project_path <- self_get project_path ;;
  relative_path <- relative_to source_file project_path ;;
  ret ((project_path // "app/src/test") ++ PurePath.parent relative_path
         ++ [PurePath.stem source_file +:+ "Test.kt"]).

(** The quotient of the two counts is a float in the source and an exact
    rational here. *)
Definition _estimate_coverage : M AgentSt Q :=
  project_path <- self_get project_path ;;
  kotlin_files <- rglob project_path "*.kt" ;;
  let source_files := List.filter (fun f => negb (in_tests f)) kotlin_files in
  let test_files := List.filter in_tests kotlin_files in
  match source_files with
  | [] => ret 0%Q
  | _ :: _ =>
      let coverage_ratio :=
        (inject_Z (Z.of_nat (length test_files)) /
         inject_Z (Z.of_nat (length source_files)))%Q in
      let percent := (coverage_ratio * 100)%Q in
      ret (if Qle_bool percent 100 then percent else 100%Q)
  end.

Definition analyze : M AgentSt Analysis :=
  AgentBase.log "Analyzing test coverage..." ;;;
  project_path <- self_get project_path ;;
  let test_dirs := [project_path // "app/src/test";
                    project_path // "app/src/androidTest"] in
  issues <- for_in test_dirs (fun issues test_dir =>
    there <- path_exists test_dir ;;
    if negb there then
      ret (issues ++ [ ({[ "type" := VStr "missing_test_directory";
                           "path" := VStr (PurePath.str test_dir);
                           "severity" := VStr "high" ]} : Issue) ])
    else ret issues) [] ;;
  kotlin_files <- rglob project_path "*.kt" ;;
  let source_files := List.filter (fun f => negb (in_tests f)) kotlin_files in
  issues <- for_in source_files (fun issues source_file =>
    test_file <- _get_test_file_path source_file ;;
    there <- path_exists test_file ;;
    if negb there then
      ret (issues ++ [ ({[ "type" := VStr "missing_test_file";
                           "source" := VStr (PurePath.str source_file);
                           "test_path" := VStr (PurePath.str test_file);
                           "severity" := VStr "medium" ]} : Issue) ])
    else ret issues) issues ;;
  self_update (set_issues_found issues) ;;;
  estimate <- _estimate_coverage ;;
  ret {| issues := issues; coverage_estimate := Some estimate |}.

(** The first line that starts with [package], stripped of the keyword. *)
Fixpoint package_line (lines : list string) : option string :=
  match lines with
  | [] => None
  | line :: rest =>
      if PyStr.startswith (PyStr.strip line) "package "
      then Some (PyStr.replace
                   (PyStr.replace (PyStr.strip line) "package " EmptyString)
                   ";" EmptyString)
      else package_line rest
  end.

Definition _extract_package (source_file : Path) : M AgentSt string :=
  found <- try_except
    (content <- read_text source_file ;;
     ret (package_line (PyStr.split PyStr.newline content)))
    (ret None) ;;
  match found with
  | Some package => ret package
  | None =>
      project_path <- self_get project_path ;;
      relative_path <-
        relative_to source_file (project_path // "app/src/main/java") ;;
      ret (PyStr.replace (rel_str (PurePath.parent relative_path)) "/" ".")
  end.

Definition _generate_test_content (source_path : PyVal) : M AgentSt string :=
  source_file <- as_path source_path ;;
  let class_name := PurePath.stem source_file in
  package_path <- _extract_package source_file ;;
  ret (Payload.test_content package_path class_name).

Definition _generate_integration_tests : M AgentSt unit :=
  project_path <- self_get project_path ;;
  let test_path := project_path //
    "app/src/androidTest/java/com/astralplayer/integration/VideoPlayerIntegrationTest.kt" in
  mkdir_parents (PurePath.parent test_path) ;;;
  write_text test_path Payload.integration_test ;;;
  AgentBase.add_modification (PurePath.str test_path) "Generated integration tests".

Definition _generate_ui_tests : M AgentSt unit :=
  project_path <- self_get project_path ;;
  let test_path := project_path //
    "app/src/androidTest/java/com/astralplayer/ui/VideoPlayerUITest.kt" in
  mkdir_parents (PurePath.parent test_path) ;;;
  write_text test_path Payload.ui_test ;;;
  AgentBase.add_modification (PurePath.str test_path) "Generated UI tests".

Definition _generate_performance_tests : M AgentSt unit :=
  project_path <- self_get project_path ;;
  let test_path := project_path //
    "benchmark/src/androidTest/java/com/astralplayer/benchmark/VideoPlayerBenchmark.kt" in
  mkdir_parents (PurePath.parent test_path) ;;;
  write_text test_path Payload.perf_test ;;;
  AgentBase.add_modification (PurePath.str test_path) "Generated performance benchmarks".

(** The body of the loop of [fix] *)
Definition fix_issue (fixed_count : nat) (issue : Issue) : M AgentSt nat :=
  type <- getitem issue "type" ;;
  if is_str type "missing_test_directory" then
    path <- getitem issue "path" ;;
    dir <- as_path path ;;
    mkdir_parents dir ;;;
    file_path <- as_str path ;;
    AgentBase.add_modification file_path "Created test directory" ;;;
    ret (fixed_count + 1)
  else if is_str type "missing_test_file" then
    source <- getitem issue "source" ;;
    test_content <- _generate_test_content source ;;
    test_path <- getitem issue "test_path" ;;
    test_path <- as_path test_path ;;
    mkdir_parents (PurePath.parent test_path) ;;;
    write_text test_path test_content ;;;
    AgentBase.add_modification (PurePath.str test_path)
      "Generated comprehensive test file" ;;;
    ret (fixed_count + 1)
  else ret fixed_count.

Definition fix_ (issues : list Issue) : M AgentSt FixOutcome :=
  AgentBase.log "Generating comprehensive test suite..." ;;;
  fixed_count <- for_in issues fix_issue 0 ;;
  _generate_integration_tests ;;;
  _generate_ui_tests ;;;
  _generate_performance_tests ;;;
  ret {| fixed := fixed_count; total := length issues |}.

Definition validate : M AgentSt bool :=
  coverage <- _estimate_coverage ;;
  AgentBase.log "Test coverage" ;;;
  ret (Qle_bool 85 coverage).

End TestCoverageAgent.

Module ArchitectureAgent.

Definition __init__ (project_path : Path) : Agent :=
  AgentBase.__init__ Architecture "ArchitectureAgent"
    "Clean Architecture & Design Patterns" project_path.

Definition databases : list string :=
  ["AstralStreamDatabase"; "AstralVuDatabase"; "NextPlayerDatabase"].

(** The first components of the packages declared by the lines of a file *)
Fixpoint declared_packages (lines : list string) (packages : gset string)
    : gset string :=
  match lines with
  | [] => packages
  | line :: rest =>
      if PyStr.startswith (PyStr.strip line) "package " then
        let pkg :=
          PyStr.replace (PyStr.replace (PyStr.strip line) "package " EmptyString) ";" EmptyString in
        let first :=
          if PyStr.contains "." pkg
          then List.hd EmptyString (PyStr.split "."%char pkg) else pkg in
        declared_packages rest (packages ∪ {[ first ]})
      else declared_packages rest packages
  end.

Definition analyze : M AgentSt Analysis :=
  AgentBase.log "Analyzing project architecture..." ;;;
  project_path <- self_get project_path ;;
  db_count <- for_in databases (fun db_count db =>
    found <- rglob project_path ("*" +:+ db +:+ "*.kt") ;;
    match found with
    | [] => ret db_count
    | _ :: _ => ret (db_count + 1)
    end) 0 ;;
  let issues :=
    if 1 <? db_count then
      [ ({[ "type" := VStr "multiple_databases";
            "count" := VInt db_count;
            "severity" := VStr "high" ]} : Issue) ]
    else [] in
  kotlin_files <- rglob project_path "*.kt" ;;
  packages <- for_in kotlin_files (fun packages kt_file =>
    try_except
      (content <- read_text kt_file ;;
       ret (declared_packages (PyStr.split PyStr.newline content) packages))
      (ret packages)) (∅ : gset string) ;;
  let issues :=
    if 2 <? size packages then
      issues ++ [ ({[ "type" := VStr "inconsistent_packages";
                      "packages" := VList (elements packages);
                      "severity" := VStr "medium" ]} : Issue) ]
    else issues in
  nav_files <- rglob project_path "*Navigation*.kt" ;;
  let issues :=
    if length nav_files <? 2 then
      issues ++ [ ({[ "type" := VStr "incomplete_navigation";
                      "severity" := VStr "medium" ]} : Issue) ]
    else issues in
  self_update (set_issues_found issues) ;;;
  ret {| issues := issues; coverage_estimate := None |}.

Definition _consolidate_databases : M AgentSt unit :=
  project_path <- self_get project_path ;;
  let db_path := project_path //
    "app/src/main/java/com/astralplayer/data/database/AstralStreamDatabase.kt" in
  mkdir_parents (PurePath.parent db_path) ;;;
  write_text db_path Payload.unified_db ;;;
  AgentBase.add_modification (PurePath.str db_path) "Created unified database".

Definition replacements : list (string * string) :=
  [("com.astralplayer.nextplayer", "com.astralplayer.core");
   ("com.astralplayer.astralstream", "com.astralplayer")].

(** The inner loop of [_standardize_packages] on the text of one file *)
Fixpoint apply_replacements (rs : list (string * string)) (content : string)
    (modified : bool) : string * bool :=
  match rs with
  | [] => (content, modified)
  | (old_pkg, new_pkg) :: rest =>
      if PyStr.contains old_pkg content
      then apply_replacements rest (PyStr.replace content old_pkg new_pkg) true
      else apply_replacements rest content modified
  end.

Definition _standardize_packages : M AgentSt unit :=
  AgentBase.log "Standardizing package names to com.astralplayer..." ;;;
  project_path <- self_get project_path ;;
  kotlin_files <- rglob project_path "*.kt" ;;
  for_each kotlin_files (fun kt_file =>
    try_except
      (content <- read_text kt_file ;;
       let '(content, modified) := apply_replacements replacements content false in
       if modified then
         write_text kt_file content ;;;
         AgentBase.add_modification (PurePath.str kt_file) "Standardized package names"
       else ret tt)
      (ret tt)).

Definition _enhance_navigation : M AgentSt unit :=
  project_path <- self_get project_path ;;
  let nav_path := project_path //
    "app/src/main/java/com/astralplayer/presentation/navigation/AstralStreamNavigation.kt" in
  mkdir_parents (PurePath.parent nav_path) ;;;
  write_text nav_path Payload.nav_enhancement ;;;
  AgentBase.add_modification (PurePath.str nav_path)
    "Enhanced navigation with deep linking".

Definition _create_domain_interfaces : M AgentSt unit :=
  project_path <- self_get project_path ;;
  for_each Payload.interfaces (fun '(interface_name, content) =>
    let interface_path := project_path //
      ("app/src/main/java/com/astralplayer/domain/repository/"
         +:+ interface_name +:+ ".kt") in
    mkdir_parents (PurePath.parent interface_path) ;;;
    write_text interface_path content ;;;
    AgentBase.add_modification (PurePath.str interface_path)
      ("Created " +:+ interface_name +:+ " interface")).

Definition _implement_use_cases : M AgentSt unit :=
  project_path <- self_get project_path ;;
  for_each Payload.use_cases (fun '(use_case_name, content) =>
    let use_case_path := project_path //
      ("app/src/main/java/com/astralplayer/domain/usecase/"
         +:+ use_case_name +:+ ".kt") in
    mkdir_parents (PurePath.parent use_case_path) ;;;
    write_text use_case_path content ;;;
    AgentBase.add_modification (PurePath.str use_case_path)
      ("Created " +:+ use_case_name)).

Definition fix_issue (fixed_count : nat) (issue : Issue) : M AgentSt nat :=
  type <- getitem issue "type" ;;
  if is_str type "multiple_databases" then
    _consolidate_databases ;;; ret (fixed_count + 1)
  else if is_str type "inconsistent_packages" then
    _standardize_packages ;;; ret (fixed_count + 1)
  else if is_str type "incomplete_navigation" then
    _enhance_navigation ;;; ret (fixed_count + 1)
  else ret fixed_count.

Definition fix_ (issues : list Issue) : M AgentSt FixOutcome :=
  AgentBase.log "Fixing architecture issues..." ;;;
  fixed_count <- for_in issues fix_issue 0 ;;
  _create_domain_interfaces ;;;
  _implement_use_cases ;;;
  ret {| fixed := fixed_count; total := length issues |}.

Definition validate : M AgentSt bool :=
  project_path <- self_get project_path ;;
  has_domain <- path_exists
    (project_path // "app/src/main/java/com/astralplayer/domain") ;;
  has_data <- path_exists
    (project_path // "app/src/main/java/com/astralplayer/data") ;;
  has_presentation <- path_exists
    (project_path // "app/src/main/java/com/astralplayer/presentation") ;;
  ret (has_domain && has_data && has_presentation).

End ArchitectureAgent.

Module SecurityAgent.

Definition __init__ (project_path : Path) : Agent :=
  AgentBase.__init__ Security "SecurityAgent"
    "Security & Data Protection" project_path.

Definition _has_certificate_pinning : M AgentSt bool :=
  project_path <- self_get project_path ;;
  network_files <- rglob project_path "*Network*.kt" ;;
  for_in network_files (fun found kt_file =>
    if found : bool then ret true
    else try_except
      (content <- read_text kt_file ;;
       ret (PyStr.contains "CertificatePinner" content))
      (ret false)) false.

Definition _has_encryption : M AgentSt bool :=
  project_path <- self_get project_path ;;
  security_files <- rglob project_path "*Security*.kt" ;;
  for_in security_files (fun found kt_file =>
    if found : bool then ret true
    else try_except
      (content <- read_text kt_file ;;
       ret (PyStr.contains "EncryptedSharedPreferences" content
            || PyStr.contains "Cipher" content))
      (ret false)) false.

Definition analyze : M AgentSt Analysis :=
  AgentBase.log "Analyzing security vulnerabilities..." ;;;
  project_path <- self_get project_path ;;
  pinned <- _has_certificate_pinning ;;
  let issues :=
    if negb pinned then
      [ ({[ "type" := VStr "missing_certificate_pinning";
            "severity" := VStr "high" ]} : Issue) ]
    else [] in
  let proguard_file := project_path // "app/proguard-rules.pro" in
  there <- path_exists proguard_file ;;
  weak <- (if negb there then ret true
           else text <- read_text proguard_file ;;
                ret (String.length text <? 100)) ;;
  let issues :=
    if weak : bool then
      issues ++ [ ({[ "type" := VStr "insufficient_obfuscation";
                      "severity" := VStr "medium" ]} : Issue) ]
    else issues in
  kotlin_files <- rglob project_path "*.kt" ;;
  issues <- for_in kotlin_files (fun issues kt_file =>
    try_except
      (content <- read_text kt_file ;;
       if PyStr.contains "http://" content && negb (PyStr.contains "localhost" content)
       then ret (issues ++ [ ({[ "type" := VStr "insecure_http";
                                "file" := VStr (PurePath.str kt_file);
                                "severity" := VStr "high" ]} : Issue) ])
       else ret issues)
      (ret issues)) issues ;;
  self_update (set_issues_found issues) ;;;
  ret {| issues := issues; coverage_estimate := None |}.

Definition _implement_certificate_pinning : M AgentSt unit :=
  project_path <- self_get project_path ;;
  let cert_path := project_path //
    "app/src/main/java/com/astralplayer/network/security/SecureNetworkClient.kt" in
  mkdir_parents (PurePath.parent cert_path) ;;;
  write_text cert_path Payload.cert_pinning ;;;
  AgentBase.add_modification (PurePath.str cert_path) "Implemented certificate pinning".

Definition _enhance_obfuscation : M AgentSt unit :=
  project_path <- self_get project_path ;;
  let proguard_path := project_path // "app/proguard-rules.pro" in
  write_text proguard_path Payload.proguard_rules ;;;
  AgentBase.add_modification (PurePath.str proguard_path)
    "Enhanced ProGuard obfuscation rules".

Definition _fix_insecure_endpoints (file_path : PyVal) : M AgentSt unit :=
  try_except
    (target <- as_path file_path ;;
     content <- read_text target ;;
     let content := PyStr.replace content "http://" "https://" in
     write_text target content ;;;
     file_path <- as_str file_path ;;
     AgentBase.add_modification file_path "Fixed insecure HTTP endpoints")
    (ret tt).

Definition _implement_biometric_auth : M AgentSt unit :=
  project_path <- self_get project_path ;;
  let bio_path := project_path //
    "app/src/main/java/com/astralplayer/security/BiometricAuthManager.kt" in
  mkdir_parents (PurePath.parent bio_path) ;;;
  write_text bio_path Payload.biometric_auth ;;;
  AgentBase.add_modification (PurePath.str bio_path) "Implemented biometric authentication".

Definition _enhance_data_encryption : M AgentSt unit :=
  project_path <- self_get project_path ;;
  let enc_path := project_path //
    "app/src/main/java/com/astralplayer/security/AdvancedEncryptionManager.kt" in
  mkdir_parents (PurePath.parent enc_path) ;;;
  write_text enc_path Payload.encryption ;;;
  AgentBase.add_modification (PurePath.str enc_path) "Enhanced data encryption".

Definition fix_issue (fixed_count : nat) (issue : Issue) : M AgentSt nat :=
  type <- getitem issue "type" ;;
  if is_str type "missing_certificate_pinning" then
    _implement_certificate_pinning ;;; ret (fixed_count + 1)
  else if is_str type "insufficient_obfuscation" then
    _enhance_obfuscation ;;; ret (fixed_count + 1)
  else if is_str type "insecure_http" then
    file <- getitem issue "file" ;;
    _fix_insecure_endpoints file ;;; ret (fixed_count + 1)
  else ret fixed_count.

Definition fix_ (issues : list Issue) : M AgentSt FixOutcome :=
  AgentBase.log "Implementing security enhancements..." ;;;
  fixed_count <- for_in issues fix_issue 0 ;;
  _implement_biometric_auth ;;;
  _enhance_data_encryption ;;;
  ret {| fixed := fixed_count; total := length issues |}.

Definition validate : M AgentSt bool :=
  project_path <- self_get project_path ;;
  has_pinning <- _has_certificate_pinning ;;
  has_obfuscation <- path_exists (project_path // "app/proguard-rules.pro") ;;
  has_encryption <- _has_encryption ;;
  ret (has_pinning && has_obfuscation && has_encryption).

End SecurityAgent.

Module PerformanceAgent.

Definition __init__ (project_path : Path) : Agent :=
  AgentBase.__init__ Performance "PerformanceAgent"
    "Performance Optimization" project_path.

Definition leaks (content : string) : bool :=
  PyStr.contains "companion object" content && PyStr.contains "Context" content.

Definition analyze : M AgentSt Analysis :=
  AgentBase.log "Analyzing performance bottlenecks..." ;;;
  project_path <- self_get project_path ;;
  kotlin_files <- rglob project_path "*.kt" ;;
  issues <- for_in kotlin_files (fun issues kt_file =>
    try_except
      (content <- read_text kt_file ;;
       let issues :=
         if leaks content then
           issues ++ [ ({[ "type" := VStr "potential_memory_leak";
                           "file" := VStr (PurePath.str kt_file);
                           "severity" := VStr "high" ]} : Issue) ]
         else issues in
       let issues :=
         if PyStr.contains "GlobalScope.launch" content then
           issues ++ [ ({[ "type" := VStr "global_scope_usage";
                           "file" := VStr (PurePath.str kt_file);
                           "severity" := VStr "medium" ]} : Issue) ]
         else issues in
       ret issues)
      (ret issues)) [] ;;
  there <- path_exists (project_path // "app/src/main/baseline-prof.txt") ;;
  let issues :=
    if negb there then
      issues ++ [ ({[ "type" := VStr "missing_baseline_profile";
                      "severity" := VStr "medium" ]} : Issue) ]
    else issues in
  self_update (set_issues_found issues) ;;;
  ret {| issues := issues; coverage_estimate := None |}.

Definition _fix_memory_leak (file_path : PyVal) : M AgentSt unit :=
  try_except
    (target <- as_path file_path ;;
     content <- read_text target ;;
     let content :=
       if leaks content then
         PyStr.replace content "private lateinit var context: Context"
           "private var contextRef: WeakReference<Context>? = null"
       else content in
     write_text target content ;;;
     file_path <- as_str file_path ;;
     AgentBase.add_modification file_path "Fixed potential memory leak")
    (ret tt).

Definition _fix_coroutine_scope (file_path : PyVal) : M AgentSt unit :=
  try_except
    (target <- as_path file_path ;;
     content <- read_text target ;;
     let content := PyStr.replace content "GlobalScope.launch" "lifecycleScope.launch" in
     let content := PyStr.replace content "GlobalScope.async" "lifecycleScope.async" in
     write_text target content ;;;
     file_path <- as_str file_path ;;
     AgentBase.add_modification file_path "Replaced GlobalScope with lifecycleScope")
    (ret tt).

Definition _create_baseline_profile : M AgentSt unit :=
  project_path <- self_get project_path ;;
  let baseline_path := project_path // "app/src/main/baseline-prof.txt" in
  mkdir_parents (PurePath.parent baseline_path) ;;;
  write_text baseline_path Payload.baseline_profile ;;;
  AgentBase.add_modification (PurePath.str baseline_path) "Created baseline profile".

(** Nothing is written: the source only logs and records the change. *)
Definition _optimize_build_config : M AgentSt unit :=
  AgentBase.log "Build configuration optimized for performance" ;;;
  AgentBase.add_modification "build.gradle" "Optimized build configuration".

Definition _implement_lazy_loading : M AgentSt unit :=
  project_path <- self_get project_path ;;
  let lazy_path := project_path //
    "app/src/main/java/com/astralplayer/performance/LazyComponentLoader.kt" in
  mkdir_parents (PurePath.parent lazy_path) ;;;
  write_text lazy_path Payload.lazy_loading ;;;
  AgentBase.add_modification (PurePath.str lazy_path) "Implemented lazy loading".

Definition _add_performance_monitoring : M AgentSt unit :=
  project_path <- self_get project_path ;;
  let perf_path := project_path //
    "app/src/main/java/com/astralplayer/performance/AdvancedPerformanceMonitor.kt" in
  mkdir_parents (PurePath.parent perf_path) ;;;
  write_text perf_path Payload.perf_monitor ;;;
  AgentBase.add_modification (PurePath.str perf_path)
    "Added advanced performance monitoring".

Definition fix_issue (fixed_count : nat) (issue : Issue) : M AgentSt nat :=
  type <- getitem issue "type" ;;
  if is_str type "potential_memory_leak" then
    file <- getitem issue "file" ;;
    _fix_memory_leak file ;;; ret (fixed_count + 1)
  else if is_str type "global_scope_usage" then
    file <- getitem issue "file" ;;
    _fix_coroutine_scope file ;;; ret (fixed_count + 1)
  else if is_str type "missing_baseline_profile" then
    _create_baseline_profile ;;; ret (fixed_count + 1)
  else ret fixed_count.

Definition fix_ (issues : list Issue) : M AgentSt FixOutcome :=
  AgentBase.log "Implementing performance optimizations..." ;;;
  fixed_count <- for_in issues fix_issue 0 ;;
  _optimize_build_config ;;;
  _implement_lazy_loading ;;;
  _add_performance_monitoring ;;;
  ret {| fixed := fixed_count; total := length issues |}.

(** The loop stops at the first match that exists. *)
Definition validate : M AgentSt bool :=
  project_path <- self_get project_path ;;
  monitors <- rglob project_path "*Performance*.kt" ;;
  for_in monitors (fun has_monitoring kt_file =>
    if has_monitoring : bool then ret true
    else path_exists kt_file) false.

End PerformanceAgent.

Module DocumentationAgent.

Definition __init__ (project_path : Path) : Agent :=
  AgentBase.__init__ Documentation "DocumentationAgent"
    "Documentation & Code Quality" project_path.

Definition analyze : M AgentSt Analysis :=
  AgentBase.log "Analyzing documentation coverage..." ;;;
  project_path <- self_get project_path ;;
  has_readme <- path_exists (project_path // "README.md") ;;
  let issues :=
    if negb has_readme then
      [ ({[ "type" := VStr "missing_readme"; "severity" := VStr "high" ]} : Issue) ]
    else [] in
  has_docs <- path_exists (project_path // "docs") ;;
  let issues :=
    if negb has_docs then
      issues ++ [ ({[ "type" := VStr "missing_api_docs";
                      "severity" := VStr "medium" ]} : Issue) ]
    else issues in
  kotlin_files <- rglob project_path "*.kt" ;;
  undocumented_count <- for_in kotlin_files (fun undocumented_count kt_file =>
    try_except
      (content <- read_text kt_file ;;
       if PyStr.count content "/**" <?
            PyStr.count content "class " + PyStr.count content "fun "
       then ret (undocumented_count + 1)
       else ret undocumented_count)
      (ret undocumented_count)) 0 ;;
  let issues :=
    if 10 <? undocumented_count then
      issues ++ [ ({[ "type" := VStr "insufficient_inline_docs";
                      "count" := VInt undocumented_count;
                      "severity" := VStr "medium" ]} : Issue) ]
    else issues in
  self_update (set_issues_found issues) ;;;
  ret {| issues := issues; coverage_estimate := None |}.

Definition _generate_readme : M AgentSt unit :=
  project_path <- self_get project_path ;;
  let readme_path := project_path // "README.md" in
  write_text readme_path Payload.readme ;;;
  AgentBase.add_modification (PurePath.str readme_path) "Generated comprehensive README".

Definition _generate_api_docs : M AgentSt unit :=
  project_path <- self_get project_path ;;
  let docs_dir := project_path // "docs" in
  mkdir_exist_ok docs_dir ;;;
  let api_path := docs_dir // "API.md" in
  write_text api_path Payload.api_docs ;;;
  AgentBase.add_modification (PurePath.str api_path) "Generated API documentation".

(** Nothing is written: the source only logs and records the change. *)
Definition _enhance_inline_docs : M AgentSt unit :=
  AgentBase.log "Enhancing inline documentation..." ;;;
  AgentBase.add_modification "Multiple files" "Enhanced inline documentation".

Definition _generate_architecture_docs : M AgentSt unit :=
  project_path <- self_get project_path ;;
  let arch_path := project_path // "docs/ARCHITECTURE.md" in
  mkdir_parents (PurePath.parent arch_path) ;;;
  write_text arch_path Payload.arch_docs ;;;
  AgentBase.add_modification (PurePath.str arch_path)
    "Generated architecture documentation".

Definition _generate_setup_guide : M AgentSt unit :=
  project_path <- self_get project_path ;;
  let setup_path := project_path // "docs/SETUP.md" in
  write_text setup_path Payload.setup_guide ;;;
  AgentBase.add_modification (PurePath.str setup_path) "Generated setup guide".

Definition _generate_contributing_guide : M AgentSt unit :=
  project_path <- self_get project_path ;;
  let contributing_path := project_path // "CONTRIBUTING.md" in
  write_text contributing_path Payload.contributing ;;;
  AgentBase.add_modification (PurePath.str contributing_path)
    "Generated contributing guide".

Definition fix_issue (fixed_count : nat) (issue : Issue) : M AgentSt nat :=
  type <- getitem issue "type" ;;
  if is_str type "missing_readme" then
    _generate_readme ;;; ret (fixed_count + 1)
  else if is_str type "missing_api_docs" then
    _generate_api_docs ;;; ret (fixed_count + 1)
  else if is_str type "insufficient_inline_docs" then
    _enhance_inline_docs ;;; ret (fixed_count + 1)
  else ret fixed_count.

Definition fix_ (issues : list Issue) : M AgentSt FixOutcome :=
  AgentBase.log "Generating comprehensive documentation..." ;;;
  fixed_count <- for_in issues fix_issue 0 ;;
  _generate_architecture_docs ;;;
  _generate_setup_guide ;;;
  _generate_contributing_guide ;;;
  ret {| fixed := fixed_count; total := length issues |}.

Definition validate : M AgentSt bool :=
  project_path <- self_get project_path ;;
  has_readme <- path_exists (project_path // "README.md") ;;
  has_docs <- path_exists (project_path // "docs") ;;
  ret (has_readme && has_docs).

End DocumentationAgent.

(** *** Dispatch on the class of the object *)

Definition analyze : M AgentSt Analysis :=
  c <- self_get cls ;;
  match c with
  | TestCoverage => TestCoverageAgent.analyze
  | Architecture => ArchitectureAgent.analyze
  | Security => SecurityAgent.analyze
  | Performance => PerformanceAgent.analyze
  | Documentation => DocumentationAgent.analyze
  end.

Definition fix_ (issues : list Issue) : M AgentSt FixOutcome :=
  c <- self_get cls ;;
  match c with
  | TestCoverage => TestCoverageAgent.fix_ issues
  | Architecture => ArchitectureAgent.fix_ issues
  | Security => SecurityAgent.fix_ issues
  | Performance => PerformanceAgent.fix_ issues
  | Documentation => DocumentationAgent.fix_ issues
  end.

Definition validate : M AgentSt bool :=
  c <- self_get cls ;;
  match c with
  | TestCoverage => TestCoverageAgent.validate
  | Architecture => ArchitectureAgent.validate
  | Security => SecurityAgent.validate
  | Performance => PerformanceAgent.validate
  | Documentation => DocumentationAgent.validate
  end.

(** ** MasterOrchestrator *)

Module MasterOrchestrator.

Record t : Type := {
  project_path : Path;
  agents : list Agent;
  start_time : N
}.

(** The state a method of the orchestrator runs in. *)
Record St : Type := {
  this : t;
  env : Env
}.

#[global] Instance St_HasEnv : HasEnv St := {
  get_env := env;
  set_env := fun e s => {| this := this s; env := e |};
  get_set_env := fun _ _ => eq_refl;
  set_get_env := fun s => match s with Build_St _ _ => eq_refl end;
  set_set_env := fun _ _ _ => eq_refl
}.

Definition set_agent (i : nat) (a : Agent) (o : t) : t :=
  {| project_path := project_path o;
     agents := <[i := a]> (agents o);
     start_time := start_time o |}.

Definition this_get {A} (f : t -> A) : M St A :=
  fun s => (Ok (f (this s)), s).

(** A method [m] called on the [i]-th object of [self.agents]. *)
Definition with_agent {A} (i : nat) (m : M AgentSt A) : M St A :=
  fun s =>
    match agents (this s) !! i with
    | None => (Raise IndexError, s)
    | Some a =>
        let '(r, s') := m {| self := a; aenv := env s |} in
        (r, {| this := set_agent i (self s') (this s); env := aenv s' |})
    end.

(** [await agent.method()], with the call and its return entered in the
    history. *)
Definition await {A} (ph : Phase) (i : nat) (m : M AgentSt A)
    (summary : A -> Returned) : M St A :=
  agent <- with_agent i (self_get name) ;;
  emit (EvCall ph agent) ;;;
  r <- with_agent i m ;;
  emit (EvReturn ph agent (summary r)) ;;;
  ret r.

Definition __init__ (project_path : string) : M Env t :=
  let project_path := PurePath.parts project_path in
  start_time <- datetime_now ;;
  ret {| project_path := project_path;
         agents := [ TestCoverageAgent.__init__ project_path;
                     ArchitectureAgent.__init__ project_path;
                     SecurityAgent.__init__ project_path;
                     PerformanceAgent.__init__ project_path;
                     DocumentationAgent.__init__ project_path ];
         start_time := start_time |}.

Definition _create_backup : M St Path :=
  now <- datetime_now ;;
  let timestamp := strftime now in
  project_path <- this_get project_path ;;
  let backup_path :=
    PurePath.parent project_path ++ ["astralstream_backup_" +:+ timestamp] in
  copytree project_path backup_path ;;;
  ret backup_path.

(** The report, shortened to its variable parts. *)
Definition report_text (agents : list Agent) (backup_path : Path)
    (success : bool) : string :=
  "# AstralStream Expert Team Upgrade Report" +:+ Payload.nl +:+
  "- **Result**: " +:+ (if success then "SUCCESS" else "INCOMPLETE") +:+ Payload.nl +:+
  "- **Backup**: " +:+ PurePath.str backup_path +:+ Payload.nl +:+
  String.concat EmptyString
    (map (fun a : Agent =>
            "### " +:+ name a +:+ Payload.nl +:+
            "**Issues Found**: " +:+ pretty (length (issues_found a)) +:+ Payload.nl +:+
            "**Modifications Made**: " +:+ pretty (length (modifications_made a))
              +:+ Payload.nl +:+
            String.concat EmptyString
              (map (fun m => "- " +:+ mod_description m +:+ Payload.nl)
                   (take 5 (modifications_made a))))
         agents) +:+
  "Total files modified: " +:+
  pretty (list_sum (map (fun a : Agent => length (modifications_made a)) agents)).

Definition _generate_final_report (all_issues : gmap string Analysis)
    (backup_path : Path) (success : bool) : M St unit :=
  _ <- datetime_now ;;
  _ <- datetime_now ;;
  agents <- this_get agents ;;
  let report := report_text agents backup_path success in
  project_path <- this_get project_path ;;
  let report_path := project_path // "EXPERT_TEAM_REPORT.md" in
  write_text report_path report.

(** Phase 1: the body of the loop and the loop *)
Definition analyze_agent (all_issues : gmap string Analysis) (i : nat)
    : M St (gmap string Analysis) :=
  with_agent i (AgentBase.log "Starting analysis...") ;;;
  analysis <- await Analyzing i analyze (fun a => RIssues (length (issues a))) ;;
  agent_name <- with_agent i (self_get name) ;;
  with_agent i (AgentBase.log "Found issues") ;;;
  ret (<[agent_name := analysis]> all_issues).

Definition analysis_phase (n : nat) : M St (gmap string Analysis) :=
  for_in (seq 0 n) analyze_agent ∅.

(** Phase 2: [fix] is awaited for the agents whose list of issues is not
    empty. *)
Definition fix_agent (all_issues : gmap string Analysis) (i : nat) : M St unit :=
  agent_name <- with_agent i (self_get name) ;;
  analysis <- match all_issues !! agent_name with
              | Some a => ret a
              | None => raise (KeyError agent_name)
              end ;;
  match issues analysis with
  | _ :: _ =>
      with_agent i (AgentBase.log "Fixing issues...") ;;;
      result <- await Fixing i (fix_ (issues analysis)) RFixed ;;
      with_agent i (AgentBase.log "Fixed issues")
  | [] => with_agent i (AgentBase.log "No issues to fix!")
  end.

Definition fixing_phase (n : nat) (all_issues : gmap string Analysis) : M St unit :=
  for_each (seq 0 n) (fix_agent all_issues).

(** Phase 3 *)
Definition validate_agent (all_valid : bool) (i : nat) : M St bool :=
  valid <- await Validating i validate RValid ;;
  with_agent i (AgentBase.log "Validation") ;;;
  ret (all_valid && valid).

Definition validation_phase (n : nat) : M St bool :=
  for_in (seq 0 n) validate_agent true.

Definition run_full_upgrade : M St bool :=
  backup_path <- _create_backup ;;
  n <- this_get (fun o => length (agents o)) ;;
  all_issues <- analysis_phase n ;;
  fixing_phase n all_issues ;;;
  all_valid <- validation_phase n ;;
  _generate_final_report all_issues backup_path all_valid ;;;
  ret all_valid.

End MasterOrchestrator.

(** ** The command line of the agent team *)

Module AgentTeam.

(** The namespace returned by [parse_args]. *)
Record Args : Type := { project_path : string }.

(** The frame of [main]: its local variable and the environment. *)
Record Frame : Type := {
  orchestrator : option MasterOrchestrator.t;
  env : Env
}.

#[global] Instance Frame_HasEnv : HasEnv Frame := {
  get_env := env;
  set_env := fun e s => {| orchestrator := orchestrator s; env := e |};
  get_set_env := fun _ _ => eq_refl;
  set_get_env := fun s => match s with Build_Frame _ _ => eq_refl end;
  set_set_env := fun _ _ _ => eq_refl
}.

(** [orchestrator = MasterOrchestrator(project_path)] *)
Definition new_orchestrator (project_path : string) : M Frame unit :=
  fun s =>
    match MasterOrchestrator.__init__ project_path (env s) with
    | (Ok o, e) => (Ok tt, {| orchestrator := Some o; env := e |})
    | (Raise x, e) => (Raise x, {| orchestrator := orchestrator s; env := e |})
    end.

(** A method called on the local [orchestrator]. *)
Definition with_orchestrator {A} (m : M MasterOrchestrator.St A) : M Frame A :=
  fun s =>
    match orchestrator s with
    | None => (Raise UnboundLocalError, s)
    | Some o =>
        let '(r, s') :=
          m {| MasterOrchestrator.this := o; MasterOrchestrator.env := env s |} in
        (r, {| orchestrator := Some (MasterOrchestrator.this s');
               env := MasterOrchestrator.env s' |})
    end.

Definition main (args : Args) : M Frame Z :=
  new_orchestrator (project_path args) ;;;
  success <- with_orchestrator MasterOrchestrator.run_full_upgrade ;;
  ret (if success : bool then 0%Z else 1%Z).

(** The frame [main] starts in. *)
Definition enter (e : Env) : Frame := {| orchestrator := None; env := e |}.

End AgentTeam.

(** [exit(main())]: the status of the process is the value [main] returns;
    an exception that leaves [main] is caught nowhere, and the interpreter
    ends with status 1. *)
Definition exit_status (r : Res Z) : Z :=
  match r with
  | Ok code => code
  | Raise _ => 1%Z
  end.

(** ** AstralStreamEliteAgent and its command line *)

Module AstralStreamEliteAgent.

Record t : Type := {
  project_path : Path;
  backup_path : Path;
  modifications_log : list string;
  kotlin_files : list Path;
  xml_files : list Path;
  gradle_files : list Path
}.

Record St : Type := {
  this : t;
  env : Env
}.

#[global] Instance St_HasEnv : HasEnv St := {
  get_env := env;
  set_env := fun e s => {| this := this s; env := e |};
  get_set_env := fun _ _ => eq_refl;
  set_get_env := fun s => match s with Build_St _ _ => eq_refl end;
  set_set_env := fun _ _ _ => eq_refl
}.

Definition this_get {A} (f : t -> A) : M St A :=
  fun s => (Ok (f (this s)), s).

Definition this_update (f : t -> t) : M St unit :=
  fun s => (Ok tt, {| this := f (this s); env := env s |}).

Definition log_modification (line : string) (a : t) : t :=
  {| project_path := project_path a; backup_path := backup_path a;
     modifications_log := modifications_log a ++ [line];
     kotlin_files := kotlin_files a; xml_files := xml_files a;
     gradle_files := gradle_files a |}.

Definition catalog (kt xml gradle : list Path) (a : t) : t :=
  {| project_path := project_path a; backup_path := backup_path a;
     modifications_log := modifications_log a;
     kotlin_files := kotlin_files a ++ kt; xml_files := xml_files a ++ xml;
     gradle_files := gradle_files a ++ gradle |}.

Definition __init__ (project_path : string) : M Env t :=
  let project_path := PurePath.parts project_path in
  now <- datetime_now ;;
  ret {| project_path := project_path;
         backup_path := PurePath.parent project_path
                          ++ ["astralstream_backup_" +:+ strftime now];
         modifications_log := [];
         kotlin_files := []; xml_files := []; gradle_files := [] |}.

Definition _create_backup : M St unit :=
  project_path <- this_get project_path ;;
  backup_path <- this_get backup_path ;;
  copytree project_path backup_path ;;;
  this_update (log_modification ("Backup created at: " +:+ PurePath.str backup_path)).

Definition _analyze_project_structure : M St unit :=
  project_path <- this_get project_path ;;
  kt <- rglob project_path "*.kt" ;;
  this_update (catalog kt [] []) ;;;
  xml <- rglob project_path "*.xml" ;;
  this_update (catalog [] xml []) ;;;
  gradle <- rglob project_path "*.gradle" ;;
  this_update (catalog [] [] gradle).

(** [exists()] is asked after the file has been written. *)
Definition _update_or_create_file (file_path : Path) (content : string) : M St unit :=
  mkdir_parents (PurePath.parent file_path) ;;;
  write_text file_path content ;;;
  there <- path_exists file_path ;;
  let action := if there : bool then "Updated" else "Created" in
  project_path <- this_get project_path ;;
  relative <- relative_to file_path project_path ;;
  this_update (log_modification (action +:+ ": " +:+ rel_str relative)).

(** The handler of the source prints the error and goes on. *)
Definition _merge_gradle_optimizations (gradle_path : Path) (optimizations : string)
    : M St unit :=
  try_except
    (current_content <- read_text gradle_path ;;
     write_text gradle_path
       (current_content +:+ Payload.nl +:+ Payload.nl +:+ optimizations) ;;;
     project_path <- this_get project_path ;;
     relative <- relative_to gradle_path project_path ;;
     this_update (log_modification ("Optimized: " +:+ rel_str relative)))
    (ret tt).

Section Upgrade.

(** Phases 2 to 10 of [run_full_upgrade], from
    [_standardize_package_names] to [_generate_upgrade_report]: some
    thirty steps that rewrite files by regular expressions and write
    long literals. They are a parameter here; what is proved of the
    command line holds whatever they do. *)
Variable later_phases : M St unit.

Definition run_full_upgrade : M St unit :=
  _create_backup ;;;
  _analyze_project_structure ;;;
  later_phases.

End Upgrade.

End AstralStreamEliteAgent.

Module EliteCli.

(** The namespace returned by [parse_args]. *)
Record Args : Type := {
  project_path : string;
  dry_run : bool;
  skip_backup : bool
}.

(** The frame of [main]: its local variable and the environment. *)
Record Frame : Type := {
  agent : option AstralStreamEliteAgent.t;
  env : Env
}.

#[global] Instance Frame_HasEnv : HasEnv Frame := {
  get_env := env;
  set_env := fun e s => {| agent := agent s; env := e |};
  get_set_env := fun _ _ => eq_refl;
  set_get_env := fun s => match s with Build_Frame _ _ => eq_refl end;
  set_set_env := fun _ _ _ => eq_refl
}.

(** [agent = AstralStreamEliteAgent(project_path)] *)
Definition new_agent (project_path : string) : M Frame unit :=
  fun s =>
    match AstralStreamEliteAgent.__init__ project_path (env s) with
    | (Ok a, e) => (Ok tt, {| agent := Some a; env := e |})
    | (Raise x, e) => (Raise x, {| agent := agent s; env := e |})
    end.

(** A method called on the local [agent]. *)
Definition with_agent {A} (m : M AstralStreamEliteAgent.St A) : M Frame A :=
  fun s =>
    match agent s with
    | None => (Raise UnboundLocalError, s)
    | Some a =>
        let '(r, s') :=
          m {| AstralStreamEliteAgent.this := a;
               AstralStreamEliteAgent.env := env s |} in
        (r, {| agent := Some (AstralStreamEliteAgent.this s');
               env := AstralStreamEliteAgent.env s' |})
    end.

Section Main.

Variable later_phases : M AstralStreamEliteAgent.St unit.

(** [args.skip_backup] is parsed and read nowhere. *)
Definition main (args : Args) : M Frame Z :=
  there <- path_exists (PurePath.parts (project_path args)) ;;
  if negb there then ret 1%Z
  else
    new_agent (project_path args) ;;;
    (if dry_run args then
       with_agent AstralStreamEliteAgent._analyze_project_structure
     else
       with_agent (AstralStreamEliteAgent.run_full_upgrade later_phases)) ;;;
    ret 0%Z.

End Main.

(** The frame [main] starts in. *)
Definition enter (e : Env) : Frame := {| agent := None; env := e |}.

End EliteCli.

(** * Vocabulary of the properties *)

(** [preserves R m]: the state [m] stops in, normally or not, is related by
    [R] to the state it started in. *)
Definition preserves {S A} (R : relation S) (m : M S A) : Prop :=
  forall s, R s (m s).2.

(** [respects I m]: from two states related by [I], [m] gives the same
    result and stops in states related by [I]. *)
Definition respects {S A} (I : relation S) (m : M S A) : Prop :=
  forall s1 s2, I s1 s2 -> (m s1).1 = (m s2).1 /\ I (m s1).2 (m s2).2.

(** *** Steps of an agent *)

(** The fields of an agent that no method assigns. *)
Definition same_agent (a a' : Agent) : Prop :=
  cls a' = cls a /\ name a' = name a /\ project_path a' = project_path a.

(** A step that records no modification and leaves the tree as it is. *)
Definition quiet (s s' : AgentSt) : Prop :=
  same_agent (self s) (self s') /\
  modifications_made (self s') = modifications_made (self s) /\
  trace (aenv s') = trace (aenv s) /\
  fs (aenv s') = fs (aenv s).

(** A step whose only entries in the history are the modifications it
    appends to the list of its agent, in the same order. *)
Definition records (s s' : AgentSt) : Prop :=
  same_agent (self s) (self s') /\
  exists ms,
    modifications_made (self s') = modifications_made (self s) ++ ms /\
    trace (aenv s') = trace (aenv s) ++ map (EvRecord (name (self s))) ms.

(** *** Steps of the orchestrator *)

Definition phase_of (ev : Event) : Phase :=
  match ev with
  | EvCall ph _ => ph
  | EvReturn ph _ _ => ph
  | EvRecord _ _ => Fixing
  end.

Definition agent_of (ev : Event) : string :=
  match ev with
  | EvCall _ agent => agent
  | EvReturn _ agent _ => agent
  | EvRecord agent _ => agent
  end.

Abbreviation agents_of s :=
  (MasterOrchestrator.agents (MasterOrchestrator.this s)).
Abbreviation history_of s := (trace (MasterOrchestrator.env s)).

(** An agent before and after a step: [keeps] names the agents whose list
    of modifications the step leaves as it is. *)
Definition agent_step (keeps : string -> Prop) (a a' : Agent) : Prop :=
  same_agent a a' /\
  (keeps (name a) -> modifications_made a' = modifications_made a).

(** A step of the orchestrator: the agents stay in place, and every entry
    added to the history satisfies [P]. *)
Definition run_step (P : Event -> Prop) (keeps : string -> Prop)
    (s s' : MasterOrchestrator.St) : Prop :=
  Forall2 (agent_step keeps) (agents_of s) (agents_of s') /\
  exists evs, history_of s' = history_of s ++ evs /\ Forall P evs.

(** The verdicts of [validate] entered in a history. *)
Definition verdict (ev : Event) : option (string * bool) :=
  match ev with
  | EvReturn Validating agent (RValid b) => Some (agent, b)
  | _ => None
  end.

Definition verdicts (evs : list Event) : list (string * bool) := omap verdict evs.

(** The results of [fix] entered in a history. *)
Definition fix_result (ev : Event) : option FixOutcome :=
  match ev with
  | EvReturn Fixing _ (RFixed o) => Some o
  | _ => None
  end.

Definition fixed_total (evs : list Event) : nat :=
  list_sum (map fixed (omap fix_result evs)).

(** The modification ledger: the lists of all agents, one after the other. *)
Definition ledger (agents : list Agent) : list Modification :=
  concat (map modifications_made agents).

(** Analyzing comes before Fixing, and Fixing before Validating. *)
Definition phase_index (ph : Phase) : nat :=
  match ph with
  | Analyzing => 0
  | Fixing => 1
  | Validating => 2
  end.

(** A step of the orchestrator in which the agents record nothing, the
    history stands still and the tree is not written. *)
Definition calm (s s' : MasterOrchestrator.St) : Prop :=
  Forall2 (fun a a' => same_agent a a' /\
                       modifications_made a' = modifications_made a)
    (agents_of s) (agents_of s') /\
  history_of s' = history_of s /\
  fs (MasterOrchestrator.env s') = fs (MasterOrchestrator.env s).

Abbreviation unchanged_agents s s' :=
  (Forall2 (fun a a' => same_agent a a' /\
                        modifications_made a' = modifications_made a)
     (agents_of s) (agents_of s')).

(** The agents the fixing phase passes over: those whose analysis holds
    an empty list of issues. *)
Definition passed_over (all_issues : gmap string Analysis) (agent : string) : Prop :=
  exists analysis, all_issues !! agent = Some analysis /\ issues analysis = [].

(** What the fixing phase enters in the history: events of the phase, of
    agents that are not passed over. *)
Definition fixing_event (all_issues : gmap string Analysis) (ev : Event) : Prop :=
  phase_of ev = Fixing /\ ~ passed_over all_issues (agent_of ev).

(** Every call of [fix] in the history has returned. *)
Definition fixes_returned (evs : list Event) : Prop :=
  forall agent, EvCall Fixing agent ∈ evs ->
    exists o, EvReturn Fixing agent (RFixed o) ∈ evs.

(** Every agent of the list has returned from [analyze]. *)
Definition analyses_returned (agents : list Agent) (evs : list Event) : Prop :=
  forall a, a ∈ agents -> exists n, EvReturn Analyzing (name a) (RIssues n) ∈ evs.

(** A step of the orchestrator itself: its agents and the history stay as
    they are. *)
Definition still (s s' : MasterOrchestrator.St) : Prop :=
  MasterOrchestrator.this s' = MasterOrchestrator.this s /\
  history_of s' = history_of s.

(** The ways [run_full_upgrade] ends when it is started in [s]: an error
    leaves it from the step in which it is raised, and the state is the one
    that step stopped in. *)
Inductive run_ends (s : MasterOrchestrator.St) : Res bool -> MasterOrchestrator.St -> Prop :=
| backup_fails e s0 :
    MasterOrchestrator._create_backup s = (Raise e, s0) ->
    run_ends s (Raise e) s0
| analysis_fails backup_path s0 e s1 :
    MasterOrchestrator._create_backup s = (Ok backup_path, s0) ->
    MasterOrchestrator.analysis_phase (length (agents_of s0)) s0 = (Raise e, s1) ->
    run_ends s (Raise e) s1
| fixing_fails backup_path s0 all_issues s1 e s2 :
    MasterOrchestrator._create_backup s = (Ok backup_path, s0) ->
    MasterOrchestrator.analysis_phase (length (agents_of s0)) s0 = (Ok all_issues, s1) ->
    MasterOrchestrator.fixing_phase (length (agents_of s0)) all_issues s1 = (Raise e, s2) ->
    run_ends s (Raise e) s2
| validation_fails backup_path s0 all_issues s1 s2 e s3 :
    MasterOrchestrator._create_backup s = (Ok backup_path, s0) ->
    MasterOrchestrator.analysis_phase (length (agents_of s0)) s0 = (Ok all_issues, s1) ->
    MasterOrchestrator.fixing_phase (length (agents_of s0)) all_issues s1 = (Ok tt, s2) ->
    MasterOrchestrator.validation_phase (length (agents_of s0)) s2 = (Raise e, s3) ->
    run_ends s (Raise e) s3
| report_fails backup_path s0 all_issues s1 s2 all_valid s3 e s4 :
    MasterOrchestrator._create_backup s = (Ok backup_path, s0) ->
    MasterOrchestrator.analysis_phase (length (agents_of s0)) s0 = (Ok all_issues, s1) ->
    MasterOrchestrator.fixing_phase (length (agents_of s0)) all_issues s1 = (Ok tt, s2) ->
    MasterOrchestrator.validation_phase (length (agents_of s0)) s2 = (Ok all_valid, s3) ->
    MasterOrchestrator._generate_final_report all_issues backup_path all_valid s3
      = (Raise e, s4) ->
    run_ends s (Raise e) s4
| run_completes backup_path s0 all_issues s1 s2 all_valid s3 s4 :
    MasterOrchestrator._create_backup s = (Ok backup_path, s0) ->
    MasterOrchestrator.analysis_phase (length (agents_of s0)) s0 = (Ok all_issues, s1) ->
    MasterOrchestrator.fixing_phase (length (agents_of s0)) all_issues s1 = (Ok tt, s2) ->
    MasterOrchestrator.validation_phase (length (agents_of s0)) s2 = (Ok all_valid, s3) ->
    MasterOrchestrator._generate_final_report all_issues backup_path all_valid s3
      = (Ok tt, s4) ->
    run_ends s (Ok all_valid) s4.

(** A step of the orchestrator that leaves the [j]-th agent of the roster
    as it is. *)
Definition leaves_agent (j : nat) (s s' : MasterOrchestrator.St) : Prop :=
  agents_of s' !! j = agents_of s !! j.

(** The modifications recorded in a history. *)
Definition recorded (evs : list Event) : list Modification :=
  omap (fun ev => match ev with
                  | EvRecord _ m => Some m
                  | _ => None
                  end) evs.

(** A step of the orchestrator in which the ledger grows by the
    modifications the step enters in the history, and by nothing else. *)
Definition booked (s s' : MasterOrchestrator.St) : Prop :=
  exists evs,
    history_of s' = history_of s ++ evs /\
    length (ledger (agents_of s'))
      = length (ledger (agents_of s)) + length (recorded evs).

(** *** Sample runs

    A project that consists of an empty directory, and one whose
    documentation is in place; the clock gives 0, 1, 2, ... *)
Definition sample_clock (n : nat) : N := N.of_nat n.

Definition empty_project : Env :=
  {| fs := {[ ["p"] := Dir ]}; clock := sample_clock; ticks := 0; trace := [] |}.

Definition documented_project : Env :=
  {| fs := {[ ["p"] := Dir;
              ["p"; "README.md"] := File "# AstralStream" true;
              ["p"; "docs"] := Dir ]};
     clock := sample_clock; ticks := 0; trace := [] |}.

Definition sample_args : AgentTeam.Args := {| AgentTeam.project_path := "/p" |}.

(** The state [run_full_upgrade] is called in by [main]: the orchestrator
    built by [MasterOrchestrator.__init__], and the clock read once. *)
Definition run_start (project_path : string) (e : Env) : MasterOrchestrator.St :=
  let project := PurePath.parts project_path in
  {| MasterOrchestrator.this :=
       {| MasterOrchestrator.project_path := project;
          MasterOrchestrator.agents :=
            [ TestCoverageAgent.__init__ project; ArchitectureAgent.__init__ project;
              SecurityAgent.__init__ project; PerformanceAgent.__init__ project;
              DocumentationAgent.__init__ project ];
          MasterOrchestrator.start_time := clock e (ticks e) |};
     MasterOrchestrator.env := tick e |}.

Definition sample_start (e : Env) : MasterOrchestrator.St := run_start "/p" e.

(** A project in which [app/src/main] is a regular file: the test agent
    can create its directories and files, and the architecture agent, the
    second to fix, cannot create a directory below [app/src/main]. *)
Definition broken_project : Env :=
  {| fs := {[ ["p"] := Dir;
              ["p"; "app"] := Dir;
              ["p"; "app"; "src"] := Dir;
              ["p"; "app"; "src"; "main"] := File EmptyString true ]};
     clock := sample_clock; ticks := 0; trace := [] |}.

(** The value of a result, or a default. *)
Definition value_of {A} (default : A) (r : Res A) : A :=
  match r with
  | Ok a => a
  | Raise _ => default
  end.

(** Two states of an agent that agree on what [validate] may read: the
    class of the agent, the path of its project and the tree. The lists of
    issues and modifications, the name, the clock and the history are free. *)
Definition same_view (s1 s2 : AgentSt) : Prop :=
  cls (self s1) = cls (self s2) /\
  project_path (self s1) = project_path (self s2) /\
  fs (aenv s1) = fs (aenv s2).

(** [m] returns from every state. *)
Definition never_raises {S A} (m : M S A) : Prop :=
  forall s, exists a, (m s).1 = Ok a.

(** No way for [_fix_insecure_endpoints] to rewrite the file named by
    [file] in the tree [t]: the value is no string, or the file cannot be
    read, or it cannot be written. *)
Definition endpoint_rewrite_fails (t : FS) (file : PyVal) : Prop :=
  forall target content,
    file = VStr target ->
    FileSystem.read_text t (PurePath.parts target) = Ok content ->
    (FileSystem.write_text t (PurePath.parts target)
       (PyStr.replace content "http://" "https://")).1 <> Ok tt.

(** An issue of the kind [SecurityAgent.analyze] reports for a file. *)
Definition insecure_http_issue (issue : Issue) : Prop :=
  issue !! "type" = Some (VStr "insecure_http") /\ is_Some (issue !! "file").

(** A project with two Kotlin files outside [app/src/main/java], of which
    [Foo.kt] declares no package. *)
Definition unpackaged_project : Env :=
  {| fs := {[ ["p"] := Dir;
              ["p"; "Foo.kt"] := File "class Foo" true;
              ["p"; "app"] := Dir;
              ["p"; "app"; "Bar.kt"] :=
                File ("package com.bar" +:+ Payload.nl +:+ "class Bar") true ]};
     clock := sample_clock; ticks := 0; trace := [] |}.

Definition foo_issue : Issue :=
  {[ "type" := VStr "missing_test_file";
     "source" := VStr "/p/Foo.kt";
     "test_path" := VStr "/p/app/src/test/FooTest.kt";
     "severity" := VStr "medium" ]}.

Definition bar_issue : Issue :=
  {[ "type" := VStr "missing_test_file";
     "source" := VStr "/p/app/Bar.kt";
     "test_path" := VStr "/p/app/src/test/app/BarTest.kt";
     "severity" := VStr "medium" ]}.

(** A project whose only Kotlin file names a plain HTTP endpoint and is
    read-only. *)
Definition readonly_project : Env :=
  {| fs := {[ ["p"] := Dir;
              ["p"; "Api.kt"] := File "val url = http://example.com" false ]};
     clock := sample_clock; ticks := 0; trace := [] |}.

Definition api_issue : Issue :=
  {[ "type" := VStr "insecure_http";
     "file" := VStr "/p/Api.kt";
     "severity" := VStr "high" ]}.

Definition test_directory_issue : Issue :=
  {[ "type" := VStr "missing_test_directory";
     "path" := VStr "/p/app/src/test";
     "severity" := VStr "high" ]}.

(** A fresh agent in an environment. *)
Definition fresh (a : Agent) (e : Env) : AgentSt := {| self := a; aenv := e |}.

(** *** Counting modifications *)

Definition ledger_length (s : AgentSt) : nat := length (modifications_made (self s)).

(** When [m] returns, it has appended [n] modifications. *)
Definition ok_adds {A} (m : M AgentSt A) (n : nat) : Prop :=
  forall s a s', m s = (Ok a, s') -> ledger_length s' = ledger_length s + n.

(** When [m] returns, it returns [v] and has appended [n] modifications. *)
Definition ok_yields {A} (m : M AgentSt A) (n : nat) (v : A) : Prop :=
  forall s a s', m s = (Ok a, s') -> a = v /\ ledger_length s' = ledger_length s + n.

(** The issues [TestCoverageAgent.fix] has a branch for. *)
Definition handled_by_tests (issue : Issue) : nat :=
  match issue !! "type" with
  | Some type =>
      if is_str type "missing_test_directory" || is_str type "missing_test_file"
      then 1 else 0
  | None => 0
  end.

(** *** The tree across the steps of a fix *)

(** Every directory on the way to [p], and [p] itself, is a directory. *)
Definition dir_chain (t : FS) (here : Path) (todo : list string) : Prop :=
  forall k, 0 < k <= length todo -> t !! (here ++ take k todo) = Some Dir.

(** The text a read of [p] gives, when it gives one. *)
Definition content_at (t : FS) (p : Path) : option string :=
  match FileSystem.node_at t p with
  | Some (File c _) => Some c
  | _ => None
  end.

(** From [t] to [t'] directories stay, and away from the paths [written]
    files stay as they are and nothing but directories appears. *)
Definition keeps_but (written : list Path) (t t' : FS) : Prop :=
  (forall q, t !! q = Some Dir -> t' !! q = Some Dir) /\
  (forall q c w, q ∉ written -> t !! q = Some (File c w) -> t' !! q = Some (File c w)) /\
  (forall q, q ∉ written -> t !! q = None -> t' !! q = None \/ t' !! q = Some Dir).

(** The three test files [TestCoverageAgent.fix] always generates. *)
Definition generated_tests (project : Path) : list Path :=
  [ (project //
       "app/src/androidTest/java/com/astralplayer/integration/VideoPlayerIntegrationTest.kt");
    (project // "app/src/androidTest/java/com/astralplayer/ui/VideoPlayerUITest.kt");
    (project //
       "benchmark/src/androidTest/java/com/astralplayer/benchmark/VideoPlayerBenchmark.kt") ].

(** The paths an issue names lie apart from the files its fix writes:
    the test file is none of the generated tests, and the source is neither
    the test file nor a generated test. Every issue reported by
    [TestCoverageAgent.analyze] for a project file is of this kind. *)
Definition apart (project : Path) (issue : Issue) : Prop :=
  forall source test_path,
    issue !! "source" = Some (VStr source) ->
    issue !! "test_path" = Some (VStr test_path) ->
    (PurePath.parts test_path ∉ generated_tests project) /\
    (PurePath.parts source ∉ (PurePath.parts test_path :: generated_tests project)).

(** The block that ends every generating step: make the directory, write
    the file, record the modification. *)
Definition write_block (p : Path) (c file_path description : string) : M AgentSt unit :=
  mkdir_parents (PurePath.parent p) ;;;
  write_text p c ;;;
  AgentBase.add_modification file_path description.

(** What the block leaves in the tree. *)
Definition written (t : FS) (p : Path) (c : string) : Prop :=
  dir_chain t [] (PurePath.parent p) /\ t !! p = Some (File c true) /\ p <> [].

(** The three generated tests are in place in the tree [t]. *)
Definition tests_written (project : Path) (t : FS) : Prop :=
  written t
    (project //
       "app/src/androidTest/java/com/astralplayer/integration/VideoPlayerIntegrationTest.kt")
    Payload.integration_test /\
  written t
    (project // "app/src/androidTest/java/com/astralplayer/ui/VideoPlayerUITest.kt")
    Payload.ui_test /\
  written t
    (project //
       "benchmark/src/androidTest/java/com/astralplayer/benchmark/VideoPlayerBenchmark.kt")
    Payload.perf_test.

(** ** What the methods keep *)

(** *** What a fix leaves in place *)

(** From [t] to [t'] nothing is lost: a directory stays a directory, and a
    file stays a file with its mode. *)
Definition no_loss (t t' : FS) : Prop :=
  (forall q, t !! q = Some Dir -> t' !! q = Some Dir) /\
  (forall q c w, t !! q = Some (File c w) -> exists c', t' !! q = Some (File c' w)).

(** A step of an agent that loses nothing of the tree. *)
Definition grows (s s' : AgentSt) : Prop := no_loss (fs (aenv s)) (fs (aenv s')).

(** The Kotlin files of the project that are no tests, as [analyze] and
    [_estimate_coverage] of the test agent select them. *)
Definition source_files (t : FS) (project : Path) : list Path :=
  List.filter (fun f => negb (TestCoverageAgent.in_tests f))
    (FileSystem.rglob t project "*.kt").

(** The Kotlin files of the project that are tests. *)
Definition test_files (t : FS) (project : Path) : list Path :=
  List.filter TestCoverageAgent.in_tests (FileSystem.rglob t project "*.kt").

(** The path [MasterOrchestrator._create_backup] copies the project to,
    when the clock reads [now]. *)
Definition backup_of (project : Path) (now : N) : Path :=
  PurePath.parent project ++ ["astralstream_backup_" +:+ strftime now].

(** The error [shutil.copytree] raises for a source that is no directory
    or a destination that exists. *)
Definition copytree_error (t : FS) (src : Path) : Exn :=
  match FileSystem.node_at t src with
  | None => FileNotFoundError
  | Some (File _ _) => NotADirectoryError
  | Some Dir => FileExistsError
  end.

(** No path below [project] that exists in [t] has a name matching
    [pat]: the search [project.rglob(pat)] finds nothing. *)
Definition names_unmatched (pat : string) (project : Path) (t : FS) : Prop :=
  forall q, is_Some (t !! q) -> FileSystem.below project q = true ->
    PyStr.fnmatch pat (PurePath.name q) = false.

(** A step of an agent of the project [project] that creates no path
    below the project with a name matching [pat]. *)
Definition no_new_match (pat : string) (project : Path) (s s' : AgentSt) : Prop :=
  project_path (self s) = project ->
  project_path (self s') = project /\
  forall q, is_Some (fs (aenv s') !! q) -> FileSystem.below project q = true ->
    PyStr.fnmatch pat (PurePath.name q) = true -> is_Some (fs (aenv s) !! q).

(** No component of the relative path [rel] matches [pat]. *)
Definition unmatched_components (pat : string) (rel : string) : bool :=
  forallb (fun c => negb (PyStr.fnmatch pat c)) (PurePath.parts rel) &&
  negb (length (PurePath.parts rel) =? 0).

(** [m] returns from every state of an agent of the project [project]. *)
Definition returns_at (project : Path) {A} (m : M AgentSt A) : Prop :=
  forall s, project_path (self s) = project -> exists a, (m s).1 = Ok a.

(** Every path of [t] is a path of [t']. *)
Definition survives (t t' : FS) : Prop :=
  forall q, is_Some (t !! q) -> is_Some (t' !! q).

(** A step, of an agent or of the orchestrator, after which every path of
    the tree is still there. *)
Definition keeps_paths {S} `{HasEnv S} (s s' : S) : Prop :=
  survives (fs (get_env s)) (fs (get_env s')).

(** *** Where a fix writes *)

(** [p] is the project directory or lies below it. *)
Definition within (project p : Path) : Prop :=
  PurePath.strip_prefix project p <> None.

(** The paths an issue names lie within the project, as the paths of the
    issues reported by [analyze] do. *)
Definition inside (project : Path) (issue : Issue) : Prop :=
  forall key p, key ∈ ["path"; "test_path"; "file"] ->
    issue !! key = Some (VStr p) -> within project (PurePath.parts p).

(** A path without a [..] component: the file it names is the one its
    components spell, and the prefix test of [pathlib] decides where it
    lies. *)
Definition resolved (p : Path) : Prop := ".." ∉ p.

(** The paths an issue names are absolute, have no [..] component and lie
    within the project, as the paths of the issues reported by [analyze]
    for a resolved project path do. *)
Definition plainly_inside (project : Path) (issue : Issue) : Prop :=
  forall key p, key ∈ ["path"; "test_path"; "file"] ->
    issue !! key = Some (VStr p) ->
    PyStr.startswith p "/" = true /\
    resolved (PurePath.parts p) /\
    within project (PurePath.parts p).

(** A step of an agent of the project [project], a directory whose
    ancestors exist, that leaves every path outside the project as it is. *)
Definition confined (project : Path) (s s' : AgentSt) : Prop :=
  project_path (self s) = project -> dir_chain (fs (aenv s)) [] project ->
  project_path (self s') = project /\
  dir_chain (fs (aenv s')) [] project /\
  forall q, PurePath.strip_prefix project q = None ->
    fs (aenv s') !! q = fs (aenv s) !! q.

(** *** The issues an analysis hands to a fix *)

(** An issue with the keys [fix] reads: a type, and for the types that
    name a path, the path as a string. *)
Definition well_keyed (issue : Issue) : Prop :=
  exists type,
    issue !! "type" = Some (VStr type) /\
    (type = "missing_test_directory" -> exists p, issue !! "path" = Some (VStr p)) /\
    (type = "missing_test_file" ->
       (exists p, issue !! "source" = Some (VStr p)) /\
       (exists p, issue !! "test_path" = Some (VStr p))) /\
    (type ∈ ["insecure_http"; "potential_memory_leak"; "global_scope_usage"] ->
       exists p, issue !! "file" = Some (VStr p)).

(** The errors of the file system, and the [ValueError] of
    [relative_to]. *)
Definition file_error (e : Exn) : Prop :=
  match e with
  | FileNotFoundError | FileExistsError | NotADirectoryError | IsADirectoryError
  | PermissionError | ValueError => True
  | TypeError | IndexError | UnboundLocalError | KeyError _ => False
  end.

(** Every error [m] raises satisfies [E]. *)
Definition raises_only {S A} (E : Exn -> Prop) (m : M S A) : Prop :=
  forall s e, (m s).1 = Raise e -> E e.

(** *** The roster across a run *)

(** The agent [a'] is the agent [a] with more modifications recorded. *)
Definition extends (a a' : Agent) : Prop :=
  same_agent a a' /\ exists ms, modifications_made a' = modifications_made a ++ ms.

(** A step of an agent that only appends to its list of modifications. *)
Definition appends (s s' : AgentSt) : Prop := extends (self s) (self s').

(** A step of the orchestrator that keeps the project path and the
    roster, each agent in its place with what it had recorded. *)
Definition roster_extends (s s' : MasterOrchestrator.St) : Prop :=
  MasterOrchestrator.project_path (MasterOrchestrator.this s')
    = MasterOrchestrator.project_path (MasterOrchestrator.this s) /\
  Forall2 extends (agents_of s) (agents_of s').

(** *** The time of a modification *)

(** A step of an agent in which the clock is read forward and the
    modifications appended carry, in the order of the list, readings taken
    during the step, at the ticks [ks]. *)
Definition stamped (s s' : AgentSt) : Prop :=
  clock (aenv s') = clock (aenv s) /\
  ticks (aenv s) <= ticks (aenv s') /\
  exists ms ks,
    modifications_made (self s') = modifications_made (self s) ++ ms /\
    map mod_timestamp ms = map (clock (aenv s)) ks /\
    StronglySorted lt ks /\
    Forall (fun k => ticks (aenv s) <= k < ticks (aenv s')) ks.

(** A text of ASCII characters without a carriage return: what
    [read_text] returns for a file that holds it is the text itself, since
    the decoding and the universal newlines of Python leave it as it is. *)
Fixpoint plain_text (text : string) : bool :=
  match text with
  | EmptyString => true
  | String c rest =>
      (Ascii.nat_of_ascii c <? 128) && negb (Ascii.eqb c (Ascii.ascii_of_nat 13))
      && plain_text rest
  end.

Definition plain (text : string) : Prop := plain_text text = true.

(** *** The elite agent at work *)

(** The elite agent of the project [/p], as [__init__] builds it when the
    clock reads 0, over a tree. *)
Definition elite_over (t : FS) : AstralStreamEliteAgent.St :=
  {| AstralStreamEliteAgent.this :=
       {| AstralStreamEliteAgent.project_path := ["p"];
          AstralStreamEliteAgent.backup_path := ["astralstream_backup_0"];
          AstralStreamEliteAgent.modifications_log := [];
          AstralStreamEliteAgent.kotlin_files := [];
          AstralStreamEliteAgent.xml_files := [];
          AstralStreamEliteAgent.gradle_files := [] |};
     AstralStreamEliteAgent.env :=
       {| fs := t; clock := sample_clock; ticks := 1; trace := [] |} |}.

(** A project with a build file. *)
Definition gradle_project : FS :=
  {[ ["p"] := Dir; ["p"; "build.gradle"] := File "plugins {}" true ]}.

(** * Reasoning about computations *)

Lemma pair_eta_eq {A B} (p : A * B) (a : A) : p.1 = a -> p = (a, p.2).
Proof. destruct p. simpl. by intros ->. Qed.

Section MonadFacts.
Context {S : Type}.

Lemma bind_inv {A B} (m : M S A) (k : A -> M S B) s r s2 :
  bind m k s = (r, s2) ->
  (exists e, m s = (Raise e, s2) /\ r = Raise e) \/
  (exists a s1, m s = (Ok a, s1) /\ k a s1 = (r, s2)).
Proof.
  unfold bind. destruct (m s) as [[a|e] s1]; intros Hk.
  - right. eauto.
  - left. exists e. by inversion Hk.
Qed.

Lemma bind_ok_inv {A B} (m : M S A) (k : A -> M S B) s b s2 :
  bind m k s = (Ok b, s2) ->
  exists a s1, m s = (Ok a, s1) /\ k a s1 = (Ok b, s2).
Proof.
  intros Hb. destruct (bind_inv _ _ _ _ _ Hb) as [(e & _ & He)|Hok]; [done|done].
Qed.

Lemma bind_ok {A B} (m : M S A) (k : A -> M S B) s a s1 :
  m s = (Ok a, s1) -> bind m k s = k a s1.
Proof. unfold bind. by intros ->. Qed.

Lemma bind_raise {A B} (m : M S A) (k : A -> M S B) s e s1 :
  m s = (Raise e, s1) -> bind m k s = (Raise e, s1).
Proof. unfold bind. by intros ->. Qed.

Lemma try_except_inv {A} (body handler : M S A) s r s2 :
  try_except body handler s = (r, s2) ->
  (exists a, body s = (Ok a, s2) /\ r = Ok a) \/
  (exists e s1, body s = (Raise e, s1) /\ handler s1 = (r, s2)).
Proof.
  unfold try_except. destruct (body s) as [[a|e] s1]; intros Hk.
  - left. exists a. by inversion Hk.
  - right. eauto.
Qed.

Lemma preserves_run {A} (R : relation S) (m : M S A) s r s1 :
  preserves R m -> m s = (r, s1) -> R s s1.
Proof. intros Hm Hs. specialize (Hm s). by rewrite Hs in Hm. Qed.

Lemma preserves_weaken {A} (R R' : relation S) (m : M S A) :
  (forall s s1, R s s1 -> R' s s1) -> preserves R m -> preserves R' m.
Proof. intros Hsub Hm s. apply Hsub, Hm. Qed.

Section Rules.
Context (R : relation S) `{!PreOrder R}.

Lemma preserves_ret {A} (a : A) : preserves R (ret a).
Proof. intros s. simpl. reflexivity. Qed.

Lemma preserves_raise {A} e : preserves R (raise (A := A) e).
Proof. intros s. simpl. reflexivity. Qed.

Lemma preserves_get : preserves R get.
Proof. intros s. simpl. reflexivity. Qed.

Lemma preserves_bind {A B} (m : M S A) (k : A -> M S B) :
  preserves R m -> (forall a, preserves R (k a)) -> preserves R (bind m k).
Proof.
  intros Hm Hk s. unfold bind. specialize (Hm s).
  destruct (m s) as [[a|e] s1]; simpl in *; [|done].
  etrans; [exact Hm|apply Hk].
Qed.

Lemma preserves_try_except {A} (body handler : M S A) :
  preserves R body -> preserves R handler -> preserves R (try_except body handler).
Proof.
  intros Hb Hh s. unfold try_except. specialize (Hb s).
  destruct (body s) as [[a|e] s1]; simpl in *; [done|].
  etrans; [exact Hb|apply Hh].
Qed.

Lemma preserves_for_in {X A} (xs : list X) (body : A -> X -> M S A) acc :
  (forall a x, preserves R (body a x)) -> preserves R (for_in xs body acc).
Proof.
  intros Hbody. revert acc.
  induction xs as [|x xs IH]; intros acc; simpl.
  - apply preserves_ret.
  - apply preserves_bind; [apply Hbody|apply IH].
Qed.

Lemma preserves_for_each {X} (xs : list X) (body : X -> M S unit) :
  (forall x, preserves R (body x)) -> preserves R (for_each xs body).
Proof. intros Hbody. apply preserves_for_in. intros _ x. apply Hbody. Qed.

End Rules.

Section RespectRules.
Context (I : relation S).

Lemma respects_ret {A} (a : A) : respects I (ret a).
Proof. intros s1 s2 HI. by split. Qed.

Lemma respects_raise {A} e : respects I (raise (A := A) e).
Proof. intros s1 s2 HI. by split. Qed.

Lemma respects_bind {A B} (m : M S A) (k : A -> M S B) :
  respects I m -> (forall a, respects I (k a)) -> respects I (bind m k).
Proof.
  intros Hm Hk s1 s2 HI. unfold bind.
  destruct (Hm s1 s2 HI) as [Hr HI1].
  destruct (m s1) as [r1 t1], (m s2) as [r2 t2]; simpl in *; subst r2.
  destruct r1 as [a|e]; [by apply Hk|by split].
Qed.

Lemma respects_try_except {A} (body handler : M S A) :
  respects I body -> respects I handler -> respects I (try_except body handler).
Proof.
  intros Hb Hh s1 s2 HI. unfold try_except.
  destruct (Hb s1 s2 HI) as [Hr HI1].
  destruct (body s1) as [r1 t1], (body s2) as [r2 t2]; simpl in *; subst r2.
  destruct r1 as [a|e]; [by split|by apply Hh].
Qed.

Lemma respects_for_in {X A} (xs : list X) (body : A -> X -> M S A) acc :
  (forall a x, respects I (body a x)) -> respects I (for_in xs body acc).
Proof.
  intros Hbody. revert acc.
  induction xs as [|x xs IH]; intros acc; simpl.
  - apply respects_ret.
  - apply respects_bind; [apply Hbody|apply IH].
Qed.

End RespectRules.

End MonadFacts.

Lemma for_in_app {S X A} (xs ys : list X) (body : A -> X -> M S A) : forall acc s,
  for_in (xs ++ ys) body acc s
    = (acc' <- for_in xs body acc ;; for_in ys body acc') s.
Proof.
  induction xs as [|x xs IH]; intros acc s; simpl; [done|].
  unfold bind. destruct (body acc x s) as [[a|e] s1]; [|done].
  rewrite IH. reflexivity.
Qed.

Lemma preserves_for_in_Forall {S X A} (R : relation S) `{!PreOrder R}
    (P : X -> Prop) (xs : list X) (body : A -> X -> M S A) acc :
  Forall P xs -> (forall a x, P x -> preserves R (body a x)) ->
  preserves R (for_in xs body acc).
Proof.
  intros Hxs Hbody. revert acc.
  induction Hxs as [|x xs Hx _ IH]; intros acc; simpl.
  - by apply preserves_ret.
  - apply preserves_bind; [done|by apply Hbody|apply IH].
Qed.

(** ** Steps of an agent *)

#[global] Instance same_agent_preorder : PreOrder same_agent.
Proof.
  split.
  - by intros a.
  - intros a b c (?&?&?) (?&?&?). unfold same_agent. by repeat split; etrans.
Qed.

#[global] Instance quiet_preorder : PreOrder quiet.
Proof.
  split.
  - intros s. by repeat split.
  - intros s1 s2 s3 (Ha&Hm&Ht&Hf) (Ha'&Hm'&Ht'&Hf').
    split; [by etrans|]. by repeat split; etrans.
Qed.

#[global] Instance records_preorder : PreOrder records.
Proof.
  split.
  - intros s. split; [done|]. exists []. by rewrite !app_nil_r.
  - intros s1 s2 s3 (Ha&ms&Hm&Ht) (Ha'&ms'&Hm'&Ht').
    split; [by etrans|]. exists (ms ++ ms').
    destruct Ha as (_&Hn&_).
    rewrite Hm', Hm, Ht', Ht, Hn, map_app, !app_assoc. done.
Qed.

Lemma quiet_records s s' : quiet s s' -> records s s'.
Proof.
  intros (Ha&Hm&Ht&_). split; [done|]. exists [].
  by rewrite Hm, Ht, !app_nil_r.
Qed.

Create HintDb pres discriminated.

Section AgentPrimitives.

Lemma quiet_self_get {A} (f : Agent -> A) : preserves quiet (self_get f).
Proof. intros s. simpl. reflexivity. Qed.

Lemma quiet_getitem d k : preserves quiet (getitem (S := AgentSt) d k).
Proof. intros s. unfold getitem. destruct (d !! k); simpl; reflexivity. Qed.

Lemma quiet_as_str v : preserves quiet (as_str (S := AgentSt) v).
Proof. intros s. destruct v; simpl; reflexivity. Qed.

Lemma quiet_as_path v : preserves quiet (as_path (S := AgentSt) v).
Proof. intros s. destruct v; simpl; reflexivity. Qed.

Lemma quiet_relative_to p base : preserves quiet (relative_to (S := AgentSt) p base).
Proof.
  intros s. unfold relative_to.
  destruct (PurePath.strip_prefix base p); simpl; reflexivity.
Qed.

Lemma quiet_read_fs {A} (f : FS -> A) : preserves quiet (read_fs (S := AgentSt) f).
Proof. intros s. simpl. reflexivity. Qed.

Lemma quiet_path_exists p : preserves quiet (path_exists (S := AgentSt) p).
Proof. apply quiet_read_fs. Qed.

Lemma quiet_rglob p pat : preserves quiet (rglob (S := AgentSt) p pat).
Proof. apply quiet_read_fs. Qed.

Lemma quiet_read_text p : preserves quiet (read_text (S := AgentSt) p).
Proof.
  intros s. unfold read_text, bind, read_fs, of_res. simpl. reflexivity.
Qed.

Lemma quiet_datetime_now : preserves quiet (datetime_now (S := AgentSt)).
Proof. intros s. by repeat split. Qed.

Lemma quiet_log msg : preserves quiet (AgentBase.log msg).
Proof. intros s. by repeat split. Qed.

Lemma quiet_set_issues_found l : preserves quiet (self_update (set_issues_found l)).
Proof. intros s. by repeat split. Qed.

Lemma records_update_fs {A} (f : FS -> Res A * FS) :
  preserves records (update_fs (S := AgentSt) f).
Proof.
  intros s. unfold update_fs. destruct (f _) as [r t']. simpl.
  split; [done|]. exists []. by rewrite !app_nil_r.
Qed.

Lemma records_add_modification file_path description :
  preserves records (AgentBase.add_modification file_path description).
Proof.
  intros s. simpl. split; [done|]. by eexists [_].
Qed.

End AgentPrimitives.

#[global] Hint Resolve quiet_self_get quiet_getitem quiet_as_str quiet_as_path
  quiet_relative_to quiet_read_fs quiet_path_exists quiet_rglob quiet_read_text
  quiet_datetime_now quiet_log quiet_set_issues_found : pres.

(** Structural steps of a proof that a method keeps a relation. *)
Ltac pres_rules :=
  first
    [ apply preserves_ret; solve [typeclasses eauto]
    | apply preserves_raise; solve [typeclasses eauto]
    | apply preserves_for_in; [solve [typeclasses eauto]|]
    | apply preserves_for_each; [solve [typeclasses eauto]|]
    | apply preserves_try_except; [solve [typeclasses eauto]| |]
    | apply preserves_bind; [solve [typeclasses eauto]| |] ].

Ltac pres_case :=
  match goal with
  | |- preserves _ (match ?x with _ => _ end) => destruct x
  | |- preserves _ (let '(_, _) := ?x in _) => destruct x
  end.

Ltac pres :=
  repeat (intros; first [ solve [eauto 3 with pres] | pres_rules | pres_case ]).

Lemma records_of_quiet {A} (m : M AgentSt A) :
  preserves quiet m -> preserves records m.
Proof. apply preserves_weaken, quiet_records. Qed.

#[global] Hint Resolve records_of_quiet | 5 : pres.
#[global] Hint Resolve records_add_modification : pres.

Lemma records_write_text p c : preserves records (write_text (S := AgentSt) p c).
Proof. apply records_update_fs. Qed.
Lemma records_mkdir_parents p : preserves records (mkdir_parents (S := AgentSt) p).
Proof. apply records_update_fs. Qed.
Lemma records_mkdir_exist_ok p : preserves records (mkdir_exist_ok (S := AgentSt) p).
Proof. apply records_update_fs. Qed.

#[global] Hint Resolve records_write_text records_mkdir_parents
  records_mkdir_exist_ok : pres.

(** Every [analyze] and every [validate] is quiet. *)

Lemma quiet_estimate_coverage : preserves quiet TestCoverageAgent._estimate_coverage.
Proof. unfold TestCoverageAgent._estimate_coverage. pres. Qed.

Lemma quiet_get_test_file_path f :
  preserves quiet (TestCoverageAgent._get_test_file_path f).
Proof. unfold TestCoverageAgent._get_test_file_path. pres. Qed.

#[global] Hint Resolve quiet_estimate_coverage quiet_get_test_file_path : pres.

Lemma quiet_extract_package f : preserves quiet (TestCoverageAgent._extract_package f).
Proof. unfold TestCoverageAgent._extract_package. pres. Qed.

#[global] Hint Resolve quiet_extract_package : pres.

Lemma quiet_generate_test_content v :
  preserves quiet (TestCoverageAgent._generate_test_content v).
Proof. unfold TestCoverageAgent._generate_test_content. pres. Qed.

Lemma quiet_has_certificate_pinning : preserves quiet SecurityAgent._has_certificate_pinning.
Proof. unfold SecurityAgent._has_certificate_pinning. pres. Qed.

Lemma quiet_has_encryption : preserves quiet SecurityAgent._has_encryption.
Proof. unfold SecurityAgent._has_encryption. pres. Qed.

#[global] Hint Resolve quiet_generate_test_content quiet_has_certificate_pinning
  quiet_has_encryption : pres.

Lemma quiet_analyze : preserves quiet analyze.
Proof.
  unfold analyze. apply preserves_bind; [apply _|pres|].
  intros [];
    [ unfold TestCoverageAgent.analyze
    | unfold ArchitectureAgent.analyze
    | unfold SecurityAgent.analyze
    | unfold PerformanceAgent.analyze
    | unfold DocumentationAgent.analyze ]; pres.
Qed.

Lemma quiet_validate : preserves quiet validate.
Proof.
  unfold validate. apply preserves_bind; [apply _|pres|].
  intros [];
    [ unfold TestCoverageAgent.validate
    | unfold ArchitectureAgent.validate
    | unfold SecurityAgent.validate
    | unfold PerformanceAgent.validate
    | unfold DocumentationAgent.validate ]; pres.
Qed.

(** Every [fix] enters in the history what it appends to its list. *)

Lemma records_fix_tests issues : preserves records (TestCoverageAgent.fix_ issues).
Proof.
  unfold TestCoverageAgent.fix_, TestCoverageAgent.fix_issue,
    TestCoverageAgent._generate_integration_tests,
    TestCoverageAgent._generate_ui_tests,
    TestCoverageAgent._generate_performance_tests.
  pres.
Qed.

Lemma records_fix_architecture issues : preserves records (ArchitectureAgent.fix_ issues).
Proof.
  unfold ArchitectureAgent.fix_, ArchitectureAgent.fix_issue,
    ArchitectureAgent._consolidate_databases, ArchitectureAgent._standardize_packages,
    ArchitectureAgent._enhance_navigation, ArchitectureAgent._create_domain_interfaces,
    ArchitectureAgent._implement_use_cases.
  pres.
Qed.

Lemma records_fix_security issues : preserves records (SecurityAgent.fix_ issues).
Proof.
  unfold SecurityAgent.fix_, SecurityAgent.fix_issue,
    SecurityAgent._implement_certificate_pinning, SecurityAgent._enhance_obfuscation,
    SecurityAgent._fix_insecure_endpoints, SecurityAgent._implement_biometric_auth,
    SecurityAgent._enhance_data_encryption.
  pres.
Qed.

Lemma records_fix_performance issues : preserves records (PerformanceAgent.fix_ issues).
Proof.
  unfold PerformanceAgent.fix_, PerformanceAgent.fix_issue,
    PerformanceAgent._fix_memory_leak, PerformanceAgent._fix_coroutine_scope,
    PerformanceAgent._create_baseline_profile, PerformanceAgent._optimize_build_config,
    PerformanceAgent._implement_lazy_loading,
    PerformanceAgent._add_performance_monitoring.
  pres.
Qed.

Lemma records_fix_documentation issues : preserves records (DocumentationAgent.fix_ issues).
Proof.
  unfold DocumentationAgent.fix_, DocumentationAgent.fix_issue,
    DocumentationAgent._generate_readme, DocumentationAgent._generate_api_docs,
    DocumentationAgent._enhance_inline_docs,
    DocumentationAgent._generate_architecture_docs,
    DocumentationAgent._generate_setup_guide,
    DocumentationAgent._generate_contributing_guide.
  pres.
Qed.

Lemma records_fix issues : preserves records (fix_ issues).
Proof.
  unfold fix_. apply preserves_bind; [apply _|pres|].
  intros [];
    eauto using records_fix_tests, records_fix_architecture, records_fix_security,
      records_fix_performance, records_fix_documentation.
Qed.

(** ** Steps of the orchestrator *)

Section OrchestratorSteps.
Import MasterOrchestrator.

Lemma Forall2_insert_refl {X} (R : relation X) (l : list X) i x x' :
  (forall y, R y y) -> l !! i = Some x -> R x x' -> Forall2 R l (<[i:=x']> l).
Proof.
  intros Hrefl Hi Hx. apply Forall2_same_length_lookup_2.
  - by rewrite length_insert.
  - intros j b b' Hb Hb'.
    destruct (decide (i = j)) as [->|Hne].
    + rewrite list_lookup_insert_eq in Hb' by (by eapply lookup_lt_Some).
      assert (b = x) as -> by congruence.
      by assert (b' = x') as -> by congruence.
    + rewrite list_lookup_insert_ne in Hb' by done.
      by assert (b' = b) as -> by congruence.
Qed.

Lemma agent_step_refl keeps a : agent_step keeps a a.
Proof. by split. Qed.

Lemma agent_step_trans keeps a b c :
  agent_step keeps a b -> agent_step keeps b c -> agent_step keeps a c.
Proof.
  intros [Hab Hk] [Hbc Hk']. split; [by etrans|].
  intros Hkeep. rewrite Hk', Hk; [done|done|].
  destruct Hab as (_&->&_). done.
Qed.

#[global] Instance run_step_preorder P keeps : PreOrder (run_step P keeps).
Proof.
  split.
  - intros s. split.
    + apply Forall2_same_length_lookup_2; [done|].
      intros i a b Ha Hb. rewrite Ha in Hb. injection Hb as <-.
      apply agent_step_refl.
    + exists []. by rewrite app_nil_r.
  - intros s1 s2 s3 [Ha (evs & Ht & HP)] [Ha' (evs' & Ht' & HP')]. split.
    + eapply Forall2_trans; [|exact Ha|exact Ha'].
      intros a b c. apply agent_step_trans.
    + exists (evs ++ evs'). rewrite Ht', Ht, app_assoc. split; [done|].
      by apply Forall_app.
Qed.

Lemma run_step_weaken (P P' : Event -> Prop) (keeps keeps' : string -> Prop) s s' :
  (forall ev, P ev -> P' ev) -> (forall n, keeps' n -> keeps n) ->
  run_step P keeps s s' -> run_step P' keeps' s s'.
Proof.
  intros HP Hk [Ha (evs & Ht & Hevs)]. split.
  - eapply Forall2_impl; [exact Ha|]. intros a a' [Hs Hm]. split; [done|]. auto.
  - exists evs. split; [done|]. eapply Forall_impl; [exact Hevs|done].
Qed.

Lemma set_agent_id i a o : agents o !! i = Some a -> set_agent i a o = o.
Proof.
  intros Hi. destruct o as [pp ags st]. unfold set_agent. simpl in *.
  by rewrite list_insert_id.
Qed.

Lemma with_agent_inv {A} i (m : M AgentSt A) s r s' :
  with_agent i m s = (r, s') ->
  (agents_of s !! i = None /\ s' = s /\ r = Raise IndexError) \/
  (exists a sa, agents_of s !! i = Some a /\
     m {| self := a; aenv := env s |} = (r, sa) /\
     s' = {| this := set_agent i (self sa) (this s); env := aenv sa |}).
Proof.
  unfold with_agent. destruct (agents_of s !! i) as [a|] eqn:Hi.
  - destruct (m _) as [r' sa] eqn:Hm. intros [= <- <-]. right. eauto.
  - intros [= <- <-]. by left.
Qed.

(** The step of the orchestrator made by a step of its [i]-th agent. *)
Lemma set_agent_step (P : Event -> Prop) keeps i a a' s evs e' :
  agents_of s !! i = Some a ->
  agent_step keeps a a' ->
  trace e' = history_of s ++ evs -> Forall P evs ->
  run_step P keeps s {| this := set_agent i a' (this s); env := e' |}.
Proof.
  intros Hi Ha Ht HP. split; [|by exists evs].
  simpl. apply Forall2_same_length_lookup_2.
  - by rewrite length_insert.
  - intros j b b' Hb Hb'.
    destruct (decide (i = j)) as [->|Hne].
    + rewrite list_lookup_insert_eq in Hb' by (by eapply lookup_lt_Some).
      assert (b = a) as -> by congruence.
      by assert (b' = a') as -> by congruence.
    + rewrite list_lookup_insert_ne in Hb' by done.
      assert (b' = b) as -> by congruence. apply agent_step_refl.
Qed.

Lemma with_agent_quiet {A} P keeps i (m : M AgentSt A) :
  preserves quiet m -> preserves (run_step P keeps) (with_agent i m).
Proof.
  intros Hm s. destruct (with_agent i m s) as [r s'] eqn:Hw. simpl.
  apply with_agent_inv in Hw as [(_ & -> & _)|(a & sa & Hi & Hrun & ->)];
    [reflexivity|].
  apply (preserves_run _ _ _ _ _ Hm) in Hrun as (Hsame & Hmods & Htr & _).
  simpl in *. eapply (set_agent_step _ _ _ _ _ _ []); eauto.
  - by split.
  - by rewrite app_nil_r.
Qed.

Lemma with_agent_records {A} (P : Event -> Prop) (keeps : string -> Prop)
    i (m : M AgentSt A) s :
  preserves records m ->
  (forall a, agents_of s !! i = Some a ->
     ~ keeps (name a) /\ forall md, P (EvRecord (name a) md)) ->
  run_step P keeps s (with_agent i m s).2.
Proof.
  intros Hm Hpre. destruct (with_agent i m s) as [r s'] eqn:Hw. simpl.
  apply with_agent_inv in Hw as [(_ & -> & _)|(a & sa & Hi & Hrun & ->)];
    [reflexivity|].
  apply (preserves_run _ _ _ _ _ Hm) in Hrun as (Hsame & ms & Hmods & Htr).
  simpl in *. destruct (Hpre a Hi) as [Hk HP].
  eapply set_agent_step; eauto.
  - by split.
  - apply Forall_map, Forall_true. intros md. apply HP.
Qed.

Lemma emit_step (P : Event -> Prop) keeps ev :
  P ev -> preserves (run_step P keeps) (emit (S := St) ev).
Proof.
  intros HP s. simpl. split.
  - apply Forall2_same_length_lookup_2; [done|].
    intros i a b Ha Hb. simpl in *. assert (b = a) as -> by congruence.
    apply agent_step_refl.
  - exists [ev]. split; [done|]. by apply Forall_singleton.
Qed.

#[global] Instance calm_preorder : PreOrder calm.
Proof.
  split.
  - intros s. split; [|done].
    apply Forall2_same_length_lookup_2; [done|].
    intros i a b Ha Hb. by assert (b = a) as -> by congruence.
  - intros s1 s2 s3 (Ha & Ht & Hf) (Ha' & Ht' & Hf').
    split; [|split; by etrans].
    eapply Forall2_trans; [|exact Ha|exact Ha'].
    intros a b c [? ?] [? ?]. split; by etrans.
Qed.

Lemma calm_run_step P keeps s s' : calm s s' -> run_step P keeps s s'.
Proof.
  intros (Ha & Ht & _). split.
  - eapply Forall2_impl; [exact Ha|]. by intros a a' [? ?].
  - exists []. by rewrite Ht, app_nil_r.
Qed.

Lemma calm_lookup s s' i a :
  calm s s' -> agents_of s !! i = Some a ->
  exists a', agents_of s' !! i = Some a' /\ same_agent a a' /\
             modifications_made a' = modifications_made a.
Proof.
  intros (Ha & _) Hi.
  destruct (Forall2_lookup_l _ _ _ _ _ Ha Hi) as (a' & Hi' & Hs & Hm). eauto.
Qed.

Lemma run_step_lookup P keeps s s' i a :
  run_step P keeps s s' -> agents_of s !! i = Some a ->
  exists a', agents_of s' !! i = Some a' /\ agent_step keeps a a'.
Proof.
  intros (Ha & _) Hi.
  destruct (Forall2_lookup_l _ _ _ _ _ Ha Hi) as (a' & Hi' & Hs). eauto.
Qed.

Lemma set_agent_calm i a a' s e' :
  agents_of s !! i = Some a ->
  same_agent a a' -> modifications_made a' = modifications_made a ->
  trace e' = history_of s -> fs e' = fs (env s) ->
  calm s {| this := set_agent i a' (this s); env := e' |}.
Proof.
  intros Hi Hs Hm Ht Hf. split; [|done]. simpl.
  apply Forall2_same_length_lookup_2.
  - by rewrite length_insert.
  - intros j b b' Hb Hb'.
    destruct (decide (i = j)) as [->|Hne].
    + rewrite list_lookup_insert_eq in Hb' by (by eapply lookup_lt_Some).
      assert (b = a) as -> by congruence.
      by assert (b' = a') as -> by congruence.
    + rewrite list_lookup_insert_ne in Hb' by done.
      by assert (b' = b) as -> by congruence.
Qed.

Lemma with_agent_calm {A} i (m : M AgentSt A) :
  preserves quiet m -> preserves calm (with_agent i m).
Proof.
  intros Hm s. destruct (with_agent i m s) as [r s'] eqn:Hw. simpl.
  apply with_agent_inv in Hw as [(_ & -> & _)|(a & sa & Hi & Hrun & ->)];
    [reflexivity|].
  apply (preserves_run _ _ _ _ _ Hm) in Hrun as (Hsame & Hmods & Htr & Hfs).
  simpl in *. by apply (set_agent_calm i a).
Qed.

(** What [await] does, in terms of the awaited method. *)
Lemma await_inv {A} ph i (m : M AgentSt A) summary s r s' :
  await ph i m summary s = (r, s') ->
  (agents_of s !! i = None /\ s' = s /\ r = Raise IndexError) \/
  (exists a ra sa,
     agents_of s !! i = Some a /\
     m {| self := a; aenv := record_event (EvCall ph (name a)) (env s) |} = (ra, sa) /\
     match ra with
     | Ok x =>
         r = Ok x /\
         s' = {| this := set_agent i (self sa) (this s);
                 env := record_event (EvReturn ph (name a) (summary x)) (aenv sa) |}
     | Raise e =>
         r = Raise e /\
         s' = {| this := set_agent i (self sa) (this s); env := aenv sa |}
     end).
Proof.
  unfold await, bind, with_agent at 1, self_get.
  destruct (agents_of s !! i) as [a|] eqn:Hi; [|intros [= <- <-]; by left].
  cbn [self aenv]. rewrite (set_agent_id i a (this s)) by done.
  unfold emit, on_env, with_agent. cbn [get_env set_env St_HasEnv this env].
  rewrite Hi.
  destruct (m _) as [[x|e] sa] eqn:Hm; cbn [this env]; intros [= <- <-];
    right; exists a; eexists; exists sa; (split; [done|]); (split; [exact Hm|]);
    done.
Qed.

Lemma await_quiet_step {A} ph keeps i (m : M AgentSt A) summary :
  preserves quiet m ->
  preserves (run_step (fun ev => phase_of ev = ph) keeps) (await ph i m summary).
Proof.
  intros Hm. unfold await.
  apply preserves_bind; [apply _|by apply with_agent_quiet; pres|]. intros agent.
  apply preserves_bind; [apply _|by apply emit_step|]. intros _.
  apply preserves_bind; [apply _|by apply with_agent_quiet|]. intros r.
  apply preserves_bind; [apply _|by apply emit_step|]. intros _.
  apply preserves_ret; apply _.
Qed.

(** An awaited quiet method that returns: the agents record nothing and
    the history gains the call and its return. *)
Lemma await_quiet_ok {A} ph i (m : M AgentSt A) summary s x s' :
  preserves quiet m ->
  await ph i m summary s = (Ok x, s') ->
  exists a,
    agents_of s !! i = Some a /\
    Forall2 (fun a a' => same_agent a a' /\
                         modifications_made a' = modifications_made a)
      (agents_of s) (agents_of s') /\
    fs (env s') = fs (env s) /\
    history_of s' =
      history_of s ++ [EvCall ph (name a); EvReturn ph (name a) (summary x)].
Proof.
  intros Hm Hw.
  apply await_inv in Hw as [(_ & _ & ?)|(a & ra & sa & Hi & Hrun & Hres)]; [done|].
  destruct ra as [y|e]; destruct Hres as [Hr ->]; [|done]. injection Hr as ->.
  apply (preserves_run _ _ _ _ _ Hm) in Hrun as (Hsame & Hmods & Htr & Hfs).
  simpl in *. exists a. split; [done|].
  split; [|split; [done|]].
  - apply (Forall2_insert_refl _ _ i a); [by intros ?|done|done].
  - by rewrite Htr, <- app_assoc.
Qed.

Lemma with_agent_get {A} i (f : Agent -> A) s r s' :
  with_agent i (self_get f) s = (r, s') ->
  (agents_of s !! i = None /\ s' = s /\ r = Raise IndexError) \/
  (exists a, agents_of s !! i = Some a /\ r = Ok (f a) /\ s' = s).
Proof.
  intros Hw.
  apply with_agent_inv in Hw as [?|(a & sa & Hi & [= <- <-] & ->)]; [by left|].
  right. exists a. split; [done|]. split; [done|].
  cbn [self aenv]. rewrite set_agent_id by done. by destruct s.
Qed.

Lemma unchanged_agents_names s s' :
  unchanged_agents s s' -> map name (agents_of s') = map name (agents_of s).
Proof.
  induction 1 as [|a a' l l' [(_ & Hn & _) _] _ IH]; [done|].
  simpl. by rewrite Hn, IH.
Qed.

Lemma unchanged_agents_trans s1 s2 s3 :
  unchanged_agents s1 s2 -> unchanged_agents s2 s3 -> unchanged_agents s1 s3.
Proof.
  intros H1 H2. eapply Forall2_trans; [|exact H1|exact H2].
  intros a b c [? ?] [? ?]. split; by etrans.
Qed.

(** *** Phase 3 *)

Lemma validate_agent_step keeps all_valid i :
  preserves (run_step (fun ev => phase_of ev = Validating) keeps)
    (validate_agent all_valid i).
Proof.
  unfold validate_agent.
  apply preserves_bind; [apply _|apply await_quiet_step, quiet_validate|].
  intros valid.
  apply preserves_bind; [apply _|apply with_agent_quiet; pres|]. intros _.
  apply preserves_ret; apply _.
Qed.

Lemma validation_phase_step keeps n :
  preserves (run_step (fun ev => phase_of ev = Validating) keeps)
    (validation_phase n).
Proof.
  unfold validation_phase. apply preserves_for_in; [apply _|].
  intros. apply validate_agent_step.
Qed.

Lemma validate_agent_ok all_valid i s b s' :
  validate_agent all_valid i s = (Ok b, s') ->
  exists a valid,
    agents_of s !! i = Some a /\
    b = all_valid && valid /\
    unchanged_agents s s' /\
    history_of s' =
      history_of s
        ++ [EvCall Validating (name a); EvReturn Validating (name a) (RValid valid)].
Proof.
  unfold validate_agent. intros Hv.
  apply bind_ok_inv in Hv as (valid & s1 & Ha & Hv).
  apply bind_ok_inv in Hv as ([] & s2 & Hl & [= <- <-]).
  apply await_quiet_ok in Ha as (a & Hi & Hag & _ & Hh); [|apply quiet_validate].
  pose proof (preserves_run calm _ _ _ _ (with_agent_calm i _ (quiet_log _)) Hl)
    as (Hag' & Hh' & _).
  exists a, valid. split; [done|]. split; [done|]. split.
  - by eapply unchanged_agents_trans.
  - by rewrite Hh', Hh.
Qed.

Lemma validation_loop m : forall k acc s b s',
  for_in (seq k m) validate_agent acc s = (Ok b, s') ->
  exists evs,
    history_of s' = history_of s ++ evs /\
    unchanged_agents s s' /\
    map fst (verdicts evs) = map name (take m (drop k (agents_of s))) /\
    b = acc && forallb snd (verdicts evs).
Proof.
  induction m as [|m IH]; intros k acc s b s'; simpl.
  - intros [= <- <-]. exists []. rewrite app_nil_r, andb_true_r.
    repeat split; try done.
    apply Forall2_same_length_lookup_2; [done|].
    intros i a a' Ha Ha'. by assert (a' = a) as -> by congruence.
  - intros Hv. apply bind_ok_inv in Hv as (acc' & s1 & Hbody & Hrest).
    apply validate_agent_ok in Hbody as (a & valid & Hi & -> & Hag & Hh).
    apply IH in Hrest as (evs & Hh' & Hag' & Hnames & ->).
    eexists (_ :: _ :: evs). split; [|split; [|split]].
    + rewrite Hh', Hh, <- app_assoc. done.
    + by eapply unchanged_agents_trans.
    + change (map fst (verdicts (?x :: ?y :: evs)))
        with (name a :: map fst (verdicts evs)).
      rewrite Hnames, (drop_S _ _ _ Hi).
      change (take (S m) (a :: ?l)) with (a :: take m l).
      rewrite map_cons. f_equal.
      rewrite <- !firstn_map, <- !skipn_map.
      by rewrite (unchanged_agents_names _ _ Hag).
    + change (forallb snd (verdicts (?x :: ?y :: evs)))
        with (valid && forallb snd (verdicts evs)).
      by rewrite andb_assoc.
Qed.

(** *** Phase 1 *)

Lemma analyze_agent_step keeps all_issues i :
  preserves (run_step (fun ev => phase_of ev = Analyzing) keeps)
    (analyze_agent all_issues i).
Proof.
  unfold analyze_agent.
  apply preserves_bind; [apply _|apply with_agent_quiet; pres|]. intros _.
  apply preserves_bind; [apply _|apply await_quiet_step, quiet_analyze|].
  intros analysis.
  apply preserves_bind; [apply _|apply with_agent_quiet; pres|]. intros agent.
  apply preserves_bind; [apply _|apply with_agent_quiet; pres|]. intros _.
  apply preserves_ret; apply _.
Qed.

Lemma analysis_phase_step keeps n :
  preserves (run_step (fun ev => phase_of ev = Analyzing) keeps)
    (analysis_phase n).
Proof.
  unfold analysis_phase. apply preserves_for_in; [apply _|].
  intros. apply analyze_agent_step.
Qed.

Lemma analyze_agent_ok all_issues i s all_issues' s' :
  analyze_agent all_issues i s = (Ok all_issues', s') ->
  exists a analysis,
    agents_of s !! i = Some a /\
    all_issues' = <[name a := analysis]> all_issues /\
    unchanged_agents s s' /\
    history_of s' =
      history_of s
        ++ [EvCall Analyzing (name a);
            EvReturn Analyzing (name a) (RIssues (length (issues analysis)))].
Proof.
  unfold analyze_agent. intros Hv.
  apply bind_ok_inv in Hv as ([] & s1 & Hl & Hv).
  apply bind_ok_inv in Hv as (analysis & s2 & Ha & Hv).
  apply bind_ok_inv in Hv as (agent & s3 & Hn & Hv).
  apply bind_ok_inv in Hv as ([] & s4 & Hl' & [= <- <-]).
  pose proof (preserves_run calm _ _ _ _ (with_agent_calm i _ (quiet_log _)) Hl)
    as Hc1.
  pose proof (preserves_run calm _ _ _ _ (with_agent_calm i _ (quiet_log _)) Hl')
    as Hc4.
  apply await_quiet_ok in Ha as (a1 & Hi1 & Hag & _ & Hh); [|apply quiet_analyze].
  apply with_agent_get in Hn as [(_ & _ & ?)|(a2 & Hi2 & [= ->] & ->)]; [done|].
  destruct (with_agent_inv _ _ _ _ _ Hl) as [(_ & _ & ?)|(a & _ & Hi & _)]; [done|].
  destruct (calm_lookup _ _ _ _ Hc1 Hi) as (a1' & Hi1' & (_ & Hn1 & _) & _).
  assert (a1' = a1) as -> by congruence.
  destruct (Forall2_lookup_l _ _ _ _ _ Hag Hi1) as (a2' & Hi2' & (_ & Hn2 & _) & _).
  assert (a2' = a2) as -> by congruence.
  exists a, analysis. split; [done|]. split; [by rewrite Hn2, Hn1|]. split.
  - destruct Hc1 as (H1 & _), Hc4 as (H4 & _).
    eapply unchanged_agents_trans; [exact H1|].
    eapply unchanged_agents_trans; [exact Hag|exact H4].
  - destruct Hc1 as (_ & Ht1 & _), Hc4 as (_ & Ht4 & _).
    by rewrite Ht4, Hh, Ht1, Hn1.
Qed.

Lemma analysis_loop m : forall k acc s all_issues s',
  for_in (seq k m) analyze_agent acc s = (Ok all_issues, s') ->
  exists evs,
    history_of s' = history_of s ++ evs /\
    unchanged_agents s s' /\
    (forall j a, k <= j < k + m -> agents_of s !! j = Some a ->
       is_Some (all_issues !! name a) /\
       exists n, EvReturn Analyzing (name a) (RIssues n) ∈ evs) /\
    (forall agent analysis, all_issues !! agent = Some analysis ->
       acc !! agent = Some analysis \/
       EvReturn Analyzing agent (RIssues (length (issues analysis))) ∈ evs) /\
    (forall agent, is_Some (acc !! agent) -> is_Some (all_issues !! agent)).
Proof.
  induction m as [|m IH]; intros k acc s all_issues s'; simpl.
  - intros [= <- <-]. exists []. rewrite app_nil_r.
    split; [done|]. split; [|split; [|split]]; [|intros; lia|auto|auto].
    apply Forall2_same_length_lookup_2; [done|].
    intros i a a' Ha Ha'. by assert (a' = a) as -> by congruence.
  - intros Hv. apply bind_ok_inv in Hv as (acc' & s1 & Hbody & Hrest).
    apply analyze_agent_ok in Hbody as (a & analysis & Hi & -> & Hag & Hh).
    apply IH in Hrest as (evs & Hh' & Hag' & Hall & Hdict & Hdom).
    eexists (_ :: _ :: evs). split; [|split; [|split; [|split]]].
    + rewrite Hh', Hh, <- app_assoc. done.
    + by eapply unchanged_agents_trans.
    + intros j b Hj Hb.
      destruct (decide (j = k)) as [->|Hne].
      * assert (b = a) as -> by congruence. split.
        -- apply Hdom. rewrite lookup_insert_eq. by eexists.
        -- eexists. apply list_elem_of_further, list_elem_of_here.
      * destruct (Forall2_lookup_l _ _ _ _ _ Hag Hb) as (b' & Hb' & (_ & Hn & _) & _).
        destruct (Hall j b') as [Hsome (n & Hin)]; [lia|done|].
        rewrite Hn in Hsome, Hin. split; [done|].
        exists n. by do 2 apply list_elem_of_further.
    + intros agent an Hlook. destruct (Hdict agent an Hlook) as [Hacc|Hin].
      * destruct (decide (name a = agent)) as [<-|Hne].
        -- rewrite lookup_insert_eq in Hacc. injection Hacc as ->.
           right. apply list_elem_of_further, list_elem_of_here.
        -- rewrite lookup_insert_ne in Hacc by done. by left.
      * right. by do 2 apply list_elem_of_further.
    + intros agent Hsome. apply Hdom.
      destruct (decide (name a = agent)) as [<-|Hne].
      * rewrite lookup_insert_eq. by eexists.
      * by rewrite lookup_insert_ne.
Qed.

(** *** Phase 2 *)

Lemma await_fix_inv i l s r s' :
  await Fixing i (fix_ l) RFixed s = (r, s') ->
  (agents_of s !! i = None /\ s' = s /\ r = Raise IndexError) \/
  (exists a a' ms,
     agents_of s !! i = Some a /\ same_agent a a' /\
     modifications_made a' = modifications_made a ++ ms /\
     agents_of s' = <[i:=a']> (agents_of s) /\
     history_of s' =
       history_of s ++ EvCall Fixing (name a) :: map (EvRecord (name a)) ms
         ++ match r with
            | Ok o => [EvReturn Fixing (name a) (RFixed o)]
            | Raise _ => []
            end).
Proof.
  intros Hw.
  apply await_inv in Hw as [?|(a & ra & sa & Hi & Hrun & Hres)]; [by left|].
  right.
  apply (preserves_run _ _ _ _ _ (records_fix l)) in Hrun
    as (Hsame & ms & Hmods & Htr).
  simpl in Hsame, Hmods, Htr.
  exists a, (self sa), ms. split; [done|]. split; [done|]. split; [done|].
  destruct ra as [o|e]; destruct Hres as [-> ->]; simpl; (split; [done|]).
  - rewrite Htr, <- !app_assoc. done.
  - rewrite Htr, <- !app_assoc, app_nil_r. done.
Qed.

Lemma await_fix_step all_issues i l s :
  (forall a, agents_of s !! i = Some a -> ~ passed_over all_issues (name a)) ->
  run_step (fixing_event all_issues) (passed_over all_issues) s
    (await Fixing i (fix_ l) RFixed s).2.
Proof.
  intros Hpre. destruct (await _ _ _ _ s) as [r s'] eqn:Hw. simpl.
  apply await_fix_inv in Hw
    as [(_ & -> & _)|(a & a' & ms & Hi & Hsame & Hmods & Hag & Hh)];
    [reflexivity|].
  specialize (Hpre a Hi). split.
  - rewrite Hag. apply (Forall2_insert_refl _ _ i a); [|done|by split].
    intros b. apply agent_step_refl.
  - eexists. split; [exact Hh|].
    apply Forall_cons. split; [by split|].
    apply Forall_app. split.
    + apply Forall_map, Forall_true. by split.
    + destruct r; [|done]. apply Forall_singleton. by split.
Qed.

Lemma fix_agent_step all_issues i :
  preserves (run_step (fixing_event all_issues) (passed_over all_issues))
    (fix_agent all_issues i).
Proof.
  intros s. destruct (fix_agent all_issues i s) as [r s'] eqn:Hf. simpl.
  unfold fix_agent in Hf.
  apply bind_inv in Hf as [(e & Hn & ->)|(agent & s1 & Hn & Hf)].
  { apply with_agent_get in Hn as [(_ & -> & _)|(? & _ & ? & _)]; [reflexivity|done]. }
  apply with_agent_get in Hn as [(_ & _ & ?)|(a & Hi & [= ->] & ->)]; [done|].
  destruct (all_issues !! name a) as [analysis|] eqn:Hai;
    [|injection Hf as <- <-; reflexivity].
  rewrite (bind_ok _ _ _ _ _ (eq_refl : ret analysis s = (Ok analysis, s))) in Hf.
  destruct (issues analysis) as [|issue rest] eqn:Hissues.
  { apply calm_run_step.
    exact (preserves_run calm _ _ _ _ (with_agent_calm i _ (quiet_log _)) Hf). }
  assert (~ passed_over all_issues (name a)) as Hnot.
  { intros (an & Han & Hnil). congruence. }
  assert (forall s2, calm s s2 ->
            forall b, agents_of s2 !! i = Some b -> ~ passed_over all_issues (name b))
    as Hnot'.
  { intros s2 Hc b Hb.
    destruct (calm_lookup _ _ _ _ Hc Hi) as (b' & Hb' & (_ & Hnb & _) & _).
    assert (b' = b) as -> by congruence. by rewrite Hnb. }
  apply bind_inv in Hf as [(e & Hl & ->)|([] & s2 & Hl & Hf)].
  { apply calm_run_step.
    exact (preserves_run calm _ _ _ _ (with_agent_calm i _ (quiet_log _)) Hl). }
  pose proof (preserves_run calm _ _ _ _ (with_agent_calm i _ (quiet_log _)) Hl)
    as Hc.
  etrans; [apply calm_run_step, Hc|].
  pose proof (await_fix_step all_issues i (issue :: rest) s2 (Hnot' s2 Hc)) as Hstep.
  apply bind_inv in Hf as [(e & Ha & ->)|(o & s3 & Ha & Hf)].
  { by rewrite Ha in Hstep. }
  rewrite Ha in Hstep. etrans; [exact Hstep|].
  apply calm_run_step.
  exact (preserves_run calm _ _ _ _ (with_agent_calm i _ (quiet_log _)) Hf).
Qed.

Lemma fixing_phase_step all_issues n :
  preserves (run_step (fixing_event all_issues) (passed_over all_issues))
    (fixing_phase n all_issues).
Proof.
  unfold fixing_phase. apply preserves_for_each; [apply _|].
  intros. apply fix_agent_step.
Qed.

Lemma fixes_returned_nil : fixes_returned [].
Proof. intros agent Hin. by apply elem_of_nil in Hin. Qed.

Lemma fixes_returned_app evs evs' :
  fixes_returned evs -> fixes_returned evs' -> fixes_returned (evs ++ evs').
Proof.
  intros H1 H2 agent Hin. apply elem_of_app in Hin as [Hin|Hin].
  - destruct (H1 agent Hin) as [o Ho]. exists o. apply elem_of_app. by left.
  - destruct (H2 agent Hin) as [o Ho]. exists o. apply elem_of_app. by right.
Qed.

Lemma fix_agent_ok all_issues i s s' :
  fix_agent all_issues i s = (Ok tt, s') ->
  exists evs, history_of s' = history_of s ++ evs /\ fixes_returned evs.
Proof.
  unfold fix_agent. intros Hf.
  apply bind_ok_inv in Hf as (agent & s1 & Hn & Hf).
  apply with_agent_get in Hn as [(_ & _ & ?)|(a & Hi & [= ->] & ->)]; [done|].
  destruct (all_issues !! name a) as [analysis|] eqn:Hai; [|done].
  rewrite (bind_ok _ _ _ _ _ (eq_refl : ret analysis s = (Ok analysis, s))) in Hf.
  destruct (issues analysis) as [|issue rest] eqn:Hissues.
  { pose proof (preserves_run calm _ _ _ _ (with_agent_calm i _ (quiet_log _)) Hf)
      as (_ & Hh & _).
    exists []. rewrite app_nil_r. split; [done|apply fixes_returned_nil]. }
  apply bind_ok_inv in Hf as ([] & s2 & Hl & Hf).
  apply bind_ok_inv in Hf as (o & s3 & Ha & Hf).
  pose proof (preserves_run calm _ _ _ _ (with_agent_calm i _ (quiet_log _)) Hl)
    as (_ & Hh2 & _).
  pose proof (preserves_run calm _ _ _ _ (with_agent_calm i _ (quiet_log _)) Hf)
    as (_ & Hh' & _).
  apply await_fix_inv in Ha as [(_ & _ & ?)|(b & b' & ms & _ & _ & _ & _ & Hh3)];
    [done|].
  eexists. split; [by rewrite Hh', Hh3, Hh2|].
  intros agent Hin. exists o.
  apply elem_of_cons in Hin as [[= <-]|Hin]; [set_solver|].
  apply elem_of_app in Hin as [Hin|Hin].
  - apply list_elem_of_fmap in Hin as (? & ? & _). done.
  - apply list_elem_of_singleton in Hin. done.
Qed.

Lemma fixing_loop all_issues m : forall k s s',
  for_each (seq k m) (fix_agent all_issues) s = (Ok tt, s') ->
  exists evs, history_of s' = history_of s ++ evs /\ fixes_returned evs.
Proof.
  unfold for_each.
  induction m as [|m IH]; intros k s s'; simpl.
  - intros [= <-]. exists []. rewrite app_nil_r.
    split; [done|apply fixes_returned_nil].
  - intros Hv. apply bind_ok_inv in Hv as ([] & s1 & Hbody & Hrest).
    apply fix_agent_ok in Hbody as (evs & Hh & Hret).
    apply IH in Hrest as (evs' & Hh' & Hret').
    exists (evs ++ evs'). split; [by rewrite Hh', Hh, app_assoc|].
    by apply fixes_returned_app.
Qed.

(** *** The run *)

#[global] Instance still_preorder : PreOrder still.
Proof.
  split.
  - by intros s.
  - intros s1 s2 s3 [? ?] [? ?]. split; by etrans.
Qed.

Lemma still_update_fs {A} (f : FS -> Res A * FS) :
  preserves still (update_fs (S := St) f).
Proof. intros s. unfold update_fs. by destruct (f _). Qed.

Lemma still_datetime_now : preserves still (datetime_now (S := St)).
Proof. by intros s. Qed.

Lemma still_this_get {A} (f : t -> A) : preserves still (this_get f).
Proof. by intros s. Qed.

Lemma create_backup_still : preserves still _create_backup.
Proof.
  unfold _create_backup, copytree.
  repeat (first [ apply preserves_bind; [apply _| |intros ?]
                | apply preserves_ret; apply _
                | apply still_update_fs | apply still_datetime_now
                | apply still_this_get ]).
Qed.

Lemma generate_final_report_still all_issues backup_path success :
  preserves still (_generate_final_report all_issues backup_path success).
Proof.
  unfold _generate_final_report, write_text.
  repeat (first [ apply preserves_bind; [apply _| |intros ?]
                | apply preserves_ret; apply _
                | apply still_update_fs | apply still_datetime_now
                | apply still_this_get ]).
Qed.

Lemma run_full_upgrade_ends s r s' :
  run_full_upgrade s = (r, s') -> run_ends s r s'.
Proof.
  unfold run_full_upgrade. intros Hrun.
  apply bind_inv in Hrun as [(e & H0 & ->)|(bp & s0 & H0 & Hrun)];
    [by eapply backup_fails|].
  apply bind_inv in Hrun as [(e & Hn & ->)|(n & s0' & [= <- <-] & Hrun)]; [done|].
  apply bind_inv in Hrun as [(e & H1 & ->)|(ai & s1 & H1 & Hrun)];
    [by eapply analysis_fails|].
  apply bind_inv in Hrun as [(e & H2 & ->)|([] & s2 & H2 & Hrun)];
    [by eapply fixing_fails|].
  apply bind_inv in Hrun as [(e & H3 & ->)|(b & s3 & H3 & Hrun)];
    [by eapply validation_fails|].
  apply bind_inv in Hrun as [(e & H4 & ->)|([] & s4 & H4 & [= <- <-])];
    [by eapply report_fails|by eapply run_completes].
Qed.

Lemma seq_lookup_agents (l : list Agent) a :
  a ∈ l -> exists j, 0 <= j < 0 + length l /\ l !! j = Some a.
Proof.
  intros Hin. apply list_elem_of_lookup in Hin as [j Hj]. exists j.
  split; [|done]. apply lookup_lt_Some in Hj. lia.
Qed.

Lemma analysis_summary s r s1 :
  analysis_phase (length (agents_of s)) s = (r, s1) ->
  exists h1,
    history_of s1 = history_of s ++ h1 /\
    Forall (fun ev => phase_of ev = Analyzing) h1 /\
    Forall2 (agent_step (fun _ => True)) (agents_of s) (agents_of s1) /\
    (forall all_issues, r = Ok all_issues ->
       analyses_returned (agents_of s) h1 /\
       (forall a, a ∈ agents_of s -> is_Some (all_issues !! name a)) /\
       (forall agent analysis, all_issues !! agent = Some analysis ->
          EvReturn Analyzing agent (RIssues (length (issues analysis))) ∈ h1)).
Proof.
  intros Hrun.
  pose proof (preserves_run _ _ _ _ _
                (analysis_phase_step (fun _ => True) _) Hrun)
    as (Hag & h1 & Hh & Hph).
  exists h1. split; [done|]. split; [done|]. split; [done|].
  intros all_issues ->.
  apply analysis_loop in Hrun as (evs & Hh' & _ & Hall & Hdict & _).
  assert (evs = h1) as -> by (rewrite Hh' in Hh; by apply app_inv_head in Hh).
  split; [|split].
  - intros a Hin. apply seq_lookup_agents in Hin as (j & Hj & Hlook).
    by destruct (Hall j a Hj Hlook) as [_ ?].
  - intros a Hin. apply seq_lookup_agents in Hin as (j & Hj & Hlook).
    by destruct (Hall j a Hj Hlook) as [? _].
  - intros agent an Hlook. destruct (Hdict agent an Hlook) as [Hempty|?]; [|done].
    by rewrite lookup_empty in Hempty.
Qed.

Lemma fixing_summary n all_issues s r s2 :
  fixing_phase n all_issues s = (r, s2) ->
  exists h2,
    history_of s2 = history_of s ++ h2 /\
    Forall (fixing_event all_issues) h2 /\
    Forall2 (agent_step (passed_over all_issues)) (agents_of s) (agents_of s2) /\
    (r = Ok tt -> fixes_returned h2).
Proof.
  intros Hrun.
  pose proof (preserves_run _ _ _ _ _ (fixing_phase_step all_issues n) Hrun)
    as (Hag & h2 & Hh & Hph).
  exists h2. split; [done|]. split; [done|]. split; [done|].
  intros ->. apply fixing_loop in Hrun as (evs & Hh' & Hret).
  assert (evs = h2) as -> by (rewrite Hh' in Hh; by apply app_inv_head in Hh).
  done.
Qed.

Lemma validation_summary s r s3 :
  validation_phase (length (agents_of s)) s = (r, s3) ->
  exists h3,
    history_of s3 = history_of s ++ h3 /\
    Forall (fun ev => phase_of ev = Validating) h3 /\
    Forall2 (agent_step (fun _ => True)) (agents_of s) (agents_of s3) /\
    (forall all_valid, r = Ok all_valid ->
       map fst (verdicts h3) = map name (agents_of s) /\
       all_valid = forallb snd (verdicts h3)).
Proof.
  intros Hrun.
  pose proof (preserves_run _ _ _ _ _
                (validation_phase_step (fun _ => True) _) Hrun)
    as (Hag & h3 & Hh & Hph).
  exists h3. split; [done|]. split; [done|]. split; [done|].
  intros all_valid ->.
  apply validation_loop in Hrun as (evs & Hh' & _ & Hnames & Hb).
  assert (evs = h3) as -> by (rewrite Hh' in Hh; by apply app_inv_head in Hh).
  split; [|done]. rewrite Hnames. unfold drop. by rewrite firstn_all.
Qed.

Lemma kept_lookup keeps l l' k a :
  Forall2 (agent_step keeps) l l' -> l !! k = Some a -> keeps (name a) ->
  exists a', l' !! k = Some a' /\ name a' = name a /\
             modifications_made a' = modifications_made a.
Proof.
  intros Hag Hk Hkeep.
  destruct (Forall2_lookup_l _ _ _ _ _ Hag Hk) as (a' & Hk' & (_ & Hn & _) & Hm).
  exists a'. auto.
Qed.

Lemma agent_step_names keeps l l' :
  Forall2 (agent_step keeps) l l' -> map name l' = map name l.
Proof.
  induction 1 as [|a a' l l' [(_ & Hn & _) _] _ IH]; [done|].
  simpl. by rewrite Hn, IH.
Qed.

Lemma analysed_passed_over (agents : list Agent) all_issues (h1 : list Event) k a :
  (forall b, b ∈ agents -> is_Some (all_issues !! name b)) ->
  (forall agent analysis, all_issues !! agent = Some analysis ->
     EvReturn Analyzing agent (RIssues (length (issues analysis))) ∈ h1) ->
  agents !! k = Some a ->
  (forall n, EvReturn Analyzing (name a) (RIssues n) ∈ h1 -> n = 0) ->
  passed_over all_issues (name a).
Proof.
  intros Hsome Hdict Hk Hzero.
  destruct (Hsome a) as [an Han]; [by eapply list_elem_of_lookup_2|].
  exists an. split; [done|]. apply length_zero_iff_nil, Hzero, Hdict, Han.
Qed.

Lemma fixing_events_avoid all_issues h2 agent :
  Forall (fixing_event all_issues) h2 -> passed_over all_issues agent ->
  Forall (fun ev => agent_of ev <> agent) h2.
Proof.
  intros Hp Hpass. eapply Forall_impl; [exact Hp|].
  intros ev [_ Hnot] Heq. apply Hnot. by rewrite Heq.
Qed.

Lemma fixing_events_phase all_issues h2 :
  Forall (fixing_event all_issues) h2 -> Forall (fun ev => phase_of ev = Fixing) h2.
Proof. intros Hp. eapply Forall_impl; [exact Hp|]. by intros ev [? _]. Qed.

(** The history of a run, phase by phase. *)
Lemma run_segments s r s' :
  run_ends s r s' ->
  exists h1 h2 h3,
    history_of s' = history_of s ++ h1 ++ h2 ++ h3 /\
    Forall (fun ev => phase_of ev = Analyzing) h1 /\
    Forall (fun ev => phase_of ev = Fixing) h2 /\
    Forall (fun ev => phase_of ev = Validating) h3 /\
    (h2 ++ h3 <> [] -> analyses_returned (agents_of s) h1) /\
    (h3 <> [] -> fixes_returned h2) /\
    (forall all_valid, r = Ok all_valid ->
       map fst (verdicts h3) = map name (agents_of s) /\
       all_valid = forallb snd (verdicts h3)) /\
    (forall k a, agents_of s !! k = Some a ->
       (forall n, EvReturn Analyzing (name a) (RIssues n) ∈ h1 -> n = 0) ->
       Forall (fun ev => agent_of ev <> name a) h2 /\
       exists a', agents_of s' !! k = Some a' /\
                  modifications_made a' = modifications_made a).
Proof.
  intros Hends.
  assert (forall bp s0, _create_backup s = (Ok bp, s0) ->
            this s0 = this s /\ history_of s0 = history_of s) as Hbackup.
  { intros bp s0 Hb. exact (preserves_run _ _ _ _ _ create_backup_still Hb). }
  assert (forall ai bp b s3 r4 s4,
            _generate_final_report ai bp b s3 = (r4, s4) ->
            this s4 = this s3 /\ history_of s4 = history_of s3) as Hreport.
  { intros ai bp b s3 r4 s4 Hb.
    exact (preserves_run _ _ _ _ _ (generate_final_report_still _ _ _) Hb). }
  assert (forall (l l' : list Agent) k a,
            Forall2 (agent_step (fun _ => True)) l l' -> l !! k = Some a ->
            exists a', l' !! k = Some a' /\ name a' = name a /\
                       modifications_made a' = modifications_made a) as Hsame.
  { intros l l' k a Hag Hk. by eapply kept_lookup. }
  destruct Hends as
    [ e s0 H0
    | bp s0 e s1 H0 H1
    | bp s0 ai s1 e s2 H0 H1 H2
    | bp s0 ai s1 s2 e s3 H0 H1 H2 H3
    | bp s0 ai s1 s2 b s3 e s4 H0 H1 H2 H3 H4
    | bp s0 ai s1 s2 b s3 s4 H0 H1 H2 H3 H4 ].
  - (* the backup fails *)
    pose proof (preserves_run _ _ _ _ _ create_backup_still H0) as [Hthis Hh].
    exists [], [], []. rewrite Hh, Hthis, !app_nil_r.
    repeat split; try done. eauto.
  - (* the analysis fails *)
    destruct (Hbackup _ _ H0) as [Hthis Hh0].
    apply analysis_summary in H1 as (h1 & Hh1 & Hp1 & Hag1 & _).
    rewrite Hthis in Hag1.
    exists h1, [], []. rewrite Hh1, Hh0, !app_nil_r.
    repeat split; try done.
    destruct (Hsame _ _ _ _ Hag1 H) as (a' & ? & _ & ?). eauto.
  - (* a fix fails *)
    destruct (Hbackup _ _ H0) as [Hthis Hh0].
    apply analysis_summary in H1 as (h1 & Hh1 & Hp1 & Hag1 & Hok1).
    destruct (Hok1 ai eq_refl) as (Hret & Hsome & Hdict).
    apply fixing_summary in H2 as (h2 & Hh2 & Hp2 & Hag2 & _).
    rewrite Hthis in Hag1, Hret, Hsome.
    exists h1, h2, []. rewrite Hh2, Hh1, Hh0, !app_nil_r, <- app_assoc.
    split; [done|]. split; [done|].
    split; [by eapply fixing_events_phase|].
    split; [done|]. split; [done|]. split; [done|]. split; [done|].
    intros k a Hk Hzero.
    pose proof (analysed_passed_over _ _ _ _ _ Hsome Hdict Hk Hzero) as Hpass.
    split; [by eapply fixing_events_avoid|].
    destruct (Hsame _ _ _ _ Hag1 Hk) as (a1 & Hk1 & Hn1 & Hm1).
    destruct (kept_lookup _ _ _ _ _ Hag2 Hk1) as (a2 & Hk2 & Hn2 & Hm2);
      [by rewrite Hn1|].
    exists a2. split; [done|]. congruence.
  - (* a validation fails *)
    destruct (Hbackup _ _ H0) as [Hthis Hh0].
    apply analysis_summary in H1 as (h1 & Hh1 & Hp1 & Hag1 & Hok1).
    destruct (Hok1 ai eq_refl) as (Hret & Hsome & Hdict).
    apply fixing_summary in H2 as (h2 & Hh2 & Hp2 & Hag2 & Hok2).
    assert (length (agents_of s0) = length (agents_of s2)) as Hlen.
    { rewrite (Forall2_length _ _ _ Hag1). apply (Forall2_length _ _ _ Hag2). }
    rewrite Hlen in H3.
    apply validation_summary in H3 as (h3 & Hh3 & Hp3 & Hag3 & _).
    rewrite Hthis in Hag1, Hret, Hsome.
    exists h1, h2, h3. rewrite Hh3, Hh2, Hh1, Hh0, <- !app_assoc.
    split; [done|]. split; [done|].
    split; [by eapply fixing_events_phase|].
    split; [done|]. split; [done|]. split; [auto|]. split; [done|].
    intros k a Hk Hzero.
    pose proof (analysed_passed_over _ _ _ _ _ Hsome Hdict Hk Hzero) as Hpass.
    split; [by eapply fixing_events_avoid|].
    destruct (Hsame _ _ _ _ Hag1 Hk) as (a1 & Hk1 & Hn1 & Hm1).
    destruct (kept_lookup _ _ _ _ _ Hag2 Hk1) as (a2 & Hk2 & Hn2 & Hm2);
      [by rewrite Hn1|].
    destruct (Hsame _ _ _ _ Hag3 Hk2) as (a3 & Hk3 & Hn3 & Hm3).
    exists a3. split; [done|]. congruence.
  - (* the report fails *)
    destruct (Hbackup _ _ H0) as [Hthis Hh0].
    destruct (Hreport _ _ _ _ _ _ H4) as [Hthis4 Hh4].
    apply analysis_summary in H1 as (h1 & Hh1 & Hp1 & Hag1 & Hok1).
    destruct (Hok1 ai eq_refl) as (Hret & Hsome & Hdict).
    apply fixing_summary in H2 as (h2 & Hh2 & Hp2 & Hag2 & Hok2).
    assert (length (agents_of s0) = length (agents_of s2)) as Hlen.
    { rewrite (Forall2_length _ _ _ Hag1). apply (Forall2_length _ _ _ Hag2). }
    rewrite Hlen in H3.
    apply validation_summary in H3 as (h3 & Hh3 & Hp3 & Hag3 & _).
    rewrite Hthis in Hag1, Hret, Hsome.
    exists h1, h2, h3. rewrite Hh4, Hthis4, Hh3, Hh2, Hh1, Hh0, <- !app_assoc.
    split; [done|]. split; [done|].
    split; [by eapply fixing_events_phase|].
    split; [done|]. split; [done|]. split; [auto|]. split; [done|].
    intros k a Hk Hzero.
    pose proof (analysed_passed_over _ _ _ _ _ Hsome Hdict Hk Hzero) as Hpass.
    split; [by eapply fixing_events_avoid|].
    destruct (Hsame _ _ _ _ Hag1 Hk) as (a1 & Hk1 & Hn1 & Hm1).
    destruct (kept_lookup _ _ _ _ _ Hag2 Hk1) as (a2 & Hk2 & Hn2 & Hm2);
      [by rewrite Hn1|].
    destruct (Hsame _ _ _ _ Hag3 Hk2) as (a3 & Hk3 & Hn3 & Hm3).
    exists a3. split; [done|]. congruence.
  - (* the run completes *)
    destruct (Hbackup _ _ H0) as [Hthis Hh0].
    destruct (Hreport _ _ _ _ _ _ H4) as [Hthis4 Hh4].
    apply analysis_summary in H1 as (h1 & Hh1 & Hp1 & Hag1 & Hok1).
    destruct (Hok1 ai eq_refl) as (Hret & Hsome & Hdict).
    apply fixing_summary in H2 as (h2 & Hh2 & Hp2 & Hag2 & Hok2).
    assert (length (agents_of s0) = length (agents_of s2)) as Hlen.
    { rewrite (Forall2_length _ _ _ Hag1). apply (Forall2_length _ _ _ Hag2). }
    rewrite Hlen in H3.
    apply validation_summary in H3 as (h3 & Hh3 & Hp3 & Hag3 & Hok3).
    destruct (Hok3 b eq_refl) as [Hnames Hb].
    rewrite Hthis in Hag1, Hret, Hsome.
    exists h1, h2, h3. rewrite Hh4, Hthis4, Hh3, Hh2, Hh1, Hh0, <- !app_assoc.
    split; [done|]. split; [done|].
    split; [by eapply fixing_events_phase|].
    split; [done|]. split; [done|]. split; [auto|]. split.
    { intros ? [= <-]. split; [|done]. rewrite Hnames.
      rewrite (agent_step_names _ _ _ Hag2). apply (agent_step_names _ _ _ Hag1). }
    intros k a Hk Hzero.
    pose proof (analysed_passed_over _ _ _ _ _ Hsome Hdict Hk Hzero) as Hpass.
    split; [by eapply fixing_events_avoid|].
    destruct (Hsame _ _ _ _ Hag1 Hk) as (a1 & Hk1 & Hn1 & Hm1).
    destruct (kept_lookup _ _ _ _ _ Hag2 Hk1) as (a2 & Hk2 & Hn2 & Hm2);
      [by rewrite Hn1|].
    destruct (Hsame _ _ _ _ Hag3 Hk2) as (a3 & Hk3 & Hn3 & Hm3).
    exists a3. split; [done|]. congruence.
Qed.

End OrchestratorSteps.

(** * Properties of the runs *)

(** ** The verdict of a run *)

Lemma verdicts_app evs evs' : verdicts (evs ++ evs') = verdicts evs ++ verdicts evs'.
Proof. unfold verdicts. apply omap_app. Qed.

Lemma verdicts_other_phase evs :
  Forall (fun ev => phase_of ev <> Validating) evs -> verdicts evs = [].
Proof.
  induction 1 as [|ev evs Hev _ IH]; [done|].
  change (verdicts (ev :: evs))
    with (match verdict ev with Some v => v :: verdicts evs | None => verdicts evs end).
  rewrite IH. by destruct ev as [| [] ? []|].
Qed.

Lemma main_inv args e r f :
  AgentTeam.main args (AgentTeam.enter e) = (r, f) ->
  exists o res s',
    MasterOrchestrator.agents o =
      [ TestCoverageAgent.__init__ (PurePath.parts (AgentTeam.project_path args));
        ArchitectureAgent.__init__ (PurePath.parts (AgentTeam.project_path args));
        SecurityAgent.__init__ (PurePath.parts (AgentTeam.project_path args));
        PerformanceAgent.__init__ (PurePath.parts (AgentTeam.project_path args));
        DocumentationAgent.__init__ (PurePath.parts (AgentTeam.project_path args)) ] /\
    MasterOrchestrator.run_full_upgrade
      {| MasterOrchestrator.this := o; MasterOrchestrator.env := tick e |} = (res, s') /\
    f = {| AgentTeam.orchestrator := Some (MasterOrchestrator.this s');
           AgentTeam.env := MasterOrchestrator.env s' |} /\
    r = match res with
        | Ok success => Ok (if success : bool then 0%Z else 1%Z)
        | Raise x => Raise x
        end.
Proof.
  unfold AgentTeam.main, AgentTeam.new_orchestrator, AgentTeam.with_orchestrator,
    AgentTeam.enter, bind. cbn.
  destruct (MasterOrchestrator.run_full_upgrade _) as [res s'] eqn:Hrun.
  intros Hmain. eexists _, res, s'. split; [|split; [exact Hrun|]]; [done|].
  destruct res; by injection Hmain as <- <-.
Qed.

(** C3. When [main] returns, the history of the run holds one verdict of
    [validate] for each of the five agents, in the order of the roster; the
    value [run_full_upgrade] returned is the conjunction of these verdicts,
    and the status of the process is 0 when the conjunction is true and 1
    when one of the verdicts is false. *)
Theorem overall_success_is_conjunction args e code f :
  AgentTeam.main args (AgentTeam.enter e) = (Ok code, f) ->
  exists evs success,
    trace (AgentTeam.env f) = trace e ++ evs /\
    map fst (verdicts evs) =
      ["TestCoverageAgent"; "ArchitectureAgent"; "SecurityAgent";
       "PerformanceAgent"; "DocumentationAgent"] /\
    success = forallb snd (verdicts evs) /\
    code = (if success then 0 else 1)%Z /\
    exit_status (Ok code) = (if forallb snd (verdicts evs) then 0 else 1)%Z.
Proof.
  intros Hmain.
  apply main_inv in Hmain as (o & res & s' & Hagents & Hrun & -> & Hres).
  destruct res as [success|x]; [injection Hres as ->|done].
  apply run_full_upgrade_ends, run_segments in Hrun
    as (h1 & h2 & h3 & Hh & Hp1 & Hp2 & Hp3 & _ & _ & Hverdict & _).
  destruct (Hverdict success eq_refl) as [Hnames Hsuccess].
  exists (h1 ++ h2 ++ h3), success. cbn in Hh |- *.
  rewrite !verdicts_app.
  rewrite (verdicts_other_phase h1), (verdicts_other_phase h2); cycle 1.
  { eapply Forall_impl; [exact Hp2|]. by intros ev ->. }
  { eapply Forall_impl; [exact Hp1|]. by intros ev ->. }
  cbn [app]. cbn in Hnames. rewrite Hagents in Hnames.
  rewrite Hnames, <- Hsuccess. done.
Qed.

Lemma overall_success_witness :
  exists evs success,
    trace (AgentTeam.env (AgentTeam.main sample_args (AgentTeam.enter empty_project)).2)
      = trace empty_project ++ evs /\
    map fst (verdicts evs) =
      ["TestCoverageAgent"; "ArchitectureAgent"; "SecurityAgent";
       "PerformanceAgent"; "DocumentationAgent"] /\
    success = forallb snd (verdicts evs) /\
    1%Z = (if success then 0 else 1)%Z /\
    exit_status (Ok 1%Z) = (if forallb snd (verdicts evs) then 0 else 1)%Z.
Proof.
  apply (overall_success_is_conjunction sample_args empty_project 1%Z).
  apply pair_eta_eq. vm_compute. reflexivity.
Defined.

(** ** The order of the phases *)

Lemma phase_segments_ordered (h1 h2 h3 : list Event) :
  Forall (fun ev => phase_of ev = Analyzing) h1 ->
  Forall (fun ev => phase_of ev = Fixing) h2 ->
  Forall (fun ev => phase_of ev = Validating) h3 ->
  forall i j e1 e2,
    (h1 ++ h2 ++ h3) !! i = Some e1 -> (h1 ++ h2 ++ h3) !! j = Some e2 ->
    phase_index (phase_of e1) < phase_index (phase_of e2) -> i < j.
Proof.
  intros Hp1 Hp2 Hp3 i j e1 e2 Hi Hj Hlt.
  rewrite Forall_lookup in Hp1, Hp2, Hp3.
  apply lookup_app_Some in Hi as [Hi|[Hi1 Hi]];
    [|apply lookup_app_Some in Hi as [Hi|[Hi2 Hi]]];
    (apply lookup_app_Some in Hj as [Hj|[Hj1 Hj]];
      [|apply lookup_app_Some in Hj as [Hj|[Hj2 Hj]]]);
    repeat match goal with
           | H : h1 !! _ = Some _ |- _ =>
               pose proof (lookup_lt_Some _ _ _ H); apply Hp1 in H
           | H : h2 !! _ = Some _ |- _ =>
               pose proof (lookup_lt_Some _ _ _ H); apply Hp2 in H
           | H : h3 !! _ = Some _ |- _ =>
               pose proof (lookup_lt_Some _ _ _ H); apply Hp3 in H
           end;
    repeat match goal with
           | H : phase_of _ = _ |- _ => rewrite H in Hlt
           end;
    simpl in Hlt; lia.
Qed.

(** C4. The history a run adds is ordered by phase: an entry of an earlier
    phase stands before every entry of a later phase, where the calls and
    returns of [analyze], [fix] and [validate] belong to their phases and a
    recorded modification to the fixing phase. When an entry of a later
    phase than the analysis exists, every agent has returned from [analyze];
    when a validation entry exists, every call of [fix] has returned. *)
Theorem phases_are_globally_ordered (s : MasterOrchestrator.St) :
  exists evs,
    history_of (MasterOrchestrator.run_full_upgrade s).2 = history_of s ++ evs /\
    (forall i j e1 e2,
       evs !! i = Some e1 -> evs !! j = Some e2 ->
       phase_index (phase_of e1) < phase_index (phase_of e2) -> i < j) /\
    (forall ev, ev ∈ evs -> phase_of ev <> Analyzing ->
       analyses_returned (agents_of s) evs) /\
    (forall ev, ev ∈ evs -> phase_of ev = Validating -> fixes_returned evs).
Proof.
  destruct (MasterOrchestrator.run_full_upgrade s) as [r s'] eqn:Hrun.
  apply run_full_upgrade_ends, run_segments in Hrun
    as (h1 & h2 & h3 & Hh & Hp1 & Hp2 & Hp3 & Hbar1 & Hbar2 & _ & _).
  exists (h1 ++ h2 ++ h3). split; [done|]. split; [|split].
  - by apply phase_segments_ordered.
  - intros ev Hin Hph a Ha.
    assert (h2 ++ h3 <> []) as Hne.
    { apply elem_of_app in Hin as [Hin|Hin].
      - rewrite Forall_forall in Hp1. by apply Hp1 in Hin.
      - intros Hnil. rewrite Hnil in Hin. by apply elem_of_nil in Hin. }
    destruct (Hbar1 Hne a Ha) as [n Hn]. exists n.
    apply elem_of_app. by left.
  - intros ev Hin Hph agent Hcall.
    assert (h3 <> []) as Hne.
    { rewrite Forall_forall in Hp1, Hp2.
      apply elem_of_app in Hin as [Hin|Hin]; [apply Hp1 in Hin; congruence|].
      apply elem_of_app in Hin as [Hin|Hin]; [apply Hp2 in Hin; congruence|].
      intros Hnil. rewrite Hnil in Hin. by apply elem_of_nil in Hin. }
    assert (EvCall Fixing agent ∈ h2) as Hcall2.
    { rewrite Forall_forall in Hp1, Hp3.
      apply elem_of_app in Hcall as [Hin'|Hin']; [by apply Hp1 in Hin'|].
      apply elem_of_app in Hin' as [Hin'|Hin']; [done|by apply Hp3 in Hin']. }
    destruct (Hbar2 Hne agent Hcall2) as [o Ho]. exists o.
    apply elem_of_app. right. apply elem_of_app. by left.
Qed.

(** ** Agents without issues *)

(** The step of the fixing phase for an agent whose analysis is empty: it
    logs, and returns. *)
Lemma fix_agent_passed_over all_issues k s a :
  agents_of s !! k = Some a -> passed_over all_issues (name a) ->
  (MasterOrchestrator.fix_agent all_issues k s).1 = Ok tt /\
  calm s (MasterOrchestrator.fix_agent all_issues k s).2.
Proof.
  intros Hk (analysis & Hlook & Hnil).
  destruct (MasterOrchestrator.fix_agent all_issues k s) as [r s'] eqn:Hf.
  unfold MasterOrchestrator.fix_agent in Hf.
  destruct (MasterOrchestrator.with_agent k (self_get name) s) as [rn sn] eqn:Hn.
  destruct (with_agent_get _ _ _ _ _ Hn) as [(Hnone & _)|(a0 & Hk0 & -> & ->)];
    [congruence|].
  assert (a0 = a) as -> by congruence.
  rewrite (bind_ok _ _ _ _ _ Hn), Hlook in Hf.
  rewrite (bind_ok _ _ _ _ _ (eq_refl : ret analysis s = (Ok analysis, s))) in Hf.
  rewrite Hnil in Hf. simpl. split.
  - unfold MasterOrchestrator.with_agent in Hf. rewrite Hk in Hf.
    by injection Hf as <- _.
  - exact (preserves_run calm _ _ _ _
             (with_agent_calm k _ (quiet_log _)) Hf).
Qed.

(** C10. Take an agent of the roster for which every return of [analyze]
    in the history of the run reports no issue. Then no entry of the fixing
    phase in that history is its own (no call of its [fix], no modification
    recorded by it), and its list of modifications is after the run what it
    was before. Moreover the step of the fixing phase for such an agent
    returns without writing to the tree, recording or entering anything in
    the history. *)
Theorem agent_without_issues_is_not_fixed (s : MasterOrchestrator.St) k a :
  agents_of s !! k = Some a ->
  (exists evs,
     history_of (MasterOrchestrator.run_full_upgrade s).2 = history_of s ++ evs /\
     ((forall n, EvReturn Analyzing (name a) (RIssues n) ∈ evs -> n = 0) ->
      (forall ev, ev ∈ evs -> agent_of ev = name a -> phase_of ev <> Fixing) /\
      exists a',
        agents_of (MasterOrchestrator.run_full_upgrade s).2 !! k = Some a' /\
        modifications_made a' = modifications_made a)) /\
  (forall all_issues, passed_over all_issues (name a) ->
     (MasterOrchestrator.fix_agent all_issues k s).1 = Ok tt /\
     calm s (MasterOrchestrator.fix_agent all_issues k s).2).
Proof.
  intros Hk. split; [|intros all_issues; by apply fix_agent_passed_over].
  destruct (MasterOrchestrator.run_full_upgrade s) as [r s'] eqn:Hrun.
  apply run_full_upgrade_ends, run_segments in Hrun
    as (h1 & h2 & h3 & Hh & Hp1 & Hp2 & Hp3 & _ & _ & _ & Hpass).
  exists (h1 ++ h2 ++ h3). split; [done|]. intros Hzero.
  destruct (Hpass k a Hk) as [Havoid Hkeep].
  { intros n Hin. apply Hzero, elem_of_app. by left. }
  split; [|done].
  intros ev Hin Hagent Hph. rewrite Forall_forall in Hp1, Hp3, Havoid.
  apply elem_of_app in Hin as [Hin|Hin]; [apply Hp1 in Hin; congruence|].
  apply elem_of_app in Hin as [Hin|Hin]; [by apply Havoid in Hin|].
  apply Hp3 in Hin. congruence.
Qed.

Lemma agent_without_issues_witness :
  agents_of (sample_start documented_project) !! 4
    = Some (DocumentationAgent.__init__ ["p"]) /\
  ((exists evs,
      history_of (MasterOrchestrator.run_full_upgrade
                    (sample_start documented_project)).2
        = history_of (sample_start documented_project) ++ evs /\
      ((forall n, EvReturn Analyzing "DocumentationAgent" (RIssues n) ∈ evs -> n = 0) ->
       (forall ev, ev ∈ evs -> agent_of ev = "DocumentationAgent" ->
          phase_of ev <> Fixing) /\
       exists a',
         agents_of (MasterOrchestrator.run_full_upgrade
                      (sample_start documented_project)).2 !! 4 = Some a' /\
         modifications_made a' = [])) /\
   (forall all_issues, passed_over all_issues "DocumentationAgent" ->
      (MasterOrchestrator.fix_agent all_issues 4 (sample_start documented_project)).1
        = Ok tt /\
      calm (sample_start documented_project)
        (MasterOrchestrator.fix_agent all_issues 4 (sample_start documented_project)).2)).
Proof.
  split; [reflexivity|].
  apply (agent_without_issues_is_not_fixed (sample_start documented_project) 4
           (DocumentationAgent.__init__ ["p"])).
  reflexivity.
Defined.

(** In the documented project the analysis of the documentation agent
    finds nothing, the four other agents are fixed, and the documentation
    agent ends the run with an empty list. *)
Example documented_project_run :
  let s' := (MasterOrchestrator.run_full_upgrade (sample_start documented_project)).2 in
  List.filter (fun ev => match ev with
                         | EvReturn Analyzing _ _ | EvCall Fixing _ => true
                         | _ => false
                         end) (history_of s')
    = [ EvReturn Analyzing "TestCoverageAgent" (RIssues 2);
        EvReturn Analyzing "ArchitectureAgent" (RIssues 1);
        EvReturn Analyzing "SecurityAgent" (RIssues 2);
        EvReturn Analyzing "PerformanceAgent" (RIssues 1);
        EvReturn Analyzing "DocumentationAgent" (RIssues 0);
        EvCall Fixing "TestCoverageAgent"; EvCall Fixing "ArchitectureAgent";
        EvCall Fixing "SecurityAgent"; EvCall Fixing "PerformanceAgent" ] /\
  map (fun a => length (modifications_made a)) (agents_of s') = [5; 6; 4; 4; 0].
Proof. vm_compute. split; reflexivity. Qed.

(** ** What [validate] depends on *)

Section NeverRaises.
Context {S : Type}.

Lemma never_raises_ret {A} (a : A) : never_raises (ret (S := S) a).
Proof. intros s. by exists a. Qed.

Lemma never_raises_bind {A B} (m : M S A) (k : A -> M S B) :
  never_raises m -> (forall a, never_raises (k a)) -> never_raises (bind m k).
Proof.
  intros Hm Hk s. unfold bind. destruct (Hm s) as [a Ha].
  destruct (m s) as [r s1]. simpl in Ha. subst r. apply Hk.
Qed.

Lemma never_raises_try_except {A} (body handler : M S A) :
  never_raises handler -> never_raises (try_except body handler).
Proof.
  intros Hh s. unfold try_except.
  destruct (body s) as [[a|e] s1]; [by exists a|apply Hh].
Qed.

Lemma never_raises_for_in {X A} (xs : list X) (body : A -> X -> M S A) acc :
  (forall a x, never_raises (body a x)) -> never_raises (for_in xs body acc).
Proof.
  intros Hbody. revert acc. induction xs as [|x xs IH]; intros acc; simpl.
  - apply never_raises_ret.
  - apply never_raises_bind; [apply Hbody|apply IH].
Qed.

End NeverRaises.

Lemma never_raises_self_get {A} (f : Agent -> A) : never_raises (self_get f).
Proof. intros s. by eexists. Qed.

Lemma never_raises_read_fs {A} (f : FS -> A) : never_raises (read_fs (S := AgentSt) f).
Proof. intros s. by eexists. Qed.

Lemma never_raises_log msg : never_raises (AgentBase.log msg).
Proof. intros s. by eexists. Qed.

Lemma respects_self_get_cls : respects same_view (self_get cls).
Proof. intros s1 s2 (Hc & Hp & Hf). simpl. split; [by rewrite Hc|done]. Qed.

Lemma respects_self_get_project_path : respects same_view (self_get project_path).
Proof. intros s1 s2 (Hc & Hp & Hf). simpl. split; [by rewrite Hp|done]. Qed.

Lemma respects_read_fs {A} (f : FS -> A) : respects same_view (read_fs (S := AgentSt) f).
Proof. intros s1 s2 (Hc & Hp & Hf). simpl. split; [by rewrite Hf|done]. Qed.

Lemma respects_read_text p : respects same_view (read_text (S := AgentSt) p).
Proof.
  intros s1 s2 (Hc & Hp & Hf). unfold read_text, bind, read_fs, of_res. simpl.
  split; [by rewrite Hf|done].
Qed.

(** [log] reads the clock, which the two states need not share, and
    returns nothing. *)
Lemma respects_log msg : respects same_view (AgentBase.log msg).
Proof. intros s1 s2 (Hc & Hp & Hf). simpl. by split. Qed.

(** Steps of a proof that a method reads the shared view only and returns. *)
Ltac view_case :=
  match goal with
  | |- respects _ (match ?x with _ => _ end) => destruct x
  | |- never_raises (match ?x with _ => _ end) => destruct x
  end.

Ltac view :=
  repeat (intros;
          first
            [ apply respects_ret | apply respects_log | apply respects_read_text
            | apply respects_self_get_cls | apply respects_self_get_project_path
            | apply (respects_read_fs _)
            | apply respects_for_in | apply respects_try_except | apply respects_bind
            | apply never_raises_ret | apply never_raises_log
            | apply never_raises_self_get | apply (never_raises_read_fs _)
            | apply never_raises_for_in | apply never_raises_try_except
            | apply never_raises_bind
            | view_case ]).

Lemma respects_validate : respects same_view validate.
Proof.
  unfold validate. apply respects_bind; [apply respects_self_get_cls|].
  intros [];
    [ unfold TestCoverageAgent.validate, TestCoverageAgent._estimate_coverage
    | unfold ArchitectureAgent.validate
    | unfold SecurityAgent.validate, SecurityAgent._has_certificate_pinning,
        SecurityAgent._has_encryption
    | unfold PerformanceAgent.validate
    | unfold DocumentationAgent.validate ];
    unfold rglob, path_exists; view.
Qed.

Lemma never_raises_validate : never_raises validate.
Proof.
  unfold validate. apply never_raises_bind; [apply never_raises_self_get|].
  intros [];
    [ unfold TestCoverageAgent.validate, TestCoverageAgent._estimate_coverage
    | unfold ArchitectureAgent.validate
    | unfold SecurityAgent.validate, SecurityAgent._has_certificate_pinning,
        SecurityAgent._has_encryption
    | unfold PerformanceAgent.validate
    | unfold DocumentationAgent.validate ];
    unfold rglob, path_exists; view.
Qed.

(** C9. Every [validate] returns a boolean, and the boolean is the same
    from any two states of an agent of the same class over the same project
    path and the same tree, whatever the lists of issues and of
    modifications, the other fields of the agent, the clock and the
    history. *)
Theorem validate_reads_the_tree_only (s1 s2 : AgentSt) :
  cls (self s1) = cls (self s2) ->
  project_path (self s1) = project_path (self s2) ->
  fs (aenv s1) = fs (aenv s2) ->
  exists b, (validate s1).1 = Ok b /\ (validate s2).1 = Ok b.
Proof.
  intros Hc Hp Hf.
  destruct (never_raises_validate s1) as [b Hb]. exists b. split; [done|].
  destruct (respects_validate s1 s2) as [Hr _]; [by repeat split|].
  by rewrite <- Hr.
Qed.

Lemma validate_witness :
  exists b,
    (validate {| self := DocumentationAgent.__init__ ["p"];
                 aenv := documented_project |}).1 = Ok b /\
    (validate
       {| self :=
            {| cls := Documentation; name := "writer"; expertise := EmptyString;
               project_path := ["p"]; tasks_completed := ["done"];
               issues_found := [ {[ "type" := VStr "missing_readme" ]} ];
               modifications_made :=
                 [ {| mod_file := "/p/README.md"; mod_description := "by hand";
                      mod_timestamp := 3 |} ] |};
          aenv := {| fs := fs documented_project; clock := fun _ => 9%N;
                     ticks := 7; trace := [EvCall Fixing "writer"] |} |}).1 = Ok b.
Proof.
  apply validate_reads_the_tree_only; reflexivity.
Defined.

(** ** The command line of the elite agent *)

Lemma mkdir_from_ok todo : forall t here t',
  FileSystem.mkdir_from t here todo = (Ok tt, t') ->
  todo <> [] -> t' !! (here ++ todo) = Some Dir.
Proof.
  induction todo as [|c todo IH]; intros t here t' Hmk Hne; [done|].
  simpl in Hmk.
  destruct (t !! (here ++ [c])) as [[|content w]|] eqn:Hq.
  - destruct todo as [|c' todo].
    + simpl in Hmk. by injection Hmk as <-.
    + apply IH in Hmk; [|done]. by rewrite <- app_assoc in Hmk.
  - done.
  - destruct todo as [|c' todo].
    + simpl in Hmk. injection Hmk as <-. by rewrite lookup_insert_eq.
    + apply IH in Hmk; [|done]. by rewrite <- app_assoc in Hmk.
Qed.

Lemma moved_lookup_root t src dst : FileSystem.moved t src dst !! dst = None.
Proof.
  unfold FileSystem.moved. apply not_elem_of_list_to_map_1.
  intros Hin. apply list_elem_of_fmap in Hin as ([q n] & Hq & Hin).
  apply list_elem_of_omap in Hin as ([q0 n0] & _ & Hsome).
  simpl in Hq, Hsome. subst q.
  destruct (PurePath.strip_prefix src q0) as [[|c rel]|]; [done| |done].
  injection Hsome as Hq _.
  apply (f_equal length) in Hq. rewrite length_app in Hq. simpl in Hq. lia.
Qed.

Lemma copytree_ok_is_dir t src dst t' :
  FileSystem.copytree t src dst = (Ok tt, t') -> FileSystem.is_dir t' dst = true.
Proof.
  unfold FileSystem.copytree.
  destruct (FileSystem.node_at t src) as [[|? ?]|]; [|done|done].
  destruct (FileSystem.node_at t dst) eqn:Hdst; [done|].
  destruct dst as [|c dst]; [done|].
  destruct (FileSystem.mkdir_parents t (c :: dst)) as [[[]|e] t1] eqn:Hmk; [|done].
  intros [= <-]. unfold FileSystem.is_dir, FileSystem.node_at.
  rewrite lookup_union_r by apply moved_lookup_root.
  apply mkdir_from_ok in Hmk; [|done].
  change ([] ++ c :: dst) with (c :: dst) in Hmk.
  by rewrite Hmk.
Qed.

Lemma copytree_ok_src t src dst t' :
  FileSystem.copytree t src dst = (Ok tt, t') -> FileSystem.exists_ t src = true.
Proof.
  unfold FileSystem.copytree, FileSystem.exists_.
  by destruct (FileSystem.node_at t src) as [[|? ?]|].
Qed.

(** C6. With [--dry-run], [main] returns; the tree and the history are what
    they were, and the agent it created has an empty modification log. *)
Theorem dry_run_changes_nothing later args e :
  EliteCli.dry_run args = true ->
  exists code f,
    EliteCli.main later args (EliteCli.enter e) = (Ok code, f) /\
    fs (EliteCli.env f) = fs e /\
    trace (EliteCli.env f) = trace e /\
    (forall a, EliteCli.agent f = Some a ->
       AstralStreamEliteAgent.modifications_log a = []).
Proof.
  intros Hdry. unfold EliteCli.main, bind, path_exists, read_fs. simpl.
  destruct (FileSystem.exists_ (fs e) _); simpl.
  - rewrite Hdry. simpl. eexists _, _. split; [reflexivity|]. simpl.
    split; [done|]. split; [done|]. by intros a [= <-].
  - eexists _, _. split; [reflexivity|]. simpl. by repeat split.
Qed.

Lemma dry_run_witness :
  exists code f,
    EliteCli.main (ret tt)
      {| EliteCli.project_path := "/p"; EliteCli.dry_run := true;
         EliteCli.skip_backup := false |}
      (EliteCli.enter documented_project) = (Ok code, f) /\
    fs (EliteCli.env f) = fs documented_project /\
    trace (EliteCli.env f) = trace documented_project /\
    (forall a, EliteCli.agent f = Some a ->
       AstralStreamEliteAgent.modifications_log a = []).
Proof.
  apply (dry_run_changes_nothing (ret tt)
           {| EliteCli.project_path := "/p"; EliteCli.dry_run := true;
              EliteCli.skip_backup := false |} documented_project).
  reflexivity.
Defined.

(** C7 fails on the code: [--skip-backup] changes nothing. Whenever the
    copy of the tree succeeds, a run with the flag set makes the backup all
    the same: the later phases start from a state [s1] in which the backup
    directory exists and the log of the agent says so. *)
Theorem skip_backup_is_ignored later args e :
  EliteCli.skip_backup args = true ->
  EliteCli.dry_run args = false ->
  let project := PurePath.parts (EliteCli.project_path args) in
  let backup :=
    PurePath.parent project
      ++ ["astralstream_backup_" +:+ strftime (clock e (ticks e))] in
  (FileSystem.copytree (fs e) project backup).1 = Ok tt ->
  exists s1,
    FileSystem.is_dir (fs (AstralStreamEliteAgent.env s1)) backup = true /\
    AstralStreamEliteAgent.modifications_log (AstralStreamEliteAgent.this s1)
      = ["Backup created at: " +:+ PurePath.str backup] /\
    EliteCli.main later args (EliteCli.enter e) =
      match later s1 with
      | (Ok _, s2) =>
          (Ok 0%Z, {| EliteCli.agent := Some (AstralStreamEliteAgent.this s2);
                      EliteCli.env := AstralStreamEliteAgent.env s2 |})
      | (Raise x, s2) =>
          (Raise x, {| EliteCli.agent := Some (AstralStreamEliteAgent.this s2);
                       EliteCli.env := AstralStreamEliteAgent.env s2 |})
      end.
Proof.
  intros _ Hdry project backup Hcopy.
  destruct (FileSystem.copytree (fs e) project backup) as [r t'] eqn:Hct.
  simpl in Hcopy. subst r.
  pose proof (copytree_ok_is_dir _ _ _ _ Hct) as Hdir.
  pose proof (copytree_ok_src _ _ _ _ Hct) as Hsrc.
  unfold EliteCli.main, bind, path_exists, read_fs. simpl.
  fold project. rewrite Hsrc, Hdry. simpl.
  unfold EliteCli.with_agent, AstralStreamEliteAgent.run_full_upgrade,
    AstralStreamEliteAgent._create_backup, copytree, update_fs, bind. simpl.
  fold project. fold backup. rewrite Hct. simpl.
  match goal with |- context [later ?s] => exists s end.
  split; [exact Hdir|]. split; [reflexivity|].
  by destruct (later _) as [[[]|x] s2].
Qed.

Lemma skip_backup_witness :
  exists s1,
    FileSystem.is_dir (fs (AstralStreamEliteAgent.env s1)) ["astralstream_backup_0"]
      = true /\
    AstralStreamEliteAgent.modifications_log (AstralStreamEliteAgent.this s1)
      = ["Backup created at: /astralstream_backup_0"] /\
    EliteCli.main (ret tt)
      {| EliteCli.project_path := "/p"; EliteCli.dry_run := false;
         EliteCli.skip_backup := true |}
      (EliteCli.enter empty_project) =
      match ret tt s1 with
      | (Ok _, s2) =>
          (Ok 0%Z, {| EliteCli.agent := Some (AstralStreamEliteAgent.this s2);
                      EliteCli.env := AstralStreamEliteAgent.env s2 |})
      | (Raise x, s2) =>
          (Raise x, {| EliteCli.agent := Some (AstralStreamEliteAgent.this s2);
                       EliteCli.env := AstralStreamEliteAgent.env s2 |})
      end.
Proof.
  apply (skip_backup_is_ignored (ret tt)
           {| EliteCli.project_path := "/p"; EliteCli.dry_run := false;
              EliteCli.skip_backup := true |} empty_project);
    vm_compute; reflexivity.
Defined.

(** ** An error in the fixing phase *)

Lemma main_of_run args e :
  AgentTeam.main args (AgentTeam.enter e) =
    match MasterOrchestrator.run_full_upgrade
            (run_start (AgentTeam.project_path args) e) with
    | (Ok success, s') =>
        (Ok (if success : bool then 0%Z else 1%Z),
         {| AgentTeam.orchestrator := Some (MasterOrchestrator.this s');
            AgentTeam.env := MasterOrchestrator.env s' |})
    | (Raise x, s') =>
        (Raise x,
         {| AgentTeam.orchestrator := Some (MasterOrchestrator.this s');
            AgentTeam.env := MasterOrchestrator.env s' |})
    end.
Proof.
  unfold AgentTeam.main, AgentTeam.new_orchestrator, AgentTeam.with_orchestrator,
    AgentTeam.enter, bind, run_start. cbn.
  by destruct (MasterOrchestrator.run_full_upgrade _) as [[[]|x] s'].
Qed.

Section OtherAgents.
Import MasterOrchestrator.

#[global] Instance leaves_agent_preorder j : PreOrder (leaves_agent j).
Proof.
  split; [done|]. intros s1 s2 s3 H12 H23. unfold leaves_agent in *. congruence.
Qed.

Lemma leaves_agent_with_agent {A} i j (m : M AgentSt A) :
  i <> j -> preserves (leaves_agent j) (with_agent i m).
Proof.
  intros Hij s. unfold leaves_agent, with_agent.
  destruct (agents (this s) !! i) as [a|]; [|done].
  destruct (m _) as [r sa]. simpl. by apply list_lookup_insert_ne.
Qed.

Lemma leaves_agent_emit j ev : preserves (leaves_agent j) (emit (S := St) ev).
Proof. by intros s. Qed.

Lemma leaves_agent_await {A} ph i j (m : M AgentSt A) summary :
  i <> j -> preserves (leaves_agent j) (await ph i m summary).
Proof.
  intros Hij. unfold await.
  pres; first [by apply leaves_agent_with_agent | apply leaves_agent_emit].
Qed.

Lemma leaves_agent_fix_agent all_issues i j :
  i <> j -> preserves (leaves_agent j) (fix_agent all_issues i).
Proof.
  intros Hij. unfold fix_agent.
  pres; intros; first [by apply leaves_agent_with_agent | apply leaves_agent_emit].
Qed.

Lemma leaves_agent_fixing all_issues j (l : list nat) :
  Forall (fun i => i <> j) l ->
  preserves (leaves_agent j) (for_each l (fix_agent all_issues)).
Proof.
  intros Hl. unfold for_each.
  apply (preserves_for_in_Forall _ _ _ _ _ Hl). intros _ i Hi.
  by apply leaves_agent_fix_agent.
Qed.

End OtherAgents.

Section FailedFix.
Import MasterOrchestrator.

(** The awaited [fix] of the [i]-th agent raises: the error leaves the
    step of the loop, in the state in which [fix] stopped. *)
Lemma fix_agent_raises all_issues i s a analysis x sa :
  agents_of s !! i = Some a ->
  all_issues !! name a = Some analysis ->
  issues analysis <> [] ->
  fix_ (issues analysis)
    {| self := a; aenv := record_event (EvCall Fixing (name a)) (tick (env s)) |}
    = (Raise x, sa) ->
  fix_agent all_issues i s
    = (Raise x, {| this := set_agent i (self sa) (this s); env := aenv sa |}).
Proof.
  intros Hi Hissues Hsome Hfix. destruct s as [o e]. simpl in *.
  unfold fix_agent.
  assert (with_agent i (self_get name) {| this := o; env := e |}
          = (Ok (name a), {| this := o; env := e |})) as Hname.
  { unfold with_agent, self_get. simpl. rewrite Hi. by rewrite set_agent_id. }
  rewrite (bind_ok _ _ _ _ _ Hname). rewrite Hissues.
  rewrite (bind_ok _ _ _ _ _ (eq_refl : ret analysis _ = _)).
  destruct (issues analysis) as [|g l]; [done|].
  assert (with_agent i (AgentBase.log "Fixing issues...") {| this := o; env := e |}
          = (Ok tt, {| this := o; env := tick e |})) as Hlog.
  { unfold with_agent, AgentBase.log, datetime_now, bind, ret. simpl. rewrite Hi.
    simpl. by rewrite set_agent_id. }
  rewrite (bind_ok _ _ _ _ _ Hlog).
  assert (await Fixing i (fix_ (g :: l)) RFixed {| this := o; env := tick e |}
          = (Raise x, {| this := set_agent i (self sa) o; env := aenv sa |})) as Hawait.
  { unfold await.
    assert (with_agent i (self_get name) {| this := o; env := tick e |}
            = (Ok (name a), {| this := o; env := tick e |})) as Hname'.
    { unfold with_agent, self_get. simpl. rewrite Hi. by rewrite set_agent_id. }
    rewrite (bind_ok _ _ _ _ _ Hname').
    unfold emit, on_env. unfold bind at 1. cbn [get_env set_env St_HasEnv this env].
    apply bind_raise. unfold with_agent. cbn [this env]. rewrite Hi. by rewrite Hfix. }
  by rewrite (bind_raise _ _ _ _ _ Hawait).
Qed.

End FailedFix.

Section FailedRun.
Import MasterOrchestrator.

(** An error that leaves the fixing phase leaves [run_full_upgrade] and
    [main]. *)
Lemma failed_fixing_leaves_main args e backup_path s0 all_issues s1 x s2 :
  _create_backup (run_start (AgentTeam.project_path args) e) = (Ok backup_path, s0) ->
  analysis_phase (length (agents_of s0)) s0 = (Ok all_issues, s1) ->
  fixing_phase (length (agents_of s0)) all_issues s1 = (Raise x, s2) ->
  AgentTeam.main args (AgentTeam.enter e) =
    (Raise x, {| AgentTeam.orchestrator := Some (this s2);
                 AgentTeam.env := env s2 |}).
Proof.
  intros H0 H1 H2.
  assert (run_full_upgrade (run_start (AgentTeam.project_path args) e) = (Raise x, s2))
    as Hrun.
  { unfold run_full_upgrade.
    rewrite (bind_ok _ _ _ _ _ H0).
    unfold this_get at 1. unfold bind at 1.
    rewrite (bind_ok _ _ _ _ _ H1).
    by rewrite (bind_raise _ _ _ _ _ H2). }
  by rewrite main_of_run, Hrun.
Qed.

(** The loop of the fixing phase stops at the agent whose [fix] raises. *)
Lemma fixing_phase_raises n all_issues s1 i s2 a analysis x sa :
  i < n ->
  for_each (seq 0 i) (fix_agent all_issues) s1 = (Ok tt, s2) ->
  agents_of s2 !! i = Some a ->
  all_issues !! name a = Some analysis ->
  issues analysis <> [] ->
  fix_ (issues analysis)
    {| self := a; aenv := record_event (EvCall Fixing (name a)) (tick (env s2)) |}
    = (Raise x, sa) ->
  fixing_phase n all_issues s1
    = (Raise x, {| this := set_agent i (self sa) (this s2); env := aenv sa |}).
Proof.
  intros Hi Hbefore Ha Hissues Hsome Hfix.
  unfold fixing_phase, for_each in *.
  replace n with (i + S (n - S i)) by lia.
  rewrite seq_app, for_in_app. rewrite (bind_ok _ _ _ _ _ Hbefore).
  cbn [seq for_in Nat.add].
  apply bind_raise. by eapply fix_agent_raises.
Qed.

End FailedRun.

(** C1, as the code has it. When the awaited [fix] of an agent raises an
    error, after the backup and the analyses, the error leaves the loop,
    [run_full_upgrade] and [main] uncaught, and the process ends with
    status 1. Nothing happens after the error: the environment of [main]
    (the tree, the clock, the history) is the one in which [fix] stopped,
    so that nothing is restored and no report is written; the agents later
    in the roster are as the analysis left them, not fixed; and the
    history ends with the call of the failed [fix] and the modifications it
    recorded, with no validation in it. *)
Theorem fix_error_ends_the_run_uncaught
    args e backup_path s0 all_issues s1 i s2 a analysis x sa :
  MasterOrchestrator._create_backup (run_start (AgentTeam.project_path args) e)
    = (Ok backup_path, s0) ->
  MasterOrchestrator.analysis_phase (length (agents_of s0)) s0 = (Ok all_issues, s1) ->
  for_each (seq 0 i) (MasterOrchestrator.fix_agent all_issues) s1 = (Ok tt, s2) ->
  agents_of s2 !! i = Some a ->
  all_issues !! name a = Some analysis ->
  issues analysis <> [] ->
  fix_ (issues analysis)
    {| self := a;
       aenv := record_event (EvCall Fixing (name a)) (tick (MasterOrchestrator.env s2)) |}
    = (Raise x, sa) ->
  let result := AgentTeam.main args (AgentTeam.enter e) in
  result.1 = Raise x /\
  exit_status result.1 = 1%Z /\
  AgentTeam.env result.2 = aenv sa /\
  (exists o,
     AgentTeam.orchestrator result.2 = Some o /\
     MasterOrchestrator.agents o = <[i := self sa]> (agents_of s2) /\
     forall j, i < j -> MasterOrchestrator.agents o !! j = agents_of s1 !! j) /\
  (exists h ms,
     trace (aenv sa)
       = trace e ++ h ++ EvCall Fixing (name a) :: map (EvRecord (name a)) ms /\
     modifications_made (self sa) = modifications_made a ++ ms /\
     Forall (fun ev => phase_of ev <> Validating) h).
Proof.
  intros H0 H1 Hbefore Ha Hissues Hsome Hfix result.
  destruct (analysis_summary _ _ _ H1) as (h1 & Hh1 & Hph1 & Hag1 & _).
  destruct (fixing_summary i all_issues _ _ _ Hbefore) as (h2 & Hh2 & Hph2 & Hag2 & _).
  assert (i < length (agents_of s0)) as Hi.
  { rewrite (Forall2_length _ _ _ Hag1), (Forall2_length _ _ _ Hag2).
    by eapply lookup_lt_Some. }
  pose proof (fixing_phase_raises _ _ _ _ _ _ _ _ _ Hi Hbefore Ha Hissues Hsome Hfix)
    as Hphase.
  pose proof (failed_fixing_leaves_main _ _ _ _ _ _ _ _ H0 H1 Hphase) as Hmain.
  subst result. rewrite Hmain. cbn [fst snd AgentTeam.env AgentTeam.orchestrator].
  split; [done|]. split; [done|]. split; [done|]. split.
  - eexists. split; [done|]. split; [done|].
    intros j Hj. unfold MasterOrchestrator.set_agent.
    cbn [MasterOrchestrator.agents MasterOrchestrator.this].
    rewrite list_lookup_insert_ne by lia.
    apply (preserves_run (leaves_agent j) _ _ _ _
             (leaves_agent_fixing all_issues j (seq 0 i)
                ltac:(apply Forall_forall; intros k Hk%elem_of_seq; lia)) Hbefore).
  - destruct (records_fix (issues analysis)
                {| self := a;
                   aenv := record_event (EvCall Fixing (name a))
                             (tick (MasterOrchestrator.env s2)) |})
      as (_ & ms & Hms & Htrace).
    rewrite Hfix in Hms, Htrace. cbn [snd self aenv] in Hms, Htrace.
    pose proof (preserves_run _ _ _ _ _ create_backup_still H0) as [_ Hh0].
    exists (h1 ++ h2), ms. split; [|split; [done|]].
    + rewrite Htrace. cbn [record_event tick trace]. rewrite Hh2, Hh1, Hh0.
      cbn [run_start MasterOrchestrator.env tick trace].
      by rewrite <- !app_assoc.
    + apply Forall_app. split.
      * eapply Forall_impl; [exact Hph1|]. by intros ev ->.
      * eapply Forall_impl; [exact Hph2|]. by intros ev [-> _].
Qed.

Lemma fix_error_witness :
  (AgentTeam.main sample_args (AgentTeam.enter broken_project)).1
    = Raise NotADirectoryError /\
  exit_status (AgentTeam.main sample_args (AgentTeam.enter broken_project)).1 = 1%Z.
Proof.
  pose (s0 := (MasterOrchestrator._create_backup (run_start "/p" broken_project)).2).
  pose (r1 := MasterOrchestrator.analysis_phase 5 s0).
  pose (all_issues := value_of ∅ r1.1).
  pose (r2 := for_each (seq 0 1) (MasterOrchestrator.fix_agent all_issues) r1.2).
  pose (s2 := r2.2).
  pose (a := default (ArchitectureAgent.__init__ ["p"]) (agents_of s2 !! 1)).
  pose (analysis := default {| issues := []; coverage_estimate := None |}
                      (all_issues !! name a)).
  pose (ra := fix_ (issues analysis)
                 {| self := a;
                    aenv := record_event (EvCall Fixing (name a))
                              (tick (MasterOrchestrator.env r2.2)) |}).
  destruct (fix_error_ends_the_run_uncaught sample_args broken_project
              ["astralstream_backup_1"] s0 all_issues r1.2 1 r2.2 a analysis
              NotADirectoryError ra.2) as (Hresult & Hstatus & _).
  - apply pair_eta_eq. vm_compute. reflexivity.
  - apply pair_eta_eq. vm_compute. reflexivity.
  - apply pair_eta_eq. vm_compute. reflexivity.
  - vm_compute. reflexivity.
  - vm_compute. reflexivity.
  - vm_compute. discriminate.
  - apply pair_eta_eq. vm_compute. reflexivity.
  - split; [exact Hresult|exact Hstatus].
Defined.

(** C1 fails on the code. In the broken project the test agent completes
    its fix and the fix of the architecture agent raises: [main] is left by
    the exception, the status of the process is 1 and not 2, and the tree is
    not the tree the run started from: the directory made by the test agent
    is still there. *)
Lemma rollback_counterexample :
  let result := AgentTeam.main sample_args (AgentTeam.enter broken_project) in
  result.1 = Raise NotADirectoryError /\
  exit_status result.1 <> 2%Z /\
  List.filter (fun ev => match ev with
                         | EvCall Fixing _ | EvReturn Fixing _ _ => true
                         | _ => false
                         end) (trace (AgentTeam.env result.2))
    = [ EvCall Fixing "TestCoverageAgent";
        EvReturn Fixing "TestCoverageAgent" (RFixed {| fixed := 2; total := 2 |});
        EvCall Fixing "ArchitectureAgent" ] /\
  fs broken_project !! ["p"; "app"; "src"; "test"] = None /\
  fs (AgentTeam.env result.2) !! ["p"; "app"; "src"; "test"] = Some Dir /\
  fs (AgentTeam.env result.2) <> fs broken_project.
Proof.
  assert (fs (AgentTeam.env
                (AgentTeam.main sample_args (AgentTeam.enter broken_project)).2)
            !! ["p"; "app"; "src"; "test"] = Some Dir) as Hafter
    by (vm_compute; reflexivity).
  assert (fs broken_project !! ["p"; "app"; "src"; "test"] = None) as Hbefore
    by (vm_compute; reflexivity).
  cbv zeta. split; [vm_compute; reflexivity|]. split; [vm_compute; discriminate|].
  split; [vm_compute; reflexivity|]. split; [exact Hbefore|]. split; [exact Hafter|].
  intros Heq. rewrite Heq, Hbefore in Hafter. discriminate Hafter.
Qed.

(** ** Errors on single issues *)

Lemma fix_insecure_endpoints_returns file s :
  exists s',
    SecurityAgent._fix_insecure_endpoints file s = (Ok tt, s') /\
    (endpoint_rewrite_fails (fs (aenv s)) file ->
     modifications_made (self s') = modifications_made (self s) /\
     fs (aenv s') = fs (aenv s)).
Proof.
  unfold SecurityAgent._fix_insecure_endpoints, try_except.
  destruct file as [target|n|l]; [|by eexists|by eexists].
  unfold as_path, as_str, read_text, write_text, update_fs, bind, read_fs, of_res, ret.
  cbn [get_env set_env AgentSt_HasEnv aenv self].
  destruct (FileSystem.read_text (fs (aenv s)) (PurePath.parts target))
    as [content|e] eqn:Hread; [|by eexists].
  destruct (FileSystem.write_text (fs (aenv s)) (PurePath.parts target) _)
    as [[[]|e] t'] eqn:Hwrite.
  - eexists. split; [reflexivity|]. intros Hfail.
    destruct (Hfail target content eq_refl Hread). by rewrite Hwrite.
  - eexists. split; [reflexivity|]. intros _. simpl. split; [done|].
    unfold FileSystem.write_text in Hwrite.
    repeat case_match; by simplify_eq.
Qed.

Lemma fix_insecure_issue_returns fixed_count issue s :
  insecure_http_issue issue ->
  exists s',
    SecurityAgent.fix_issue fixed_count issue s = (Ok (fixed_count + 1), s') /\
    (forall file, issue !! "file" = Some file ->
       endpoint_rewrite_fails (fs (aenv s)) file ->
       modifications_made (self s') = modifications_made (self s) /\
       fs (aenv s') = fs (aenv s)).
Proof.
  intros [Htype [file Hfile]].
  unfold SecurityAgent.fix_issue, getitem, bind. rewrite Htype, Hfile.
  cbn [ret is_str String.eqb Ascii.eqb Bool.eqb].
  destruct (fix_insecure_endpoints_returns file s) as (s' & Hrun & Hfail).
  rewrite Hrun. exists s'. split; [done|].
  intros file' [= <-]. exact Hfail.
Qed.

(** The loop of [SecurityAgent.fix] over [insecure_http] issues: every issue
    is counted, whatever happened to its file. *)
Lemma insecure_endpoints_loop (issues : list Issue) :
  Forall insecure_http_issue issues ->
  (forall fixed_count s,
     exists s',
       for_in issues SecurityAgent.fix_issue fixed_count s
         = (Ok (fixed_count + length issues), s')) /\
  (forall issue file fixed_count s,
     issue ∈ issues -> issue !! "file" = Some file ->
     endpoint_rewrite_fails (fs (aenv s)) file ->
     exists s',
       SecurityAgent.fix_issue fixed_count issue s = (Ok (fixed_count + 1), s') /\
       modifications_made (self s') = modifications_made (self s) /\
       fs (aenv s') = fs (aenv s)).
Proof.
  intros Hall. split.
  - induction Hall as [|issue issues Hissue _ IH]; intros fixed_count s.
    + exists s. simpl. by rewrite Nat.add_0_r.
    + destruct (fix_insecure_issue_returns fixed_count issue s Hissue)
        as (s1 & Hstep & _).
      destruct (IH (fixed_count + 1) s1) as (s' & Hrest).
      exists s'. simpl. rewrite (bind_ok _ _ _ _ _ Hstep), Hrest.
      do 2 f_equal. lia.
  - intros issue file fixed_count s Hin Hfile Hfail.
    rewrite Forall_forall in Hall.
    destruct (fix_insecure_issue_returns fixed_count issue s (Hall issue Hin))
      as (s' & Hstep & Hsame).
    exists s'. split; [done|]. by apply (Hsame file).
Qed.

(** ** Errors in the fix of the test agent *)

(** The only error that leaves [_extract_package] is the [ValueError] of
    [relative_to]: a failed read of the source is caught. *)
Lemma extract_package_raises source s x :
  (TestCoverageAgent._extract_package source s).1 = Raise x -> x = ValueError.
Proof.
  unfold TestCoverageAgent._extract_package, try_except, bind.
  destruct (read_text source s) as [[content|e] s1]; cbn [ret].
  - destruct (TestCoverageAgent.package_line _); cbn [ret fst]; [done|].
    unfold self_get, relative_to.
    destruct (PurePath.strip_prefix _ _); cbn; [done|]. by intros [= <-].
  - unfold self_get, relative_to.
    destruct (PurePath.strip_prefix _ _); cbn; [done|]. by intros [= <-].
Qed.

(** [fix] has no handler around the handling of an issue. *)
Lemma tests_fix_stops_at_an_error before issue rest s n s1 x s2 :
  for_in before TestCoverageAgent.fix_issue 0
    (AgentBase.log "Generating comprehensive test suite..." s).2 = (Ok n, s1) ->
  TestCoverageAgent.fix_issue n issue s1 = (Raise x, s2) ->
  TestCoverageAgent.fix_ (before ++ issue :: rest) s = (Raise x, s2).
Proof.
  intros Hbefore Hissue. unfold TestCoverageAgent.fix_.
  assert (AgentBase.log "Generating comprehensive test suite..." s
          = (Ok tt, (AgentBase.log "Generating comprehensive test suite..." s).2))
    as Hlog by done.
  rewrite (bind_ok _ _ _ _ _ Hlog).
  apply bind_raise. rewrite for_in_app, (bind_ok _ _ _ _ _ Hbefore).
  cbn [for_in]. by apply bind_raise.
Qed.

(** A test directory that cannot be created. *)
Lemma tests_fix_issue_mkdir_fails n issue path s x t' :
  issue !! "type" = Some (VStr "missing_test_directory") ->
  issue !! "path" = Some (VStr path) ->
  FileSystem.mkdir_parents (fs (aenv s)) (PurePath.parts path) = (Raise x, t') ->
  TestCoverageAgent.fix_issue n issue s
    = (Raise x, {| self := self s; aenv := set_fs t' (aenv s) |}).
Proof.
  intros Htype Hpath Hmk.
  unfold TestCoverageAgent.fix_issue, getitem, bind. rewrite Htype, Hpath.
  cbn [ret is_str String.eqb Ascii.eqb Bool.eqb as_path as_str bind].
  unfold mkdir_parents, update_fs. cbn [get_env set_env AgentSt_HasEnv].
  by rewrite Hmk.
Qed.

(** C8, as the code has it. In [SecurityAgent.fix], the loop over a list
    of [insecure_http] issues returns from every state, and it has counted
    every issue of the list, whatever happened to the files; for one such
    issue whose file cannot be rewritten, the step returns with the issue
    counted, no modification recorded and the tree as it was.
    [TestCoverageAgent.fix] catches nothing: an error that leaves the
    handling of one issue leaves [fix] in the state in which the issue
    stopped, whatever issues come after it; a test directory that cannot be
    created is such an error, with nothing recorded. The one handler on the
    way is that of [_extract_package], around the read of the source: the
    only error that leaves [_extract_package] is the [ValueError] of
    [relative_to]. *)
Theorem issue_errors_are_swallowed_or_leave_fix (issues : list Issue) :
  Forall insecure_http_issue issues ->
  (forall fixed_count s,
     exists s',
       for_in issues SecurityAgent.fix_issue fixed_count s
         = (Ok (fixed_count + length issues), s')) /\
  (forall issue file fixed_count s,
     issue ∈ issues -> issue !! "file" = Some file ->
     endpoint_rewrite_fails (fs (aenv s)) file ->
     exists s',
       SecurityAgent.fix_issue fixed_count issue s = (Ok (fixed_count + 1), s') /\
       modifications_made (self s') = modifications_made (self s) /\
       fs (aenv s') = fs (aenv s)) /\
  (forall before issue rest s n s1 x s2,
     for_in before TestCoverageAgent.fix_issue 0
       (AgentBase.log "Generating comprehensive test suite..." s).2 = (Ok n, s1) ->
     TestCoverageAgent.fix_issue n issue s1 = (Raise x, s2) ->
     TestCoverageAgent.fix_ (before ++ issue :: rest) s = (Raise x, s2)) /\
  (forall n issue path s x t',
     issue !! "type" = Some (VStr "missing_test_directory") ->
     issue !! "path" = Some (VStr path) ->
     FileSystem.mkdir_parents (fs (aenv s)) (PurePath.parts path) = (Raise x, t') ->
     (TestCoverageAgent.fix_issue n issue s).1 = Raise x /\
     modifications_made (self (TestCoverageAgent.fix_issue n issue s).2)
       = modifications_made (self s)) /\
  (forall source s x,
     (TestCoverageAgent._extract_package source s).1 = Raise x -> x = ValueError).
Proof.
  intros Hall. split; [|split; [|split; [|split]]].
  - by apply insecure_endpoints_loop.
  - by apply insecure_endpoints_loop.
  - apply tests_fix_stops_at_an_error.
  - intros n issue path s x t' Htype Hpath Hmk.
    by rewrite (tests_fix_issue_mkdir_fails _ _ _ _ _ _ Htype Hpath Hmk).
  - apply extract_package_raises.
Qed.

Lemma issue_errors_witness :
  (forall fixed_count s,
     exists s',
       for_in [api_issue] SecurityAgent.fix_issue fixed_count s
         = (Ok (fixed_count + length [api_issue]), s')) /\
  (forall issue file fixed_count s,
     issue ∈ [api_issue] -> issue !! "file" = Some file ->
     endpoint_rewrite_fails (fs (aenv s)) file ->
     exists s',
       SecurityAgent.fix_issue fixed_count issue s = (Ok (fixed_count + 1), s') /\
       modifications_made (self s') = modifications_made (self s) /\
       fs (aenv s') = fs (aenv s)) /\
  (forall before issue rest s n s1 x s2,
     for_in before TestCoverageAgent.fix_issue 0
       (AgentBase.log "Generating comprehensive test suite..." s).2 = (Ok n, s1) ->
     TestCoverageAgent.fix_issue n issue s1 = (Raise x, s2) ->
     TestCoverageAgent.fix_ (before ++ issue :: rest) s = (Raise x, s2)) /\
  (forall n issue path s x t',
     issue !! "type" = Some (VStr "missing_test_directory") ->
     issue !! "path" = Some (VStr path) ->
     FileSystem.mkdir_parents (fs (aenv s)) (PurePath.parts path) = (Raise x, t') ->
     (TestCoverageAgent.fix_issue n issue s).1 = Raise x /\
     modifications_made (self (TestCoverageAgent.fix_issue n issue s).2)
       = modifications_made (self s)) /\
  (forall source s x,
     (TestCoverageAgent._extract_package source s).1 = Raise x -> x = ValueError).
Proof.
  apply (issue_errors_are_swallowed_or_leave_fix [api_issue]).
  apply Forall_singleton. split; [reflexivity|]. eexists. reflexivity.
Defined.

(** C8 fails on the code. [TestCoverageAgent.fix] catches no error: on the
    issues of [Foo.kt] and [Bar.kt] the error raised for [Foo.kt] leaves
    [fix], nothing is recorded, and the test of [Bar.kt], which [fix]
    generates when it is given that issue alone, is not written.
    [SecurityAgent.fix] catches the error of writing the read-only [Api.kt],
    leaves the file as it was, and reports the issue among the fixed ones:
    [fixed] is not below [total]. *)
Lemma skipped_fix_counterexample :
  let tests := fresh (TestCoverageAgent.__init__ ["p"]) unpackaged_project in
  let security := fresh (SecurityAgent.__init__ ["p"]) readonly_project in
  (TestCoverageAgent.fix_ [foo_issue; bar_issue] tests).1 = Raise ValueError /\
  modifications_made (self (TestCoverageAgent.fix_ [foo_issue; bar_issue] tests).2)
    = [] /\
  fs (aenv (TestCoverageAgent.fix_ [foo_issue; bar_issue] tests).2)
    !! ["p"; "app"; "src"; "test"; "app"; "BarTest.kt"] = None /\
  (TestCoverageAgent.fix_ [bar_issue] tests).1 = Ok {| fixed := 1; total := 1 |} /\
  FileSystem.exists_ (fs (aenv (TestCoverageAgent.fix_ [bar_issue] tests).2))
    ["p"; "app"; "src"; "test"; "app"; "BarTest.kt"] = true /\
  (SecurityAgent.fix_ [api_issue] security).1 = Ok {| fixed := 1; total := 1 |} /\
  fs (aenv (SecurityAgent.fix_ [api_issue] security).2) !! ["p"; "Api.kt"]
    = Some (File "val url = http://example.com" false) /\
  map mod_description
    (modifications_made (self (SecurityAgent.fix_ [api_issue] security).2))
    = ["Implemented biometric authentication"; "Enhanced data encryption"].
Proof. cbv zeta. repeat split; vm_compute; reflexivity. Qed.

(** ** The count of the ledger *)

Lemma ok_adds_ret {A} (a : A) : ok_adds (ret a) 0.
Proof. intros s a' s' [= _ <-]. lia. Qed.

Lemma ok_adds_bind {A B} (m : M AgentSt A) (k : A -> M AgentSt B) n1 n2 :
  ok_adds m n1 -> (forall a, ok_adds (k a) n2) -> ok_adds (bind m k) (n1 + n2).
Proof.
  intros Hm Hk s b s' Hrun.
  apply bind_ok_inv in Hrun as (a & s1 & H1 & H2).
  apply Hm in H1. apply Hk in H2. lia.
Qed.

Lemma ok_adds_eq {A} (m : M AgentSt A) n n' : ok_adds m n -> n = n' -> ok_adds m n'.
Proof. by intros Hm <-. Qed.

Lemma ok_adds_quiet {A} (m : M AgentSt A) : preserves quiet m -> ok_adds m 0.
Proof.
  intros Hm s a s' Hrun.
  apply (preserves_run _ _ _ _ _ Hm) in Hrun as (_ & Hmods & _).
  unfold ledger_length. rewrite Hmods. lia.
Qed.

Lemma ok_adds_update_fs {A} (f : FS -> Res A * FS) : ok_adds (update_fs (S := AgentSt) f) 0.
Proof.
  intros s a s'. unfold update_fs. destruct (f _) as [r t']. intros [= _ <-].
  unfold ledger_length. simpl. lia.
Qed.

Lemma ok_adds_add_modification file_path description :
  ok_adds (AgentBase.add_modification file_path description) 1.
Proof.
  intros s a s' [= _ <-]. unfold ledger_length. simpl. rewrite length_app. simpl. lia.
Qed.

Lemma ok_yields_ret {A} (v : A) : ok_yields (ret v) 0 v.
Proof. intros s a s' [= <- <-]. split; [done|lia]. Qed.

Lemma ok_yields_bind {A B} (m : M AgentSt A) (k : A -> M AgentSt B) n1 n2 v :
  ok_adds m n1 -> (forall a, ok_yields (k a) n2 v) -> ok_yields (bind m k) (n1 + n2) v.
Proof.
  intros Hm Hk s b s' Hrun.
  apply bind_ok_inv in Hrun as (a & s1 & H1 & H2).
  apply Hm in H1. apply Hk in H2 as [-> H2]. split; [done|lia].
Qed.

Lemma ok_yields_eq {A} (m : M AgentSt A) n n' v :
  ok_yields m n v -> n = n' -> ok_yields m n' v.
Proof. by intros Hm <-. Qed.

(** Steps of a count of the modifications a method appends. *)
Ltac count_step :=
  first
    [ apply ok_yields_ret
    | apply ok_adds_ret
    | apply ok_adds_add_modification
    | apply (ok_adds_update_fs _)
    | apply ok_adds_quiet; solve [pres]
    | eapply ok_yields_bind; [|intros ?]
    | eapply ok_adds_bind; [|intros ?] ].

Ltac count := repeat count_step.

Lemma generate_integration_tests_adds :
  ok_adds TestCoverageAgent._generate_integration_tests 1.
Proof.
  unfold TestCoverageAgent._generate_integration_tests, mkdir_parents, write_text.
  eapply ok_adds_eq; [count|reflexivity].
Qed.

Lemma generate_ui_tests_adds : ok_adds TestCoverageAgent._generate_ui_tests 1.
Proof.
  unfold TestCoverageAgent._generate_ui_tests, mkdir_parents, write_text.
  eapply ok_adds_eq; [count|reflexivity].
Qed.

Lemma generate_performance_tests_adds :
  ok_adds TestCoverageAgent._generate_performance_tests 1.
Proof.
  unfold TestCoverageAgent._generate_performance_tests, mkdir_parents, write_text.
  eapply ok_adds_eq; [count|reflexivity].
Qed.

Lemma tests_fix_issue_counts fixed_count issue :
  ok_yields (TestCoverageAgent.fix_issue fixed_count issue)
    (handled_by_tests issue) (fixed_count + handled_by_tests issue).
Proof.
  unfold TestCoverageAgent.fix_issue, handled_by_tests, getitem.
  destruct (issue !! "type") as [type|]; [|by intros s a s' [=]].
  intros s a s' Hrun. rewrite (bind_ok _ _ _ _ _ (eq_refl : ret type s = _)) in Hrun.
  destruct (is_str type "missing_test_directory"); simpl.
  - match type of Hrun with
    | ?m s = _ => assert (ok_yields m 1 (fixed_count + 1)) as Hm
    end.
    { unfold mkdir_parents. eapply ok_yields_eq; [count|reflexivity]. }
    exact (Hm _ _ _ Hrun).
  - destruct (is_str type "missing_test_file").
    + match type of Hrun with
      | ?m s = _ => assert (ok_yields m 1 (fixed_count + 1)) as Hm
      end.
      { unfold mkdir_parents, write_text. eapply ok_yields_eq; [count|reflexivity]. }
      exact (Hm _ _ _ Hrun).
    + injection Hrun as <- <-. split; lia.
Qed.

Lemma tests_fix_loop_counts issues : forall fixed_count,
  ok_yields (for_in issues TestCoverageAgent.fix_issue fixed_count)
    (list_sum (map handled_by_tests issues))
    (fixed_count + list_sum (map handled_by_tests issues)).
Proof.
  induction issues as [|issue issues IH]; intros fixed_count; simpl.
  - rewrite Nat.add_0_r. apply ok_yields_ret.
  - intros s a s' Hrun. apply bind_ok_inv in Hrun as (c & s1 & H1 & H2).
    apply tests_fix_issue_counts in H1 as [-> H1].
    apply IH in H2 as [-> H2]. split; lia.
Qed.

Lemma tests_fix_counts issues s o s' :
  TestCoverageAgent.fix_ issues s = (Ok o, s') ->
  total o = length issues /\
  fixed o = list_sum (map handled_by_tests issues) /\
  ledger_length s' = ledger_length s + fixed o + 3.
Proof.
  unfold TestCoverageAgent.fix_. intros Hrun.
  apply bind_ok_inv in Hrun as ([] & s1 & Hlog & Hrun).
  apply (ok_adds_quiet _ (quiet_log _)) in Hlog.
  apply bind_ok_inv in Hrun as (c & s2 & Hloop & Hrun).
  apply tests_fix_loop_counts in Hloop as [-> Hloop].
  apply bind_ok_inv in Hrun as ([] & s3 & H1 & Hrun).
  apply generate_integration_tests_adds in H1.
  apply bind_ok_inv in Hrun as ([] & s4 & H2 & Hrun).
  apply generate_ui_tests_adds in H2.
  apply bind_ok_inv in Hrun as ([] & s5 & H3 & [= <- <-]).
  apply generate_performance_tests_adds in H3.
  simpl. split; [done|]. split; [done|]. lia.
Qed.

(** ** The ledger of a run *)

Section Booked.
Import MasterOrchestrator.

Lemma recorded_app evs evs' : recorded (evs ++ evs') = recorded evs ++ recorded evs'.
Proof. apply omap_app. Qed.

Lemma recorded_records agent ms : recorded (map (EvRecord agent) ms) = ms.
Proof. induction ms as [|m ms IH]; simpl; [done|]. by rewrite IH. Qed.

#[global] Instance booked_preorder : PreOrder booked.
Proof.
  split.
  - intros s. exists []. rewrite app_nil_r. simpl. split; [done|lia].
  - intros s1 s2 s3 (evs & Hh & Hl) (evs' & Hh' & Hl').
    exists (evs ++ evs'). rewrite Hh', Hh, recorded_app, length_app, Hl', Hl.
    split; [by rewrite app_assoc|lia].
Qed.

Lemma ledger_insert (l : list Agent) i a a' ms :
  l !! i = Some a -> modifications_made a' = modifications_made a ++ ms ->
  length (ledger (<[i:=a']> l)) = length (ledger l) + length ms.
Proof.
  unfold ledger. revert i. induction l as [|b l IH]; intros i Hi Hmods; [done|].
  destruct i as [|i]; simpl in *.
  - injection Hi as ->. rewrite !length_app, Hmods, length_app. lia.
  - rewrite !length_app, (IH i Hi Hmods). lia.
Qed.

Lemma booked_with_agent {A} i (m : M AgentSt A) :
  preserves records m -> preserves booked (with_agent i m).
Proof.
  intros Hm s. unfold with_agent.
  destruct (agents (this s) !! i) as [a|] eqn:Hi; [|reflexivity].
  specialize (Hm {| self := a; aenv := env s |}).
  destruct (m _) as [r sa]. destruct Hm as (_ & ms & Hmods & Htrace).
  simpl in *. exists (map (EvRecord (name a)) ms). split; [done|].
  rewrite recorded_records. by apply (ledger_insert _ _ a).
Qed.

Lemma booked_still s s' : still s s' -> booked s s'.
Proof.
  intros [Hthis Hh]. exists []. rewrite app_nil_r, Hthis. simpl. split; [done|lia].
Qed.

Lemma booked_of_still {A} (m : M St A) : preserves still m -> preserves booked m.
Proof. apply preserves_weaken, booked_still. Qed.

Lemma booked_call ph agent : preserves booked (emit (S := St) (EvCall ph agent)).
Proof. intros s. exists [EvCall ph agent]. simpl. split; [done|lia]. Qed.

Lemma booked_return ph agent r :
  preserves booked (emit (S := St) (EvReturn ph agent r)).
Proof. intros s. exists [EvReturn ph agent r]. simpl. split; [done|lia]. Qed.

Lemma booked_await {A} ph i (m : M AgentSt A) summary :
  preserves records m -> preserves booked (await ph i m summary).
Proof.
  intros Hm. unfold await.
  pres; intros;
    first [ apply booked_call | apply booked_return
          | apply booked_with_agent; first [done | apply records_of_quiet; pres] ].
Qed.

Lemma booked_run : preserves booked run_full_upgrade.
Proof.
  unfold run_full_upgrade.
  apply preserves_bind; [apply _|apply booked_of_still, create_backup_still|].
  intros backup_path.
  apply preserves_bind; [apply _|apply booked_of_still, still_this_get|]. intros n.
  apply preserves_bind; [apply _| |intros all_issues].
  { unfold analysis_phase. apply preserves_for_in; [apply _|]. intros acc i.
    unfold analyze_agent.
    repeat first
      [ apply booked_await; apply records_of_quiet, quiet_analyze
      | apply preserves_bind; [apply _| |intros ?]
      | apply preserves_ret; apply _
      | apply booked_with_agent; apply records_of_quiet; pres ]. }
  apply preserves_bind; [apply _| |intros _].
  { unfold fixing_phase. apply preserves_for_each; [apply _|]. intros i.
    unfold fix_agent.
    repeat first
      [ apply booked_await; apply records_fix
      | apply preserves_bind; [apply _| |intros ?]
      | apply preserves_ret; apply _
      | apply preserves_raise; apply _
      | apply booked_with_agent; apply records_of_quiet; pres
      | match goal with |- preserves _ (match ?x with _ => _ end) => destruct x end ]. }
  apply preserves_bind; [apply _| |intros all_valid].
  { unfold validation_phase. apply preserves_for_in; [apply _|]. intros acc i.
    unfold validate_agent.
    repeat first
      [ apply booked_await; apply records_of_quiet, quiet_validate
      | apply preserves_bind; [apply _| |intros ?]
      | apply preserves_ret; apply _
      | apply booked_with_agent; apply records_of_quiet; pres ]. }
  apply preserves_bind; [apply _|apply booked_of_still, generate_final_report_still|].
  intros _. apply preserves_ret. apply _.
Qed.

End Booked.

Section TestsInARun.
Import MasterOrchestrator.

(** The step of the fixing phase for the test agent: it passes the agent
    over, or its [fix] returns and has appended [fixed + 3] entries. *)
Lemma tests_fix_agent_counts all_issues i s s' a :
  agents_of s !! i = Some a -> cls a = TestCoverage ->
  fix_agent all_issues i s = (Ok tt, s') ->
  exists a' evs,
    agents_of s' !! i = Some a' /\ same_agent a a' /\
    history_of s' = history_of s ++ evs /\
    (modifications_made a' = modifications_made a \/
     exists out,
       EvReturn Fixing (name a) (RFixed out) ∈ evs /\
       length (modifications_made a')
         = length (modifications_made a) + fixed out + 3).
Proof.
  intros Hi Hcls Hf. unfold fix_agent in Hf.
  apply bind_ok_inv in Hf as (agent_name & sn & Hn & Hf).
  destruct (with_agent_get _ _ _ _ _ Hn) as [(Hnone & _)|(a0 & Hi0 & [= ->] & ->)];
    [congruence|].
  assert (a0 = a) as -> by congruence.
  apply bind_ok_inv in Hf as (analysis & sm & Hlook & Hf).
  destruct (all_issues !! name a) as [analysis'|]; [|by inversion Hlook].
  injection Hlook as -> ->.
  destruct (issues analysis) as [|g l].
  - pose proof (preserves_run calm _ _ _ _ (with_agent_calm i _ (quiet_log _)) Hf)
      as Hcalm.
    destruct (calm_lookup _ _ _ _ Hcalm Hi) as (a' & Hi' & Hsame & Hmods).
    destruct Hcalm as (_ & Hh & _).
    exists a', []. rewrite app_nil_r.
    split; [done|]. split; [done|]. split; [done|]. by left.
  - apply bind_ok_inv in Hf as ([] & sl & Hlog & Hf).
    pose proof (preserves_run calm _ _ _ _ (with_agent_calm i _ (quiet_log _)) Hlog)
      as Hcalm.
    destruct (calm_lookup _ _ _ _ Hcalm Hi) as (al & Hil & Hsamel & Hmodsl).
    destruct Hcalm as (_ & Hhl & _).
    apply bind_ok_inv in Hf as (result & sf & Hawait & Hf).
    pose proof (preserves_run calm _ _ _ _ (with_agent_calm i _ (quiet_log _)) Hf)
      as Hcalm.
    apply await_inv in Hawait
      as [(Hnone & _)|(a1 & ra & sa & Hi1 & Hrun & Hres)]; [congruence|].
    assert (a1 = al) as -> by congruence.
    destruct ra as [out|x]; destruct Hres as [Hr ->]; [|done]. injection Hr as ->.
    pose proof (preserves_run records _ _ _ _ (records_fix _) Hrun)
      as (Hsamef & ms & Hms & Htrace).
    cbn [self aenv record_event trace] in Hsamef, Hms, Htrace.
    assert (TestCoverageAgent.fix_ (g :: l)
              {| self := al;
                 aenv := record_event (EvCall Fixing (name al)) (env sl) |}
            = (Ok out, sa)) as Htests.
    { rewrite <- Hrun. unfold fix_, self_get, bind. cbn [self].
      destruct Hsamel as (-> & _). by rewrite Hcls. }
    apply tests_fix_counts in Htests as (_ & _ & Hcount).
    unfold ledger_length in Hcount. cbn [self] in Hcount.
    assert (agents_of {| this := set_agent i (self sa) (this sl);
                         env := record_event (EvReturn Fixing (name al) (RFixed out))
                                  (aenv sa) |} !! i = Some (self sa)) as Hisa.
    { cbn [this agents set_agent]. apply list_lookup_insert_eq.
      by eapply lookup_lt_Some. }
    destruct (calm_lookup _ _ _ _ Hcalm Hisa) as (a' & Hi' & Hsame' & Hmods').
    destruct Hcalm as (_ & Hh' & _).
    cbn [env record_event trace] in Hh'.
    destruct Hsamel as (Hc1 & Hn1 & Hp1). destruct Hsamef as (Hc2 & Hn2 & Hp2).
    destruct Hsame' as (Hc3 & Hn3 & Hp3).
    exists a', ([EvCall Fixing (name a)] ++ map (EvRecord (name a)) ms
                  ++ [EvReturn Fixing (name a) (RFixed out)]).
    split; [done|]. split; [split; [|split]; congruence|]. split.
    + rewrite Hh', Htrace, Hhl, Hn1. by rewrite <- !app_assoc.
    + right. exists out. split; [set_solver|].
      rewrite Hmods', Hcount, Hmodsl. lia.
Qed.

End TestsInARun.

Section CompletedRun.
Import MasterOrchestrator.

(** The test agent, the first of the roster, across a run that
    completes. *)
Lemma tests_in_a_completed_run s success s' a :
  length (agents_of s) = 5 ->
  agents_of s !! 0 = Some a -> cls a = TestCoverage -> modifications_made a = [] ->
  run_full_upgrade s = (Ok success, s') ->
  exists a' h,
    agents_of s' !! 0 = Some a' /\ name a' = name a /\
    history_of s' = history_of s ++ h /\
    (modifications_made a' = [] \/
     exists out,
       EvReturn Fixing (name a) (RFixed out) ∈ h /\
       length (modifications_made a') = fixed out + 3).
Proof.
  intros Hlen Ha Hcls Hnil Hrun.
  apply run_full_upgrade_ends in Hrun.
  inversion Hrun as [| | | | |backup_path s0 all_issues s1 s2 all_valid s3 s4
                              H0 H1 H2 H3 H4]; subst.
  pose proof (preserves_run _ _ _ _ _ create_backup_still H0) as [Hthis0 Hh0].
  assert (length (agents_of s0) = 5) as Hlen0 by (by rewrite Hthis0).
  rewrite Hlen0 in H1, H2, H3.
  (* the analyses *)
  pose proof (preserves_run _ _ _ _ _ (analysis_phase_step (fun _ => True) 5) H1)
    as (Hag1 & h1 & Hh1 & _).
  assert (agents_of s0 !! 0 = Some a) as Ha0 by (by rewrite Hthis0).
  destruct (Forall2_lookup_l _ _ _ _ _ Hag1 Ha0) as (a1 & Ha1 & Hsame1 & Hmods1).
  specialize (Hmods1 I).
  (* the fix of the test agent, and the fixes after it *)
  unfold fixing_phase, for_each in H2. cbn [seq for_in] in H2.
  apply bind_ok_inv in H2 as ([] & st & Hfix & Hrest).
  destruct (tests_fix_agent_counts _ _ _ _ _ Ha1 ltac:(destruct Hsame1; congruence) Hfix)
    as (at_ & evs & Hat & Hsamet & Hht & Hcount).
  pose proof (preserves_run (leaves_agent 0) _ _ _ _
                (leaves_agent_fixing all_issues 0 [1; 2; 3; 4]
                   ltac:(repeat constructor; lia)) Hrest) as Hleft.
  pose proof (preserves_run _ _ _ _ _
                (preserves_for_each _ [1; 2; 3; 4] _ (fix_agent_step all_issues)) Hrest)
    as (_ & h2 & Hh2 & _).
  unfold leaves_agent in Hleft. rewrite Hat in Hleft.
  (* the validations and the report *)
  pose proof (preserves_run _ _ _ _ _ (validation_phase_step (fun _ => True) 5) H3)
    as (Hag3 & h3 & Hh3 & _).
  destruct (Forall2_lookup_l _ _ _ _ _ Hag3 Hleft) as (a3 & Ha3 & Hsame3 & Hmods3).
  specialize (Hmods3 I).
  pose proof (preserves_run _ _ _ _ _ (generate_final_report_still _ _ _) H4)
    as [Hthis4 Hh4].
  destruct Hsame1 as (_ & Hn1 & _). destruct Hsamet as (_ & Hnt & _).
  destruct Hsame3 as (_ & Hn3 & _).
  exists a3, (h1 ++ evs ++ h2 ++ h3). split; [by rewrite Hthis4|].
  split; [congruence|]. split.
  - rewrite Hh4, Hh3, Hh2, Hht, Hh1, Hh0. by rewrite <- !app_assoc.
  - rewrite Hmods3. destruct Hcount as [Hsame|(out & Hin & Hcount)].
    + left. congruence.
    + right. exists out. rewrite Hn1 in Hin. split; [set_solver|].
      rewrite Hcount, Hmods1, Hnil. simpl. lia.
Qed.

End CompletedRun.

(** C2, as the code has it. When a run completes, the ledger holds one
    entry for each modification the run has recorded in its history, and
    nothing else. The test agent, the first of the roster, ends the run
    with an empty list, or its [fix] has returned and its list holds
    [fixed + 3] entries: one for each fixed issue and one for each of the
    three test files [fix] generates whatever the issues are. *)
Theorem ledger_of_a_completed_run args e code f :
  AgentTeam.main args (AgentTeam.enter e) = (Ok code, f) ->
  exists o h tests,
    AgentTeam.orchestrator f = Some o /\
    trace (AgentTeam.env f) = trace e ++ h /\
    length (ledger (MasterOrchestrator.agents o)) = length (recorded h) /\
    MasterOrchestrator.agents o !! 0 = Some tests /\
    name tests = "TestCoverageAgent" /\
    (modifications_made tests = [] \/
     exists out,
       EvReturn Fixing "TestCoverageAgent" (RFixed out) ∈ h /\
       length (modifications_made tests) = fixed out + 3).
Proof.
  intros Hmain.
  apply main_inv in Hmain as (o0 & res & s' & Hagents & Hrun & -> & Hres).
  destruct res as [success|x]; [|done]. clear Hres.
  destruct (booked_run {| MasterOrchestrator.this := o0;
                          MasterOrchestrator.env := tick e |}) as (evs & Hh & Hl).
  rewrite Hrun in Hh, Hl. cbn [snd MasterOrchestrator.this MasterOrchestrator.env] in Hh, Hl.
  rewrite Hagents in Hl. cbn [ledger map concat] in Hl.
  destruct (tests_in_a_completed_run
              {| MasterOrchestrator.this := o0; MasterOrchestrator.env := tick e |}
              success s'
              (TestCoverageAgent.__init__
                 (PurePath.parts (AgentTeam.project_path args))))
    as (tests & h & Htests & Hname & Hh' & Hcount); try done.
  { cbn [MasterOrchestrator.this]. by rewrite Hagents. }
  { cbn [MasterOrchestrator.this]. by rewrite Hagents. }
  cbn [MasterOrchestrator.env] in Hh'.
  assert (h = evs) as -> by (rewrite Hh' in Hh; by apply app_inv_head in Hh).
  exists (MasterOrchestrator.this s'), evs, tests.
  cbn [AgentTeam.orchestrator AgentTeam.env].
  split; [done|]. split; [done|]. split; [done|]. split; [done|].
  split; [done|]. exact Hcount.
Qed.

Lemma ledger_witness :
  let f := (AgentTeam.main sample_args (AgentTeam.enter empty_project)).2 in
  exists o h tests,
    AgentTeam.orchestrator f = Some o /\
    trace (AgentTeam.env f) = trace empty_project ++ h /\
    length (ledger (MasterOrchestrator.agents o)) = length (recorded h) /\
    MasterOrchestrator.agents o !! 0 = Some tests /\
    name tests = "TestCoverageAgent" /\
    (modifications_made tests = [] \/
     exists out,
       EvReturn Fixing "TestCoverageAgent" (RFixed out) ∈ h /\
       length (modifications_made tests) = fixed out + 3).
Proof.
  apply (ledger_of_a_completed_run sample_args empty_project 1%Z).
  apply pair_eta_eq. vm_compute. reflexivity.
Defined.

(** C2 fails on the code. The run on the empty project completes; the
    five results of [fix] report 8 fixed issues in all, and the lists of the
    agents hold 24 modifications. *)
Lemma ledger_count_counterexample :
  let run := MasterOrchestrator.run_full_upgrade (sample_start empty_project) in
  (AgentTeam.main sample_args (AgentTeam.enter empty_project)).1 = Ok 1%Z /\
  run.1 = Ok false /\
  map (fun a => length (modifications_made a)) (agents_of run.2) = [5; 6; 4; 4; 5] /\
  omap fix_result (history_of run.2)
    = [ {| fixed := 2; total := 2 |}; {| fixed := 1; total := 1 |};
        {| fixed := 2; total := 2 |}; {| fixed := 1; total := 1 |};
        {| fixed := 2; total := 2 |} ] /\
  length (ledger (agents_of run.2)) = 24 /\
  fixed_total (history_of run.2) = 8 /\
  length (ledger (agents_of run.2)) <> fixed_total (history_of run.2).
Proof.
  cbv zeta. repeat split; try (vm_compute; reflexivity). vm_compute. discriminate.
Qed.

(** ** Fixing twice *)

Section TreeSteps.

Lemma keeps_but_refl written t : keeps_but written t t.
Proof. split; [done|]. split; [done|]. intros q _ Hq. by left. Qed.

Lemma keeps_but_trans w1 w2 t1 t2 t3 :
  keeps_but w1 t1 t2 -> keeps_but w2 t2 t3 -> keeps_but (w1 ++ w2) t1 t3.
Proof.
  intros (Hd & Hf & Hn) (Hd' & Hf' & Hn'). split; [|split].
  - intros q Hq. by apply Hd', Hd.
  - intros q c w Hq Hfile. apply not_elem_of_app in Hq as [Hq1 Hq2].
    by apply Hf', Hf.
  - intros q Hq Hnone. apply not_elem_of_app in Hq as [Hq1 Hq2].
    destruct (Hn q Hq1 Hnone) as [Hnone'|Hdir]; [by apply Hn'|].
    right. by apply Hd'.
Qed.

Lemma keeps_but_weaken w w' t t' :
  (forall q, q ∈ w -> q ∈ w') -> keeps_but w t t' -> keeps_but w' t t'.
Proof.
  intros Hsub (Hd & Hf & Hn). split; [done|]. split.
  - intros q c x Hq. apply Hf. intros Hin. by apply Hq, Hsub.
  - intros q Hq. apply Hn. intros Hin. by apply Hq, Hsub.
Qed.

Lemma keeps_but_content written t t' q :
  keeps_but written t t' -> q ∉ written -> content_at t q = content_at t' q.
Proof.
  intros (Hd & Hf & Hn) Hq. unfold content_at, FileSystem.node_at.
  destruct q as [|c q]; [done|].
  destruct (t !! (c :: q)) as [[|content w]|] eqn:Ht.
  - by rewrite (Hd _ Ht).
  - by rewrite (Hf _ _ _ Hq Ht).
  - by destruct (Hn _ Hq Ht) as [-> | ->].
Qed.

Lemma mkdir_from_keeps todo : forall t here r t',
  FileSystem.mkdir_from t here todo = (r, t') -> keeps_but [] t t'.
Proof.
  induction todo as [|c todo IH]; intros t here r t'; simpl.
  - intros [= _ <-]. apply keeps_but_refl.
  - destruct (t !! (here ++ [c])) as [[|content w]|] eqn:Hq.
    + apply IH.
    + intros [= _ <-]. apply keeps_but_refl.
    + intros Hrest. apply IH in Hrest as (Hd & Hf & Hn). split; [|split].
      * intros q Hdir. apply Hd. rewrite lookup_insert_ne; [done|congruence].
      * intros q content w Hnot Hfile. apply Hf; [done|].
        rewrite lookup_insert_ne; [done|congruence].
      * intros q Hnot Hnone.
        destruct (decide (here ++ [c] = q)) as [<-|Hne].
        -- right. apply Hd. by rewrite lookup_insert_eq.
        -- apply Hn; [done|]. by rewrite lookup_insert_ne.
Qed.

Lemma mkdir_from_chain todo : forall t here t',
  FileSystem.mkdir_from t here todo = (Ok tt, t') -> dir_chain t' here todo.
Proof.
  induction todo as [|c todo IH]; intros t here t' Hmk k Hk; simpl in *; [lia|].
  assert (t' !! (here ++ [c]) = Some Dir /\
          dir_chain t' (here ++ [c]) todo) as [Hfirst Hrest].
  { destruct (t !! (here ++ [c])) as [[|content w]|] eqn:Hq; [|done|].
    - split; [|by eapply IH].
      by apply (mkdir_from_keeps _ _ _ _ _ Hmk).
    - split; [|by eapply IH].
      apply (mkdir_from_keeps _ _ _ _ _ Hmk). by rewrite lookup_insert_eq. }
  destruct k as [|k]; [lia|]. simpl.
  destruct k as [|k].
  - by rewrite take_0.
  - specialize (Hrest (S k)). rewrite <- app_assoc in Hrest. apply Hrest. lia.
Qed.

Lemma mkdir_from_noop todo : forall t here,
  dir_chain t here todo -> FileSystem.mkdir_from t here todo = (Ok tt, t).
Proof.
  induction todo as [|c todo IH]; intros t here Hchain; simpl; [done|].
  pose proof (Hchain 1) as Hfirst. simpl in Hfirst. rewrite take_0 in Hfirst.
  rewrite Hfirst by lia. apply IH.
  intros k Hk. specialize (Hchain (S k)). simpl in Hchain.
  rewrite <- app_assoc. apply Hchain. lia.
Qed.

Lemma dir_chain_keeps written t t' here todo :
  keeps_but written t t' -> dir_chain t here todo -> dir_chain t' here todo.
Proof. intros (Hd & _) Hchain k Hk. by apply Hd, Hchain. Qed.

Lemma write_text_ok t p c t' :
  FileSystem.write_text t p c = (Ok tt, t') ->
  t' = <[p := File c true]> t /\ p <> [] /\ keeps_but [p] t t'.
Proof.
  unfold FileSystem.write_text. destruct p as [|x p]; [done|].
  unfold FileSystem.node_at at 1. intros Hw.
  assert (t' = <[x :: p := File c true]> t /\ t !! (x :: p) <> Some Dir)
    as [-> Hnot].
  { destruct (t !! (x :: p)) as [[|content [|]]|]; try done.
    - by injection Hw as <-.
    - destruct (FileSystem.node_at t _) as [[|? ?]|]; try done.
      by injection Hw as <-. }
  split; [done|]. split; [done|]. split; [|split].
  - intros q Hq. rewrite lookup_insert_ne; [done|congruence].
  - intros q content w Hq Hfile. rewrite lookup_insert_ne; [done|set_solver].
  - intros q Hq Hnone. left. rewrite lookup_insert_ne; [done|set_solver].
Qed.

Lemma write_text_fails_keeps t p c e t' :
  FileSystem.write_text t p c = (Raise e, t') -> t' = t.
Proof.
  unfold FileSystem.write_text. repeat case_match; by intros [= _ <-].
Qed.

Lemma write_text_noop t p c :
  p <> [] -> t !! p = Some (File c true) ->
  FileSystem.write_text t p c = (Ok tt, t).
Proof.
  intros Hp Hfile. unfold FileSystem.write_text, FileSystem.node_at.
  destruct p as [|x p]; [done|]. rewrite Hfile. by rewrite insert_id.
Qed.

End TreeSteps.

Section FixTwice.

Lemma update_fs_inv {A} (f : FS -> Res A * FS) (s : AgentSt) r s' :
  update_fs f s = (r, s') ->
  exists t', f (fs (aenv s)) = (r, t') /\
             s' = {| self := self s; aenv := set_fs t' (aenv s) |}.
Proof.
  unfold update_fs. destruct (f _) as [r' t'] eqn:Hf. intros [= <- <-]. eauto.
Qed.

Lemma set_fs_same e : set_fs (fs e) e = e.
Proof. by destruct e. Qed.

Lemma add_modification_inv file_path description s r s' :
  AgentBase.add_modification file_path description s = (r, s') ->
  r = Ok tt /\ fs (aenv s') = fs (aenv s) /\ same_agent (self s) (self s').
Proof. by intros [= <- <-]. Qed.

Lemma write_block_first p c file_path description s s' :
  write_block p c file_path description s = (Ok tt, s') ->
  keeps_but [p] (fs (aenv s)) (fs (aenv s')) /\
  written (fs (aenv s')) p c /\
  same_agent (self s) (self s').
Proof.
  unfold write_block, mkdir_parents, write_text. intros Hrun.
  apply bind_ok_inv in Hrun as ([] & s1 & Hmk & Hrun).
  apply bind_ok_inv in Hrun as ([] & s2 & Hw & Hrec).
  apply update_fs_inv in Hmk as (t1 & Hmk & ->).
  apply update_fs_inv in Hw as (t2 & Hw & ->). simpl in Hw.
  apply add_modification_inv in Hrec as (_ & Hfs & Hsame). simpl in Hfs, Hsame.
  rewrite Hfs.
  pose proof (mkdir_from_keeps _ _ _ _ _ Hmk) as Hk1.
  pose proof (mkdir_from_chain _ _ _ _ Hmk) as Hchain.
  apply write_text_ok in Hw as (-> & Hne & Hk2).
  split; [|split; [|done]].
  - apply (keeps_but_trans [] [p] _ _ _ Hk1 Hk2).
  - split; [by eapply dir_chain_keeps|]. split; [|done].
    by rewrite lookup_insert_eq.
Qed.

Lemma write_block_replay p c file_path description s :
  written (fs (aenv s)) p c ->
  exists s',
    write_block p c file_path description s = (Ok tt, s') /\
    fs (aenv s') = fs (aenv s) /\ same_agent (self s) (self s').
Proof.
  intros (Hchain & Hfile & Hne).
  unfold write_block, mkdir_parents, write_text, update_fs, bind.
  cbn [get_env set_env AgentSt_HasEnv aenv self].
  unfold FileSystem.mkdir_parents. rewrite (mkdir_from_noop _ _ _ Hchain).
  rewrite set_fs_same. cbn [aenv self].
  rewrite (write_text_noop _ _ _ Hne Hfile), set_fs_same.
  destruct (AgentBase.add_modification _ _ _) as [r s'] eqn:Hrec.
  apply add_modification_inv in Hrec as (-> & Hfs & Hsame). by exists s'.
Qed.

Lemma written_keeps w t t' p c :
  keeps_but w t t' -> p ∉ w -> written t p c -> written t' p c.
Proof.
  intros Hk Hp (Hchain & Hfile & Hne). split; [by eapply dir_chain_keeps|].
  split; [|done]. destruct Hk as (_ & Hf & _). by apply Hf.
Qed.

End FixTwice.

Lemma joinpath_differs project rel1 rel2 :
  PurePath.parts rel1 <> PurePath.parts rel2 -> project // rel1 <> project // rel2.
Proof. intros Hne Heq. by apply app_inv_head in Heq. Qed.

Lemma generated_tests_distinct project : NoDup (generated_tests project).
Proof.
  unfold generated_tests.
  apply NoDup_cons. split.
  { intros Hin. apply elem_of_cons in Hin as [Heq|Hin].
    - revert Heq. apply joinpath_differs. intros H. vm_compute in H. discriminate H.
    - apply list_elem_of_singleton in Hin. revert Hin.
      apply joinpath_differs. intros H. vm_compute in H. discriminate H. }
  apply NoDup_cons. split; [|apply NoDup_singleton].
  intros Hin. apply list_elem_of_singleton in Hin. revert Hin.
  apply joinpath_differs. intros H. vm_compute in H. discriminate H.
Qed.

Lemma generate_integration_tests_block s :
  TestCoverageAgent._generate_integration_tests s =
    write_block
      (project_path (self s) //
         "app/src/androidTest/java/com/astralplayer/integration/VideoPlayerIntegrationTest.kt")
      Payload.integration_test
      (PurePath.str
         (project_path (self s) //
            "app/src/androidTest/java/com/astralplayer/integration/VideoPlayerIntegrationTest.kt"))
      "Generated integration tests" s.
Proof. reflexivity. Qed.

Lemma generate_ui_tests_block s :
  TestCoverageAgent._generate_ui_tests s =
    write_block
      (project_path (self s) //
         "app/src/androidTest/java/com/astralplayer/ui/VideoPlayerUITest.kt")
      Payload.ui_test
      (PurePath.str
         (project_path (self s) //
            "app/src/androidTest/java/com/astralplayer/ui/VideoPlayerUITest.kt"))
      "Generated UI tests" s.
Proof. reflexivity. Qed.

Lemma generate_performance_tests_block s :
  TestCoverageAgent._generate_performance_tests s =
    write_block
      (project_path (self s) //
         "benchmark/src/androidTest/java/com/astralplayer/benchmark/VideoPlayerBenchmark.kt")
      Payload.perf_test
      (PurePath.str
         (project_path (self s) //
            "benchmark/src/androidTest/java/com/astralplayer/benchmark/VideoPlayerBenchmark.kt"))
      "Generated performance benchmarks" s.
Proof. reflexivity. Qed.

(** The three generating steps at the end of [fix], the first time. *)
Lemma generated_tests_first (o : FixOutcome) s r s' :
  (TestCoverageAgent._generate_integration_tests ;;;
   TestCoverageAgent._generate_ui_tests ;;;
   TestCoverageAgent._generate_performance_tests ;;;
   ret o) s = (Ok r, s') ->
  r = o /\
  keeps_but (generated_tests (project_path (self s))) (fs (aenv s)) (fs (aenv s')) /\
  tests_written (project_path (self s)) (fs (aenv s')) /\
  same_agent (self s) (self s').
Proof.
  intros Hrun.
  apply bind_ok_inv in Hrun as ([] & s1 & H1 & Hrun).
  apply bind_ok_inv in Hrun as ([] & s2 & H2 & Hrun).
  apply bind_ok_inv in Hrun as ([] & s3 & H3 & [= <- <-]).
  split; [done|].
  rewrite generate_integration_tests_block in H1.
  rewrite generate_ui_tests_block in H2.
  rewrite generate_performance_tests_block in H3.
  apply write_block_first in H1 as (Hk1 & Hw1 & Hs1).
  apply write_block_first in H2 as (Hk2 & Hw2 & Hs2).
  apply write_block_first in H3 as (Hk3 & Hw3 & Hs3).
  pose proof Hs1 as (_ & _ & Hp1). pose proof Hs2 as (_ & _ & Hp2).
  rewrite Hp2, Hp1 in Hk3, Hw3. rewrite Hp1 in Hk2, Hw2.
  pose proof (generated_tests_distinct (project_path (self s))) as Hnodup.
  unfold generated_tests in Hnodup.
  apply NoDup_cons in Hnodup as [Hn1 Hnodup].
  apply NoDup_cons in Hnodup as [Hn2 _].
  split; [|split].
  - apply (keeps_but_trans [_] [_; _] _ _ _ Hk1).
    apply (keeps_but_trans [_] [_] _ _ _ Hk2 Hk3).
  - split; [|split; [|exact Hw3]].
    + eapply (written_keeps [_]); [exact Hk3| |].
      { intros Hin. apply Hn1. apply elem_of_cons. by right. }
      eapply (written_keeps [_]); [exact Hk2| |exact Hw1].
      intros Hin. apply Hn1. apply list_elem_of_singleton in Hin.
      rewrite Hin. apply list_elem_of_here.
    + eapply (written_keeps [_]); [exact Hk3|exact Hn2|exact Hw2].
  - etrans; [exact Hs1|]. etrans; [exact Hs2|exact Hs3].
Qed.

(** The same steps on a tree in which the tests are in place. *)
Lemma generated_tests_replay (o : FixOutcome) s :
  tests_written (project_path (self s)) (fs (aenv s)) ->
  exists s',
    (TestCoverageAgent._generate_integration_tests ;;;
     TestCoverageAgent._generate_ui_tests ;;;
     TestCoverageAgent._generate_performance_tests ;;;
     ret o) s = (Ok o, s') /\
    fs (aenv s') = fs (aenv s).
Proof.
  intros (Hw1 & Hw2 & Hw3).
  destruct (write_block_replay _ _
              (PurePath.str
                 (project_path (self s) //
                    "app/src/androidTest/java/com/astralplayer/integration/VideoPlayerIntegrationTest.kt"))
              "Generated integration tests" s Hw1)
    as (s1 & H1 & Hf1 & (_ & _ & Hp1)).
  rewrite <- generate_integration_tests_block in H1.
  rewrite <- Hf1, <- Hp1 in Hw2, Hw3.
  destruct (write_block_replay _ _
              (PurePath.str
                 (project_path (self s1) //
                    "app/src/androidTest/java/com/astralplayer/ui/VideoPlayerUITest.kt"))
              "Generated UI tests" s1 Hw2)
    as (s2 & H2 & Hf2 & (_ & _ & Hp2)).
  rewrite <- generate_ui_tests_block in H2.
  rewrite <- Hf2, <- Hp2 in Hw3.
  destruct (write_block_replay _ _
              (PurePath.str
                 (project_path (self s2) //
                    "benchmark/src/androidTest/java/com/astralplayer/benchmark/VideoPlayerBenchmark.kt"))
              "Generated performance benchmarks" s2 Hw3)
    as (s3 & H3 & Hf3 & _).
  rewrite <- generate_performance_tests_block in H3.
  exists s3. split; [|by rewrite Hf3, Hf2, Hf1].
  rewrite (bind_ok _ _ _ _ _ H1), (bind_ok _ _ _ _ _ H2), (bind_ok _ _ _ _ _ H3).
  done.
Qed.

Lemma read_text_content t p :
  match FileSystem.read_text t p with
  | Ok c => content_at t p = Some c
  | Raise _ => content_at t p = None
  end.
Proof.
  unfold FileSystem.read_text, content_at.
  destruct (FileSystem.node_at t p) as [[|c w]|]; [done|done|].
  by destruct (FileSystem.node_at t (PurePath.parent p)) as [[|? ?]|].
Qed.

(** [_generate_test_content] changes nothing, and what it returns depends
    on the path of the project and on the text of the source only. *)
Lemma generate_test_content_replay source s r s' sx :
  TestCoverageAgent._generate_test_content source s = (r, s') ->
  project_path (self sx) = project_path (self s) ->
  (forall src, source = VStr src ->
     content_at (fs (aenv sx)) (PurePath.parts src)
       = content_at (fs (aenv s)) (PurePath.parts src)) ->
  s' = s /\ TestCoverageAgent._generate_test_content source sx = (r, sx).
Proof.
  intros Hrun Hproject Hcontent.
  destruct source as [src|n|l]; [|by injection Hrun as <- <-..].
  specialize (Hcontent src eq_refl).
  revert Hrun.
  unfold TestCoverageAgent._generate_test_content,
    TestCoverageAgent._extract_package, as_path, as_str, try_except, read_text,
    read_fs, of_res, relative_to, self_get, bind, ret, raise.
  cbn [get_env AgentSt_HasEnv].
  pose proof (read_text_content (fs (aenv s)) (PurePath.parts src)) as Hs.
  pose proof (read_text_content (fs (aenv sx)) (PurePath.parts src)) as Hx.
  destruct (FileSystem.read_text (fs (aenv s)) (PurePath.parts src)) as [c|e];
    destruct (FileSystem.read_text (fs (aenv sx)) (PurePath.parts src)) as [c'|e'];
    try congruence.
  - assert (c' = c) as -> by congruence.
    destruct (TestCoverageAgent.package_line _) as [package|]; cbv beta iota.
    + by intros [= <- <-].
    + rewrite Hproject.
      destruct (PurePath.strip_prefix _ _); cbv beta iota; by intros [= <- <-].
  - cbv beta iota. rewrite Hproject.
    destruct (PurePath.strip_prefix _ _); cbv beta iota; by intros [= <- <-].
Qed.

Lemma getitem_ok_inv (issue : Issue) k (s : AgentSt) v s' :
  getitem issue k s = (Ok v, s') -> issue !! k = Some v /\ s' = s.
Proof.
  unfold getitem. destruct (issue !! k) as [v'|]; [|done]. by intros [= <- <-].
Qed.

Lemma getitem_ok (issue : Issue) k (s : AgentSt) v :
  issue !! k = Some v -> getitem issue k s = (Ok v, s).
Proof. unfold getitem. by intros ->. Qed.

Lemma as_str_ok_inv v (s : AgentSt) str s' :
  as_str v s = (Ok str, s') -> v = VStr str /\ s' = s.
Proof. destruct v; [|done|done]. by intros [= <- <-]. Qed.

Lemma as_path_ok_inv v (s : AgentSt) p s' :
  as_path v s = (Ok p, s') -> exists str, v = VStr str /\ p = PurePath.parts str /\ s' = s.
Proof. destruct v as [str| |]; [|done|done]. intros [= <- <-]. by exists str. Qed.

Lemma mkdir_parents_first p (s : AgentSt) s' :
  mkdir_parents p s = (Ok tt, s') ->
  keeps_but [] (fs (aenv s)) (fs (aenv s')) /\
  dir_chain (fs (aenv s')) [] p /\ self s' = self s.
Proof.
  unfold mkdir_parents. intros Hmk.
  apply update_fs_inv in Hmk as (t' & Hmk & ->). simpl.
  split; [by eapply mkdir_from_keeps|]. split; [|done]. by eapply mkdir_from_chain.
Qed.

Lemma mkdir_parents_replay p (s : AgentSt) :
  dir_chain (fs (aenv s)) [] p -> mkdir_parents p s = (Ok tt, s).
Proof.
  intros Hchain. unfold mkdir_parents, update_fs, FileSystem.mkdir_parents.
  cbn [get_env set_env AgentSt_HasEnv]. rewrite (mkdir_from_noop _ _ _ Hchain).
  rewrite set_fs_same. by destruct s.
Qed.

Lemma write_block_then {A} p c file_path description (k : M AgentSt A) s :
  (mkdir_parents (PurePath.parent p) ;;;
   write_text p c ;;;
   AgentBase.add_modification file_path description ;;; k) s
  = (write_block p c file_path description ;;; k) s.
Proof.
  unfold write_block, bind.
  destruct (mkdir_parents _ s) as [[[]|e] s1]; [|done].
  by destruct (write_text p c s1) as [[[]|e] s2].
Qed.

(** One round of the loop of [TestCoverageAgent.fix], and the same round
    again on a later tree that differs from the first result in the files
    [later] at most. *)
Lemma tests_fix_issue_replay fixed_count issue s c s' :
  TestCoverageAgent.fix_issue fixed_count issue s = (Ok c, s') ->
  same_agent (self s) (self s') /\
  forall later sx,
    (forall source test_path,
       issue !! "source" = Some (VStr source) ->
       issue !! "test_path" = Some (VStr test_path) ->
       (PurePath.parts test_path ∉ later) /\
       (PurePath.parts source ∉ (PurePath.parts test_path :: later))) ->
    project_path (self sx) = project_path (self s) ->
    keeps_but later (fs (aenv s')) (fs (aenv sx)) ->
    exists sx',
      TestCoverageAgent.fix_issue fixed_count issue sx = (Ok c, sx') /\
      fs (aenv sx') = fs (aenv sx) /\
      same_agent (self sx) (self sx').
Proof.
  unfold TestCoverageAgent.fix_issue. intros Hrun.
  apply bind_ok_inv in Hrun as (type & s0 & Htype & Hrun).
  apply getitem_ok_inv in Htype as [Htype ->].
  destruct (is_str type "missing_test_directory") eqn:Hdirectory;
    [|destruct (is_str type "missing_test_file") eqn:Hfile].
  - apply bind_ok_inv in Hrun as (path & s0 & Hpath & Hrun).
    apply getitem_ok_inv in Hpath as [Hpath ->].
    apply bind_ok_inv in Hrun as (dir & s0 & Hdir & Hrun).
    apply as_path_ok_inv in Hdir as (str & -> & -> & ->).
    apply bind_ok_inv in Hrun as ([] & s1 & Hmk & Hrun).
    apply mkdir_parents_first in Hmk as (_ & Hchain & Hself).
    apply bind_ok_inv in Hrun as (file_path & s0 & Hstr & Hrun).
    apply as_str_ok_inv in Hstr as [[= <-] ->].
    apply bind_ok_inv in Hrun as ([] & s2 & Hrec & [= <- <-]).
    apply add_modification_inv in Hrec as (_ & Hfs & Hsame).
    rewrite Hself in Hsame. split; [done|].
    intros later sx _ Hproject Hkeeps.
    rewrite Hfs in Hkeeps.
    pose proof (dir_chain_keeps _ _ _ _ _ Hkeeps Hchain) as Hchain'.
    rewrite (bind_ok _ _ _ _ _ (getitem_ok _ _ sx _ Htype)), Hdirectory.
    rewrite (bind_ok _ _ _ _ _ (getitem_ok _ _ sx _ Hpath)).
    rewrite (bind_ok (as_path (VStr str)) _ sx (PurePath.parts str) sx eq_refl).
    rewrite (bind_ok _ _ _ _ _ (mkdir_parents_replay _ sx Hchain')).
    rewrite (bind_ok (as_str (VStr str)) _ sx str sx eq_refl).
    destruct (AgentBase.add_modification str "Created test directory" sx)
      as [r sx'] eqn:Hrec.
    destruct (add_modification_inv _ _ _ _ _ Hrec) as (-> & Hfs' & Hsame').
    exists sx'. by rewrite (bind_ok _ _ _ _ _ Hrec).
  - apply bind_ok_inv in Hrun as (source & s0 & Hsource & Hrun).
    apply getitem_ok_inv in Hsource as [Hsource ->].
    apply bind_ok_inv in Hrun as (test_content & s0 & Hcontent & Hrun).
    pose proof (generate_test_content_replay _ _ _ _ s Hcontent eq_refl
                  (fun _ _ => eq_refl)) as [-> _].
    apply bind_ok_inv in Hrun as (test_path & s0 & Hpath & Hrun).
    apply getitem_ok_inv in Hpath as [Hpath ->].
    apply bind_ok_inv in Hrun as (path & s0 & Has & Hrun).
    apply as_path_ok_inv in Has as (str & -> & -> & ->).
    rewrite write_block_then in Hrun.
    apply bind_ok_inv in Hrun as ([] & s1 & Hblock & [= <- <-]).
    apply write_block_first in Hblock as (Hkeeps1 & Hwritten & Hsame).
    split; [done|].
    intros later sx Hapart Hproject Hkeeps.
    pose proof (keeps_but_trans _ _ _ _ _ Hkeeps1 Hkeeps) as Hboth.
    assert (TestCoverageAgent._generate_test_content source sx
              = (Ok test_content, sx)) as Hcontent'.
    { apply (generate_test_content_replay _ _ _ _ sx Hcontent Hproject).
      intros src ->. destruct (Hapart src str Hsource Hpath) as [_ Hsrc].
      symmetry. by apply (keeps_but_content _ _ _ _ Hboth). }
    assert (PurePath.parts str ∉ later) as Hstr.
    { destruct source as [src| |]; [|done|done].
      by destruct (Hapart src str Hsource Hpath). }
    pose proof (written_keeps _ _ _ _ _ Hkeeps Hstr Hwritten) as Hwritten'.
    destruct (write_block_replay _ _ (PurePath.str (PurePath.parts str))
                "Generated comprehensive test file" sx Hwritten')
      as (sx' & Hblock' & Hfs' & Hsame').
    exists sx'. split; [|done].
    rewrite (bind_ok _ _ _ _ _ (getitem_ok _ _ sx _ Htype)), Hdirectory, Hfile.
    rewrite (bind_ok _ _ _ _ _ (getitem_ok _ _ sx _ Hsource)).
    rewrite (bind_ok _ _ _ _ _ Hcontent').
    rewrite (bind_ok _ _ _ _ _ (getitem_ok _ _ sx _ Hpath)).
    rewrite (bind_ok (as_path (VStr str)) _ sx (PurePath.parts str) sx eq_refl).
    rewrite write_block_then. by rewrite (bind_ok _ _ _ _ _ Hblock').
  - injection Hrun as <- <-. split; [done|].
    intros later sx _ _ _. exists sx.
    rewrite (bind_ok _ _ _ _ _ (getitem_ok _ _ sx _ Htype)), Hdirectory, Hfile.
    done.
Qed.




(** * More of what the code does *)

(** * Further properties of the agents *)

(** ** Analysis and validation only read *)

(** X1. [analyze], of whatever agent, writes no file, records no modification
    and leaves the name, the class and the project path of its agent. *)
Theorem analyze_changes_nothing (s : AgentSt) :
  fs (aenv (analyze s).2) = fs (aenv s) /\
  modifications_made (self (analyze s).2) = modifications_made (self s) /\
  same_agent (self s) (self (analyze s).2).
Proof. by destruct (quiet_analyze s) as (Hsame & Hmods & _ & Hfs). Qed.

(** X2. [validate], of whatever agent, writes no file and records no
    modification. *)
Theorem validate_changes_nothing (s : AgentSt) :
  fs (aenv (validate s).2) = fs (aenv s) /\
  modifications_made (self (validate s).2) = modifications_made (self s) /\
  same_agent (self s) (self (validate s).2).
Proof. by destruct (quiet_validate s) as (Hsame & Hmods & _ & Hfs). Qed.

(** ** A fix loses nothing *)

#[global] Instance no_loss_preorder : PreOrder no_loss.
Proof.
  split.
  - intros t. split; [done|]. intros q c w Hq. by exists c.
  - intros t1 t2 t3 [Hd Hf] [Hd' Hf']. split.
    + intros q Hq. by apply Hd', Hd.
    + intros q c w Hq. destruct (Hf q c w Hq) as [c' Hq']. by apply (Hf' q c' w).
Qed.

#[global] Instance grows_preorder : PreOrder grows.
Proof.
  split.
  - intros s. unfold grows. reflexivity.
  - intros s1 s2 s3 H1 H2. unfold grows in *. by etrans.
Qed.

Lemma quiet_grows s s' : quiet s s' -> grows s s'.
Proof. intros (_ & _ & _ & Hfs). unfold grows. by rewrite Hfs. Qed.

Lemma grows_of_quiet {A} (m : M AgentSt A) : preserves quiet m -> preserves grows m.
Proof. apply preserves_weaken, quiet_grows. Qed.

Lemma grows_add_modification file_path description :
  preserves grows (AgentBase.add_modification file_path description).
Proof. intros s. unfold grows. simpl. reflexivity. Qed.

Lemma mkdir_from_no_loss todo : forall t here,
  no_loss t (FileSystem.mkdir_from t here todo).2.
Proof.
  induction todo as [|c todo IH]; intros t here; simpl; [reflexivity|].
  destruct (t !! (here ++ [c])) as [[|content w]|] eqn:Hq; [apply IH|reflexivity|].
  etrans; [|apply IH]. split.
  - intros q Hdir. rewrite lookup_insert_ne; [done|congruence].
  - intros q content w Hfile. exists content.
    rewrite lookup_insert_ne; [done|congruence].
Qed.

Lemma write_text_no_loss t p c : no_loss t (FileSystem.write_text t p c).2.
Proof.
  unfold FileSystem.write_text.
  assert (t !! p <> Some Dir -> (forall c', t !! p <> Some (File c' false)) ->
            no_loss t (<[p := File c true]> t)) as Hwrite.
  { intros Hdir Hro. split.
    - intros q Hq. rewrite lookup_insert_ne; [done|congruence].
    - intros q content w Hq. destruct (decide (p = q)) as [<-|Hne].
      + rewrite lookup_insert_eq. destruct w; [by eexists|]. by destruct (Hro content).
      + exists content. by rewrite lookup_insert_ne. }
  destruct p as [|x p]; [reflexivity|]. unfold FileSystem.node_at at 1.
  destruct (t !! (x :: p)) as [[|content [|]]|] eqn:Hp; simpl; try reflexivity.
  - apply Hwrite; congruence.
  - destruct (FileSystem.node_at t _) as [[|? ?]|]; simpl; try reflexivity.
    apply Hwrite; congruence.
Qed.

Lemma mkdir_exist_ok_no_loss t p : no_loss t (FileSystem.mkdir_exist_ok t p).2.
Proof.
  unfold FileSystem.mkdir_exist_ok.
  destruct p as [|x p]; [reflexivity|]. unfold FileSystem.node_at at 1.
  destruct (t !! (x :: p)) as [[|content w]|] eqn:Hp; simpl; try reflexivity.
  destruct (FileSystem.node_at t _) as [[|? ?]|]; simpl; try reflexivity.
  split.
  - intros q Hq. rewrite lookup_insert_ne; [done|congruence].
  - intros q content w Hq. exists content. rewrite lookup_insert_ne; [done|congruence].
Qed.

Lemma grows_update_fs {A} (f : FS -> Res A * FS) :
  (forall t, no_loss t (f t).2) -> preserves grows (update_fs (S := AgentSt) f).
Proof.
  intros Hf s. unfold grows, update_fs. specialize (Hf (fs (get_env s))).
  destruct (f _) as [r t']. exact Hf.
Qed.

Lemma grows_write_text p c : preserves grows (write_text (S := AgentSt) p c).
Proof. apply grows_update_fs. intros t. apply write_text_no_loss. Qed.

Lemma grows_mkdir_parents p : preserves grows (mkdir_parents (S := AgentSt) p).
Proof. apply grows_update_fs. intros t. apply mkdir_from_no_loss. Qed.

Lemma grows_mkdir_exist_ok p : preserves grows (mkdir_exist_ok (S := AgentSt) p).
Proof. apply grows_update_fs. intros t. apply mkdir_exist_ok_no_loss. Qed.

#[global] Hint Resolve grows_of_quiet | 5 : pres.
#[global] Hint Resolve grows_add_modification grows_write_text grows_mkdir_parents
  grows_mkdir_exist_ok : pres.

Lemma grows_fix (issues : list Issue) : preserves grows (fix_ issues).
Proof.
  unfold fix_. apply preserves_bind; [apply _|pres|].
  intros [].
  - unfold TestCoverageAgent.fix_, TestCoverageAgent.fix_issue,
      TestCoverageAgent._generate_integration_tests,
      TestCoverageAgent._generate_ui_tests,
      TestCoverageAgent._generate_performance_tests.
    pres.
  - unfold ArchitectureAgent.fix_, ArchitectureAgent.fix_issue,
      ArchitectureAgent._consolidate_databases, ArchitectureAgent._standardize_packages,
      ArchitectureAgent._enhance_navigation, ArchitectureAgent._create_domain_interfaces,
      ArchitectureAgent._implement_use_cases.
    pres.
  - unfold SecurityAgent.fix_, SecurityAgent.fix_issue,
      SecurityAgent._implement_certificate_pinning, SecurityAgent._enhance_obfuscation,
      SecurityAgent._fix_insecure_endpoints, SecurityAgent._implement_biometric_auth,
      SecurityAgent._enhance_data_encryption.
    pres.
  - unfold PerformanceAgent.fix_, PerformanceAgent.fix_issue,
      PerformanceAgent._fix_memory_leak, PerformanceAgent._fix_coroutine_scope,
      PerformanceAgent._create_baseline_profile, PerformanceAgent._optimize_build_config,
      PerformanceAgent._implement_lazy_loading,
      PerformanceAgent._add_performance_monitoring.
    pres.
  - unfold DocumentationAgent.fix_, DocumentationAgent.fix_issue,
      DocumentationAgent._generate_readme, DocumentationAgent._generate_api_docs,
      DocumentationAgent._enhance_inline_docs,
      DocumentationAgent._generate_architecture_docs,
      DocumentationAgent._generate_setup_guide,
      DocumentationAgent._generate_contributing_guide.
    pres.
Qed.

(** X3. [fix], of whatever agent and on whatever list of issues, deletes
    nothing and changes the kind of nothing: every directory of the tree is
    a directory afterwards, and every file a file with the same mode. This
    holds when [fix] returns and when an error leaves it. *)
Theorem fix_loses_nothing (issues : list Issue) (s : AgentSt) :
  no_loss (fs (aenv s)) (fs (aenv (fix_ issues s).2)).
Proof. apply (grows_fix issues s). Qed.

(** ** The coverage estimate *)

Lemma estimate_coverage_run s :
  TestCoverageAgent._estimate_coverage s =
    (Ok (match source_files (fs (aenv s)) (project_path (self s)) with
         | [] => 0%Q
         | _ :: _ =>
             let percent :=
               (inject_Z (Z.of_nat (length (test_files (fs (aenv s))
                                              (project_path (self s))))) /
                inject_Z (Z.of_nat (length (source_files (fs (aenv s))
                                              (project_path (self s))))) * 100)%Q in
             if Qle_bool percent 100 then percent else 100%Q
         end), s).
Proof.
  unfold TestCoverageAgent._estimate_coverage, source_files, test_files, rglob,
    read_fs, self_get, bind. cbn [get_env AgentSt_HasEnv].
  by destruct (List.filter _ _).
Qed.

Lemma percent_nonneg (tests sources : nat) :
  (0 <= inject_Z (Z.of_nat tests) / inject_Z (Z.of_nat sources) * 100)%Q.
Proof.
  apply Qmult_le_0_compat; [|done].
  apply Qmult_le_0_compat.
  - unfold Qle. simpl. lia.
  - apply Qinv_le_0_compat. unfold Qle. simpl. lia.
Qed.

Lemma percent_reaches (tests sources : nat) :
  (85 <= inject_Z (Z.of_nat tests) / inject_Z (Z.of_nat (S sources)) * 100)%Q <->
  85 * S sources <= 100 * tests.
Proof.
  unfold Qle, Qdiv, Qmult, Qinv, inject_Z.
  cbn [Qnum Qden Z.of_nat]. simpl Qnum. simpl Qden. lia.
Qed.

(** X4. [_estimate_coverage] always returns, leaves its agent and the
    environment as they are, and its estimate lies between 0 and 100; it is 0
    for a project without source files, where the source avoids the division
    by zero. *)
Theorem coverage_estimate_is_a_percentage (s : AgentSt) :
  exists coverage,
    TestCoverageAgent._estimate_coverage s = (Ok coverage, s) /\
    (0 <= coverage)%Q /\ (coverage <= 100)%Q /\
    (source_files (fs (aenv s)) (project_path (self s)) = [] -> coverage = 0%Q).
Proof.
  rewrite estimate_coverage_run. eexists. split; [reflexivity|].
  destruct (source_files _ _) as [|f sources]; [done|].
  cbv zeta. split; [|split; [|done]].
  - destruct (Qle_bool _ 100); [apply percent_nonneg|done].
  - destruct (Qle_bool _ 100) eqn:Hle; [by apply Qle_bool_iff|apply Qle_refl].
Qed.

(** X5. [TestCoverageAgent.validate] returns true exactly when the project has
    a source file and at least 85 test files for every 100 source files:
    the estimate counts files, not tested lines. *)
Theorem tests_validate_counts_files (s : AgentSt) :
  let tests := length (test_files (fs (aenv s)) (project_path (self s))) in
  let sources := length (source_files (fs (aenv s)) (project_path (self s))) in
  (TestCoverageAgent.validate s).1
    = Ok ((0 <? sources) && (85 * sources <=? 100 * tests)).
Proof.
  cbv zeta. unfold TestCoverageAgent.validate, bind.
  rewrite estimate_coverage_run. cbn [AgentBase.log bind datetime_now ret fst].
  unfold bind. simpl fst. f_equal.
  destruct (source_files _ _) as [|f sources]; [done|].
  cbn [length]. cbv zeta.
  set (tests := length (test_files _ _)).
  set (n := length sources).
  change (0 <? S n) with true. cbn [andb].
  apply eq_true_iff_eq. rewrite Nat.leb_le, <- percent_reaches, !Qle_bool_iff.
  destruct (Qle_bool _ 100) eqn:Hle; [done|].
  split; [intros _|done].
  apply (Qle_trans _ 100); [done|].
  apply Qlt_le_weak, Qnot_le_lt. intros Hle'.
  apply Qle_bool_iff in Hle'. congruence.
Qed.

(** ** The backup *)

Lemma strip_prefix_app base rel : PurePath.strip_prefix base (base ++ rel) = Some rel.
Proof. induction base as [|b base IH]; [done|]. simpl. by rewrite String.eqb_refl. Qed.

Lemma strip_prefix_Some base p rel :
  PurePath.strip_prefix base p = Some rel -> p = base ++ rel.
Proof.
  revert p. induction base as [|b base IH]; intros p; simpl; [by intros [= ->]|].
  destruct p as [|c p]; [done|].
  destruct (String.eqb b c) eqn:Hbc; [|done].
  apply String.eqb_eq in Hbc as ->. intros Hrel. by rewrite (IH _ Hrel).
Qed.

Lemma strip_prefix_None base p rel :
  PurePath.strip_prefix base p = None -> p <> base ++ rel.
Proof. intros Hnone ->. by rewrite strip_prefix_app in Hnone. Qed.

(** The keys of [moved] are the keys below [src], re-rooted. *)
Lemma moved_lookup t src dst c rel :
  FileSystem.moved t src dst !! (dst ++ c :: rel) = t !! (src ++ c :: rel).
Proof.
  unfold FileSystem.moved.
  set (f := fun kv : Path * Node =>
              match PurePath.strip_prefix src kv.1 with
              | Some (c :: rel) => Some (dst ++ c :: rel, kv.2)
              | _ => None
              end).
  assert (forall q n k v, f (q, n) = Some (k, v) ->
            exists c' rel', q = src ++ c' :: rel' /\ k = dst ++ c' :: rel' /\ v = n)
    as Hf.
  { intros q n k v. unfold f. simpl.
    destruct (PurePath.strip_prefix src q) as [[|c' rel']|] eqn:Hq; [done| |done].
    intros [= <- <-]. apply strip_prefix_Some in Hq. by exists c', rel'. }
  assert (forall l : list (Path * Node), NoDup l.*1 -> NoDup (omap f l).*1) as Hnodup.
  { induction l as [|[q n] l IH]; [done|].
    rewrite fmap_cons, NoDup_cons. intros [Hq Hl]. simpl.
    destruct (f (q, n)) as [[k v]|] eqn:Hk; [|by apply IH].
    rewrite fmap_cons, NoDup_cons. split; [|by apply IH].
    intros Hin. apply Hq.
    apply list_elem_of_fmap in Hin as ([k' v'] & Hkk & Hin).
    simpl in Hkk. subst k'.
    apply list_elem_of_omap in Hin as ([q' n'] & Hin & Hk').
    apply Hf in Hk as (c1 & rel1 & -> & Hk1 & _).
    apply Hf in Hk' as (c2 & rel2 & -> & Hk2 & _).
    simpl in Hk1. rewrite Hk1 in Hk2. apply app_inv_head in Hk2 as [= <- <-].
    apply list_elem_of_fmap. by exists (src ++ c1 :: rel1, n'). }
  destruct (t !! (src ++ c :: rel)) as [n|] eqn:Hq.
  - apply elem_of_list_to_map_1; [apply Hnodup, NoDup_fst_map_to_list|].
    apply list_elem_of_omap. exists (src ++ c :: rel, n).
    split; [by apply elem_of_map_to_list|].
    unfold f. simpl. by rewrite strip_prefix_app.
  - apply not_elem_of_list_to_map_1. intros Hin.
    apply list_elem_of_fmap in Hin as ([k v] & Hk & Hin). simpl in Hk. subst k.
    apply list_elem_of_omap in Hin as ([q n] & Hin & Hk).
    apply Hf in Hk as (c' & rel' & -> & Hk & _).
    apply app_inv_head in Hk as [= <- <-].
    apply elem_of_map_to_list in Hin. congruence.
Qed.

Lemma moved_lookup_elsewhere t src dst q :
  PurePath.strip_prefix dst q = None -> FileSystem.moved t src dst !! q = None.
Proof.
  intros Hq. unfold FileSystem.moved. apply not_elem_of_list_to_map_1.
  intros Hin. apply list_elem_of_fmap in Hin as ([k v] & Hk & Hin).
  simpl in Hk. subst k.
  apply list_elem_of_omap in Hin as ([q0 n0] & _ & Hsome). simpl in Hsome.
  destruct (PurePath.strip_prefix src q0) as [[|c rel]|]; [done| |done].
  injection Hsome as <- _. by rewrite strip_prefix_app in Hq.
Qed.

(** [mkdir_from] touches the directories on its way only. *)
Lemma mkdir_from_elsewhere todo : forall t here q,
  (forall k, 0 < k <= length todo -> q <> here ++ take k todo) ->
  (FileSystem.mkdir_from t here todo).2 !! q = t !! q.
Proof.
  induction todo as [|c todo IH]; intros t here q Hq; simpl; [done|].
  assert (q <> here ++ [c]) as Hfirst.
  { specialize (Hq 1). simpl in Hq. rewrite take_0 in Hq. apply Hq. lia. }
  assert (forall k, 0 < k <= length todo -> q <> (here ++ [c]) ++ take k todo)
    as Hrest.
  { intros k Hk. specialize (Hq (S k)). simpl in Hq. rewrite <- app_assoc.
    apply Hq. lia. }
  destruct (t !! (here ++ [c])) as [[|content w]|] eqn:Hc; [by apply IH|done|].
  rewrite IH by done. by rewrite lookup_insert_ne.
Qed.

Lemma copytree_inv t src dst r t' :
  FileSystem.copytree t src dst = (r, t') ->
  (exists e, r = Raise e /\
     (FileSystem.node_at t src <> Some Dir \/ FileSystem.node_at t dst <> None ->
      e = copytree_error t src /\ t' = t)) \/
  (r = Ok tt /\ FileSystem.node_at t src = Some Dir /\ FileSystem.node_at t dst = None /\
   t' = FileSystem.moved t src dst ∪ (FileSystem.mkdir_from t [] dst).2).
Proof.
  unfold FileSystem.copytree, copytree_error, FileSystem.mkdir_parents.
  destruct (FileSystem.node_at t src) as [[|content w]|].
  - destruct (FileSystem.node_at t dst) as [n|].
    + intros [= <- <-]. left. eexists. by split.
    + destruct (FileSystem.mkdir_from t [] dst) as [[[]|e] t1].
      * intros [= <- <-]. by right.
      * intros [= <- <-]. left. eexists. split; [done|]. by intros [|].
  - intros [= <- <-]. left. eexists. by split.
  - intros [= <- <-]. left. eexists. by split.
Qed.

(** X6. When [_create_backup] returns, the backup directory, named after the
    reading of the clock next to the project, exists; it holds a copy of
    every node below the project at the same relative path; and every node
    of the project itself is as it was. *)
Theorem backup_is_a_copy (s s0 : MasterOrchestrator.St) backup_path :
  MasterOrchestrator._create_backup s = (Ok backup_path, s0) ->
  let project := MasterOrchestrator.project_path (MasterOrchestrator.this s) in
  let t := fs (MasterOrchestrator.env s) in
  let t' := fs (MasterOrchestrator.env s0) in
  backup_path
    = backup_of project (clock (MasterOrchestrator.env s)
                           (ticks (MasterOrchestrator.env s))) /\
  MasterOrchestrator.this s0 = MasterOrchestrator.this s /\
  FileSystem.is_dir t project = true /\
  FileSystem.is_dir t' backup_path = true /\
  (forall c rel n, t !! (project ++ c :: rel) = Some n ->
     t' !! (backup_path ++ c :: rel) = Some n) /\
  (project <> [] -> forall rel, t' !! (project ++ rel) = t !! (project ++ rel)).
Proof.
  unfold MasterOrchestrator._create_backup, copytree. intros Hrun.
  apply bind_ok_inv in Hrun as (now & s1 & Hnow & Hrun).
  injection Hnow as <- <-.
  apply bind_ok_inv in Hrun as (project & s1 & Hproject & Hrun).
  injection Hproject as <- <-.
  apply bind_ok_inv in Hrun as ([] & s2 & Hcopy & [= <- <-]).
  unfold update_fs in Hcopy. cbn [get_env set_env MasterOrchestrator.St_HasEnv
    MasterOrchestrator.env MasterOrchestrator.this fs tick] in Hcopy.
  destruct (FileSystem.copytree _ _ _) as [r t'] eqn:Hcopytree.
  injection Hcopy as -> <-.
  pose proof (copytree_ok_is_dir _ _ _ _ Hcopytree) as Hdir.
  apply copytree_inv in Hcopytree as [(e & [=] & _)|(_ & Hsrc & Hdst & ->)].
  cbv zeta. cbn [MasterOrchestrator.env MasterOrchestrator.this fs set_fs].
  split; [done|]. split; [done|].
  split; [unfold FileSystem.is_dir; by rewrite Hsrc|]. split; [exact Hdir|].
  split.
  - intros c rel n Hn. apply lookup_union_Some_l. by rewrite moved_lookup.
  - intros Hne rel.
    set (project := MasterOrchestrator.project_path (MasterOrchestrator.this s)) in *.
    clearbody project.
    destruct (exists_last Hne) as (front & last & ->).
    unfold PurePath.parent in *. rewrite removelast_last in *.
    set (name := "astralstream_backup_" +:+ _) in *. clearbody name.
    assert (name <> last) as Hdiff.
    { intros ->. rewrite Hdst in Hsrc. congruence. }
    assert (PurePath.strip_prefix (front ++ [name]) ((front ++ [last]) ++ rel) = None)
      as Hout.
    { destruct (PurePath.strip_prefix _ _) as [rel'|] eqn:Hp; [|done].
      apply strip_prefix_Some in Hp. rewrite <- !app_assoc in Hp.
      apply app_inv_head in Hp. by injection Hp as -> _. }
    rewrite lookup_union_r by (by apply moved_lookup_elsewhere).
    apply mkdir_from_elsewhere. intros k Hk Heq. simpl in Heq.
    destruct (decide (k <= length front)) as [Hle|Hgt].
    + apply (f_equal length) in Heq.
      rewrite length_take, !length_app in Heq. simpl in Heq. lia.
    + rewrite take_ge in Heq by (rewrite length_app; simpl; lia).
      apply (strip_prefix_None _ _ []) in Hout. rewrite app_nil_r in Hout. done.
Qed.

Lemma backup_is_a_copy_witness :
  let s := sample_start documented_project in
  let s0 := (MasterOrchestrator._create_backup s).2 in
  let backup_path := ["astralstream_backup_1"] in
  let project := MasterOrchestrator.project_path (MasterOrchestrator.this s) in
  let t := fs (MasterOrchestrator.env s) in
  let t' := fs (MasterOrchestrator.env s0) in
  backup_path
    = backup_of project (clock (MasterOrchestrator.env s)
                           (ticks (MasterOrchestrator.env s))) /\
  MasterOrchestrator.this s0 = MasterOrchestrator.this s /\
  FileSystem.is_dir t project = true /\
  FileSystem.is_dir t' backup_path = true /\
  (forall c rel n, t !! (project ++ c :: rel) = Some n ->
     t' !! (backup_path ++ c :: rel) = Some n) /\
  (project <> [] -> forall rel, t' !! (project ++ rel) = t !! (project ++ rel)).
Proof.
  apply (backup_is_a_copy (sample_start documented_project)).
  apply pair_eta_eq. vm_compute. reflexivity.
Defined.

(** X7. When the project path is no directory, or the backup path of this
    second is taken, [shutil.copytree] raises and the error leaves
    [_create_backup], [run_full_upgrade] and [main]: no agent is called, the
    tree is as it was, and the process ends with status 1. The command line
    of the team does not check its argument. *)
Theorem run_stops_at_a_failed_backup (args : AgentTeam.Args) (e : Env) :
  let project := PurePath.parts (AgentTeam.project_path args) in
  FileSystem.node_at (fs e) project <> Some Dir \/
  FileSystem.node_at (fs e) (backup_of project (clock e (S (ticks e)))) <> None ->
  exists f,
    AgentTeam.main args (AgentTeam.enter e)
      = (Raise (copytree_error (fs e) project), f) /\
    fs (AgentTeam.env f) = fs e /\
    trace (AgentTeam.env f) = trace e /\
    exit_status (AgentTeam.main args (AgentTeam.enter e)).1 = 1%Z.
Proof.
  cbv zeta. intros Hbad. rewrite main_of_run.
  unfold MasterOrchestrator.run_full_upgrade.
  assert (exists s0,
            MasterOrchestrator._create_backup (run_start (AgentTeam.project_path args) e)
              = (Raise (copytree_error (fs e) (PurePath.parts (AgentTeam.project_path args))),
                 s0) /\
            fs (MasterOrchestrator.env s0) = fs e /\
            trace (MasterOrchestrator.env s0) = trace e) as (s0 & Hbackup & Hfs & Htrace).
  { unfold MasterOrchestrator._create_backup, copytree, update_fs, bind, datetime_now,
      MasterOrchestrator.this_get, run_start.
    cbn [get_env set_env MasterOrchestrator.St_HasEnv MasterOrchestrator.env
         MasterOrchestrator.this MasterOrchestrator.project_path fs tick clock ticks].
    destruct (FileSystem.copytree _ _ _) as [r t'] eqn:Hcopy.
    apply copytree_inv in Hcopy as [(x & -> & Hx)|(_ & Hsrc & Hdst & _)].
    - destruct (Hx Hbad) as [-> ->]. eexists. split; [reflexivity|]. by split.
    - by destruct Hbad. }
  rewrite (bind_raise _ _ _ _ _ Hbackup). eexists. split; [reflexivity|]. by split.
Qed.

Lemma run_stops_at_a_failed_backup_witness :
  let args := {| AgentTeam.project_path := "/q" |} in
  exists f,
    AgentTeam.main args (AgentTeam.enter empty_project)
      = (Raise (copytree_error (fs empty_project)
                  (PurePath.parts (AgentTeam.project_path args))), f) /\
    fs (AgentTeam.env f) = fs empty_project /\
    trace (AgentTeam.env f) = trace empty_project /\
    exit_status (AgentTeam.main args (AgentTeam.enter empty_project)).1 = 1%Z.
Proof.
  apply (run_stops_at_a_failed_backup {| AgentTeam.project_path := "/q" |} empty_project).
  left. vm_compute. discriminate.
Defined.

(** X8. The command line of the elite agent returns 1 exactly when the project
    path does not exist, and then nothing has happened: no agent was
    created and the environment is untouched. Whenever it returns for an
    existing path it returns 0: the status says nothing about the upgrade. *)
Theorem elite_main_status later (args : EliteCli.Args) (e : Env) code f :
  EliteCli.main later args (EliteCli.enter e) = (Ok code, f) ->
  (code = 1%Z /\ f = EliteCli.enter e /\
   FileSystem.exists_ (fs e) (PurePath.parts (EliteCli.project_path args)) = false) \/
  (code = 0%Z /\
   FileSystem.exists_ (fs e) (PurePath.parts (EliteCli.project_path args)) = true).
Proof.
  unfold EliteCli.main. intros Hrun.
  apply bind_ok_inv in Hrun as (there & s1 & Hthere & Hrun).
  injection Hthere as <- <-.
  cbn [get_env EliteCli.Frame_HasEnv EliteCli.enter EliteCli.env] in *.
  destruct (FileSystem.exists_ _ _); simpl in Hrun.
  - right. split; [|done].
    apply bind_ok_inv in Hrun as ([] & s2 & _ & Hrun).
    apply bind_ok_inv in Hrun as ([] & s3 & _ & Hrun). by injection Hrun as <- _.
  - left. by injection Hrun as <- <-.
Qed.

Lemma elite_main_status_witness :
  let args := {| EliteCli.project_path := "/q"; EliteCli.dry_run := false;
                 EliteCli.skip_backup := false |} in
  (1%Z = 1%Z /\ EliteCli.enter empty_project = EliteCli.enter empty_project /\
   FileSystem.exists_ (fs empty_project)
     (PurePath.parts (EliteCli.project_path args)) = false) \/
  (1%Z = 0%Z /\
   FileSystem.exists_ (fs empty_project)
     (PurePath.parts (EliteCli.project_path args)) = true).
Proof.
  apply (elite_main_status (ret tt)
           {| EliteCli.project_path := "/q"; EliteCli.dry_run := false;
              EliteCli.skip_backup := false |} empty_project).
  vm_compute. reflexivity.
Defined.

(** ** Does a fix make its validation pass? *)

Lemma rglob_elem t p pat q :
  FileSystem.is_dir t p = true -> is_Some (t !! q) ->
  FileSystem.below p q = true -> PyStr.fnmatch pat (PurePath.name q) = true ->
  q ∈ FileSystem.rglob t p pat.
Proof.
  intros Hdir [n Hq] Hbelow Hname. unfold FileSystem.rglob. rewrite Hdir.
  apply list_elem_of_In, filter_In. split; [|by rewrite Hbelow, Hname].
  apply list_elem_of_In, list_elem_of_fmap. exists (q, n).
  split; [done|]. by apply elem_of_map_to_list.
Qed.

Lemma rglob_elem_inv t p pat q :
  q ∈ FileSystem.rglob t p pat ->
  is_Some (t !! q) /\ FileSystem.below p q = true /\
  PyStr.fnmatch pat (PurePath.name q) = true.
Proof.
  unfold FileSystem.rglob. destruct (FileSystem.is_dir t p); [|by intros ?%elem_of_nil].
  intros Hin. apply list_elem_of_In, filter_In in Hin as [Hin Hcond].
  apply andb_true_iff in Hcond as [Hbelow Hname].
  apply list_elem_of_In, list_elem_of_fmap in Hin as ([q' n] & -> & Hin).
  apply elem_of_map_to_list in Hin. by eauto.
Qed.

Lemma below_joinpath project rel :
  rel <> [] -> FileSystem.below project (project ++ rel) = true.
Proof.
  intros Hrel. unfold FileSystem.below. rewrite strip_prefix_app.
  by destruct rel.
Qed.

Lemma below_inv p q :
  FileSystem.below p q = true -> exists c rel, q = p ++ c :: rel.
Proof.
  unfold FileSystem.below.
  destruct (PurePath.strip_prefix p q) as [[|c rel]|] eqn:Hq; [done| |done].
  intros _. apply strip_prefix_Some in Hq. by exists c, rel.
Qed.

Lemma name_joinpath project rel :
  rel <> [] -> PurePath.name (project ++ rel) = PurePath.name rel.
Proof.
  intros Hrel. unfold PurePath.name.
  destruct (exists_last Hrel) as (front & last & ->).
  by rewrite app_assoc, !last_last.
Qed.

Lemma parent_joinpath project rel :
  rel <> [] -> PurePath.parent (project ++ rel) = project ++ PurePath.parent rel.
Proof. intros Hrel. unfold PurePath.parent. by apply removelast_app. Qed.

Lemma dir_chain_is_dir t project rest :
  dir_chain t [] (project ++ rest) -> FileSystem.is_dir t project = true.
Proof.
  intros Hchain. unfold FileSystem.is_dir, FileSystem.node_at.
  destruct project as [|c project]; [done|].
  specialize (Hchain (length (c :: project))).
  rewrite take_app_length in Hchain. simpl in Hchain. rewrite Hchain; [done|].
  rewrite length_app. lia.
Qed.

Lemma dir_chain_lookup t p : p <> [] -> dir_chain t [] p -> t !! p = Some Dir.
Proof.
  intros Hp Hchain. specialize (Hchain (length p)). rewrite firstn_all in Hchain.
  apply Hchain. destruct p; [done|]. simpl. lia.
Qed.

(** What a written file under the project gives. *)
Lemma written_under t project rel c :
  rel <> [] -> written t (project ++ rel) c ->
  FileSystem.is_dir t project = true /\
  is_Some (t !! (project ++ rel)) /\
  FileSystem.below project (project ++ rel) = true.
Proof.
  intros Hrel (Hchain & Hfile & _). rewrite parent_joinpath in Hchain by done.
  split; [by eapply dir_chain_is_dir|]. split; [by eexists|].
  by apply below_joinpath.
Qed.

Lemma first_existing_loop (l : list Path) (acc : bool) (s : AgentSt) :
  for_in l (fun has_monitoring kt_file =>
              if has_monitoring : bool then ret true else path_exists kt_file) acc s
  = (Ok (acc || existsb (FileSystem.exists_ (fs (aenv s))) l), s).
Proof.
  revert acc. induction l as [|q l IH]; intros acc; simpl.
  - by rewrite orb_false_r.
  - unfold bind. destruct acc; simpl.
    + by rewrite IH.
    + unfold path_exists, read_fs. simpl. by rewrite IH.
Qed.

(** X9. Whenever [PerformanceAgent.fix] returns, [PerformanceAgent.validate]
    returns true: the monitor that [fix] always writes,
    [AdvancedPerformanceMonitor.kt], is a file [validate] looks for. *)
Theorem performance_fix_passes_validation (issues : list Issue) (s s' : AgentSt) o :
  PerformanceAgent.fix_ issues s = (Ok o, s') ->
  (PerformanceAgent.validate s').1 = Ok true.
Proof.
  unfold PerformanceAgent.fix_. intros Hrun.
  apply bind_ok_inv in Hrun as ([] & s1 & _ & Hrun).
  apply bind_ok_inv in Hrun as (fixed_count & s2 & _ & Hrun).
  apply bind_ok_inv in Hrun as ([] & s3 & _ & Hrun).
  apply bind_ok_inv in Hrun as ([] & s4 & _ & Hrun).
  apply bind_ok_inv in Hrun as ([] & s5 & Hmonitor & [= _ <-]).
  change (PerformanceAgent._add_performance_monitoring s4)
    with (write_block
            (project_path (self s4) //
               "app/src/main/java/com/astralplayer/performance/AdvancedPerformanceMonitor.kt")
            Payload.perf_monitor
            (PurePath.str
               (project_path (self s4) //
                  "app/src/main/java/com/astralplayer/performance/AdvancedPerformanceMonitor.kt"))
            "Added advanced performance monitoring" s4) in Hmonitor.
  apply write_block_first in Hmonitor as (_ & Hwritten & (_ & _ & Hproject)).
  rewrite <- Hproject in Hwritten.
  apply written_under in Hwritten as (Hdir & Hfile & Hbelow); [|done].
  unfold PerformanceAgent.validate, bind, self_get, rglob, read_fs.
  cbn [get_env AgentSt_HasEnv]. rewrite first_existing_loop. simpl. f_equal.
  apply existsb_exists. eexists. split.
  - apply list_elem_of_In. apply rglob_elem; [exact Hdir|exact Hfile|exact Hbelow|].
    unfold PurePath.joinpath. rewrite name_joinpath by done. vm_compute. reflexivity.
  - unfold FileSystem.exists_, FileSystem.node_at. destruct Hfile as [n Hn].
    unfold PurePath.joinpath in *.
    destruct (project_path (self s5) ++ _) eqn:Hp; [|by rewrite Hn].
    by apply app_eq_nil in Hp as [_ Hp].
Qed.

Lemma performance_fix_witness :
  (PerformanceAgent.validate
     (PerformanceAgent.fix_ []
        (fresh (PerformanceAgent.__init__ ["p"]) empty_project)).2).1 = Ok true.
Proof.
  apply (performance_fix_passes_validation []
           (fresh (PerformanceAgent.__init__ ["p"]) empty_project) _
           {| fixed := 0; total := 0 |}).
  apply pair_eta_eq. vm_compute. reflexivity.
Defined.

Lemma exists_no_loss t t' q :
  no_loss t t' -> FileSystem.exists_ t q = true -> FileSystem.exists_ t' q = true.
Proof.
  intros [Hd Hf]. unfold FileSystem.exists_, FileSystem.node_at.
  destruct q as [|c q]; [done|].
  destruct (t !! (c :: q)) as [[|content w]|] eqn:Hq; [| |done]; intros _.
  - by rewrite (Hd _ Hq).
  - by destruct (Hf _ _ _ Hq) as [c' ->].
Qed.

Lemma grows_run {A} (m : M AgentSt A) s r s' :
  preserves grows m -> m s = (r, s') -> no_loss (fs (aenv s)) (fs (aenv s')).
Proof. intros Hm Hrun. apply (preserves_run grows _ _ _ _ Hm Hrun). Qed.

Lemma documentation_fix_issue_grows fixed_count issue :
  preserves grows (DocumentationAgent.fix_issue fixed_count issue).
Proof.
  unfold DocumentationAgent.fix_issue, DocumentationAgent._generate_readme,
    DocumentationAgent._generate_api_docs, DocumentationAgent._enhance_inline_docs.
  pres.
Qed.

Lemma documentation_fix_issue_records fixed_count issue :
  preserves records (DocumentationAgent.fix_issue fixed_count issue).
Proof.
  unfold DocumentationAgent.fix_issue, DocumentationAgent._generate_readme,
    DocumentationAgent._generate_api_docs, DocumentationAgent._enhance_inline_docs.
  pres.
Qed.

Lemma write_text_exists (p : Path) c (s s' : AgentSt) :
  write_text p c s = (Ok tt, s') ->
  FileSystem.exists_ (fs (aenv s')) p = true /\
  no_loss (fs (aenv s)) (fs (aenv s')) /\ self s' = self s.
Proof.
  intros Hw. pose proof (grows_run _ _ _ _ (grows_write_text p c) Hw) as Hgrows.
  unfold write_text in Hw. apply update_fs_inv in Hw as (t' & Hw & ->).
  apply write_text_ok in Hw as (-> & Hne & _). simpl. split; [|done].
  unfold FileSystem.exists_, FileSystem.node_at. destruct p; [done|].
  by rewrite lookup_insert_eq.
Qed.

(** The issues [DocumentationAgent.analyze] returns name the missing
    [README.md]. *)
Lemma documentation_analyze_readme s a s1 :
  DocumentationAgent.analyze s = (Ok a, s1) ->
  fs (aenv s1) = fs (aenv s) /\
  project_path (self s1) = project_path (self s) /\
  (FileSystem.exists_ (fs (aenv s)) (project_path (self s) // "README.md") = false ->
   exists issue, issue ∈ issues a /\ issue !! "type" = Some (VStr "missing_readme")).
Proof.
  intros Hrun.
  assert (quiet s s1) as ((_ & _ & Hproject) & _ & _ & Hfs).
  { apply (preserves_run quiet DocumentationAgent.analyze s (Ok a) s1); [|exact Hrun].
    unfold DocumentationAgent.analyze. pres. }
  split; [done|]. split; [done|].
  unfold DocumentationAgent.analyze in Hrun.
  apply bind_ok_inv in Hrun as ([] & sa & Hlog & Hrun).
  injection Hlog as <-.
  apply bind_ok_inv in Hrun as (project & s0 & [= <- <-] & Hrun).
  apply bind_ok_inv in Hrun as (has_readme & s0 & [= <- <-] & Hrun).
  apply bind_ok_inv in Hrun as (has_docs & s0 & [= <- <-] & Hrun).
  apply bind_ok_inv in Hrun as (kotlin_files & s0 & [= <- <-] & Hrun).
  apply bind_ok_inv in Hrun as (undocumented_count & s0 & _ & Hrun).
  apply bind_ok_inv in Hrun as ([] & s2 & _ & [= <- _]).
  cbn [get_env AgentSt_HasEnv aenv self fs tick issues]. intros ->.
  cbn [negb].
  exists ({[ "type" := VStr "missing_readme"; "severity" := VStr "high" ]} : Issue).
  split; [|apply lookup_insert_eq].
  repeat case_match; rewrite ?elem_of_app; repeat left; apply list_elem_of_here.
Qed.

(** The loop of [DocumentationAgent.fix]: the README is in place after it
    when it was before, or when one of the issues reports it missing. *)
Lemma documentation_loop_readme issues : forall fixed_count s r s',
  for_in issues DocumentationAgent.fix_issue fixed_count s = (Ok r, s') ->
  FileSystem.exists_ (fs (aenv s)) (project_path (self s) // "README.md") = true \/
  (exists issue, issue ∈ issues /\ issue !! "type" = Some (VStr "missing_readme")) ->
  FileSystem.exists_ (fs (aenv s')) (project_path (self s) // "README.md") = true /\
  project_path (self s') = project_path (self s).
Proof.
  induction issues as [|issue issues IH]; intros fixed_count s r s' Hrun Hreadme.
  - injection Hrun as _ <-. split; [|done].
    destruct Hreadme as [Hthere|(issue & Hin & _)]; [done|by apply elem_of_nil in Hin].
  - cbn [for_in] in Hrun.
    apply bind_ok_inv in Hrun as (c & s1 & Hstep & Hrun).
    pose proof (preserves_run records _ _ _ _
                  (documentation_fix_issue_records _ _) Hstep) as ((_ & _ & Hp) & _).
    pose proof (grows_run _ _ _ _ (documentation_fix_issue_grows _ _) Hstep) as Hgrows.
    rewrite <- Hp.
    assert (FileSystem.exists_ (fs (aenv s1)) (project_path (self s1) // "README.md")
              = true \/
            (exists issue, issue ∈ issues /\
               issue !! "type" = Some (VStr "missing_readme"))) as Hnext.
    { rewrite Hp.
      destruct Hreadme as [Hthere|(issue' & Hin & Htype)];
        [left; by eapply exists_no_loss|].
      apply elem_of_cons in Hin as [->|Hin]; [left|right; by exists issue'].
      unfold DocumentationAgent.fix_issue in Hstep.
      rewrite (bind_ok _ _ _ _ _ (getitem_ok _ _ s _ Htype)) in Hstep.
      cbn [is_str String.eqb Ascii.eqb Bool.eqb] in Hstep.
      apply bind_ok_inv in Hstep as ([] & s2 & Hgen & [= _ <-]).
      unfold DocumentationAgent._generate_readme in Hgen.
      apply bind_ok_inv in Hgen as (project & s0 & [= <- <-] & Hgen).
      apply bind_ok_inv in Hgen as ([] & s3 & Hw & Hrec).
      apply write_text_exists in Hw as (Hthere & _ & _).
      apply add_modification_inv in Hrec as (_ & -> & _). done. }
    destruct (IH _ _ _ _ Hrun Hnext) as [Hthere' Hp']. by rewrite Hp'.
Qed.

(** X10. When [DocumentationAgent.fix] returns for the issues that
    [DocumentationAgent.analyze] has just reported, [validate] returns true:
    a missing README is among the issues and is generated, and the
    architecture document, which [fix] always writes, creates [docs]. *)
Theorem documentation_fix_passes_validation (s s1 s2 : AgentSt) a o :
  DocumentationAgent.analyze s = (Ok a, s1) ->
  DocumentationAgent.fix_ (issues a) s1 = (Ok o, s2) ->
  (DocumentationAgent.validate s2).1 = Ok true.
Proof.
  intros Hanalyze Hfix.
  apply documentation_analyze_readme in Hanalyze as (Hfs & Hproject & Hreadme).
  unfold DocumentationAgent.fix_ in Hfix.
  apply bind_ok_inv in Hfix as ([] & sa & Hlog & Hfix).
  pose proof (preserves_run quiet _ _ _ _ (quiet_log _) Hlog)
    as ((_ & _ & Hpa) & _ & _ & Hfa).
  apply bind_ok_inv in Hfix as (fixed_count & sb & Hloop & Hfix).
  apply documentation_loop_readme in Hloop as [Hthere Hpb].
  2:{ rewrite Hfa, Hfs, Hpa, Hproject.
      destruct (FileSystem.exists_ _ _) eqn:Hthere; [by left|right; by apply Hreadme]. }
  apply bind_ok_inv in Hfix as ([] & sc & Harch & Hfix).
  change (DocumentationAgent._generate_architecture_docs sb)
    with (write_block (project_path (self sb) // "docs/ARCHITECTURE.md")
            Payload.arch_docs
            (PurePath.str (project_path (self sb) // "docs/ARCHITECTURE.md"))
            "Generated architecture documentation" sb) in Harch.
  pose proof Harch as Hgrows_c.
  apply write_block_first in Harch as (_ & (Hchain & _) & (_ & _ & Hpc)).
  apply bind_ok_inv in Hfix as ([] & sd & Hsetup & Hfix).
  apply bind_ok_inv in Hfix as ([] & se & Hcontributing & [= _ <-]).
  assert (no_loss (fs (aenv sb)) (fs (aenv sc))) as Hbc.
  { apply (grows_run (write_block _ _ _ _)) in Hgrows_c; [done|].
    unfold write_block. pres. }
  assert (no_loss (fs (aenv sc)) (fs (aenv sd))) as Hcd.
  { apply (grows_run DocumentationAgent._generate_setup_guide) in Hsetup; [done|].
    unfold DocumentationAgent._generate_setup_guide. pres. }
  assert (no_loss (fs (aenv sd)) (fs (aenv se))) as Hde.
  { apply (grows_run DocumentationAgent._generate_contributing_guide)
      in Hcontributing; [done|].
    unfold DocumentationAgent._generate_contributing_guide. pres. }
  assert (project_path (self se) = project_path (self sa)) as Hpe.
  { apply (preserves_run records DocumentationAgent._generate_setup_guide)
      in Hsetup as ((_&_&Hpd)&_);
      [|unfold DocumentationAgent._generate_setup_guide; pres].
    apply (preserves_run records DocumentationAgent._generate_contributing_guide)
      in Hcontributing as ((_&_&Hpe)&_);
      [|unfold DocumentationAgent._generate_contributing_guide; pres].
    congruence. }
  unfold DocumentationAgent.validate, bind, self_get, path_exists, read_fs.
  cbn [get_env AgentSt_HasEnv fst]. rewrite Hpe. simpl fst. f_equal.
  apply andb_true_iff. split.
  - eapply exists_no_loss; [|exact Hthere]. etrans; [exact Hbc|]. by etrans.
  - eapply exists_no_loss; [etrans; [exact Hcd|exact Hde]|].
    rewrite <- Hpb.
    unfold PurePath.joinpath in Hchain.
    rewrite parent_joinpath in Hchain by done.
    change (PurePath.parent (PurePath.parts "docs/ARCHITECTURE.md"))
      with (PurePath.parts "docs") in Hchain.
    apply dir_chain_lookup in Hchain; [|by destruct (project_path (self sb))].
    unfold FileSystem.exists_, FileSystem.node_at, PurePath.joinpath.
    rewrite Hchain. by destruct (_ ++ _).
Qed.

Lemma documentation_fix_witness :
  let s := fresh (DocumentationAgent.__init__ ["p"]) empty_project in
  let s1 := (DocumentationAgent.analyze s).2 in
  let a := value_of {| issues := []; coverage_estimate := None |}
             (DocumentationAgent.analyze s).1 in
  (DocumentationAgent.validate (DocumentationAgent.fix_ (issues a) s1).2).1 = Ok true.
Proof.
  cbv zeta.
  eapply (documentation_fix_passes_validation
            (fresh (DocumentationAgent.__init__ ["p"]) empty_project) _ _ _
            {| fixed := 2; total := 2 |}).
  - apply pair_eta_eq. vm_compute. reflexivity.
  - apply pair_eta_eq. vm_compute. reflexivity.
Defined.

(** ** What the security fix cannot do *)

Section NoNewMatch.
Variable pat : string.
Variable project : Path.

#[global] Instance no_new_match_preorder : PreOrder (no_new_match pat project).
Proof.
  split.
  - intros s Hp. by split.
  - intros s1 s2 s3 H12 H23 Hp. destruct (H12 Hp) as [Hp2 Hq2].
    destruct (H23 Hp2) as [Hp3 Hq3]. split; [done|].
    intros q Hq Hbelow Hname. apply Hq2; [|done|done]. by apply Hq3.
Qed.

Lemma quiet_no_new_match s s' : quiet s s' -> no_new_match pat project s s'.
Proof.
  intros ((_ & _ & Hp) & _ & _ & Hfs) Hproject. split; [congruence|].
  intros q Hq _ _. by rewrite <- Hfs.
Qed.

Lemma no_new_match_of_quiet {A} (m : M AgentSt A) :
  preserves quiet m -> preserves (no_new_match pat project) m.
Proof. apply preserves_weaken, quiet_no_new_match. Qed.

Lemma no_new_match_add_modification file_path description :
  preserves (no_new_match pat project)
    (AgentBase.add_modification file_path description).
Proof. intros s Hp. by split. Qed.

(** The continuation of [self.project_path] is run on the path of the
    project. *)
Lemma no_new_match_project {A} (k : Path -> M AgentSt A) :
  preserves (no_new_match pat project) (k project) ->
  preserves (no_new_match pat project) (bind (self_get project_path) k).
Proof.
  intros Hk s Hp. unfold bind, self_get. rewrite Hp. by apply Hk.
Qed.

Lemma mkdir_from_new todo : forall t here q,
  is_Some ((FileSystem.mkdir_from t here todo).2 !! q) ->
  is_Some (t !! q) \/ exists k, 0 < k <= length todo /\ q = here ++ take k todo.
Proof.
  induction todo as [|c todo IH]; intros t here q; simpl; [by left|].
  assert (forall t0, is_Some ((FileSystem.mkdir_from t0 (here ++ [c]) todo).2 !! q) ->
            is_Some (t0 !! q) \/
            exists k, 0 < k <= S (length todo) /\ q = here ++ c :: take (k - 1) todo)
    as Hrest.
  { intros t0 Hq. destruct (IH _ _ _ Hq) as [Hold|(k & Hk & ->)]; [by left|].
    right. exists (S k). split; [lia|]. rewrite <- app_assoc. simpl.
    by rewrite Nat.sub_0_r. }
  assert (forall k, 0 < k -> take k (c :: todo) = c :: take (k - 1) todo) as Htake.
  { intros [|k] Hk; [lia|]. simpl. by rewrite Nat.sub_0_r. }
  destruct (t !! (here ++ [c])) as [[|content w]|] eqn:Hc; simpl.
  - intros Hq. destruct (Hrest _ Hq) as [Hold|(k & Hk & ->)]; [by left|].
    right. exists k. by rewrite Htake by lia.
  - by left.
  - intros Hq. destruct (Hrest _ Hq) as [Hold|(k & Hk & ->)].
    + destruct (decide (here ++ [c] = q)) as [<-|Hne].
      * right. exists 1. split; [lia|]. simpl. by rewrite take_0.
      * left. by rewrite lookup_insert_ne in Hold.
    + right. exists k. by rewrite Htake by lia.
Qed.

Lemma write_text_new t p c q :
  is_Some ((FileSystem.write_text t p c).2 !! q) -> is_Some (t !! q) \/ q = p.
Proof.
  unfold FileSystem.write_text.
  assert (is_Some (<[p := File c true]> t !! q) -> is_Some (t !! q) \/ q = p) as Hw.
  { destruct (decide (p = q)) as [->|Hne]; [by right|].
    rewrite lookup_insert_ne by done. by left. }
  destruct (FileSystem.node_at t p) as [[|content [|]]|]; simpl; auto.
  destruct (FileSystem.node_at t (PurePath.parent p)) as [[|? ?]|]; simpl; auto.
Qed.

Lemma unmatched_components_inv rel :
  unmatched_components pat rel = true ->
  PurePath.parts rel <> [] /\
  Forall (fun c => PyStr.fnmatch pat c = false) (PurePath.parts rel).
Proof.
  unfold unmatched_components. intros [Hall Hne]%andb_true_iff. split.
  - by destruct (PurePath.parts rel).
  - apply Forall_forall. intros c Hc.
    rewrite forallb_forall in Hall. apply list_elem_of_In in Hc.
    apply Hall in Hc. by destruct (PyStr.fnmatch pat c).
Qed.

(** A path on the way to [project ++ rel] that lies below the project is
    named by a component of [rel]. *)
Lemma name_on_the_way rel k :
  Forall (fun c => PyStr.fnmatch pat c = false) rel ->
  0 < k -> FileSystem.below project (take k (project ++ rel)) = true ->
  PyStr.fnmatch pat (PurePath.name (take k (project ++ rel))) = false.
Proof.
  intros Hrel Hk Hbelow. rewrite take_app in *.
  apply below_inv in Hbelow as (c & rest & Heq).
  destruct (decide (k <= length project)) as [Hle|Hgt].
  { apply (f_equal length) in Heq. rewrite !length_app, !length_take in Heq.
    simpl in Heq. lia. }
  rewrite take_ge in * by lia.
  apply app_inv_head in Heq.
  rewrite name_joinpath by (rewrite Heq; done).
  assert (PurePath.name (take (k - length project) rel) ∈ rel) as Hin.
  { unfold PurePath.name. rewrite Heq.
    destruct (exists_last (l := c :: rest) ltac:(done)) as (front & last & Hlast).
    rewrite Hlast, last_last.
    apply (subseteq_take (k - length project)). rewrite Heq, Hlast. set_solver. }
  rewrite Forall_forall in Hrel. by apply Hrel.
Qed.

Lemma no_new_match_mkdir_parents rel :
  Forall (fun c => PyStr.fnmatch pat c = false) rel ->
  preserves (no_new_match pat project) (mkdir_parents (project ++ rel)).
Proof.
  intros Hrel s Hp. unfold mkdir_parents, update_fs, FileSystem.mkdir_parents.
  cbn [get_env set_env AgentSt_HasEnv].
  destruct (FileSystem.mkdir_from _ _ _) as [r t'] eqn:Hmk. simpl.
  split; [done|]. intros q Hq Hbelow Hname.
  replace t' with (FileSystem.mkdir_from (fs (aenv s)) [] (project ++ rel)).2 in Hq
    by by rewrite Hmk.
  apply mkdir_from_new in Hq as [Hold|(k & Hk & ->)]; [done|].
  simpl in *. rewrite name_on_the_way in Hname; [done|done|lia|done].
Qed.

Lemma no_new_match_mkdir_parent rel :
  unmatched_components pat rel = true ->
  preserves (no_new_match pat project)
    (mkdir_parents (PurePath.parent (project // rel))).
Proof.
  intros [Hne Hall]%unmatched_components_inv.
  unfold PurePath.joinpath. rewrite parent_joinpath by done.
  apply no_new_match_mkdir_parents.
  apply Forall_forall. intros c Hc. rewrite Forall_forall in Hall. apply Hall.
  unfold PurePath.parent in Hc.
  destruct (exists_last Hne) as (front & last & Hlast).
  rewrite Hlast, removelast_last in Hc. rewrite Hlast. set_solver.
Qed.

Lemma no_new_match_write_text rel c :
  unmatched_components pat rel = true ->
  preserves (no_new_match pat project) (write_text (project // rel) c).
Proof.
  intros [Hne Hall]%unmatched_components_inv s Hp.
  unfold write_text, update_fs. cbn [get_env set_env AgentSt_HasEnv].
  destruct (FileSystem.write_text _ _ _) as [r t'] eqn:Hw. simpl.
  split; [done|]. intros q Hq Hbelow Hname.
  replace t' with (FileSystem.write_text (fs (aenv s)) (project // rel) c).2 in Hq
    by by rewrite Hw.
  apply write_text_new in Hq as [Hold| ->]; [done|].
  unfold PurePath.joinpath in Hname. rewrite name_joinpath in Hname by done.
  rewrite Forall_forall in Hall. rewrite Hall in Hname; [done|].
  unfold PurePath.name. destruct (exists_last Hne) as (front & last & ->).
  rewrite last_last. set_solver.
Qed.

(** A file that has just been read is rewritten in place. *)
Lemma no_new_match_rewrite (v : PyVal) (f : string -> string) description :
  preserves (no_new_match pat project)
    (try_except
       (target <- as_path v ;;
        content <- read_text target ;;
        write_text target (f content) ;;;
        file_path <- as_str v ;;
        AgentBase.add_modification file_path description)
       (ret tt)).
Proof.
  assert (forall target : Path,
            preserves (no_new_match pat project)
              (content <- read_text target ;;
               write_text target (f content) ;;;
               file_path <- as_str v ;;
               AgentBase.add_modification file_path description)) as Hbody.
  { intros target s.
    assert ((content <- read_text target ;;
             write_text target (f content) ;;;
             file_path <- as_str v ;;
             AgentBase.add_modification file_path description) s
            = match FileSystem.read_text (fs (aenv s)) target with
              | Ok content =>
                  (write_text target (f content) ;;;
                   file_path <- as_str v ;;
                   AgentBase.add_modification file_path description) s
              | Raise e => (Raise e, s)
              end) as ->.
    { unfold read_text, read_fs, of_res, bind. cbn [get_env AgentSt_HasEnv].
      by destruct (FileSystem.read_text _ _). }
    destruct (FileSystem.read_text (fs (aenv s)) target) as [content|e] eqn:Hread;
      [|reflexivity].
    assert (is_Some (fs (aenv s) !! target)) as Hthere.
    { unfold FileSystem.read_text, FileSystem.node_at in Hread.
      destruct target as [|x target]; [done|].
      destruct (fs (aenv s) !! (x :: target)) as [n|]; [by eexists|].
      by destruct (match PurePath.parent (x :: target) with [] => _ | _ => _ end)
        as [[|? ?]|]. }
    assert (no_new_match pat project s (write_text target (f content) s).2) as Hw.
    { intros Hp. unfold write_text, update_fs. cbn [get_env set_env AgentSt_HasEnv].
      destruct (FileSystem.write_text _ _ _) as [r t'] eqn:Hw. simpl.
      split; [done|]. intros q Hq _ _.
      replace t' with (FileSystem.write_text (fs (aenv s)) target (f content)).2 in Hq
        by by rewrite Hw.
      by apply write_text_new in Hq as [Hold| ->]. }
    unfold bind at 1. destruct (write_text target (f content) s) as [[[]|e] s1];
      [|by apply Hw].
    simpl in Hw. etrans; [exact Hw|].
    apply (preserves_bind (no_new_match pat project) (as_str v)
             (fun file_path => AgentBase.add_modification file_path description)).
    - apply no_new_match_of_quiet, quiet_as_str.
    - intros file_path. apply no_new_match_add_modification. }
  apply preserves_try_except; [apply _| |apply preserves_ret; apply _].
  apply preserves_bind; [apply _| |exact Hbody].
  apply no_new_match_of_quiet, quiet_as_path.
Qed.

End NoNewMatch.

#[global] Hint Resolve no_new_match_of_quiet | 5 : pres.
#[global] Hint Resolve no_new_match_add_modification : pres.

(** Steps of a proof that a method of an agent of the project creates no
    path with a matching name. *)
Ltac no_match_step :=
  first
    [ apply no_new_match_project
    | apply no_new_match_mkdir_parent; vm_compute; reflexivity
    | apply no_new_match_write_text; vm_compute; reflexivity
    | apply no_new_match_rewrite ].

Ltac no_match :=
  repeat (intros;
          first [ no_match_step | solve [eauto 3 with pres] | pres_rules | pres_case ]).

Lemma security_fix_no_new_match pat project issues :
  unmatched_components pat
    "app/src/main/java/com/astralplayer/network/security/SecureNetworkClient.kt" = true ->
  unmatched_components pat "app/proguard-rules.pro" = true ->
  unmatched_components pat
    "app/src/main/java/com/astralplayer/security/BiometricAuthManager.kt" = true ->
  unmatched_components pat
    "app/src/main/java/com/astralplayer/security/AdvancedEncryptionManager.kt" = true ->
  preserves (no_new_match pat project) (SecurityAgent.fix_ issues).
Proof.
  intros H1 H2 H3 H4.
  unfold SecurityAgent.fix_, SecurityAgent.fix_issue,
    SecurityAgent._implement_certificate_pinning, SecurityAgent._enhance_obfuscation,
    SecurityAgent._fix_insecure_endpoints, SecurityAgent._implement_biometric_auth,
    SecurityAgent._enhance_data_encryption.
  repeat (intros;
          first [ apply no_new_match_project
                | apply no_new_match_mkdir_parent; assumption
                | apply no_new_match_write_text; assumption
                | apply (no_new_match_rewrite _ _ _
                           (fun content => PyStr.replace content "http://" "https://"))
                | solve [eauto 3 with pres] | pres_rules | pres_case ]).
Qed.

(** The scans of [_has_certificate_pinning] and [_has_encryption]: the
    first file that can be read and passes the test ends the search. *)
Lemma scan_loop (test : string -> bool) (l : list Path) (acc : bool) (s : AgentSt) :
  for_in l (fun found kt_file =>
              if found : bool then ret true
              else try_except
                     (content <- read_text kt_file ;; ret (test content))
                     (ret false)) acc s
  = (Ok (acc || existsb (fun kt_file =>
                           match FileSystem.read_text (fs (aenv s)) kt_file with
                           | Ok content => test content
                           | Raise _ => false
                           end) l), s).
Proof.
  revert acc. induction l as [|q l IH]; intros acc; simpl.
  - by rewrite orb_false_r.
  - unfold bind at 1. destruct acc; simpl; [by rewrite IH|].
    unfold try_except, read_text, read_fs, of_res, bind at 1 2.
    cbn [get_env AgentSt_HasEnv].
    destruct (FileSystem.read_text (fs (aenv s)) q) as [content|e]; simpl;
      by rewrite IH.
Qed.

Lemma has_encryption_nothing_found (s : AgentSt) :
  names_unmatched "*Security*.kt" (project_path (self s)) (fs (aenv s)) ->
  SecurityAgent._has_encryption s = (Ok false, s).
Proof.
  intros Hnone. unfold SecurityAgent._has_encryption, bind, self_get, rglob, read_fs.
  cbn [get_env AgentSt_HasEnv].
  destruct (FileSystem.rglob _ _ _) as [|q l] eqn:Hglob; [done|].
  assert (q ∈ FileSystem.rglob (fs (aenv s)) (project_path (self s)) "*Security*.kt")
    as Hin by (rewrite Hglob; apply list_elem_of_here).
  apply rglob_elem_inv in Hin as (Hq & Hbelow & Hname).
  by rewrite Hnone in Hname.
Qed.

(** X11. [SecurityAgent.fix] writes no file that [_has_encryption] reads: on a
    project in which no path is named [*Security*.kt], [validate] returns
    false after [fix], whatever the issues and whether [fix] returns or
    not. The encryption manager that [fix] writes is named
    [AdvancedEncryptionManager.kt]. *)
Theorem security_fix_never_passes_validation (issues : list Issue) (s : AgentSt) :
  names_unmatched "*Security*.kt" (project_path (self s)) (fs (aenv s)) ->
  (SecurityAgent.validate (SecurityAgent.fix_ issues s).2).1 = Ok false.
Proof.
  intros Hnone.
  destruct (security_fix_no_new_match "*Security*.kt" (project_path (self s)) issues
              eq_refl eq_refl eq_refl eq_refl s eq_refl) as [Hproject Hnew].
  set (s' := (SecurityAgent.fix_ issues s).2) in *.
  assert (names_unmatched "*Security*.kt" (project_path (self s')) (fs (aenv s')))
    as Hnone'.
  { rewrite Hproject. intros q Hq Hbelow.
    destruct (PyStr.fnmatch _ _) eqn:Hname; [|done].
    rewrite <- Hname. apply Hnone; [|done]. by apply Hnew. }
  unfold SecurityAgent.validate, bind at 1, self_get.
  assert (exists has_pinning,
            SecurityAgent._has_certificate_pinning s' = (Ok has_pinning, s'))
    as [has_pinning Hpinning].
  { unfold SecurityAgent._has_certificate_pinning, bind, self_get, rglob, read_fs.
    cbn [get_env AgentSt_HasEnv].
    rewrite (scan_loop (fun content => PyStr.contains "CertificatePinner" content)).
    by eexists. }
  unfold bind at 1. rewrite Hpinning. unfold bind at 1. unfold path_exists, read_fs.
  unfold bind. rewrite (has_encryption_nothing_found _ Hnone').
  simpl. by rewrite !andb_false_r.
Qed.

Lemma security_fix_witness :
  (SecurityAgent.validate
     (SecurityAgent.fix_ [api_issue]
        (fresh (SecurityAgent.__init__ ["p"]) readonly_project)).2).1 = Ok false.
Proof.
  apply (security_fix_never_passes_validation [api_issue]
           (fresh (SecurityAgent.__init__ ["p"]) readonly_project)).
  intros q [n Hq] _. simpl in Hq.
  apply lookup_insert_Some in Hq as [[<- _]|[_ Hq]]; [by vm_compute|].
  apply lookup_singleton_Some in Hq as [<- _]. by vm_compute.
Defined.

(** ** The errors of an analysis *)

Section ReturnsAt.
Variable project : Path.

Lemma returns_at_never_raises {A} (m : M AgentSt A) :
  never_raises m -> returns_at project m.
Proof. intros Hm s _. apply Hm. Qed.

Lemma returns_at_bind {A B} (m : M AgentSt A) (k : A -> M AgentSt B) :
  returns_at project m -> preserves quiet m -> (forall a, returns_at project (k a)) ->
  returns_at project (bind m k).
Proof.
  intros Hm Hquiet Hk s Hp. unfold bind.
  destruct (Hm s Hp) as [a Ha]. pose proof (Hquiet s) as ((_ & _ & Hp') & _).
  destruct (m s) as [r s1]. simpl in *. subst r. apply Hk. congruence.
Qed.

Lemma returns_at_project {A} (k : Path -> M AgentSt A) :
  returns_at project (k project) -> returns_at project (bind (self_get project_path) k).
Proof. intros Hk s Hp. unfold bind, self_get. rewrite Hp. by apply Hk. Qed.

Lemma returns_at_rglob {A} (p : Path) pat (k : list Path -> M AgentSt A) :
  (forall l, Forall (fun q => FileSystem.below p q = true) l -> returns_at project (k l)) ->
  returns_at project (bind (rglob p pat) k).
Proof.
  intros Hk s Hp. unfold bind, rglob, read_fs. apply Hk; [|done].
  apply Forall_forall. intros q Hq. by apply rglob_elem_inv in Hq as (_ & Hbelow & _).
Qed.

Lemma returns_at_for_in {X A} (xs : list X) (body : A -> X -> M AgentSt A) acc :
  (forall a x, x ∈ xs -> returns_at project (body a x)) ->
  (forall a x, preserves quiet (body a x)) ->
  returns_at project (for_in xs body acc).
Proof.
  revert acc. induction xs as [|x xs IH]; intros acc Hbody Hquiet; simpl.
  - apply returns_at_never_raises, never_raises_ret.
  - apply returns_at_bind; [apply Hbody, list_elem_of_here|apply Hquiet|].
    intros a. apply IH; [|done].
    intros a' x' Hin. apply Hbody. by apply list_elem_of_further.
Qed.

End ReturnsAt.

Lemma returns_at_all {A} (m : M AgentSt A) :
  (forall project, returns_at project m) -> never_raises m.
Proof. intros Hm s. by apply (Hm (project_path (self s))). Qed.

Lemma never_raises_path_exists p : never_raises (path_exists (S := AgentSt) p).
Proof. apply never_raises_read_fs. Qed.

Lemma never_raises_rglob p pat : never_raises (rglob (S := AgentSt) p pat).
Proof. apply never_raises_read_fs. Qed.

Lemma never_raises_self_update f : never_raises (self_update f).
Proof. intros s. by eexists. Qed.

Lemma never_raises_estimate_coverage : never_raises TestCoverageAgent._estimate_coverage.
Proof. intros s. rewrite estimate_coverage_run. by eexists. Qed.

Lemma never_raises_tests_analyze : never_raises TestCoverageAgent.analyze.
Proof.
  apply returns_at_all. intros project. unfold TestCoverageAgent.analyze.
  apply returns_at_bind;
    [apply returns_at_never_raises, never_raises_log|apply quiet_log|]. intros _.
  apply returns_at_project.
  apply returns_at_bind; [apply returns_at_never_raises|pres|].
  { apply never_raises_for_in. intros issues test_dir.
    apply never_raises_bind; [apply never_raises_path_exists|].
    intros []; apply never_raises_ret. }
  intros issues. apply returns_at_rglob. intros kotlin_files Hbelow.
  apply returns_at_bind; [|pres|].
  - apply returns_at_for_in; [|pres].
    intros acc source_file Hin.
    apply list_elem_of_In, filter_In in Hin as [Hin _].
    rewrite Forall_forall in Hbelow.
    apply list_elem_of_In, Hbelow, below_inv in Hin as (c & rel & ->).
    unfold TestCoverageAgent._get_test_file_path.
    apply returns_at_bind; [|pres|].
    + apply returns_at_project. unfold relative_to. rewrite strip_prefix_app.
      apply returns_at_never_raises.
      apply never_raises_bind; intros; apply never_raises_ret.
    + intros test_file. apply returns_at_never_raises.
      apply never_raises_bind; [apply never_raises_path_exists|].
      intros []; apply never_raises_ret.
  - intros issues'. apply returns_at_never_raises.
    apply never_raises_bind; [apply never_raises_self_update|]. intros _.
    apply never_raises_bind; [apply never_raises_estimate_coverage|].
    intros; apply never_raises_ret.
Qed.

Lemma never_raises_architecture_analyze : never_raises ArchitectureAgent.analyze.
Proof.
  unfold ArchitectureAgent.analyze, rglob.
  repeat (intros;
          first [ apply never_raises_self_update | view_case
                | apply never_raises_ret | apply never_raises_log
                | apply never_raises_self_get | apply (never_raises_read_fs _)
                | apply never_raises_for_in | apply never_raises_try_except
                | apply never_raises_bind ]).
Qed.

Lemma never_raises_performance_analyze : never_raises PerformanceAgent.analyze.
Proof.
  unfold PerformanceAgent.analyze, rglob, path_exists.
  repeat (intros;
          first [ apply never_raises_self_update | view_case
                | apply never_raises_ret | apply never_raises_log
                | apply never_raises_self_get | apply (never_raises_read_fs _)
                | apply never_raises_for_in | apply never_raises_try_except
                | apply never_raises_bind ]).
Qed.

Lemma never_raises_documentation_analyze : never_raises DocumentationAgent.analyze.
Proof.
  unfold DocumentationAgent.analyze, rglob, path_exists.
  repeat (intros;
          first [ apply never_raises_self_update | view_case
                | apply never_raises_ret | apply never_raises_log
                | apply never_raises_self_get | apply (never_raises_read_fs _)
                | apply never_raises_for_in | apply never_raises_try_except
                | apply never_raises_bind ]).
Qed.

(** The analysis of the security agent reads the ProGuard rules outside
    any handler: an error of that read is the one error that leaves it. *)
Lemma security_analyze_raises (s : AgentSt) (x : Exn) :
  let proguard := project_path (self s) // "app/proguard-rules.pro" in
  (SecurityAgent.analyze s).1 = Raise x <->
  FileSystem.exists_ (fs (aenv s)) proguard = true /\
  FileSystem.read_text (fs (aenv s)) proguard = Raise x.
Proof.
  cbv zeta.
  set (proguard := project_path (self s) // "app/proguard-rules.pro").
  set (s1 := set_env (tick (get_env s)) s).
  assert (exists pinned, SecurityAgent._has_certificate_pinning s1 = (Ok pinned, s1))
    as [pinned Hpinned].
  { unfold SecurityAgent._has_certificate_pinning, bind, self_get, rglob, read_fs.
    cbn [get_env AgentSt_HasEnv].
    rewrite (scan_loop (fun content => PyStr.contains "CertificatePinner" content)).
    by eexists. }
  assert (forall issues0 : list Issue,
            never_raises
              (kotlin_files <- rglob (project_path (self s)) "*.kt" ;;
               issues <- for_in kotlin_files (fun issues kt_file =>
                 try_except
                   (content <- read_text kt_file ;;
                    if PyStr.contains "http://" content
                       && negb (PyStr.contains "localhost" content)
                    then ret (issues ++ [ ({[ "type" := VStr "insecure_http";
                                             "file" := VStr (PurePath.str kt_file);
                                             "severity" := VStr "high" ]} : Issue) ])
                    else ret issues)
                   (ret issues)) issues0 ;;
               self_update (set_issues_found issues) ;;;
               ret {| issues := issues; coverage_estimate := None |})) as Hrest.
  { intros issues0. unfold rglob.
    repeat (intros;
            first [ apply never_raises_self_update | view_case
                  | apply never_raises_ret
                  | apply (never_raises_read_fs _)
                  | apply never_raises_for_in | apply never_raises_try_except
                  | apply never_raises_bind ]). }
  unfold SecurityAgent.analyze.
  rewrite (bind_ok (AgentBase.log _) _ s tt s1 eq_refl).
  rewrite (bind_ok (self_get project_path) _ s1 (project_path (self s)) s1 eq_refl).
  rewrite (bind_ok _ _ _ _ _ Hpinned).
  assert (path_exists proguard s1
          = (Ok (FileSystem.exists_ (fs (aenv s)) proguard), s1)) as Hthere
    by reflexivity.
  fold proguard. rewrite (bind_ok _ _ _ _ _ Hthere).
  destruct (FileSystem.exists_ (fs (aenv s)) proguard) eqn:Hexists; cbn [negb].
  - destruct (FileSystem.read_text (fs (aenv s)) proguard) as [content|e] eqn:Hfile.
    + assert ((text <- read_text proguard ;; ret (String.length text <? 100)) s1
              = (Ok (String.length content <? 100), s1)) as Hread.
      { unfold read_text, read_fs, of_res, bind. cbn [get_env AgentSt_HasEnv].
        change (fs (aenv s1)) with (fs (aenv s)). by rewrite Hfile. }
      rewrite (bind_ok _ _ _ _ _ Hread). cbv zeta.
      split; [|by intros [_ ?]].
      match goal with
      | |- ?r = Raise x -> _ =>
          assert (exists a, r = Ok a) as [a ->] by apply (Hrest _ s1)
      end. done.
    + assert ((text <- read_text proguard ;; ret (String.length text <? 100)) s1
              = (Raise e, s1)) as Hread.
      { unfold read_text, read_fs, of_res, bind. cbn [get_env AgentSt_HasEnv].
        change (fs (aenv s1)) with (fs (aenv s)). by rewrite Hfile. }
      rewrite (bind_raise _ _ _ _ _ Hread). cbn [fst].
      split; [by intros [= ->]|]. by intros [_ [= ->]].
  - rewrite (bind_ok (ret true) _ s1 true s1 eq_refl). cbv zeta.
    split; [|by intros [? _]].
    match goal with
    | |- ?r = Raise x -> _ =>
        assert (exists a, r = Ok a) as [a ->] by apply (Hrest _ s1)
    end. done.
Qed.


(** ** Helpers of the elite agent *)

Lemma elite_update_fs_inv {A} (f : FS -> Res A * FS) (s : AstralStreamEliteAgent.St) r s' :
  update_fs f s = (r, s') ->
  exists t', f (fs (AstralStreamEliteAgent.env s)) = (r, t') /\
    s' = {| AstralStreamEliteAgent.this := AstralStreamEliteAgent.this s;
            AstralStreamEliteAgent.env := set_fs t' (AstralStreamEliteAgent.env s) |}.
Proof.
  unfold update_fs. destruct (f _) as [r' t'] eqn:Hf. intros [= <- <-]. eauto.
Qed.

(** X13. When [_update_or_create_file] returns, the file holds the content, and
    the entry appended to the log says [Updated], also for a file that did
    not exist before: the source asks [exists()] after it has written the
    file, so that [Created] is never logged. *)
Theorem update_or_create_always_logs_updated
    (file_path : Path) (content : string) (s s' : AstralStreamEliteAgent.St) :
  AstralStreamEliteAgent._update_or_create_file file_path content s = (Ok tt, s') ->
  exists relative,
    PurePath.strip_prefix
      (AstralStreamEliteAgent.project_path (AstralStreamEliteAgent.this s)) file_path
      = Some relative /\
    AstralStreamEliteAgent.modifications_log (AstralStreamEliteAgent.this s')
      = AstralStreamEliteAgent.modifications_log (AstralStreamEliteAgent.this s)
          ++ ["Updated: " +:+ rel_str relative] /\
    fs (AstralStreamEliteAgent.env s') !! file_path = Some (File content true).
Proof.
  unfold AstralStreamEliteAgent._update_or_create_file, mkdir_parents, write_text. intros Hrun.
  apply bind_ok_inv in Hrun as ([] & s1 & Hmk & Hrun).
  apply elite_update_fs_inv in Hmk as (t1 & Hmk & ->).
  apply bind_ok_inv in Hrun as ([] & s2 & Hw & Hrun).
  apply elite_update_fs_inv in Hw as (t2 & Hw & ->). simpl in Hw.
  apply write_text_ok in Hw as (-> & Hne & _).
  apply bind_ok_inv in Hrun as (there & s3 & [= <- <-] & Hrun).
  apply bind_ok_inv in Hrun as (project & s3 & [= <- <-] & Hrun).
  apply bind_ok_inv in Hrun as (relative & s3 & Hrel & [= <-]).
  unfold relative_to in Hrel. simpl in Hrel.
  destruct (PurePath.strip_prefix _ file_path) as [rel|] eqn:Hstrip; [|done].
  injection Hrel as <- <-. exists rel. split; [done|]. simpl.
  rewrite lookup_insert_eq. split; [|done].
  unfold FileSystem.exists_, FileSystem.node_at.
  destruct file_path as [|c path]; [done|]. by rewrite lookup_insert_eq.
Qed.

Lemma update_or_create_witness :
  let s := elite_over (fs empty_project) in
  let s' := (AstralStreamEliteAgent._update_or_create_file ["p"; "app"; "New.kt"] "class New" s).2 in
  exists relative,
    PurePath.strip_prefix
      (AstralStreamEliteAgent.project_path (AstralStreamEliteAgent.this s))
      ["p"; "app"; "New.kt"] = Some relative /\
    AstralStreamEliteAgent.modifications_log (AstralStreamEliteAgent.this s')
      = AstralStreamEliteAgent.modifications_log (AstralStreamEliteAgent.this s)
          ++ ["Updated: " +:+ rel_str relative] /\
    fs (AstralStreamEliteAgent.env s') !! ["p"; "app"; "New.kt"]
      = Some (File "class New" true).
Proof.
  apply (update_or_create_always_logs_updated ["p"; "app"; "New.kt"] "class New"
           (elite_over (fs empty_project))).
  apply pair_eta_eq. vm_compute. reflexivity.
Defined.

(** One call of [_merge_gradle_optimizations] on a build file that can be
    read and written. *)
Lemma merge_gradle_run gradle_path optimizations (s : AstralStreamEliteAgent.St)
    current_content relative :
  fs (AstralStreamEliteAgent.env s) !! gradle_path = Some (File current_content true) ->
  gradle_path <> [] ->
  PurePath.strip_prefix
    (AstralStreamEliteAgent.project_path (AstralStreamEliteAgent.this s)) gradle_path
    = Some relative ->
  AstralStreamEliteAgent._merge_gradle_optimizations gradle_path optimizations s =
    (Ok tt,
     {| AstralStreamEliteAgent.this :=
          AstralStreamEliteAgent.log_modification
            ("Optimized: " +:+ rel_str relative) (AstralStreamEliteAgent.this s);
        AstralStreamEliteAgent.env :=
          set_fs (<[gradle_path :=
                      File (current_content +:+ Payload.nl +:+ Payload.nl
                              +:+ optimizations) true]>
                    (fs (AstralStreamEliteAgent.env s)))
            (AstralStreamEliteAgent.env s) |}).
Proof.
  intros Hfile Hne Hrel.
  unfold AstralStreamEliteAgent._merge_gradle_optimizations, try_except, read_text, write_text,
    read_fs, of_res, update_fs, relative_to, AstralStreamEliteAgent.this_get,
    AstralStreamEliteAgent.this_update, bind.
  cbn [get_env set_env AstralStreamEliteAgent.St_HasEnv AstralStreamEliteAgent.env
       AstralStreamEliteAgent.this fs set_fs].
  unfold FileSystem.read_text, FileSystem.write_text, FileSystem.node_at.
  destruct gradle_path as [|c path]; [done|]. rewrite Hfile.
  cbn [fs set_fs AstralStreamEliteAgent.this AstralStreamEliteAgent.env fst snd ret].
  by rewrite Hrel.
Qed.

Lemma append_assoc (s1 s2 s3 : string) : (s1 +:+ s2) +:+ s3 = s1 +:+ (s2 +:+ s3).
Proof.
  induction s1 as [|c s1 IH]; [done|].
  change (String c ((s1 +:+ s2) +:+ s3) = String c (s1 +:+ (s2 +:+ s3))).
  by rewrite IH.
Qed.

(** X14. [_merge_gradle_optimizations] merges nothing: it appends. Two calls
    in a row on a build file that can be read and written leave the
    optimizations twice at the end of the file, and two entries in the
    log. The content of the file and the optimizations are plain texts, so
    that a text is read back as it was written. *)
Theorem merge_gradle_appends_each_time gradle_path optimizations
    (s : AstralStreamEliteAgent.St) current_content relative :
  plain current_content -> plain optimizations ->
  fs (AstralStreamEliteAgent.env s) !! gradle_path = Some (File current_content true) ->
  gradle_path <> [] ->
  PurePath.strip_prefix
    (AstralStreamEliteAgent.project_path (AstralStreamEliteAgent.this s)) gradle_path
    = Some relative ->
  let twice :=
    (AstralStreamEliteAgent._merge_gradle_optimizations gradle_path optimizations ;;;
     AstralStreamEliteAgent._merge_gradle_optimizations gradle_path optimizations) s in
  twice.1 = Ok tt /\
  fs (AstralStreamEliteAgent.env twice.2) !! gradle_path
    = Some (File (current_content
                    +:+ Payload.nl +:+ Payload.nl +:+ optimizations
                    +:+ Payload.nl +:+ Payload.nl +:+ optimizations) true) /\
  AstralStreamEliteAgent.modifications_log (AstralStreamEliteAgent.this twice.2)
    = AstralStreamEliteAgent.modifications_log (AstralStreamEliteAgent.this s)
        ++ ["Optimized: " +:+ rel_str relative; "Optimized: " +:+ rel_str relative].
Proof.
  intros _ _ Hfile Hne Hrel. cbv zeta.
  rewrite (bind_ok _ _ _ _ _
             (merge_gradle_run _ optimizations _ _ _ Hfile Hne Hrel)).
  erewrite merge_gradle_run; [| |done|exact Hrel].
  2:{ cbn [AstralStreamEliteAgent.env fs set_fs]. apply lookup_insert_eq. }
  cbn [fst snd AstralStreamEliteAgent.env AstralStreamEliteAgent.this fs set_fs
       AstralStreamEliteAgent.log_modification AstralStreamEliteAgent.modifications_log].
  split; [done|]. rewrite lookup_insert_eq. split.
  - do 2 f_equal. by rewrite !append_assoc.
  - by rewrite <- app_assoc.
Qed.

Lemma merge_gradle_witness :
  let s := elite_over gradle_project in
  let twice :=
    (AstralStreamEliteAgent._merge_gradle_optimizations ["p"; "build.gradle"] "android {}" ;;;
     AstralStreamEliteAgent._merge_gradle_optimizations ["p"; "build.gradle"] "android {}") s in
  twice.1 = Ok tt /\
  fs (AstralStreamEliteAgent.env twice.2) !! ["p"; "build.gradle"]
    = Some (File ("plugins {}"
                    +:+ Payload.nl +:+ Payload.nl +:+ "android {}"
                    +:+ Payload.nl +:+ Payload.nl +:+ "android {}") true) /\
  AstralStreamEliteAgent.modifications_log (AstralStreamEliteAgent.this twice.2)
    = AstralStreamEliteAgent.modifications_log (AstralStreamEliteAgent.this s)
        ++ ["Optimized: " +:+ rel_str ["build.gradle"];
            "Optimized: " +:+ rel_str ["build.gradle"]].
Proof.
  apply (merge_gradle_appends_each_time ["p"; "build.gradle"] "android {}"
           (elite_over gradle_project) "plugins {}" ["build.gradle"]).
  - reflexivity.
  - reflexivity.
  - vm_compute. reflexivity.
  - discriminate.
  - vm_compute. reflexivity.
Defined.

(** X15. No error leaves [_merge_gradle_optimizations]; when the build file
    cannot be read, the call changes nothing at all. *)
Theorem merge_gradle_swallows_errors gradle_path optimizations
    (s : AstralStreamEliteAgent.St) :
  (AstralStreamEliteAgent._merge_gradle_optimizations gradle_path optimizations s).1 = Ok tt /\
  (forall e, FileSystem.read_text (fs (AstralStreamEliteAgent.env s)) gradle_path
               = Raise e ->
     (AstralStreamEliteAgent._merge_gradle_optimizations gradle_path optimizations s).2 = s).
Proof.
  unfold AstralStreamEliteAgent._merge_gradle_optimizations, try_except, read_text, write_text,
    read_fs, of_res, update_fs, relative_to, AstralStreamEliteAgent.this_get,
    AstralStreamEliteAgent.this_update, bind.
  cbn [get_env set_env AstralStreamEliteAgent.St_HasEnv AstralStreamEliteAgent.env
       AstralStreamEliteAgent.this fs set_fs].
  destruct (FileSystem.read_text _ gradle_path) as [content|x]; cbn [ret].
  - split; [|done].
    destruct (FileSystem.write_text _ _ _) as [[[]|x] t']; cbn; [|done].
    by destruct (PurePath.strip_prefix _ _).
  - split; [done|]. intros _ _. by destruct s.
Qed.

(** ** A run deletes nothing *)

#[global] Instance survives_preorder : PreOrder survives.
Proof.
  split; [by intros t q|]. intros t1 t2 t3 H12 H23 q Hq. by apply H23, H12.
Qed.

#[global] Instance keeps_paths_preorder {S} `{HasEnv S} : PreOrder (keeps_paths (S := S)).
Proof.
  split.
  - intros s. unfold keeps_paths. reflexivity.
  - intros s1 s2 s3 H12 H23. unfold keeps_paths in *. by etrans.
Qed.

Lemma no_loss_survives t t' : no_loss t t' -> survives t t'.
Proof.
  intros [Hd Hf] q [[|c w] Hq].
  - rewrite (Hd _ Hq). by eexists.
  - destruct (Hf _ _ _ Hq) as [c' ->]. by eexists.
Qed.

Lemma keeps_paths_of_grows {A} (m : M AgentSt A) :
  preserves grows m -> preserves keeps_paths m.
Proof. apply preserves_weaken. intros s s'. apply no_loss_survives. Qed.

Lemma keeps_paths_of_quiet {A} (m : M AgentSt A) :
  preserves quiet m -> preserves keeps_paths m.
Proof. intros Hm. by apply keeps_paths_of_grows, grows_of_quiet. Qed.

Lemma keeps_paths_fix issues : preserves keeps_paths (fix_ issues).
Proof.
  apply keeps_paths_of_grows, grows_fix.
Qed.

Lemma keeps_paths_update_fs {S} `{HasEnv S} {A} (f : FS -> Res A * FS) :
  (forall t, survives t (f t).2) -> preserves keeps_paths (update_fs (S := S) f).
Proof.
  intros Hf s. unfold update_fs, keeps_paths. specialize (Hf (fs (get_env s))).
  destruct (f _) as [r t']. simpl. by rewrite get_set_env.
Qed.

Section RunKeepsPaths.
Import MasterOrchestrator.

Lemma keeps_paths_with_agent {A} i (m : M AgentSt A) :
  preserves keeps_paths m -> preserves keeps_paths (with_agent i m).
Proof.
  intros Hm s. unfold with_agent.
  destruct (agents (this s) !! i) as [a|]; [|reflexivity].
  specialize (Hm {| self := a; aenv := env s |}).
  by destruct (m _) as [r sa].
Qed.

Lemma keeps_paths_emit ev : preserves keeps_paths (emit (S := St) ev).
Proof. intros s. unfold keeps_paths. simpl. reflexivity. Qed.

Lemma keeps_paths_this_get {A} (f : t -> A) : preserves keeps_paths (this_get f).
Proof. intros s. reflexivity. Qed.

Lemma keeps_paths_datetime_now : preserves keeps_paths (datetime_now (S := St)).
Proof. intros s. unfold keeps_paths. simpl. reflexivity. Qed.

Lemma keeps_paths_await {A} ph i (m : M AgentSt A) summary :
  preserves keeps_paths m -> preserves keeps_paths (await ph i m summary).
Proof.
  intros Hm. unfold await.
  repeat (intros;
          first [ apply keeps_paths_emit
                | apply keeps_paths_with_agent;
                    first [ exact Hm | apply keeps_paths_of_quiet; solve [pres] ]
                | pres_rules ]).
Qed.

Lemma copytree_survives t src dst : survives t (FileSystem.copytree t src dst).2.
Proof.
  pose proof (mkdir_from_no_loss dst t []) as Hmk. apply no_loss_survives in Hmk.
  unfold FileSystem.copytree, FileSystem.mkdir_parents.
  destruct (FileSystem.node_at t src) as [[|content w]|]; [|reflexivity|reflexivity].
  destruct (FileSystem.node_at t dst) as [n|]; [reflexivity|].
  destruct (FileSystem.mkdir_from t [] dst) as [[[]|e] t1]; simpl in *; [|done].
  intros q Hq. apply Hmk in Hq as [n Hq].
  destruct (FileSystem.moved t src dst !! q) as [n'|] eqn:Hmoved.
  - exists n'. by apply lookup_union_Some_l.
  - exists n. by rewrite lookup_union_r.
Qed.

Lemma keeps_paths_create_backup : preserves keeps_paths _create_backup.
Proof.
  unfold _create_backup.
  apply preserves_bind; [apply _|apply keeps_paths_datetime_now|]. intros now.
  apply preserves_bind; [apply _|apply keeps_paths_this_get|]. intros project.
  apply preserves_bind; [apply _| |intros; apply preserves_ret; apply _].
  apply keeps_paths_update_fs. intros t. apply copytree_survives.
Qed.

Lemma keeps_paths_final_report all_issues backup_path success :
  preserves keeps_paths (_generate_final_report all_issues backup_path success).
Proof.
  unfold _generate_final_report.
  repeat (intros;
          first [ apply keeps_paths_datetime_now | apply keeps_paths_this_get
                | pres_rules ]).
  intros. apply keeps_paths_update_fs. intros t.
  apply no_loss_survives, write_text_no_loss.
Qed.

Lemma keeps_paths_run : preserves keeps_paths run_full_upgrade.
Proof.
  unfold run_full_upgrade, analysis_phase, fixing_phase, validation_phase,
    analyze_agent, fix_agent, validate_agent.
  repeat (intros;
          first [ apply keeps_paths_create_backup | apply keeps_paths_final_report
                | apply keeps_paths_this_get
                | apply keeps_paths_await;
                    first [ apply keeps_paths_fix
                          | apply keeps_paths_of_quiet;
                              first [ apply quiet_analyze | apply quiet_validate ] ]
                | apply keeps_paths_with_agent; apply keeps_paths_of_quiet; solve [pres]
                | pres_rules | pres_case ]).
Qed.

End RunKeepsPaths.

(** X16. A run of the team deletes nothing: every path of the tree
    [run_full_upgrade] is started on is a path of the tree it stops on,
    whether it returns or an error leaves it. *)
Theorem run_deletes_nothing (s : MasterOrchestrator.St) (q : Path) :
  is_Some (fs (MasterOrchestrator.env s) !! q) ->
  is_Some (fs (MasterOrchestrator.env (MasterOrchestrator.run_full_upgrade s).2) !! q).
Proof. apply (keeps_paths_run s). Qed.

Lemma run_deletes_nothing_witness :
  is_Some (fs (MasterOrchestrator.env
                 (MasterOrchestrator.run_full_upgrade (sample_start documented_project)).2)
             !! ["p"; "README.md"]).
Proof.
  apply (run_deletes_nothing (sample_start documented_project) ["p"; "README.md"]).
  vm_compute. by eexists.
Defined.

(** ** A fix stays inside the project *)

Lemma write_text_elsewhere t p c q :
  q <> p -> (FileSystem.write_text t p c).2 !! q = t !! q.
Proof.
  intros Hq. unfold FileSystem.write_text.
  destruct (FileSystem.node_at t p) as [[|content [|]]|]; simpl;
    rewrite ?lookup_insert_ne by done; try done.
  destruct (FileSystem.node_at t (PurePath.parent p)) as [[|? ?]|]; simpl;
    by rewrite ?lookup_insert_ne by done.
Qed.

Lemma mkdir_exist_ok_elsewhere t p q :
  q <> p -> (FileSystem.mkdir_exist_ok t p).2 !! q = t !! q.
Proof.
  intros Hq. unfold FileSystem.mkdir_exist_ok.
  destruct (FileSystem.node_at t p) as [[|content w]|]; simpl; try done.
  destruct (FileSystem.node_at t (PurePath.parent p)) as [[|? ?]|]; simpl;
    by rewrite ?lookup_insert_ne by done.
Qed.

(** [mkdir_from] leaves [q] as it is when [q] is not on the way, or is
    there already. *)
Lemma mkdir_from_outside todo : forall t here q,
  (forall k, 0 < k <= length todo -> q = here ++ take k todo -> is_Some (t !! q)) ->
  (FileSystem.mkdir_from t here todo).2 !! q = t !! q.
Proof.
  induction todo as [|c todo IH]; intros t here q Hq; simpl; [done|].
  assert (q = here ++ [c] -> is_Some (t !! q)) as Hfirst.
  { intros ->. apply (Hq 1); [simpl; lia|]. simpl. by rewrite take_0. }
  assert (forall t0 : FS, (forall q0, is_Some (t !! q0) -> is_Some (t0 !! q0)) ->
            forall k, 0 < k <= length todo -> q = (here ++ [c]) ++ take k todo ->
              is_Some (t0 !! q)) as Hrest.
  { intros t0 Ht0 k Hk ->. apply Ht0, (Hq (S k)); [simpl; lia|].
    by rewrite <- app_assoc. }
  destruct (t !! (here ++ [c])) as [[|content w]|] eqn:Hc.
  - apply IH. by apply Hrest.
  - done.
  - assert (q <> here ++ [c]) as Hne.
    { intros Heq. destruct (Hfirst Heq) as [n Hn]. congruence. }
    rewrite IH; [by rewrite lookup_insert_ne|].
    apply Hrest. intros q0 [n Hn].
    destruct (decide (here ++ [c] = q0)) as [<-|Hne0]; [congruence|].
    rewrite lookup_insert_ne by done. by eexists.
Qed.

Section Confined.
Variable project : Path.

#[global] Instance confined_preorder : PreOrder (confined project).
Proof.
  split.
  - intros s Hp Hchain. by repeat split.
  - intros s1 s2 s3 H12 H23 Hp Hchain.
    destruct (H12 Hp Hchain) as (Hp2 & Hchain2 & Hq2).
    destruct (H23 Hp2 Hchain2) as (Hp3 & Hchain3 & Hq3).
    split; [done|]. split; [done|]. intros q Hq. by rewrite Hq3, Hq2.
Qed.

Lemma quiet_confined s s' : quiet s s' -> confined project s s'.
Proof.
  intros ((_ & _ & Hp') & _ & _ & Hfs) Hp Hchain. rewrite Hfs.
  split; [congruence|]. by split.
Qed.

Lemma confined_of_quiet {A} (m : M AgentSt A) :
  preserves quiet m -> preserves (confined project) m.
Proof. apply preserves_weaken, quiet_confined. Qed.

Lemma confined_add_modification file_path description :
  preserves (confined project) (AgentBase.add_modification file_path description).
Proof. intros s Hp Hchain. by repeat split. Qed.

Lemma confined_project {A} (k : Path -> M AgentSt A) :
  preserves (confined project) (k project) ->
  preserves (confined project) (bind (self_get project_path) k).
Proof. intros Hk s Hp. unfold bind, self_get. rewrite Hp. by apply Hk. Qed.

Lemma confined_getitem {A} (issue : Issue) key (k : PyVal -> M AgentSt A) :
  (forall v, issue !! key = Some v -> preserves (confined project) (k v)) ->
  preserves (confined project) (bind (getitem issue key) k).
Proof.
  intros Hk s. unfold bind, getitem.
  destruct (issue !! key) as [v|]; [by apply Hk|reflexivity].
Qed.

Lemma confined_as_path {A} (v : PyVal) (k : Path -> M AgentSt A) :
  (forall str, v = VStr str -> preserves (confined project) (k (PurePath.parts str))) ->
  preserves (confined project) (bind (as_path v) k).
Proof.
  intros Hk s. destruct v as [str| |]; [by apply Hk|reflexivity|reflexivity].
Qed.

(** A change of the tree that leaves the directories and touches paths
    within the project only. *)
Lemma confined_update_fs {A} (f : FS -> Res A * FS) :
  (forall t, no_loss t (f t).2) ->
  (forall t q, dir_chain t [] project -> PurePath.strip_prefix project q = None ->
     (f t).2 !! q = t !! q) ->
  preserves (confined project) (update_fs (S := AgentSt) f).
Proof.
  intros Hloss Hout s Hp Hchain. unfold update_fs. cbn [get_env set_env AgentSt_HasEnv].
  specialize (Hloss (fs (aenv s))). specialize (Hout (fs (aenv s))).
  destruct (f _) as [r t']. simpl in *. split; [done|]. split.
  - intros k Hk. apply Hloss. by apply Hchain.
  - intros q Hq. by apply Hout.
Qed.

Lemma confined_write_text p c :
  within project p -> preserves (confined project) (write_text p c).
Proof.
  intros Hp. apply confined_update_fs; [intros t; apply write_text_no_loss|].
  intros t q _ Hq. apply write_text_elsewhere. by intros ->.
Qed.

Lemma confined_mkdir_exist_ok p :
  within project p -> preserves (confined project) (mkdir_exist_ok p).
Proof.
  intros Hp. apply confined_update_fs; [intros t; apply mkdir_exist_ok_no_loss|].
  intros t q _ Hq. apply mkdir_exist_ok_elsewhere. by intros ->.
Qed.

(** Making a directory within the project, or one of the ancestors of
    the project, creates nothing outside. *)
Lemma confined_mkdir_parents p :
  within project p \/ (exists rest, project = p ++ rest) ->
  preserves (confined project) (mkdir_parents p).
Proof.
  intros Hp. apply confined_update_fs; [intros t; apply mkdir_from_no_loss|].
  intros t q Hchain Hq. unfold FileSystem.mkdir_parents.
  apply mkdir_from_outside. intros k Hk ->. simpl in *.
  assert (exists j, 0 < j <= length project /\ take k p = take j project)
    as (j & Hj & ->).
  { destruct Hp as [Hin|[rest ->]].
    - destruct (PurePath.strip_prefix project p) as [rel|] eqn:Hrel; [|done].
      apply strip_prefix_Some in Hrel as ->.
      destruct (decide (k <= length project)) as [Hle|Hgt].
      + exists k. split; [lia|]. by rewrite take_app_le.
      + rewrite take_app_ge in Hq by lia.
        by rewrite strip_prefix_app in Hq.
    - exists k. rewrite length_app. split; [lia|]. by rewrite take_app_le by lia. }
  pose proof (Hchain j Hj) as Hdir. simpl in Hdir. rewrite Hdir. by eexists.
Qed.

Lemma within_joinpath rel : within project (project // rel).
Proof. unfold within, PurePath.joinpath. by rewrite strip_prefix_app. Qed.

Lemma within_parent p :
  within project p ->
  within project (PurePath.parent p) \/ exists rest, project = PurePath.parent p ++ rest.
Proof.
  unfold within. intros Hp.
  destruct (PurePath.strip_prefix project p) as [rel|] eqn:Hrel; [|done].
  apply strip_prefix_Some in Hrel as ->.
  destruct (decide (rel = [])) as [->|Hne].
  - right. rewrite app_nil_r. unfold PurePath.parent.
    destruct (decide (project = [])) as [->|Hproject]; [by exists []|].
    destruct (exists_last Hproject) as (front & last & ->).
    rewrite removelast_last. by exists [last].
  - left. rewrite parent_joinpath by done. by rewrite strip_prefix_app.
Qed.

Lemma confined_mkdir_parent p :
  within project p -> preserves (confined project) (mkdir_parents (PurePath.parent p)).
Proof. intros Hp. by apply confined_mkdir_parents, within_parent. Qed.

(** The rewriting of the file an issue names. *)
Lemma confined_rewrite (v : PyVal) (f : string -> string) description :
  (forall str, v = VStr str -> within project (PurePath.parts str)) ->
  preserves (confined project)
    (try_except
       (target <- as_path v ;;
        content <- read_text target ;;
        write_text target (f content) ;;;
        file_path <- as_str v ;;
        AgentBase.add_modification file_path description)
       (ret tt)).
Proof.
  intros Hv. apply preserves_try_except; [apply _| |apply preserves_ret; apply _].
  apply confined_as_path. intros str ->.
  apply preserves_bind; [apply _|apply confined_of_quiet, quiet_read_text|].
  intros content. apply preserves_bind; [apply _|by apply confined_write_text, Hv|].
  intros _. apply preserves_bind; [apply _|apply confined_of_quiet, quiet_as_str|].
  intros file_path. apply confined_add_modification.
Qed.

End Confined.

#[global] Hint Resolve confined_of_quiet | 5 : pres.
#[global] Hint Resolve confined_add_modification : pres.

(** Steps of a proof that a method writes within the project only. *)
Ltac confine_step :=
  first
    [ apply confined_project
    | apply confined_mkdir_parent; apply within_joinpath
    | apply confined_mkdir_parents; left; apply within_joinpath
    | apply confined_mkdir_exist_ok; apply within_joinpath
    | apply confined_write_text; apply within_joinpath ].

Ltac confine :=
  repeat (intros;
          first [ confine_step | solve [eauto 3 with pres] | pres_rules | pres_case ]).

Section ConfinedFix.
Variable project : Path.

Lemma within_below q : FileSystem.below project q = true -> within project q.
Proof. intros (c & rel & ->)%below_inv. unfold within. by rewrite strip_prefix_app. Qed.

Lemma within_joinpath2 rel1 rel2 : within project ((project // rel1) // rel2).
Proof.
  unfold within, PurePath.joinpath. by rewrite <- app_assoc, strip_prefix_app.
Qed.

Lemma confined_rglob {A} pat (k : list Path -> M AgentSt A) :
  (forall l, Forall (within project) l -> preserves (confined project) (k l)) ->
  preserves (confined project) (bind (rglob project pat) k).
Proof.
  intros Hk s. unfold bind, rglob, read_fs. apply Hk.
  apply Forall_forall. intros q Hq. apply within_below.
  by apply rglob_elem_inv in Hq as (_ & Hbelow & _).
Qed.

Lemma inside_value issue key p :
  inside project issue -> key ∈ ["path"; "test_path"; "file"] ->
  issue !! key = Some (VStr p) -> within project (PurePath.parts p).
Proof. intros Hin Hkey Hp. by apply (Hin key). Qed.

Lemma confined_tests_fix issues :
  Forall (inside project) issues ->
  preserves (confined project) (TestCoverageAgent.fix_ issues).
Proof.
  intros Hissues. unfold TestCoverageAgent.fix_.
  apply preserves_bind; [apply _|pres|]. intros _.
  apply preserves_bind; [apply _| |].
  - apply (preserves_for_in_Forall _ _ _ _ _ Hissues). intros fixed_count issue Hin.
    unfold TestCoverageAgent.fix_issue.
    apply confined_getitem. intros type _.
    destruct (is_str type "missing_test_directory");
      [|destruct (is_str type "missing_test_file")].
    + apply confined_getitem. intros path Hpath.
      apply confined_as_path. intros str ->.
      apply preserves_bind; [apply _| |confine].
      apply confined_mkdir_parents. left.
      apply (inside_value issue "path"); [done|set_solver|done].
    + apply confined_getitem. intros source _.
      apply preserves_bind; [apply _|pres|]. intros test_content.
      apply confined_getitem. intros test_path Hpath.
      apply confined_as_path. intros str ->.
      assert (within project (PurePath.parts str)) as Hwithin.
      { apply (inside_value issue "test_path"); [done|set_solver|done]. }
      apply preserves_bind; [apply _|by apply confined_mkdir_parent|]. intros _.
      apply preserves_bind; [apply _|by apply confined_write_text|]. confine.
    + confine.
  - unfold TestCoverageAgent._generate_integration_tests,
      TestCoverageAgent._generate_ui_tests,
      TestCoverageAgent._generate_performance_tests.
    confine.
Qed.

Lemma confined_architecture_fix issues :
  preserves (confined project) (ArchitectureAgent.fix_ issues).
Proof.
  unfold ArchitectureAgent.fix_, ArchitectureAgent.fix_issue,
    ArchitectureAgent._consolidate_databases, ArchitectureAgent._enhance_navigation,
    ArchitectureAgent._create_domain_interfaces, ArchitectureAgent._implement_use_cases.
  assert (preserves (confined project) ArchitectureAgent._standardize_packages)
    as Hstandardize.
  { unfold ArchitectureAgent._standardize_packages.
    apply preserves_bind; [apply _|pres|]. intros _.
    apply confined_project. apply confined_rglob. intros kotlin_files Hfiles.
    apply (preserves_for_in_Forall _ _ _ _ _ Hfiles). intros _ kt_file Hwithin.
    apply preserves_try_except; [apply _| |confine].
    apply preserves_bind; [apply _|pres|]. intros content.
    destruct (ArchitectureAgent.apply_replacements _ _ _) as [content' [|]]; [|confine].
    apply preserves_bind; [apply _|by apply confined_write_text|]. confine. }
  repeat (intros;
          first [ exact Hstandardize | confine_step | solve [eauto 3 with pres]
                | pres_rules | pres_case ]).
Qed.

Lemma confined_security_fix issues :
  Forall (inside project) issues ->
  preserves (confined project) (SecurityAgent.fix_ issues).
Proof.
  intros Hissues. unfold SecurityAgent.fix_.
  apply preserves_bind; [apply _|pres|]. intros _.
  apply preserves_bind; [apply _| |].
  - apply (preserves_for_in_Forall _ _ _ _ _ Hissues). intros fixed_count issue Hin.
    unfold SecurityAgent.fix_issue, SecurityAgent._implement_certificate_pinning,
      SecurityAgent._enhance_obfuscation.
    apply confined_getitem. intros type _.
    destruct (is_str type "missing_certificate_pinning"); [confine|].
    destruct (is_str type "insufficient_obfuscation"); [confine|].
    destruct (is_str type "insecure_http"); [|confine].
    apply confined_getitem. intros file Hfile.
    apply preserves_bind; [apply _| |confine].
    apply (confined_rewrite project file
             (fun content => PyStr.replace content "http://" "https://")).
    intros str ->. apply (inside_value issue "file"); [done|set_solver|done].
  - unfold SecurityAgent._implement_biometric_auth,
      SecurityAgent._enhance_data_encryption.
    confine.
Qed.

Lemma confined_performance_fix issues :
  Forall (inside project) issues ->
  preserves (confined project) (PerformanceAgent.fix_ issues).
Proof.
  intros Hissues. unfold PerformanceAgent.fix_.
  apply preserves_bind; [apply _|pres|]. intros _.
  apply preserves_bind; [apply _| |].
  - apply (preserves_for_in_Forall _ _ _ _ _ Hissues). intros fixed_count issue Hin.
    unfold PerformanceAgent.fix_issue, PerformanceAgent._create_baseline_profile.
    apply confined_getitem. intros type _.
    destruct (is_str type "potential_memory_leak");
      [|destruct (is_str type "global_scope_usage");
        [|destruct (is_str type "missing_baseline_profile"); confine]].
    + apply confined_getitem. intros file Hfile.
      apply preserves_bind; [apply _| |confine].
      apply (confined_rewrite project file
               (fun content =>
                  if PerformanceAgent.leaks content then
                    PyStr.replace content "private lateinit var context: Context"
                      "private var contextRef: WeakReference<Context>? = null"
                  else content)).
      intros str ->. apply (inside_value issue "file"); [done|set_solver|done].
    + apply confined_getitem. intros file Hfile.
      apply preserves_bind; [apply _| |confine].
      apply (confined_rewrite project file
               (fun content =>
                  PyStr.replace
                    (PyStr.replace content "GlobalScope.launch" "lifecycleScope.launch")
                    "GlobalScope.async" "lifecycleScope.async")).
      intros str ->. apply (inside_value issue "file"); [done|set_solver|done].
  - unfold PerformanceAgent._optimize_build_config,
      PerformanceAgent._implement_lazy_loading,
      PerformanceAgent._add_performance_monitoring.
    confine.
Qed.

Lemma confined_documentation_fix issues :
  preserves (confined project) (DocumentationAgent.fix_ issues).
Proof.
  unfold DocumentationAgent.fix_, DocumentationAgent.fix_issue,
    DocumentationAgent._generate_readme, DocumentationAgent._generate_api_docs,
    DocumentationAgent._enhance_inline_docs,
    DocumentationAgent._generate_architecture_docs,
    DocumentationAgent._generate_setup_guide,
    DocumentationAgent._generate_contributing_guide.
  repeat (intros;
          first [ apply confined_write_text; apply within_joinpath2
                | confine_step | solve [eauto 3 with pres] | pres_rules | pres_case ]).
Qed.

Lemma confined_fix issues :
  Forall (inside project) issues -> preserves (confined project) (fix_ issues).
Proof.
  intros Hissues. unfold fix_.
  apply preserves_bind; [apply _|pres|].
  intros [];
    auto using confined_tests_fix, confined_architecture_fix, confined_security_fix,
      confined_performance_fix, confined_documentation_fix.
Qed.

End ConfinedFix.



(** ** From the analysis to the fix *)

Lemma for_in_invariant {S X A} (I : A -> Prop) (xs : list X)
    (body : A -> X -> M S A) : forall acc s r s',
  I acc ->
  (forall a x s a' s', I a -> body a x s = (Ok a', s') -> I a') ->
  for_in xs body acc s = (Ok r, s') -> I r.
Proof.
  induction xs as [|x xs IH]; intros acc s r s' Hacc Hbody; simpl.
  - by intros [= <- _].
  - intros Hrun. apply bind_ok_inv in Hrun as (a & s1 & Hstep & Hrun).
    eapply IH; [|exact Hbody|exact Hrun]. by eapply Hbody.
Qed.

Lemma try_except_ok_inv {S A} (body handler : M S A) s a s' :
  try_except body handler s = (Ok a, s') ->
  body s = (Ok a, s') \/ exists e s1, body s = (Raise e, s1) /\ handler s1 = (Ok a, s').
Proof.
  intros Hrun. apply try_except_inv in Hrun as [(a' & Hbody & [= <-])|Hhandler];
    [by left|by right].
Qed.

(** A literal is none of the strings of a list of literals. *)
Ltac not_listed :=
  let Hin := fresh "Hin" in
  intros Hin;
  repeat (apply elem_of_cons in Hin as [Hin|Hin]; [discriminate Hin|]);
  by apply elem_of_nil in Hin.

Lemma well_keyed_plain (type severity : string) :
  type <> "missing_test_directory" -> type <> "missing_test_file" ->
  type ∉ ["insecure_http"; "potential_memory_leak"; "global_scope_usage"] ->
  well_keyed {[ "type" := VStr type; "severity" := VStr severity ]}.
Proof.
  intros H1 H2 H3. exists type. split; [apply lookup_insert_eq|].
  split; [by intros ?|]. split; [by intros ?|]. by intros ?.
Qed.

Lemma well_keyed_counted (type severity : string) (v : PyVal) key :
  key <> "type" ->
  type <> "missing_test_directory" -> type <> "missing_test_file" ->
  type ∉ ["insecure_http"; "potential_memory_leak"; "global_scope_usage"] ->
  well_keyed {[ "type" := VStr type; key := v; "severity" := VStr severity ]}.
Proof.
  intros Hk H1 H2 H3. exists type. split; [apply lookup_insert_eq|].
  split; [by intros ?|]. split; [by intros ?|]. by intros ?.
Qed.

Lemma well_keyed_file (type file severity : string) :
  type <> "missing_test_directory" -> type <> "missing_test_file" ->
  well_keyed {[ "type" := VStr type; "file" := VStr file; "severity" := VStr severity ]}.
Proof.
  intros H1 H2. exists type. split; [apply lookup_insert_eq|].
  split; [by intros ?|]. split; [by intros ?|].
  intros _. exists file. rewrite lookup_insert_ne by done. apply lookup_insert_eq.
Qed.

Lemma Forall_snoc {X} (P : X -> Prop) l x : Forall P l -> P x -> Forall P (l ++ [x]).
Proof. intros Hl Hx. apply Forall_app. split; [done|]. by apply Forall_singleton. Qed.

Lemma tests_analyze_well_keyed s a s' :
  TestCoverageAgent.analyze s = (Ok a, s') -> Forall well_keyed (issues a).
Proof.
  unfold TestCoverageAgent.analyze. intros Hrun.
  apply bind_ok_inv in Hrun as ([] & s0 & _ & Hrun).
  apply bind_ok_inv in Hrun as (project & s1 & _ & Hrun).
  apply bind_ok_inv in Hrun as (issues1 & s2 & Hdirs & Hrun).
  apply bind_ok_inv in Hrun as (kotlin_files & s3 & _ & Hrun).
  apply bind_ok_inv in Hrun as (issues2 & s4 & Hfiles & Hrun).
  apply bind_ok_inv in Hrun as ([] & s5 & _ & Hrun).
  apply bind_ok_inv in Hrun as (estimate & s6 & _ & [= <- _]). simpl.
  apply (for_in_invariant (Forall well_keyed)) in Hdirs.
  - apply (for_in_invariant (Forall well_keyed)) in Hfiles; [done|done|].
    intros acc source_file t acc' t' Hacc Hstep.
    apply bind_ok_inv in Hstep as (test_file & t1 & _ & Hstep).
    apply bind_ok_inv in Hstep as (there & t2 & _ & Hstep).
    destruct (negb there); injection Hstep as <- _; [|done].
    apply Forall_snoc; [done|].
    exists "missing_test_file". split; [done|]. split; [done|].
    split; [|not_listed].
    intros _. by split; eexists.
  - done.
  - intros acc test_dir t acc' t' Hacc Hstep.
    apply bind_ok_inv in Hstep as (there & t2 & _ & Hstep).
    destruct (negb there); injection Hstep as <- _; [|done].
    apply Forall_snoc; [done|].
    exists "missing_test_directory". split; [done|].
    split; [intros _; by eexists|]. split; [done|]. not_listed.
Qed.

(** Steps of a proof that a list of literal issues is well keyed. *)
Ltac keyed_issue :=
  lazymatch goal with
  | |- well_keyed (<[_ := _]> (<["file" := _]> _)) =>
      apply well_keyed_file; discriminate
  | |- well_keyed (<[_ := _]> (<[_ := _]> _)) =>
      apply well_keyed_counted; [discriminate|discriminate|discriminate|not_listed]
  | |- well_keyed (<[_ := _]> _) =>
      apply well_keyed_plain; [discriminate|discriminate|not_listed]
  end.

Ltac keyed :=
  repeat lazymatch goal with
    | |- Forall _ [] => apply Forall_nil_2
    | |- Forall _ (_ ++ [_]) => apply Forall_snoc
    | |- Forall _ (_ :: _) => apply Forall_cons_2
    | |- Forall _ _ => assumption
    | |- well_keyed _ => keyed_issue
    end.

Lemma architecture_analyze_well_keyed s a s' :
  ArchitectureAgent.analyze s = (Ok a, s') -> Forall well_keyed (issues a).
Proof.
  unfold ArchitectureAgent.analyze. intros Hrun.
  apply bind_ok_inv in Hrun as ([] & s0 & _ & Hrun).
  apply bind_ok_inv in Hrun as (project & s1 & _ & Hrun).
  apply bind_ok_inv in Hrun as (db_count & s2 & _ & Hrun).
  apply bind_ok_inv in Hrun as (kotlin_files & s3 & _ & Hrun).
  apply bind_ok_inv in Hrun as (packages & s4 & _ & Hrun).
  apply bind_ok_inv in Hrun as (nav_files & s5 & _ & Hrun).
  apply bind_ok_inv in Hrun as ([] & s6 & _ & [= <- _]). simpl.
  repeat case_match; keyed.
Qed.

Lemma security_analyze_well_keyed s a s' :
  SecurityAgent.analyze s = (Ok a, s') -> Forall well_keyed (issues a).
Proof.
  unfold SecurityAgent.analyze. intros Hrun.
  apply bind_ok_inv in Hrun as ([] & s0 & _ & Hrun).
  apply bind_ok_inv in Hrun as (project & s1 & _ & Hrun).
  apply bind_ok_inv in Hrun as (pinned & s2 & _ & Hrun).
  apply bind_ok_inv in Hrun as (there & s3 & _ & Hrun).
  apply bind_ok_inv in Hrun as (weak & s4 & _ & Hrun).
  apply bind_ok_inv in Hrun as (kotlin_files & s5 & _ & Hrun).
  apply bind_ok_inv in Hrun as (found & s6 & Hloop & Hrun).
  apply bind_ok_inv in Hrun as ([] & s7 & _ & [= <- _]). simpl.
  apply (for_in_invariant (Forall well_keyed)) in Hloop; [done| |].
  - repeat case_match; keyed.
  - intros acc kt_file t acc' t' Hacc Hstep.
    apply try_except_ok_inv in Hstep as [Hbody|(e & t1 & _ & [= <- _])]; [|done].
    apply bind_ok_inv in Hbody as (content & t1 & _ & Hbody).
    destruct (_ && _); injection Hbody as <- _; keyed.
Qed.

Lemma performance_analyze_well_keyed s a s' :
  PerformanceAgent.analyze s = (Ok a, s') -> Forall well_keyed (issues a).
Proof.
  unfold PerformanceAgent.analyze. intros Hrun.
  apply bind_ok_inv in Hrun as ([] & s0 & _ & Hrun).
  apply bind_ok_inv in Hrun as (project & s1 & _ & Hrun).
  apply bind_ok_inv in Hrun as (kotlin_files & s2 & _ & Hrun).
  apply bind_ok_inv in Hrun as (found & s3 & Hloop & Hrun).
  apply bind_ok_inv in Hrun as (there & s4 & _ & Hrun).
  apply bind_ok_inv in Hrun as ([] & s5 & _ & [= <- _]). simpl.
  apply (for_in_invariant (Forall well_keyed)) in Hloop.
  - destruct (negb there); keyed.
  - done.
  - intros acc kt_file t acc' t' Hacc Hstep.
    apply try_except_ok_inv in Hstep as [Hbody|(e & t1 & _ & [= <- _])]; [|done].
    apply bind_ok_inv in Hbody as (content & t1 & _ & [= <- _]).
    repeat case_match; keyed.
Qed.

Lemma documentation_analyze_well_keyed s a s' :
  DocumentationAgent.analyze s = (Ok a, s') -> Forall well_keyed (issues a).
Proof.
  unfold DocumentationAgent.analyze. intros Hrun.
  apply bind_ok_inv in Hrun as ([] & s0 & _ & Hrun).
  apply bind_ok_inv in Hrun as (project & s1 & _ & Hrun).
  apply bind_ok_inv in Hrun as (has_readme & s2 & _ & Hrun).
  apply bind_ok_inv in Hrun as (has_docs & s3 & _ & Hrun).
  apply bind_ok_inv in Hrun as (kotlin_files & s4 & _ & Hrun).
  apply bind_ok_inv in Hrun as (undocumented_count & s5 & _ & Hrun).
  apply bind_ok_inv in Hrun as ([] & s6 & _ & [= <- _]). simpl.
  repeat case_match; keyed.
Qed.

Lemma analyze_well_keyed s a s' :
  analyze s = (Ok a, s') -> Forall well_keyed (issues a).
Proof.
  unfold analyze. intros Hrun.
  apply bind_ok_inv in Hrun as (c & s0 & _ & Hrun).
  destruct c;
    eauto using tests_analyze_well_keyed, architecture_analyze_well_keyed,
      security_analyze_well_keyed, performance_analyze_well_keyed,
      documentation_analyze_well_keyed.
Qed.

Section RaisesOnly.
Context {S : Type} (E : Exn -> Prop).

Lemma raises_only_ret {A} (a : A) : raises_only E (ret (S := S) a).
Proof. by intros s e. Qed.

Lemma raises_only_never {A} (m : M S A) : never_raises m -> raises_only E m.
Proof. intros Hm s e He. destruct (Hm s) as [a Ha]. congruence. Qed.

Lemma raises_only_bind {A B} (m : M S A) (k : A -> M S B) :
  raises_only E m -> (forall a, raises_only E (k a)) -> raises_only E (bind m k).
Proof.
  intros Hm Hk s e. unfold bind. specialize (Hm s).
  destruct (m s) as [[a|e'] s1]; simpl in *; [apply Hk|].
  intros [= <-]. by apply Hm.
Qed.

Lemma raises_only_try_except {A} (body handler : M S A) :
  raises_only E handler -> raises_only E (try_except body handler).
Proof.
  intros Hh s e. unfold try_except.
  destruct (body s) as [[a|e'] s1]; simpl; [done|apply Hh].
Qed.

Lemma raises_only_for_in_Forall {X A} (P : X -> Prop) (xs : list X)
    (body : A -> X -> M S A) acc :
  Forall P xs -> (forall a x, P x -> raises_only E (body a x)) ->
  raises_only E (for_in xs body acc).
Proof.
  intros Hxs Hbody. revert acc.
  induction Hxs as [|x xs Hx _ IH]; intros acc; simpl.
  - apply raises_only_ret.
  - apply raises_only_bind; [by apply Hbody|apply IH].
Qed.

Lemma raises_only_for_in {X A} (xs : list X) (body : A -> X -> M S A) acc :
  (forall a x, raises_only E (body a x)) -> raises_only E (for_in xs body acc).
Proof.
  intros Hbody. apply (raises_only_for_in_Forall (fun _ => True)); [|auto].
  by apply Forall_true.
Qed.

Lemma raises_only_getitem {A} (issue : Issue) key v (k : PyVal -> M S A) :
  issue !! key = Some v -> raises_only E (k v) ->
  raises_only E (bind (getitem issue key) k).
Proof. intros Hv Hk s. unfold bind, getitem. rewrite Hv. apply Hk. Qed.

End RaisesOnly.

Lemma mkdir_from_error todo : forall t here e,
  (FileSystem.mkdir_from t here todo).1 = Raise e -> file_error e.
Proof.
  induction todo as [|c todo IH]; intros t here e; simpl; [done|].
  destruct (t !! (here ++ [c])) as [[|content w]|]; [apply IH| |apply IH].
  simpl. intros [= <-]. by destruct todo.
Qed.

Lemma write_text_error t p c e :
  (FileSystem.write_text t p c).1 = Raise e -> file_error e.
Proof.
  unfold FileSystem.write_text. repeat case_match; simpl; by intros [= <-].
Qed.

Lemma mkdir_exist_ok_error t p e :
  (FileSystem.mkdir_exist_ok t p).1 = Raise e -> file_error e.
Proof.
  unfold FileSystem.mkdir_exist_ok. repeat case_match; simpl; by intros [= <-].
Qed.

Lemma raises_only_update_fs {A} (f : FS -> Res A * FS) :
  (forall t e, (f t).1 = Raise e -> file_error e) ->
  raises_only file_error (update_fs (S := AgentSt) f).
Proof.
  intros Hf s e. unfold update_fs. specialize (Hf (fs (get_env s)) e).
  by destruct (f _) as [r t'].
Qed.

Lemma raises_only_write_text p c :
  raises_only file_error (write_text (S := AgentSt) p c).
Proof. apply raises_only_update_fs. intros t e. apply write_text_error. Qed.

Lemma raises_only_mkdir_parents p :
  raises_only file_error (mkdir_parents (S := AgentSt) p).
Proof. apply raises_only_update_fs. intros t e. apply mkdir_from_error. Qed.

Lemma raises_only_mkdir_exist_ok p :
  raises_only file_error (mkdir_exist_ok (S := AgentSt) p).
Proof. apply raises_only_update_fs. intros t e. apply mkdir_exist_ok_error. Qed.

Lemma raises_only_relative_to p base :
  raises_only file_error (relative_to (S := AgentSt) p base).
Proof.
  intros s e. unfold relative_to.
  destruct (PurePath.strip_prefix base p); simpl; [done|by intros [= <-]].
Qed.

Lemma never_raises_add_modification file_path description :
  never_raises (AgentBase.add_modification file_path description).
Proof. intros s. by eexists. Qed.

(** Steps of a proof that a method raises errors of the file system
    only. *)
Ltac raising_step :=
  first
    [ apply raises_only_ret
    | apply raises_only_write_text
    | apply raises_only_mkdir_parents
    | apply raises_only_mkdir_exist_ok
    | apply raises_only_relative_to
    | apply raises_only_never;
        first [ apply never_raises_add_modification | apply never_raises_log
              | apply never_raises_self_get | apply never_raises_rglob
              | apply never_raises_path_exists ]
    | apply raises_only_try_except
    | apply raises_only_for_in
    | apply raises_only_bind ].

Ltac raising :=
  repeat (intros;
          first [ raising_step
                | match goal with
                  | |- raises_only _ (match ?x with _ => _ end) => destruct x
                  | |- raises_only _ (let '(_, _) := ?x in _) => destruct x
                  end ]).

Lemma is_str_eq type literal : is_str (VStr type) literal = true -> type = literal.
Proof. simpl. apply String.eqb_eq. Qed.

Lemma tests_fix_raises issues :
  Forall well_keyed issues -> raises_only file_error (TestCoverageAgent.fix_ issues).
Proof.
  intros Hissues. unfold TestCoverageAgent.fix_.
  apply raises_only_bind; [raising|]. intros _.
  apply raises_only_bind.
  - apply (raises_only_for_in_Forall _ _ _ _ _ Hissues).
    intros fixed_count issue (type & Htype & Hdirectory & Hfile & _).
    unfold TestCoverageAgent.fix_issue.
    apply (raises_only_getitem _ _ _ _ _ Htype).
    destruct (is_str (VStr type) "missing_test_directory") eqn:Hd;
      [|destruct (is_str (VStr type) "missing_test_file") eqn:Hf].
    + apply is_str_eq in Hd. destruct (Hdirectory Hd) as [p Hp].
      apply (raises_only_getitem _ _ _ _ _ Hp). raising.
    + apply is_str_eq in Hf. destruct (Hfile Hf) as [[src Hsrc] [p Hp]].
      apply (raises_only_getitem _ _ _ _ _ Hsrc).
      apply raises_only_bind.
      { unfold TestCoverageAgent._generate_test_content,
          TestCoverageAgent._extract_package. raising. }
      intros test_content. apply (raises_only_getitem _ _ _ _ _ Hp). raising.
    + raising.
  - unfold TestCoverageAgent._generate_integration_tests,
      TestCoverageAgent._generate_ui_tests,
      TestCoverageAgent._generate_performance_tests.
    raising.
Qed.

Lemma architecture_fix_raises issues :
  Forall well_keyed issues -> raises_only file_error (ArchitectureAgent.fix_ issues).
Proof.
  intros Hissues. unfold ArchitectureAgent.fix_.
  apply raises_only_bind; [raising|]. intros _.
  apply raises_only_bind.
  - apply (raises_only_for_in_Forall _ _ _ _ _ Hissues).
    intros fixed_count issue (type & Htype & _).
    unfold ArchitectureAgent.fix_issue.
    apply (raises_only_getitem _ _ _ _ _ Htype).
    unfold ArchitectureAgent._consolidate_databases,
      ArchitectureAgent._standardize_packages, ArchitectureAgent._enhance_navigation.
    raising.
  - unfold ArchitectureAgent._create_domain_interfaces,
      ArchitectureAgent._implement_use_cases.
    raising.
Qed.

Lemma security_fix_raises issues :
  Forall well_keyed issues -> raises_only file_error (SecurityAgent.fix_ issues).
Proof.
  intros Hissues. unfold SecurityAgent.fix_.
  apply raises_only_bind; [raising|]. intros _.
  apply raises_only_bind.
  - apply (raises_only_for_in_Forall _ _ _ _ _ Hissues).
    intros fixed_count issue (type & Htype & _ & _ & Hfile).
    unfold SecurityAgent.fix_issue.
    apply (raises_only_getitem _ _ _ _ _ Htype).
    unfold SecurityAgent._implement_certificate_pinning,
      SecurityAgent._enhance_obfuscation, SecurityAgent._fix_insecure_endpoints.
    destruct (is_str (VStr type) "missing_certificate_pinning"); [raising|].
    destruct (is_str (VStr type) "insufficient_obfuscation"); [raising|].
    destruct (is_str (VStr type) "insecure_http") eqn:Hhttp; [|raising].
    apply is_str_eq in Hhttp as ->.
    destruct Hfile as [p Hp]; [set_solver|].
    apply (raises_only_getitem _ _ _ _ _ Hp). raising.
  - unfold SecurityAgent._implement_biometric_auth,
      SecurityAgent._enhance_data_encryption.
    raising.
Qed.

Lemma performance_fix_raises issues :
  Forall well_keyed issues -> raises_only file_error (PerformanceAgent.fix_ issues).
Proof.
  intros Hissues. unfold PerformanceAgent.fix_.
  apply raises_only_bind; [raising|]. intros _.
  apply raises_only_bind.
  - apply (raises_only_for_in_Forall _ _ _ _ _ Hissues).
    intros fixed_count issue (type & Htype & _ & _ & Hfile).
    unfold PerformanceAgent.fix_issue.
    apply (raises_only_getitem _ _ _ _ _ Htype).
    unfold PerformanceAgent._fix_memory_leak, PerformanceAgent._fix_coroutine_scope,
      PerformanceAgent._create_baseline_profile.
    destruct (is_str (VStr type) "potential_memory_leak") eqn:Hleak.
    { apply is_str_eq in Hleak as ->.
      destruct Hfile as [p Hp]; [set_solver|].
      apply (raises_only_getitem _ _ _ _ _ Hp). raising. }
    destruct (is_str (VStr type) "global_scope_usage") eqn:Hscope.
    { apply is_str_eq in Hscope as ->.
      destruct Hfile as [p Hp]; [set_solver|].
      apply (raises_only_getitem _ _ _ _ _ Hp). raising. }
    raising.
  - unfold PerformanceAgent._optimize_build_config,
      PerformanceAgent._implement_lazy_loading,
      PerformanceAgent._add_performance_monitoring.
    raising.
Qed.

Lemma documentation_fix_raises issues :
  Forall well_keyed issues -> raises_only file_error (DocumentationAgent.fix_ issues).
Proof.
  intros Hissues. unfold DocumentationAgent.fix_.
  apply raises_only_bind; [raising|]. intros _.
  apply raises_only_bind.
  - apply (raises_only_for_in_Forall _ _ _ _ _ Hissues).
    intros fixed_count issue (type & Htype & _).
    unfold DocumentationAgent.fix_issue.
    apply (raises_only_getitem _ _ _ _ _ Htype).
    unfold DocumentationAgent._generate_readme, DocumentationAgent._generate_api_docs,
      DocumentationAgent._enhance_inline_docs.
    raising.
  - unfold DocumentationAgent._generate_architecture_docs,
      DocumentationAgent._generate_setup_guide,
      DocumentationAgent._generate_contributing_guide.
    raising.
Qed.

Lemma fix_raises issues :
  Forall well_keyed issues -> raises_only file_error (fix_ issues).
Proof.
  intros Hissues. unfold fix_.
  apply raises_only_bind; [raising|].
  intros [];
    auto using tests_fix_raises, architecture_fix_raises, security_fix_raises,
      performance_fix_raises, documentation_fix_raises.
Qed.

(** X18. What [analyze] returns is a valid input of [fix]: every issue has the
    keys [fix] reads, so that [fix], called on the issues of an analysis,
    raises no [KeyError] and no [TypeError]. The errors that may leave it
    are those of the file system and the [ValueError] of [relative_to]. *)
Theorem fix_of_an_analysis_raises_file_errors_only (s s1 s2 : AgentSt) a e :
  analyze s = (Ok a, s1) ->
  (fix_ (issues a) s2).1 = Raise e ->
  file_error e.
Proof.
  intros Hanalyze. apply fix_raises. by eapply analyze_well_keyed.
Qed.

Lemma fix_of_an_analysis_witness : file_error NotADirectoryError.
Proof.
  apply (fix_of_an_analysis_raises_file_errors_only
           (fresh (ArchitectureAgent.__init__ ["p"]) broken_project)
           (analyze (fresh (ArchitectureAgent.__init__ ["p"]) broken_project)).2
           (analyze (fresh (ArchitectureAgent.__init__ ["p"]) broken_project)).2
           (value_of {| issues := []; coverage_estimate := None |}
              (analyze (fresh (ArchitectureAgent.__init__ ["p"]) broken_project)).1)).
  - apply pair_eta_eq. vm_compute. reflexivity.
  - vm_compute. reflexivity.
Defined.

(** ** The error of a source without a package *)

(** X19. [TestCoverageAgent.fix] has no handler around [_generate_test_content]:
    a [missing_test_file] issue whose source declares no package (or cannot
    be read) and lies outside [app/src/main/java] makes [relative_to] raise
    [ValueError]. When such an issue comes first, the error leaves [fix]
    before anything is written or recorded: the issues after it are not
    looked at, and the three generated tests are not written. *)
Theorem unpackaged_source_aborts_the_test_fix
    (issue : Issue) (rest : list Issue) (source : string) (s : AgentSt) :
  issue !! "type" = Some (VStr "missing_test_file") ->
  issue !! "source" = Some (VStr source) ->
  (forall content,
     FileSystem.read_text (fs (aenv s)) (PurePath.parts source) = Ok content ->
     TestCoverageAgent.package_line (PyStr.split PyStr.newline content) = None) ->
  PurePath.strip_prefix (project_path (self s) // "app/src/main/java")
    (PurePath.parts source) = None ->
  let r := TestCoverageAgent.fix_ (issue :: rest) s in
  r.1 = Raise ValueError /\
  fs (aenv r.2) = fs (aenv s) /\
  modifications_made (self r.2) = modifications_made (self s).
Proof.
  intros Htype Hsource Hpackage Houtside. cbv zeta.
  set (s1 := set_env (tick (get_env s)) s).
  assert (TestCoverageAgent._generate_test_content (VStr source) s1
          = (Raise ValueError, s1)) as Hcontent.
  { unfold TestCoverageAgent._generate_test_content, TestCoverageAgent._extract_package,
      as_path, as_str, try_except, read_text, read_fs, of_res, relative_to, self_get,
      bind, ret, raise.
    cbn [get_env AgentSt_HasEnv].
    change (fs (aenv s1)) with (fs (aenv s)).
    change (project_path (self s1)) with (project_path (self s)).
    destruct (FileSystem.read_text (fs (aenv s)) (PurePath.parts source))
      as [content|e] eqn:Hread.
    - rewrite (Hpackage content eq_refl). cbv beta iota.
      change (project_path (self s1)) with (project_path (self s)).
      by rewrite Houtside.
    - cbv beta iota.
      change (project_path (self s1)) with (project_path (self s)).
      by rewrite Houtside. }
  assert (TestCoverageAgent.fix_issue 0 issue s1 = (Raise ValueError, s1)) as Hissue.
  { unfold TestCoverageAgent.fix_issue.
    rewrite (bind_ok _ _ _ _ _ (getitem_ok _ _ s1 _ Htype)).
    cbn [is_str String.eqb Ascii.eqb Bool.eqb].
    rewrite (bind_ok _ _ _ _ _ (getitem_ok _ _ s1 _ Hsource)).
    by rewrite (bind_raise _ _ _ _ _ Hcontent). }
  assert (TestCoverageAgent.fix_ (issue :: rest) s = (Raise ValueError, s1)) as ->.
  { unfold TestCoverageAgent.fix_.
    rewrite (bind_ok (AgentBase.log _) _ s tt s1 eq_refl).
    cbn [for_in].
    assert ((acc' <- TestCoverageAgent.fix_issue 0 issue ;;
             for_in rest TestCoverageAgent.fix_issue acc') s1
            = (Raise ValueError, s1)) as Hloop
      by (by rewrite (bind_raise _ _ _ _ _ Hissue)).
    by rewrite (bind_raise _ _ _ _ _ Hloop). }
  done.
Qed.

Lemma unpackaged_source_witness :
  let s := fresh (TestCoverageAgent.__init__ ["p"]) unpackaged_project in
  let r := TestCoverageAgent.fix_ [foo_issue; bar_issue] s in
  r.1 = Raise ValueError /\
  fs (aenv r.2) = fs (aenv s) /\
  modifications_made (self r.2) = modifications_made (self s).
Proof.
  apply (unpackaged_source_aborts_the_test_fix foo_issue [bar_issue] "/p/Foo.kt"
           (fresh (TestCoverageAgent.__init__ ["p"]) unpackaged_project)).
  - vm_compute. reflexivity.
  - vm_compute. reflexivity.
  - intros content Hread. vm_compute in Hread. injection Hread as <-.
    vm_compute. reflexivity.
  - vm_compute. reflexivity.
Defined.

(** ** The roster and the ledgers across a run *)

#[global] Instance extends_preorder : PreOrder extends.
Proof.
  split.
  - intros a. split; [done|]. exists []. by rewrite app_nil_r.
  - intros a b c [Hab [ms Hms]] [Hbc [ms' Hms']]. split; [by etrans|].
    exists (ms ++ ms'). by rewrite Hms', Hms, app_assoc.
Qed.

#[global] Instance appends_preorder : PreOrder appends.
Proof.
  split.
  - intros s. unfold appends. reflexivity.
  - intros s1 s2 s3 H12 H23. unfold appends in *. by etrans.
Qed.

#[global] Instance roster_extends_preorder : PreOrder roster_extends.
Proof.
  split.
  - intros s. split; [done|]. apply Forall2_same_length_lookup_2; [done|].
    intros i a b Ha Hb. rewrite Ha in Hb. injection Hb as <-. reflexivity.
  - intros s1 s2 s3 [Hp Ha] [Hp' Ha']. split; [congruence|].
    eapply Forall2_trans; [|exact Ha|exact Ha']. intros a b c. apply transitivity.
Qed.

Lemma appends_of_records {A} (m : M AgentSt A) :
  preserves records m -> preserves appends m.
Proof.
  apply preserves_weaken. intros s s' (Hsame & ms & Hms & _).
  split; [done|]. by exists ms.
Qed.

Section RosterSteps.
Import MasterOrchestrator.

Lemma roster_with_agent {A} i (m : M AgentSt A) :
  preserves appends m -> preserves roster_extends (with_agent i m).
Proof.
  intros Hm s. destruct (with_agent i m s) as [r s'] eqn:Hw. simpl.
  apply with_agent_inv in Hw as [(_ & -> & _)|(a & sa & Hi & Hrun & ->)];
    [reflexivity|].
  apply (preserves_run _ _ _ _ _ Hm) in Hrun. split; [done|]. simpl.
  apply (Forall2_insert_refl extends _ i a); [reflexivity|done|exact Hrun].
Qed.

Lemma roster_same_this s s' : this s' = this s -> roster_extends s s'.
Proof.
  intros Hthis. unfold roster_extends. rewrite Hthis. split; [done|].
  apply Forall2_same_length_lookup_2; [done|].
  intros i a b Ha Hb. rewrite Ha in Hb. injection Hb as <-. reflexivity.
Qed.

Lemma roster_still {A} (m : M St A) : preserves still m -> preserves roster_extends m.
Proof.
  apply preserves_weaken. intros s s' [Hthis _]. by apply roster_same_this.
Qed.

Lemma roster_emit ev : preserves roster_extends (emit (S := St) ev).
Proof. intros s. by apply roster_same_this. Qed.

Lemma roster_this_get {A} (f : t -> A) : preserves roster_extends (this_get f).
Proof. intros s. by apply roster_same_this. Qed.

Lemma roster_await {A} ph i (m : M AgentSt A) summary :
  preserves appends m -> preserves roster_extends (await ph i m summary).
Proof.
  intros Hm. unfold await.
  repeat (intros;
          first [ apply roster_emit
                | apply roster_with_agent;
                    first [ exact Hm | apply appends_of_records; solve [pres] ]
                | pres_rules ]).
Qed.

Lemma roster_run : preserves roster_extends run_full_upgrade.
Proof.
  unfold run_full_upgrade, analysis_phase, fixing_phase, validation_phase,
    analyze_agent, fix_agent, validate_agent.
  repeat (intros;
          first [ apply roster_still, create_backup_still
                | apply roster_still, generate_final_report_still
                | apply roster_this_get
                | apply roster_await; apply appends_of_records;
                    first [ apply records_fix
                          | apply records_of_quiet;
                              first [ apply quiet_analyze | apply quiet_validate ] ]
                | apply roster_with_agent; apply appends_of_records; solve [pres]
                | pres_rules | pres_case ]).
Qed.

End RosterSteps.

(** X20. However a run ends, the orchestrator has the agents it started with,
    in the same order, each with its name, its class and its project path;
    and the list of modifications of every agent has its former entries as
    a prefix: nothing recorded is ever removed or changed. *)
Theorem run_only_appends_to_the_ledgers (s : MasterOrchestrator.St) :
  Forall2 (fun a a' =>
             same_agent a a' /\
             exists ms, modifications_made a' = modifications_made a ++ ms)
    (agents_of s) (agents_of (MasterOrchestrator.run_full_upgrade s).2).
Proof. apply (roster_run s). Qed.

Lemma roster_run_project s r s' :
  MasterOrchestrator.run_full_upgrade s = (r, s') ->
  MasterOrchestrator.project_path (MasterOrchestrator.this s')
    = MasterOrchestrator.project_path (MasterOrchestrator.this s).
Proof.
  intros Hrun. by apply (preserves_run _ _ _ _ _ roster_run) in Hrun as [Hp _].
Qed.

(** X21. A run that returns has written its report last: the file
    [EXPERT_TEAM_REPORT.md] of the project holds the report of the agents as
    they are at the end, of the backup made at the start and of the result
    that is returned. A run that an error leaves before that step writes no
    report. *)
Theorem completed_run_leaves_its_report (s s' : MasterOrchestrator.St) success :
  MasterOrchestrator.run_full_upgrade s = (Ok success, s') ->
  let project := MasterOrchestrator.project_path (MasterOrchestrator.this s) in
  fs (MasterOrchestrator.env s') !! (project // "EXPERT_TEAM_REPORT.md")
    = Some (File (MasterOrchestrator.report_text (agents_of s')
                    (backup_of project
                       (clock (MasterOrchestrator.env s)
                          (ticks (MasterOrchestrator.env s))))
                    success) true).
Proof.
  intros Hrun. cbv zeta.
  pose proof (roster_run_project _ _ _ Hrun) as Hproject.
  set (backup := backup_of _ _). rewrite <- Hproject. clear Hproject.
  unfold MasterOrchestrator.run_full_upgrade in Hrun.
  apply bind_ok_inv in Hrun as (backup_path & s0 & Hbackup & Hrun).
  assert (backup_path = backup) as ->.
  { unfold backup, MasterOrchestrator._create_backup in *.
    apply bind_ok_inv in Hbackup as (now & s1 & [= <- <-] & Hbackup).
    apply bind_ok_inv in Hbackup as (project & s1 & [= <- <-] & Hbackup).
    by apply bind_ok_inv in Hbackup as ([] & s2 & _ & [= <- _]). }
  apply bind_ok_inv in Hrun as (n & s0' & _ & Hrun).
  apply bind_ok_inv in Hrun as (all_issues & s1 & _ & Hrun).
  apply bind_ok_inv in Hrun as ([] & s2 & _ & Hrun).
  apply bind_ok_inv in Hrun as (all_valid & s3 & _ & Hrun).
  apply bind_ok_inv in Hrun as ([] & s4 & Hreport & [= <- <-]).
  pose proof (preserves_run _ _ _ _ _
                (generate_final_report_still _ _ _) Hreport) as [Hthis _].
  unfold MasterOrchestrator._generate_final_report in Hreport.
  apply bind_ok_inv in Hreport as (now1 & t1 & [= <- <-] & Hreport).
  apply bind_ok_inv in Hreport as (now2 & t2 & [= <- <-] & Hreport).
  apply bind_ok_inv in Hreport as (agents & t3 & [= <- <-] & Hreport).
  apply bind_ok_inv in Hreport as (project & t4 & [= <- <-] & Hreport).
  unfold write_text, update_fs in Hreport.
  cbn [get_env set_env MasterOrchestrator.St_HasEnv MasterOrchestrator.env
       MasterOrchestrator.this fs tick] in Hreport.
  destruct (FileSystem.write_text _ _ _) as [r t'] eqn:Hw.
  injection Hreport as -> <-.
  apply write_text_ok in Hw as (-> & _ & _).
  cbn [MasterOrchestrator.env MasterOrchestrator.this fs set_fs] in *.
  by rewrite lookup_insert_eq.
Qed.

Lemma completed_run_witness :
  let s := sample_start documented_project in
  let s' := (MasterOrchestrator.run_full_upgrade s).2 in
  let project := MasterOrchestrator.project_path (MasterOrchestrator.this s) in
  fs (MasterOrchestrator.env s') !! (project // "EXPERT_TEAM_REPORT.md")
    = Some (File (MasterOrchestrator.report_text (agents_of s')
                    (backup_of project
                       (clock (MasterOrchestrator.env s)
                          (ticks (MasterOrchestrator.env s))))
                    false) true).
Proof.
  apply (completed_run_leaves_its_report (sample_start documented_project)).
  apply pair_eta_eq. vm_compute. reflexivity.
Defined.

(** ** What the architecture fix cannot do *)

Lemma no_new_match_overwrite pat project (target : Path)
    (k : string -> option string) description :
  preserves (no_new_match pat project)
    (try_except
       (content <- read_text target ;;
        match k content with
        | Some content' =>
            write_text target content' ;;;
            AgentBase.add_modification (PurePath.str target) description
        | None => ret tt
        end)
       (ret tt)).
Proof.
  apply preserves_try_except; [apply _| |apply preserves_ret; apply _].
  intros s.
  assert ((content <- read_text target ;;
           match k content with
           | Some content' =>
               write_text target content' ;;;
               AgentBase.add_modification (PurePath.str target) description
           | None => ret tt
           end) s
          = match FileSystem.read_text (fs (aenv s)) target with
            | Ok content =>
                match k content with
                | Some content' =>
                    (write_text target content' ;;;
                     AgentBase.add_modification (PurePath.str target) description) s
                | None => (Ok tt, s)
                end
            | Raise e => (Raise e, s)
            end) as ->.
  { unfold read_text, read_fs, of_res, bind. cbn [get_env AgentSt_HasEnv].
    destruct (FileSystem.read_text _ _); [|done]. by destruct (k _). }
  destruct (FileSystem.read_text (fs (aenv s)) target) as [content|e] eqn:Hread;
    [|reflexivity].
  destruct (k content) as [content'|]; [|reflexivity].
  assert (is_Some (fs (aenv s) !! target)) as Hthere.
  { unfold FileSystem.read_text, FileSystem.node_at in Hread.
    destruct target as [|x target]; [done|].
    destruct (fs (aenv s) !! (x :: target)) as [n|]; [by eexists|].
    by destruct (match PurePath.parent (x :: target) with [] => _ | _ => _ end)
      as [[|? ?]|]. }
  assert (no_new_match pat project s (write_text target content' s).2) as Hw.
  { intros Hp. unfold write_text, update_fs. cbn [get_env set_env AgentSt_HasEnv].
    destruct (FileSystem.write_text _ _ _) as [r t'] eqn:Hw. simpl.
    split; [done|]. intros q Hq _ _.
    replace t' with (FileSystem.write_text (fs (aenv s)) target content').2 in Hq
      by by rewrite Hw.
    by apply write_text_new in Hq as [Hold| ->]. }
  unfold bind at 1. destruct (write_text target content' s) as [[[]|e] s1];
    [|by apply Hw].
  simpl in Hw. etrans; [exact Hw|]. apply no_new_match_add_modification.
Qed.

Lemma standardize_packages_no_new_match pat project :
  preserves (no_new_match pat project) ArchitectureAgent._standardize_packages.
Proof.
  unfold ArchitectureAgent._standardize_packages.
  apply preserves_bind; [apply _|pres|]. intros _.
  apply preserves_bind; [apply _|pres|]. intros project_path.
  apply preserves_bind; [apply _|pres|]. intros kotlin_files.
  apply preserves_for_each; [apply _|]. intros kt_file.
  pose proof (no_new_match_overwrite pat project kt_file
                (fun content =>
                   let '(content', modified) :=
                     ArchitectureAgent.apply_replacements
                       ArchitectureAgent.replacements content false in
                   if modified : bool then Some content' else None)
                "Standardized package names") as Hstep.
  intros s. specialize (Hstep s). unfold try_except, bind in *.
  destruct (read_text kt_file s) as [[content|e] s1]; [|exact Hstep].
  by destruct (ArchitectureAgent.apply_replacements _ _ _) as [content' [|]].
Qed.

Lemma architecture_fix_no_new_data project issues :
  Forall (fun issue : Issue => issue !! "type" <> Some (VStr "multiple_databases"))
    issues ->
  preserves (no_new_match "data" project) (ArchitectureAgent.fix_ issues).
Proof.
  intros Hissues. unfold ArchitectureAgent.fix_.
  apply preserves_bind; [apply _|pres|]. intros _.
  apply preserves_bind; [apply _| |].
  - apply (preserves_for_in_Forall _ _ _ _ _ Hissues). intros fixed_count issue Htype.
    unfold ArchitectureAgent.fix_issue.
    intros s. unfold bind at 1, getitem.
    destruct (issue !! "type") as [type|] eqn:Hty; [|reflexivity].
    revert s.
    change (preserves (no_new_match "data" project)
              (if is_str type "multiple_databases" then
                 ArchitectureAgent._consolidate_databases ;;; ret (fixed_count + 1)
               else if is_str type "inconsistent_packages" then
                 ArchitectureAgent._standardize_packages ;;; ret (fixed_count + 1)
               else if is_str type "incomplete_navigation" then
                 ArchitectureAgent._enhance_navigation ;;; ret (fixed_count + 1)
               else ret fixed_count)).
    destruct (is_str type "multiple_databases") eqn:Hdb.
    { destruct type as [type| |]; [|done|done].
      apply is_str_eq in Hdb as ->. done. }
    destruct (is_str type "inconsistent_packages").
    { apply preserves_bind; [apply _|apply standardize_packages_no_new_match|].
      no_match. }
    unfold ArchitectureAgent._enhance_navigation. no_match.
  - intros fixed_count. apply preserves_bind; [apply _| |].
    + unfold ArchitectureAgent._create_domain_interfaces.
      apply no_new_match_project.
      apply (preserves_for_in_Forall _ (fun x => x ∈ Payload.interfaces));
        [by apply Forall_forall|].
      intros _ [interface_name content] Hin.
      repeat (apply elem_of_cons in Hin as [[= -> ->]|Hin]; [no_match|]).
      by apply elem_of_nil in Hin.
    + intros _. apply preserves_bind; [apply _| |no_match].
      unfold ArchitectureAgent._implement_use_cases.
      apply no_new_match_project.
      apply (preserves_for_in_Forall _ (fun x => x ∈ Payload.use_cases));
        [by apply Forall_forall|].
      intros _ [use_case_name content] Hin.
      repeat (apply elem_of_cons in Hin as [[= -> ->]|Hin]; [no_match|]).
      by apply elem_of_nil in Hin.
Qed.

(** X22. [ArchitectureAgent.fix] creates the data layer for one type of issue
    only: on a project in which no path is named [data], [validate] returns
    false after a [fix] whose issues hold no [multiple_databases], whether
    [fix] returns or not. The domain layer is always written, and the
    presentation layer with the navigation. *)
Theorem architecture_fix_leaves_the_data_layer_out (issues : list Issue) (s : AgentSt) :
  names_unmatched "data" (project_path (self s)) (fs (aenv s)) ->
  Forall (fun issue : Issue => issue !! "type" <> Some (VStr "multiple_databases"))
    issues ->
  (ArchitectureAgent.validate (ArchitectureAgent.fix_ issues s).2).1 = Ok false.
Proof.
  intros Hnone Hissues.
  destruct (architecture_fix_no_new_data (project_path (self s)) issues Hissues
              s eq_refl) as [Hproject Hnew].
  set (s' := (ArchitectureAgent.fix_ issues s).2) in *.
  unfold ArchitectureAgent.validate, bind, self_get, path_exists, read_fs.
  cbn [get_env AgentSt_HasEnv fst]. rewrite Hproject. simpl fst. f_equal.
  assert (FileSystem.exists_ (fs (aenv s'))
            (project_path (self s) // "app/src/main/java/com/astralplayer/data")
          = false) as ->; [|by rewrite andb_false_r].
  unfold FileSystem.exists_, FileSystem.node_at, PurePath.joinpath.
  destruct (project_path (self s) ++ _) as [|c q] eqn:Hq;
    [apply app_eq_nil in Hq as [_ Hq]; vm_compute in Hq; discriminate Hq|].
  destruct (fs (aenv s') !! (c :: q)) as [n|] eqn:Hn; [exfalso|done].
  assert (is_Some (fs (aenv s) !! (c :: q))) as Hold.
  { assert (PurePath.parts "app/src/main/java/com/astralplayer/data" <> []) as Hne
      by (vm_compute; discriminate).
    apply Hnew; [by eexists| |]; rewrite <- Hq.
    - by apply below_joinpath.
    - by rewrite (name_joinpath _ _ Hne). }
  assert (PurePath.parts "app/src/main/java/com/astralplayer/data" <> []) as Hne
    by (vm_compute; discriminate).
  pose proof (Hnone (c :: q) Hold) as Hname. rewrite <- Hq in Hname.
  specialize (Hname (below_joinpath _ _ Hne)).
  rewrite (name_joinpath _ _ Hne) in Hname. vm_compute in Hname. discriminate Hname.
Qed.

Lemma architecture_fix_witness :
  (ArchitectureAgent.validate
     (ArchitectureAgent.fix_
        [ ({[ "type" := VStr "incomplete_navigation";
              "severity" := VStr "medium" ]} : Issue) ]
        (fresh (ArchitectureAgent.__init__ ["p"]) empty_project)).2).1 = Ok false.
Proof.
  apply (architecture_fix_leaves_the_data_layer_out
           [ ({[ "type" := VStr "incomplete_navigation";
                 "severity" := VStr "medium" ]} : Issue) ]
           (fresh (ArchitectureAgent.__init__ ["p"]) empty_project)).
  - intros q [n Hq] _. simpl in Hq.
    apply lookup_singleton_Some in Hq as [<- _]. by vm_compute.
  - apply Forall_singleton. vm_compute. discriminate.
Defined.

(** ** The time of a modification *)

#[global] Instance stamped_preorder : PreOrder stamped.
Proof.
  split.
  - intros s. split; [done|]. split; [done|]. exists [], [].
    rewrite app_nil_r. by repeat split; constructor.
  - intros s1 s2 s3 (Hc & Ht & ms & ks & Hms & Hts & Hsorted & Hks)
      (Hc' & Ht' & ms' & ks' & Hms' & Hts' & Hsorted' & Hks').
    split; [congruence|]. split; [lia|].
    exists (ms ++ ms'), (ks ++ ks'). split; [by rewrite Hms', Hms, app_assoc|].
    split; [by rewrite !map_app, Hts, Hts', Hc|]. split.
    + apply StronglySorted_app_2; [|done|done].
      intros k k' Hk Hk'. rewrite Forall_forall in Hks, Hks'.
      apply Hks in Hk. apply Hks' in Hk'. lia.
    + apply Forall_app. split.
      * eapply Forall_impl; [exact Hks|]. simpl. lia.
      * eapply Forall_impl; [exact Hks'|]. simpl. lia.
Qed.

(** A step that leaves the agent and the clock, and reads the clock
    forward. *)
Lemma stamped_idle s s' :
  modifications_made (self s') = modifications_made (self s) ->
  clock (aenv s') = clock (aenv s) -> ticks (aenv s) <= ticks (aenv s') ->
  stamped s s'.
Proof.
  intros Hm Hc Ht. split; [done|]. split; [done|]. exists [], [].
  rewrite app_nil_r. split; [done|]. by repeat split; constructor.
Qed.

Lemma stamped_self_get {A} (f : Agent -> A) : preserves stamped (self_get f).
Proof. intros s. reflexivity. Qed.

Lemma stamped_getitem d k : preserves stamped (getitem (S := AgentSt) d k).
Proof. intros s. unfold getitem. destruct (d !! k); reflexivity. Qed.

Lemma stamped_as_str v : preserves stamped (as_str (S := AgentSt) v).
Proof. intros s. destruct v; reflexivity. Qed.

Lemma stamped_as_path v : preserves stamped (as_path (S := AgentSt) v).
Proof. intros s. destruct v; reflexivity. Qed.

Lemma stamped_relative_to p base : preserves stamped (relative_to (S := AgentSt) p base).
Proof. intros s. unfold relative_to. destruct (PurePath.strip_prefix base p); reflexivity. Qed.

Lemma stamped_read_fs {A} (f : FS -> A) : preserves stamped (read_fs (S := AgentSt) f).
Proof. intros s. reflexivity. Qed.

Lemma stamped_path_exists p : preserves stamped (path_exists (S := AgentSt) p).
Proof. apply stamped_read_fs. Qed.

Lemma stamped_rglob p pat : preserves stamped (rglob (S := AgentSt) p pat).
Proof. apply stamped_read_fs. Qed.

Lemma stamped_read_text p : preserves stamped (read_text (S := AgentSt) p).
Proof.
  intros s. unfold read_text, bind, read_fs, of_res. simpl. reflexivity.
Qed.

Lemma stamped_log msg : preserves stamped (AgentBase.log msg).
Proof. intros s. apply stamped_idle; simpl; [done|done|lia]. Qed.

Lemma stamped_update_fs {A} (f : FS -> Res A * FS) :
  preserves stamped (update_fs (S := AgentSt) f).
Proof.
  intros s. unfold update_fs. destruct (f _) as [r t']. by apply stamped_idle.
Qed.

Lemma stamped_write_text p c : preserves stamped (write_text (S := AgentSt) p c).
Proof. apply stamped_update_fs. Qed.
Lemma stamped_mkdir_parents p : preserves stamped (mkdir_parents (S := AgentSt) p).
Proof. apply stamped_update_fs. Qed.
Lemma stamped_mkdir_exist_ok p : preserves stamped (mkdir_exist_ok (S := AgentSt) p).
Proof. apply stamped_update_fs. Qed.

Lemma stamped_add_modification file_path description :
  preserves stamped (AgentBase.add_modification file_path description).
Proof.
  intros s. split; [done|]. split; [simpl; lia|].
  exists [{| mod_file := file_path; mod_description := description;
             mod_timestamp := clock (aenv s) (ticks (aenv s)) |}],
         [ticks (aenv s)].
  split; [done|]. split; [done|]. split.
  - by repeat constructor.
  - apply Forall_singleton. simpl. lia.
Qed.

Create HintDb stamps discriminated.
#[global] Hint Resolve stamped_self_get stamped_getitem stamped_as_str stamped_as_path
  stamped_relative_to stamped_read_fs stamped_path_exists stamped_rglob
  stamped_read_text stamped_log stamped_write_text stamped_mkdir_parents
  stamped_mkdir_exist_ok stamped_add_modification : stamps.

Ltac stamps :=
  repeat (intros; first [ solve [eauto 3 with stamps] | pres_rules | pres_case ]).

Lemma stamped_fix issues : preserves stamped (fix_ issues).
Proof.
  unfold fix_. apply preserves_bind; [apply _|stamps|].
  intros [].
  - unfold TestCoverageAgent.fix_, TestCoverageAgent.fix_issue,
      TestCoverageAgent._generate_test_content, TestCoverageAgent._extract_package,
      TestCoverageAgent._generate_integration_tests,
      TestCoverageAgent._generate_ui_tests,
      TestCoverageAgent._generate_performance_tests.
    stamps.
  - unfold ArchitectureAgent.fix_, ArchitectureAgent.fix_issue,
      ArchitectureAgent._consolidate_databases, ArchitectureAgent._standardize_packages,
      ArchitectureAgent._enhance_navigation, ArchitectureAgent._create_domain_interfaces,
      ArchitectureAgent._implement_use_cases.
    stamps.
  - unfold SecurityAgent.fix_, SecurityAgent.fix_issue,
      SecurityAgent._implement_certificate_pinning, SecurityAgent._enhance_obfuscation,
      SecurityAgent._fix_insecure_endpoints, SecurityAgent._implement_biometric_auth,
      SecurityAgent._enhance_data_encryption.
    stamps.
  - unfold PerformanceAgent.fix_, PerformanceAgent.fix_issue,
      PerformanceAgent._fix_memory_leak, PerformanceAgent._fix_coroutine_scope,
      PerformanceAgent._create_baseline_profile, PerformanceAgent._optimize_build_config,
      PerformanceAgent._implement_lazy_loading,
      PerformanceAgent._add_performance_monitoring.
    stamps.
  - unfold DocumentationAgent.fix_, DocumentationAgent.fix_issue,
      DocumentationAgent._generate_readme, DocumentationAgent._generate_api_docs,
      DocumentationAgent._enhance_inline_docs,
      DocumentationAgent._generate_architecture_docs,
      DocumentationAgent._generate_setup_guide,
      DocumentationAgent._generate_contributing_guide.
    stamps.
Qed.

(** X23. The modifications a [fix] appends are stamped in the order in which
    they stand: each carries a reading of the clock taken during the call,
    later than the one before. When the clock does not go back, the
    timestamps of the appended entries are sorted, and none is earlier than
    the reading with which the call started. *)
Theorem fix_stamps_in_order (issues : list Issue) (s : AgentSt) :
  (forall i j, i <= j -> (clock (aenv s) i <= clock (aenv s) j)%N) ->
  exists ms,
    modifications_made (self (fix_ issues s).2) = modifications_made (self s) ++ ms /\
    StronglySorted N.le (map mod_timestamp ms) /\
    Forall (fun m => (clock (aenv s) (ticks (aenv s)) <= mod_timestamp m)%N) ms.
Proof.
  intros Hclock.
  destruct (stamped_fix issues s) as (_ & _ & ms & ks & Hms & Hts & Hsorted & Hks).
  exists ms. split; [done|]. split.
  - rewrite Hts. apply (StronglySorted_fmap _ lt); [|done].
    intros i j Hij. apply Hclock. lia.
  - apply Forall_forall. intros m Hm.
    assert (mod_timestamp m ∈ map mod_timestamp ms) as Hin
      by (by apply list_elem_of_fmap_2).
    rewrite Hts in Hin. apply list_elem_of_fmap in Hin as (k & -> & Hk).
    rewrite Forall_forall in Hks. apply Hks in Hk. apply Hclock. lia.
Qed.

Lemma fix_stamps_witness :
  let s := fresh (SecurityAgent.__init__ ["p"]) readonly_project in
  exists ms,
    modifications_made (self (fix_ [api_issue] s).2) = modifications_made (self s) ++ ms /\
    StronglySorted N.le (map mod_timestamp ms) /\
    Forall (fun m => (clock (aenv s) (ticks (aenv s)) <= mod_timestamp m)%N) ms.
Proof.
  apply (fix_stamps_in_order [api_issue]
           (fresh (SecurityAgent.__init__ ["p"]) readonly_project)).
  intros i j Hij. simpl. unfold sample_clock. lia.
Defined.
